(** * FreelanceOS security core: a shallow embedding and its verification

    The backend's hand-rolled security middleware is embedded function by
    function: the CORS origin guard ([cors-security.ts]), the global error
    handlers ([secure-error-handler.ts]), the credentials manager, the
    sliding-window rate limiter ([advanced-rate-limit.ts]), the PII cipher,
    the XSS sanitizer ([xss-protection.ts]) and the path-traversal guard
    ([path-traversal-protection.ts]), followed by the functions around
    them: the request hooks, field encryption, the validation schemas, the
    secure logger, the rate-limit statistics and the cache helpers
    ([redis.ts]).

    Part I holds the definitions, one [Module] per source file, keeping the
    source's names.  Part II holds the theorems.

    Conventions.  Platform services the repository calls but does not define
    (the WHATWG URL parser, Redis, the AES primitives, DOMPurify, the clock
    and the random generator) are either parameters of the definitions or
    explicit inputs of each call; what a call reads from the clock or the
    random generator is an argument of its model.  Logging is modelled by the
    list of entries a call emits. *)

From Stdlib Require Import ZArith NArith List String Ascii Lia Bool.
From stdpp Require Import base decidable option list strings gmap pretty.

(* ===================================================================== *)
(** * Part I: definitions                                                 *)
(* ===================================================================== *)

(** ** Logging: what [logSecurityEvent] and [secureLogger] record *)

Inductive LogEntry : Type :=
| SecurityEvent (type endpoint severity : string)
| SecureLog (level tag : string).

(** A JavaScript string is falsy exactly when it is empty. *)
Definition truthy (s : string) : bool := negb (String.eqb s "").

(* ===================================================================== *)
(** ** cors-security.ts                                                   *)
(* ===================================================================== *)

Module Cors.

(** The fields of a parsed [URL] object that the origin guard reads.  The
    host name of an IPv6 address comes in brackets, as in [[::1]]. *)
Record URL : Type := mkURL {
  url_origin : string;
  url_hostname : string;
  url_port : string;
  url_protocol : string
}.

Definition isDigit (c : ascii) : bool :=
  let n := nat_of_ascii c in (48 <=? n)%nat && (n <=? 57)%nat.

Fixpoint digits_prefix (s : string) (acc : option N) : option N :=
  match s with
  | String c rest =>
      if isDigit c
      then digits_prefix rest
             (Some (10 * default 0%N acc + N.of_nat (nat_of_ascii c - 48))%N)
      else acc
  | EmptyString => acc
  end.

(** [parseInt] on the [port] field of a URL, which holds decimal digits or is
    empty: [None] stands for [NaN]. *)
Definition parseInt (s : string) : option N := digits_prefix s None.

(** [parseInt(x) || d]: [NaN] and [0] are falsy. *)
Definition parseInt_or (s : string) (d : N) : N :=
  match parseInt s with
  | Some n => if (n =? 0)%N then d else n
  | None => d
  end.

Definition DEV_ALLOWED_PORTS : list N :=
  [3000; 3001; 5173; 5174; 8080; 8081; 4200]%N.

Definition FORBIDDEN_METHODS : list string :=
  ["TRACE"; "CONNECT"; "PROPFIND"; "PROPPATCH"; "MKCOL"; "COPY"; "MOVE"].

Section WithPlatform.

(** [new URL(s)]: [None] when the constructor throws. *)
Variable parseURL : string -> option URL.
(** [config.FRONTEND_URL]. *)
Variable FRONTEND_URL : string.

Definition PRODUCTION_ALLOWED_ORIGINS : list string :=
  List.filter truthy
    [FRONTEND_URL; "https://freelance-os.com"; "https://www.freelance-os.com";
     "https://app.freelance-os.com"].

(** The callback of both [PRODUCTION_ALLOWED_ORIGINS.some(...)] calls. *)
Definition sameOriginAs (url : URL) (allowed : string) : bool :=
  if negb (truthy allowed) then false
  else match parseURL allowed with
       | Some allowedUrl => String.eqb (url_origin url) (url_origin allowedUrl)
       | None => false
       end.

Definition isLoopback (h : string) : bool :=
  String.eqb h "localhost" || String.eqb h "127.0.0.1" || String.eqb h "::1".

Definition isOriginAllowed (origin : option string) (environment : string)
  : bool * list LogEntry :=
  match origin with
  | None => (String.eqb environment "development", [])
  | Some o =>
    if negb (truthy o) then (String.eqb environment "development", [])
    else
    match parseURL o with
    | None => (false, [SecureLog "error" "CORS_ORIGIN_VALIDATION_ERROR"])
    | Some url =>
      if String.eqb environment "production" then
        let isAllowed := existsb (sameOriginAs url) PRODUCTION_ALLOWED_ORIGINS in
        (isAllowed,
         if isAllowed then []
         else [SecurityEvent "ACCESS_DENIED" "cors_origin_blocked" "HIGH"])
      else if String.eqb environment "development" then
        if negb (isLoopback (url_hostname url))
           && negb (existsb (sameOriginAs url) PRODUCTION_ALLOWED_ORIGINS)
        then (false,
              [SecurityEvent "SUSPICIOUS_ACTIVITY" "cors_suspicious_origin" "MEDIUM"])
        else if isLoopback (url_hostname url)
                && negb (existsb
                           (N.eqb (parseInt_or (url_port url)
                                     (if String.eqb (url_protocol url) "https:"
                                      then 443 else 80)%N))
                           DEV_ALLOWED_PORTS)
        then (false,
              [SecurityEvent "SUSPICIOUS_ACTIVITY" "cors_invalid_port" "MEDIUM"])
        else (true, [])
      else (false, [])
    end
  end.

End WithPlatform.

End Cors.

(* ===================================================================== *)
(** ** secure-error-handler.ts                                            *)
(* ===================================================================== *)

Module ErrorHandler.

Inductive ErrorType : Type :=
| VALIDATION | AUTHENTICATION | AUTHORIZATION | RESOURCE_NOT_FOUND
| RATE_LIMIT | INTERNAL | DATABASE | EXTERNAL_SERVICE | SECURITY.

Inductive ErrorSeverity : Type := LOW | MEDIUM | HIGH | CRITICAL.

(** An [Error] object: its message and, when present, its stack. *)
Record JsError : Type := mkJsError {
  err_message : string;
  err_stack : option string
}.

Record Options : Type := mkOptions {
  opt_userMessage : option string;
  opt_statusCode : option N;
  opt_severity : option ErrorSeverity;
  opt_metadata : list (string * string);
  opt_requestId : option string;
  opt_userId : option string
}.

Record SecureError : Type := mkSecureError {
  id : string;
  type : ErrorType;
  severity : ErrorSeverity;
  message : string;
  userMessage : string;
  statusCode : N;
  timestamp : Z;
  requestId : option string;
  userId : option string;
  metadata : list (string * string)
}.

Definition USER_ERROR_MESSAGES (t : ErrorType) : string :=
  match t with
  | VALIDATION => "Les donnees fournies ne sont pas valides."
  | AUTHENTICATION => "Authentification requise."
  | AUTHORIZATION => "Acces non autorise."
  | RESOURCE_NOT_FOUND => "Ressource introuvable."
  | RATE_LIMIT => "Trop de requetes. Veuillez reessayer plus tard."
  | INTERNAL => "Une erreur interne est survenue."
  | DATABASE => "Erreur de base de donnees."
  | EXTERNAL_SERVICE => "Service externe indisponible."
  | SECURITY => "Violation de securite detectee."
  end.

Definition ERROR_STATUS_CODES (t : ErrorType) : N :=
  match t with
  | VALIDATION => 400
  | AUTHENTICATION => 401
  | AUTHORIZATION => 403
  | RESOURCE_NOT_FOUND => 404
  | RATE_LIMIT => 429
  | INTERNAL => 500
  | DATABASE => 500
  | EXTERNAL_SERVICE => 503
  | SECURITY => 403
  end%N.

(** [`ERR_${Date.now()}_${suffix}`]; the six characters drawn from
    [Math.random()] are the input [rnd]. *)
Definition generateErrorId (now : Z) (rnd : string) : string :=
  "ERR_" +:+ pretty now +:+ "_" +:+ rnd.

Definition determineSeverity (t : ErrorType) (statusCode : N) : ErrorSeverity :=
  match t with
  | SECURITY => CRITICAL
  | _ => if (500 <=? statusCode)%N then HIGH
         else if (400 <=? statusCode)%N then MEDIUM
         else LOW
  end.

(** [a || b] on an optional number: [undefined] and [0] are falsy. *)
Definition or_number (a : option N) (b : N) : N :=
  match a with
  | Some n => if (n =? 0)%N then b else n
  | None => b
  end.

(** [a || b] on an optional string: [undefined] and the empty string are falsy. *)
Definition or_string (a : option string) (b : string) : string :=
  match a with
  | Some s => if truthy s then s else b
  | None => b
  end.

Definition createSecureError (now : Z) (rnd : string) (t : ErrorType)
    (originalError : JsError) (options : Options) : SecureError :=
  let statusCode := or_number (opt_statusCode options) (ERROR_STATUS_CODES t) in
  let severity :=
    match opt_severity options with
    | Some s => s
    | None => determineSeverity t statusCode
    end in
  {| id := generateErrorId now rnd;
     type := t;
     severity := severity;
     message := err_message originalError;
     userMessage := or_string (opt_userMessage options) (USER_ERROR_MESSAGES t);
     statusCode := statusCode;
     timestamp := now;
     requestId := opt_requestId options;
     userId := opt_userId options;
     metadata := opt_metadata options |}.

(** What a handler does to the outside world. *)
Inductive Effect : Type :=
| Logged (level tag : string) (e : SecureError) (withStack : bool)
| SetTimeoutExit (delayMs : N) (exitCode : N).

(** [logSecureError]: one logger call, chosen by severity; the stack trace
    is attached only in development and only when the error has one. *)
Definition logSecureError (NODE_ENV : string) (e : SecureError)
    (originalError : JsError) : list Effect :=
  let withStack :=
    String.eqb NODE_ENV "development" &&
    match err_stack originalError with
    | Some st => truthy st
    | None => false
    end in
  match severity e with
  | CRITICAL => [Logged "error" "ERREUR CRITIQUE" e withStack]
  | HIGH => [Logged "error" "ERREUR ELEVEE" e withStack]
  | MEDIUM => [Logged "warn" "ERREUR MOYENNE" e withStack]
  | LOW => [Logged "info" "ERREUR FAIBLE" e withStack]
  end.

Definition noOptions : Options :=
  {| opt_userMessage := None; opt_statusCode := None; opt_severity := None;
     opt_metadata := []; opt_requestId := None; opt_userId := None |}.

(** The listener [setupGlobalErrorHandlers] registers for ['uncaughtException']. *)
Definition onUncaughtException (NODE_ENV : string) (now : Z) (rnd : string)
    (error : JsError) : list Effect :=
  let secureError :=
    createSecureError now rnd INTERNAL error
      {| opt_userMessage := None; opt_statusCode := None;
         opt_severity := Some CRITICAL;
         opt_metadata := [("source", "uncaughtException")];
         opt_requestId := None; opt_userId := None |} in
  logSecureError NODE_ENV secureError error
  ++ (if String.eqb NODE_ENV "production" then [SetTimeoutExit 1000 1] else []).

(** The rejection reason: an [Error], or any other value given by its
    [String(reason)]. *)
Inductive Reason : Type :=
| ReasonError (e : JsError)
| ReasonOther (asString : string) (stack : option string).

(** The listener registered for ['unhandledRejection']; [promiseText] is
    [promise.toString()]. *)
Definition onUnhandledRejection (NODE_ENV : string) (now : Z) (rnd : string)
    (reason : Reason) (promiseText : string) : list Effect :=
  let error :=
    match reason with
    | ReasonError e => e
    | ReasonOther s st => {| err_message := s; err_stack := st |}
    end in
  let secureError :=
    createSecureError now rnd INTERNAL error
      {| opt_userMessage := None; opt_statusCode := None;
         opt_severity := Some HIGH;
         opt_metadata := [("source", "unhandledRejection"); ("promise", promiseText)];
         opt_requestId := None; opt_userId := None |} in
  logSecureError NODE_ENV secureError error.

(** The two listeners installed on [process]. *)
Inductive ProcessEvent : Type :=
| UncaughtException (error : JsError)
| UnhandledRejection (reason : Reason) (promiseText : string).

Definition setupGlobalErrorHandlers (NODE_ENV : string) (now : Z) (rnd : string)
    (ev : ProcessEvent) : list Effect :=
  match ev with
  | UncaughtException error => onUncaughtException NODE_ENV now rnd error
  | UnhandledRejection reason p => onUnhandledRejection NODE_ENV now rnd reason p
  end.

Definition isExit (e : Effect) : bool :=
  match e with SetTimeoutExit _ _ => true | _ => false end.

End ErrorHandler.

(* ===================================================================== *)
(** ** The credentials manager ([SecureCredentialsManager])               *)
(* ===================================================================== *)

Module Credentials.

Inductive SecretType : Type := jwt | api_key | database | encryption | oauth.

Record SecretMetadata : Type := mkMetadata {
  type : SecretType;
  createdAt : Z;
  lastRotatedAt : Z;
  rotationCount : N;
  isActive : bool;
  version : N
}.

Record EncryptedSecret : Type := mkEncryptedSecret {
  encryptedValue : string;
  iv : string;
  tag : string;
  metadata : SecretMetadata
}.

(** [SECRET_CONFIG.rotationInterval]: 30 days in milliseconds. *)
Definition rotationInterval : Z := 30 * 24 * 60 * 60 * 1000.

(** The longest delay a Node timer takes: 2^31 - 1 milliseconds. *)
Definition TIMEOUT_MAX : Z := 2147483647.

(** The delay [setTimeout(callback, ms)] really uses: a delay that is not
    between 1 and [TIMEOUT_MAX] is set to 1 millisecond (with a
    [TimeoutOverflowWarning] when it is too long). *)
Definition timeoutDelay (ms : Z) : Z :=
  if (1 <=? ms)%Z && (ms <=? TIMEOUT_MAX)%Z then ms else 1.

(** The manager's two private maps.  A timer is represented by the time at
    which it is due; a timer that has fired is dropped from the map. *)
Record Manager : Type := mkManager {
  secrets : gmap string EncryptedSecret;
  rotationTimers : gmap string Z
}.

(** What one call of [generateStrongSecret] and [encryptSecret] draws from
    [crypto]: random bytes, a UUID (dashes removed), indices from
    [randomInt], and the 16 bytes of the initialisation vector. *)
Record Entropy : Type := mkEntropy {
  bytes_len : list N;
  uuid_nodash : string;
  bytes_16 : list N;
  picks : list nat;
  iv_bytes : list N
}.

Definition chars : string :=
  "ABCDEFGHIJKLMNOPQRSTUVWXYZabcdefghijklmnopqrstuvwxyz0123456789!@#$%^&*".

(** [s.charAt(i)]: the empty string when [i] is out of range. *)
Definition charAt (s : string) (i : nat) : string :=
  match String.get i s with
  | Some c => String c EmptyString
  | None => EmptyString
  end.

Section WithCrypto.

(** [Buffer.toString] in the three encodings the manager uses. *)
Variable base64 base64url hex : list N -> string.
(** [createCipher('aes-256-gcm', MASTER_KEY)] run over a plaintext: the
    ciphertext and the authentication tag, both base64; [None] when any call
    on the cipher throws.  The key and the nonce are derived from
    [MASTER_KEY], so the result does not depend on the random [iv]. *)
Variable gcmEncrypt : string -> option (string * string).
(** [createDecipher] run over a ciphertext with its tag; [None] when a call
    throws (in particular when the tag does not authenticate). *)
Variable gcmDecrypt : string -> string -> option string.

Definition encryptSecret (e : Entropy) (plaintext : string)
  : option (string * string * string) :=
  match gcmEncrypt plaintext with
  | Some (encrypted, tg) => Some (encrypted, base64 (iv_bytes e), tg)
  | None => None
  end.

(** [decryptSecret]: the error is logged and thrown again. *)
Definition decryptSecret (encrypted _iv tg : string)
  : option string * list LogEntry :=
  match gcmDecrypt encrypted tg with
  | Some p => (Some p, [])
  | None => (None, [SecureLog "error" "SECRET_DECRYPTION_ERROR"])
  end.

Definition generateStrongSecret (e : Entropy) (t : SecretType) : string :=
  match t with
  | jwt => base64url (bytes_len e)
  | api_key => "fos_" +:+ uuid_nodash e +:+ "_" +:+ hex (bytes_16 e)
  | database => fold_left (fun password i => password +:+ charAt chars i) (picks e) ""
  | encryption => hex (bytes_len e)
  | oauth => base64url (bytes_len e)
  end.

(** [scheduleRotation]: the pending timer of the name is replaced by one
    set with [setTimeout(..., SECRET_CONFIG.rotationInterval)]; the
    interval exceeds [TIMEOUT_MAX], so the timer is due after the delay of
    one millisecond that [setTimeout] then uses. *)
Definition scheduleRotation (now : Z) (name : string) (m : Manager) : Manager :=
  {| secrets := secrets m;
     rotationTimers :=
       <[name := (now + timeoutDelay rotationInterval)%Z]> (rotationTimers m) |}.

(** [storeSecret]: [None] when [encryptSecret] throws (the call is not
    guarded). *)
Definition storeSecret (now : Z) (e : Entropy) (name value : string)
    (t : SecretType) (m : Manager) : option (Manager * list LogEntry) :=
  match encryptSecret e value with
  | None => None
  | Some (encrypted, ivs, tg) =>
      let md := {| type := t; createdAt := now; lastRotatedAt := now;
                   rotationCount := 0; isActive := true; version := 1 |} in
      let es := {| encryptedValue := encrypted; iv := ivs; tag := tg;
                   metadata := md |} in
      Some (scheduleRotation now name
              {| secrets := <[name := es]> (secrets m);
                 rotationTimers := rotationTimers m |},
            [SecurityEvent "DATA_ACCESS" "credential_store" "LOW";
             SecureLog "info" "SECRET_STORED"])
  end.

Definition getSecret (name : string) (m : Manager)
  : option string * list LogEntry :=
  match secrets m !! name with
  | None => (None, [SecureLog "warn" "SECRET_ACCESS_FAILED"])
  | Some es =>
      if negb (isActive (metadata es))
      then (None, [SecureLog "warn" "SECRET_ACCESS_FAILED"])
      else
        match decryptSecret (encryptedValue es) (iv es) (tag es) with
        | (Some secret, lg) =>
            (Some secret,
             lg ++ [SecurityEvent "DATA_ACCESS" "credential_access" "LOW"])
        | (None, lg) => (None, lg ++ [SecureLog "error" "SECRET_ACCESS_ERROR"])
        end
  end.

Definition rotateSecret (now : Z) (e : Entropy) (name : string) (m : Manager)
  : bool * Manager * list LogEntry :=
  match secrets m !! name with
  | None => (false, m, [])
  | Some es =>
      let newValue := generateStrongSecret e (type (metadata es)) in
      match encryptSecret e newValue with
      | None => (false, m, [SecureLog "error" "SECRET_ROTATION_ERROR"])
      | Some (encrypted, ivs, tg) =>
          let md := metadata es in
          let updatedMetadata :=
            {| type := type md; createdAt := createdAt md;
               lastRotatedAt := now;
               rotationCount := rotationCount md + 1;
               isActive := isActive md;
               version := version md + 1 |} in
          (true,
           scheduleRotation now name
             {| secrets := <[name := {| encryptedValue := encrypted; iv := ivs;
                                        tag := tg; metadata := updatedMetadata |}]>
                             (secrets m);
                rotationTimers := rotationTimers m |},
           [SecurityEvent "DATA_ACCESS" "credential_rotation" "LOW";
            SecureLog "info" "SECRET_ROTATED"])
      end
  end.

Definition revokeSecret (name : string) (m : Manager)
  : bool * Manager * list LogEntry :=
  match secrets m !! name with
  | None => (false, m, [])
  | Some es =>
      let md := metadata es in
      let es' :=
        {| encryptedValue := encryptedValue es; iv := iv es; tag := tag es;
           metadata := {| type := type md; createdAt := createdAt md;
                          lastRotatedAt := lastRotatedAt md;
                          rotationCount := rotationCount md;
                          isActive := false; version := version md |} |} in
      (true,
       {| secrets := <[name := es']> (secrets m);
          rotationTimers := delete name (rotationTimers m) |},
       [SecurityEvent "DATA_ACCESS" "credential_revocation" "MEDIUM";
        SecureLog "warn" "SECRET_REVOKED"])
  end.

(** The callback of a rotation timer: it runs once the delay the timer
    was set with has passed. *)
Definition fireTimer (now : Z) (e : Entropy) (name : string) (m : Manager)
  : Manager :=
  match rotationTimers m !! name with
  | Some due =>
      if (due <=? now)%Z
      then (rotateSecret now e name
              {| secrets := secrets m;
                 rotationTimers := delete name (rotationTimers m) |}).1.2
      else m
  | None => m
  end.

Definition verifyIntegrity (m : Manager) : bool :=
  forallb (fun kv => match gcmDecrypt (encryptedValue kv.2) (tag kv.2) with
                     | Some _ => true
                     | None => false
                     end)
          (map_to_list (secrets m)).

Definition cleanup (m : Manager) : Manager :=
  {| secrets := secrets m; rotationTimers := ∅ |}.

(** The calls a client of the manager (or the timer queue) can make. *)
Inductive Op : Type :=
| OpStore (e : Entropy) (name value : string) (t : SecretType)
| OpGet (name : string)
| OpRotate (e : Entropy) (name : string)
| OpRevoke (name : string)
| OpFire (e : Entropy) (name : string)
| OpVerify
| OpCleanup.

(** One call at time [now]; a [storeSecret] that throws leaves the manager
    as it was. *)
Definition step (m : Manager) (c : Z * Op) : Manager :=
  match c with
  | (now, OpStore e name value t) =>
      match storeSecret now e name value t m with
      | Some (m', _) => m'
      | None => m
      end
  | (_, OpGet _) => m
  | (now, OpRotate e name) => (rotateSecret now e name m).1.2
  | (_, OpRevoke name) => (revokeSecret name m).1.2
  | (now, OpFire e name) => fireTimer now e name m
  | (_, OpVerify) => m
  | (_, OpCleanup) => cleanup m
  end.

Definition run (m : Manager) (calls : list (Z * Op)) : Manager :=
  fold_left step calls m.

Definition storesName (name : string) (c : Z * Op) : Prop :=
  match c.2 with
  | OpStore _ name' _ _ => name' = name
  | _ => False
  end.

End WithCrypto.

(** A revoked secret: present in the map, flagged inactive. *)
Definition revoked (name : string) (m : Manager) : Prop :=
  exists es, secrets m !! name = Some es /\ isActive (metadata es) = false.

(** A stand-in for the platform cipher, used to instantiate the parameters
    on concrete managers: the ciphertext is the plaintext and the tag is
    fixed. *)
Definition plainEncrypt (p : string) : option (string * string) := Some (p, "tag").
Definition plainDecrypt (c _t : string) : option string := Some c.
Definition decimalEncoding (bs : list N) : string :=
  foldr (fun b acc => pretty b +:+ acc) "" bs.

Definition sampleEntropy : Entropy :=
  {| bytes_len := [7; 42; 255]%N; uuid_nodash := "0123456789abcdef0123456789abcdef";
     bytes_16 := [1; 2; 3]%N; picks := [0; 69; 26]%nat; iv_bytes := [9; 9]%N |}.

Definition sampleManager : Manager :=
  {| secrets :=
       {[ "jwt_primary" :=
            {| encryptedValue := "initial-signing-key"; iv := ""; tag := "tag";
               metadata := {| type := jwt; createdAt := 0; lastRotatedAt := 0;
                              rotationCount := 0; isActive := true;
                              version := 1 |} |} ]};
     rotationTimers := {[ "jwt_primary" := timeoutDelay rotationInterval ]} |}.

End Credentials.

(* ===================================================================== *)
(** ** The cache: the Redis commands the rate limiter issues              *)
(* ===================================================================== *)

Module Redis.

(** A sorted set maps each member to its score. *)
Inductive Value : Type :=
| VString (s : string)
| VZSet (z : gmap string Z).

(** A key's value and, when it has a time to live, the instant (in
    milliseconds) at which it expires. *)
Record Entry : Type := mkEntry {
  value : Value;
  expireAt : option Z
}.

(** [up] tells whether commands reach the server; when it is false every
    command rejects. *)
Record Store : Type := mkStore {
  up : bool;
  data : gmap string Entry
}.

Definition live (now : Z) (e : Entry) : bool :=
  match expireAt e with
  | Some t => (now <? t)%Z
  | None => true
  end.

(** The entry of a key as the server sees it at [now]: expired keys are gone. *)
Definition lookupLive (now : Z) (key : string) (st : Store) : option Entry :=
  match data st !! key with
  | Some e => if live now e then Some e else None
  | None => None
  end.

(** Every command returns [None] when it rejects (the promise throws). *)

Definition exists_ (now : Z) (key : string) (st : Store) : option N :=
  if up st
  then Some (match lookupLive now key st with Some _ => 1 | None => 0 end)%N
  else None.

Definition setex (now : Z) (key : string) (seconds : Z) (v : string)
    (st : Store) : option Store :=
  if up st
  then Some {| up := true;
               data := <[key := {| value := VString v;
                                   expireAt := Some (now + seconds * 1000)%Z |}]>
                         (data st) |}
  else None.

(** [ZREMRANGEBYSCORE key -inf max]: members with score at most [max] go;
    a sorted set left empty is deleted. *)
Definition zremrangebyscore (now : Z) (key : string) (max : Z) (st : Store)
  : option Store :=
  if up st then
    match lookupLive now key st with
    | None => Some st
    | Some {| value := VZSet z; expireAt := ex |} =>
        let z' := filter (fun kv => (max < kv.2)%Z) z in
        Some {| up := true;
                data := if decide (z' = ∅) then delete key (data st)
                        else <[key := {| value := VZSet z'; expireAt := ex |}]>
                               (data st) |}
    | Some {| value := VString _ |} => None
    end
  else None.

Definition zcard (now : Z) (key : string) (st : Store) : option nat :=
  if up st then
    match lookupLive now key st with
    | None => Some 0%nat
    | Some {| value := VZSet z |} => Some (size z)
    | Some {| value := VString _ |} => None
    end
  else None.

(** [ZADD key score member]: the member is added, or its score replaced. *)
Definition zadd (now : Z) (key : string) (score : Z) (member : string)
    (st : Store) : option Store :=
  if up st then
    match lookupLive now key st with
    | None =>
        Some {| up := true;
                data := <[key := {| value := VZSet {[member := score]};
                                    expireAt := None |}]> (data st) |}
    | Some {| value := VZSet z; expireAt := ex |} =>
        Some {| up := true;
                data := <[key := {| value := VZSet (<[member := score]> z);
                                    expireAt := ex |}]> (data st) |}
    | Some {| value := VString _ |} => None
    end
  else None.

Definition expire (now : Z) (key : string) (seconds : Z) (st : Store)
  : option Store :=
  if up st then
    match lookupLive now key st with
    | None => Some st
    | Some e =>
        Some {| up := true;
                data := <[key := {| value := value e;
                                    expireAt := Some (now + seconds * 1000)%Z |}]>
                          (data st) |}
    end
  else None.

End Redis.

(* ===================================================================== *)
(** ** advanced-rate-limit.ts                                             *)
(* ===================================================================== *)

Module RateLimit.

Record RateLimitConfig : Type := mkConfig {
  windowMs : Z;
  maxRequests : nat;
  skipSuccessfulRequests : bool;
  skipFailedRequests : bool;
  blockDuration : option Z
}.

Inductive LimitType : Type := auth | create | read | update | delete | general.

(** [RATE_LIMITS], for the value of [config.NODE_ENV]. *)
Definition RATE_LIMITS (NODE_ENV : string) (t : LimitType) : RateLimitConfig :=
  match t with
  | auth =>
      {| windowMs := 15 * 60 * 1000; maxRequests := 5;
         skipSuccessfulRequests := true; skipFailedRequests := false;
         blockDuration := Some (30 * 60)%Z |}
  | create =>
      {| windowMs := 60 * 1000; maxRequests := 10;
         skipSuccessfulRequests := false; skipFailedRequests := true;
         blockDuration := Some (5 * 60)%Z |}
  | read =>
      {| windowMs := 60 * 1000;
         maxRequests := if String.eqb NODE_ENV "development" then 15 else 60;
         skipSuccessfulRequests := false; skipFailedRequests := true;
         blockDuration := Some (2 * 60)%Z |}
  | update =>
      {| windowMs := 60 * 1000; maxRequests := 30;
         skipSuccessfulRequests := false; skipFailedRequests := true;
         blockDuration := Some (3 * 60)%Z |}
  | delete =>
      {| windowMs := 60 * 1000; maxRequests := 5;
         skipSuccessfulRequests := false; skipFailedRequests := true;
         blockDuration := Some (10 * 60)%Z |}
  | general =>
      {| windowMs := 60 * 1000;
         maxRequests := if String.eqb NODE_ENV "production" then 100 else 20;
         skipSuccessfulRequests := false; skipFailedRequests := true;
         blockDuration := Some (5 * 60)%Z |}
  end.

Definition WHITELISTED_IPS : list string := ["127.0.0.1"; "::1"; "localhost"].

(** [s.includes(sub)]. *)
Fixpoint includes (sub s : string) : bool :=
  String.prefix sub s
  || match s with
     | String _ rest => includes sub rest
     | EmptyString => false
     end.

(** [toUpperCase] on the ASCII letters (a method name is an HTTP token). *)
Definition upcase (c : ascii) : ascii :=
  let n := nat_of_ascii c in
  if (97 <=? n)%nat && (n <=? 122)%nat then ascii_of_nat (n - 32) else c.

Fixpoint toUpperCase (s : string) : string :=
  match s with
  | String c rest => String (upcase c) (toUpperCase rest)
  | EmptyString => EmptyString
  end.

Definition getRateLimitType (method url : string) : LimitType :=
  if includes "/auth/" url then auth
  else
    let m := toUpperCase method in
    if String.eqb m "POST" then create
    else if String.eqb m "GET" then read
    else if String.eqb m "PUT" || String.eqb m "PATCH" then update
    else if String.eqb m "DELETE" then delete
    else general.

Definition generateRateLimitKey (ip endpoint : string) (userId : option string)
  : string :=
  let base := "ratelimit:" +:+ ip +:+ ":" +:+ endpoint in
  match userId with
  | Some u => if truthy u then base +:+ ":user:" +:+ u else base
  | None => base
  end.

Definition generateBlockKey (ip : string) : string := "blocked:" +:+ ip.

(** [isIPBlocked]: a cache error is logged and read as "not blocked". *)
Definition isIPBlocked (now : Z) (ip : string) (st : Redis.Store)
  : bool * list LogEntry :=
  match Redis.exists_ now (generateBlockKey ip) st with
  | Some blocked => ((blocked =? 1)%N, [])
  | None => (false, [SecureLog "error" "RATE_LIMIT_BLOCK_CHECK_ERROR"])
  end.

(** [blockIP]: the value stored is the JSON of the block's time, reason and
    duration, of which only the duration is kept here; a cache error is
    logged and swallowed. *)
Definition blockIP (now : Z) (ip : string) (durationSeconds : Z)
    (st : Redis.Store) : Redis.Store * list LogEntry :=
  match Redis.setex now (generateBlockKey ip) durationSeconds
          (pretty durationSeconds) st with
  | Some st' =>
      (st', [SecurityEvent "SUSPICIOUS_ACTIVITY" "rate_limit_block" "HIGH";
             SecureLog "warn" "IP_BLOCKED_RATE_LIMIT"])
  | None => (st, [SecureLog "error" "RATE_LIMIT_BLOCK_ERROR"])
  end.

Record Request : Type := mkRequest {
  ip : string;
  method : string;
  url : string;
  userId : option string
}.

(** The four [X-RateLimit-*] headers of an admitted request. *)
Record Headers : Type := mkHeaders {
  h_limit : nat;
  h_remaining : Z;
  h_reset : Z;
  h_window : Z
}.

(** What the hook does with the request: it lets it through (with the
    informative headers when the window was updated), or it answers 429. *)
Inductive Reply : Type :=
| Pass (headers : option Headers)
| Blocked (retryAfter : Z)
| Exceeded (limit : nat) (window : Z) (retryAfter : Z).

(** [Math.ceil(ms / 1000)]. *)
Definition ceilSeconds (ms : Z) : Z := ((ms + 999) / 1000)%Z.

(** The member recorded for a request: [`${now}-${Math.random()}`]. *)
Definition member (now : Z) (rnd : string) : string :=
  pretty now +:+ "-" +:+ rnd.

(** The body of the hook's [try] block; [None] when a cache command
    throws, with the store as the commands before it left it. *)
Definition slidingWindow (NODE_ENV : string) (now : Z) (rnd : string)
    (req : Request) (st : Redis.Store)
  : option (Reply * list LogEntry) * Redis.Store :=
  let limitType := getRateLimitType (method req) (url req) in
  let limits := RATE_LIMITS NODE_ENV limitType in
  let rateLimitKey := generateRateLimitKey (ip req) (url req) (userId req) in
  let windowStart := (now - windowMs limits)%Z in
  match Redis.zremrangebyscore now rateLimitKey windowStart st with
  | None => (None, st)
  | Some st1 =>
    match Redis.zcard now rateLimitKey st1 with
    | None => (None, st1)
    | Some currentCount =>
      if (maxRequests limits <=? currentCount)%nat then
        let '(st2, lg) :=
          match blockDuration limits with
          | Some d => if (d =? 0)%Z then (st1, []) else blockIP now (ip req) d st1
          | None => (st1, [])
          end in
        (Some (Exceeded (maxRequests limits) (windowMs limits / 1000)
                 (ceilSeconds (windowMs limits)),
               lg ++ [SecurityEvent "SUSPICIOUS_ACTIVITY" (url req) "HIGH"]),
         st2)
      else
        match Redis.zadd now rateLimitKey now (member now rnd) st1 with
        | None => (None, st1)
        | Some st2 =>
          match Redis.expire now rateLimitKey (ceilSeconds (windowMs limits)) st2 with
          | None => (None, st2)
          | Some st3 =>
              (Some (Pass (Some {| h_limit := maxRequests limits;
                                   h_remaining :=
                                     Z.of_nat (maxRequests limits)
                                     - Z.of_nat currentCount - 1;
                                   h_reset := now + windowMs limits;
                                   h_window := windowMs limits / 1000 |}),
                     []),
               st3)
          end
        end
    end
  end.

(** The hook returned by [advancedRateLimitMiddleware()], run at time [now]
    with [rnd] the text of [Math.random()]. *)
Definition advancedRateLimitMiddleware (NODE_ENV : string) (now : Z)
    (rnd : string) (req : Request) (st : Redis.Store)
  : Reply * Redis.Store * list LogEntry :=
  if String.eqb NODE_ENV "development" && false
     && existsb (String.eqb (ip req)) WHITELISTED_IPS
  then (Pass None, st, [])
  else
    let '(isBlocked, lg0) := isIPBlocked now (ip req) st in
    if isBlocked
    then (Blocked 300, st,
          lg0 ++ [SecurityEvent "ACCESS_DENIED" (url req) "MEDIUM"])
    else
      match slidingWindow NODE_ENV now rnd req st with
      | (Some (reply, lg), st') => (reply, st', lg0 ++ lg)
      | (None, st') =>
          (Pass None, st',
           lg0 ++ [SecureLog "error" "RATE_LIMIT_MIDDLEWARE_ERROR"])
      end.

(** Successive requests, each with its time and its random text. *)
Definition Call : Type := Z * string * Request.

Fixpoint serve (NODE_ENV : string) (calls : list Call) (st : Redis.Store)
  : list Reply * Redis.Store :=
  match calls with
  | [] => ([], st)
  | (now, rnd, req) :: rest =>
      let '(reply, st', _) := advancedRateLimitMiddleware NODE_ENV now rnd req st in
      let '(replies, st'') := serve NODE_ENV rest st' in
      (reply :: replies, st'')
  end.

(** The number of requests recorded under a key that the check at [now]
    counts: the members of the live sorted set whose score is later than
    the start of the window. *)
Definition recorded (now windowStart : Z) (key : string) (st : Redis.Store)
  : nat :=
  match Redis.lookupLive now key st with
  | Some {| Redis.value := Redis.VZSet z |} =>
      size (filter (fun kv => (windowStart < kv.2)%Z) z)
  | _ => 0%nat
  end.

Definition isAllowed (r : Reply) : bool :=
  match r with Pass _ => true | _ => false end.

(** The attempts of one client on one request, as times and random
    texts, turned into calls of the hook. *)
Definition attemptsOf (req : Request) (events : list (Z * string)) : list Call :=
  map (fun e => (e.1, e.2, req)) events.

(** Times that do not go backwards, starting from [tprev]. *)
Fixpoint ascending (tprev : Z) (events : list (Z * string)) : Prop :=
  match events with
  | [] => True
  | e :: rest => (tprev <= e.1)%Z /\ ascending e.1 rest
  end.

(** The time of the last event, or [tprev] when there is none. *)
Fixpoint lastTime (tprev : Z) (events : list (Z * string)) : Z :=
  match events with
  | [] => tprev
  | e :: rest => lastTime e.1 rest
  end.

Definition retryAfterOf (r : Reply) : option Z :=
  match r with
  | Blocked ra => Some ra
  | Exceeded _ _ ra => Some ra
  | Pass _ => None
  end.

(** Sample data: a reachable, empty cache, the client 1.2.3.4 of the
    specification's scenario, and attempts one second apart. *)
Definition emptyStore : Redis.Store := {| Redis.up := true; Redis.data := ∅ |}.

Definition loginRequest : Request :=
  {| ip := "1.2.3.4"; method := "POST"; url := "/api/v1/auth/login";
     userId := None |}.

Definition registerRequest : Request :=
  {| ip := "1.2.3.4"; method := "POST"; url := "/api/v1/auth/register";
     userId := None |}.

Definition fourMore : list (Z * string) :=
  [(2000, "0.2"); (3000, "0.3"); (4000, "0.4"); (5000, "0.5")]%Z.

(** The cache after five admitted login attempts, and what it holds under
    the login key. *)
Definition fullStore : Redis.Store :=
  (serve "production" (attemptsOf loginRequest ((1000%Z, "0.1") :: fourMore))
     emptyStore).2.

Definition fiveEntries : gmap string Z :=
  list_to_map (map (fun e => (member e.1 e.2, e.1)) ((1000%Z, "0.1") :: fourMore)).

(** The sorted set a key holds at [now]: empty when the key is absent or
    expired, undefined when the key holds a string. *)
Definition window (now : Z) (key : string) (st : Redis.Store)
  : option (gmap string Z) :=
  match Redis.lookupLive now key st with
  | None => Some ∅
  | Some {| Redis.value := Redis.VZSet z |} => Some z
  | Some {| Redis.value := Redis.VString _ |} => None
  end.

(** The entries of a sorted set that a check with this window start counts. *)
Definition inWindow (windowStart : Z) (z : gmap string Z) : gmap string Z :=
  filter (fun kv => (windowStart < kv.2)%Z) z.

End RateLimit.

(* ===================================================================== *)
(** ** JavaScript strings, [Buffer] encodings and JSON                    *)
(* ===================================================================== *)

(** From here on a JavaScript string is the list of its UTF-16 code units
    and a [Buffer] the list of its bytes, both as integers. *)

Module Js.

Abbreviation jsstring := (list Z).
Abbreviation bytes := (list Z).

(** The code units of an ASCII literal. *)
Definition js (s : string) : jsstring :=
  map (fun c => Z.of_nat (nat_of_ascii c)) (list_ascii_of_string s).

Definition between (lo hi x : Z) : bool := (lo <=? x)%Z && (x <=? hi)%Z.

Definition isByte (b : Z) : bool := between 0 255 b.
Definition isCodeUnit (u : Z) : bool := between 0 65535 u.
Definition isHighSurrogate (u : Z) : bool := between 55296 56319 u.
Definition isLowSurrogate (u : Z) : bool := between 56320 57343 u.

(** [String.prototype.isWellFormed]: no unpaired surrogate. *)
Fixpoint isWellFormed (s : jsstring) : bool :=
  match s with
  | [] => true
  | u :: rest =>
      if isHighSurrogate u then
        match rest with
        | l :: rest' => isLowSurrogate l && isWellFormed rest'
        | [] => false
        end
      else isCodeUnit u && negb (isLowSurrogate u) && isWellFormed rest
  end.

(** A character that a JSON string literal holds as it is: printable
    ASCII other than the quote and the backslash. *)
Definition isPlain (c : Z) : bool :=
  between 32 126 c && negb (c =? 34)%Z && negb (c =? 92)%Z.

Definition isAscii (c : Z) : bool := between 0 127 c.

(** *** Hexadecimal *)

Definition hexDigit (n : Z) : Z := (if n <? 10 then 48 + n else 87 + n)%Z.

(** [buf.toString('hex')]. *)
Definition toHex (bs : bytes) : jsstring :=
  flat_map (fun b => [hexDigit (b / 16); hexDigit (b mod 16)])%Z bs.

Definition hexValue (c : Z) : option Z :=
  if between 48 57 c then Some (c - 48)%Z
  else if between 97 102 c then Some (c - 87)%Z
  else if between 65 70 c then Some (c - 55)%Z
  else None.

(** [Buffer.from(s, 'hex')]: decoding stops at the first pair that is not
    two hexadecimal digits; a trailing single character is dropped. *)
Fixpoint fromHex (s : jsstring) : bytes :=
  match s with
  | c1 :: c2 :: rest =>
      match hexValue c1, hexValue c2 with
      | Some h, Some l => (h * 16 + l)%Z :: fromHex rest
      | _, _ => []
      end
  | _ => []
  end.

(** *** Base64 *)

Definition b64Char (n : Z) : Z :=
  (if n <? 26 then 65 + n
   else if n <? 52 then 71 + n
   else if n <? 62 then n - 4
   else if n =? 62 then 43 else 47)%Z.

(** [buf.toString('base64')]. *)
Fixpoint toBase64 (bs : bytes) : jsstring :=
  match bs with
  | b1 :: b2 :: b3 :: rest =>
      [b64Char (b1 / 4); b64Char (b1 mod 4 * 16 + b2 / 16);
       b64Char (b2 mod 16 * 4 + b3 / 64); b64Char (b3 mod 64)]%Z
      ++ toBase64 rest
  | [b1; b2] =>
      [b64Char (b1 / 4); b64Char (b1 mod 4 * 16 + b2 / 16);
       b64Char (b2 mod 16 * 4); 61]%Z
  | [b1] => [b64Char (b1 / 4); b64Char (b1 mod 4 * 16); 61; 61]%Z
  | [] => []
  end.

(** The value of a character of the standard or the URL-safe alphabet. *)
Definition b64Value (c : Z) : option Z :=
  if between 65 90 c then Some (c - 65)%Z
  else if between 97 122 c then Some (c - 71)%Z
  else if between 48 57 c then Some (c + 4)%Z
  else if (c =? 43)%Z || (c =? 45)%Z then Some 62%Z
  else if (c =? 47)%Z || (c =? 95)%Z then Some 63%Z
  else None.

(** The six-bit values a forgiving decoder reads: characters outside the
    alphabet are skipped and the first [=] ends the input. *)
Fixpoint sextets (s : jsstring) : list Z :=
  match s with
  | [] => []
  | c :: rest =>
      if (c =? 61)%Z then []
      else match b64Value c with
           | Some v => v :: sextets rest
           | None => sextets rest
           end
  end.

Fixpoint packBytes (vs : list Z) : bytes :=
  match vs with
  | v1 :: v2 :: v3 :: v4 :: rest =>
      [v1 * 4 + v2 / 16; v2 mod 16 * 16 + v3 / 4; v3 mod 4 * 64 + v4]%Z
      ++ packBytes rest
  | [v1; v2; v3] => [v1 * 4 + v2 / 16; v2 mod 16 * 16 + v3 / 4]%Z
  | [v1; v2] => [v1 * 4 + v2 / 16]%Z
  | _ => []
  end.

(** [Buffer.from(s, 'base64')]; it never throws. *)
Definition fromBase64 (s : jsstring) : bytes := packBytes (sextets s).

(** *** UTF-8 *)

Definition encodeScalar (cp : Z) : bytes :=
  (if cp <? 128 then [cp]
   else if cp <? 2048 then [192 + cp / 64; 128 + cp mod 64]
   else if cp <? 65536
        then [224 + cp / 4096; 128 + cp / 64 mod 64; 128 + cp mod 64]
   else [240 + cp / 262144; 128 + cp / 4096 mod 64; 128 + cp / 64 mod 64;
         128 + cp mod 64])%Z.

Definition replacement : bytes := [239; 191; 189]%Z.

(** [Buffer.from(s, 'utf8')], also what a cipher does with a ['utf8'] input:
    a surrogate pair is one scalar value, and an unpaired surrogate is
    written as U+FFFD. *)
Fixpoint utf8Encode (s : jsstring) : bytes :=
  match s with
  | [] => []
  | u :: rest =>
      if isHighSurrogate u then
        match rest with
        | l :: rest' =>
            if isLowSurrogate l
            then encodeScalar (65536 + (u - 55296) * 1024 + (l - 56320))%Z
                 ++ utf8Encode rest'
            else replacement ++ utf8Encode rest
        | [] => replacement
        end
      else if isLowSurrogate u then replacement ++ utf8Encode rest
      else encodeScalar u ++ utf8Encode rest
  end.

(** The code units of a scalar value. *)
Definition utf16 (cp : Z) : jsstring :=
  (if cp <? 65536 then [cp]
   else [55296 + (cp - 65536) / 1024; 56320 + (cp - 65536) mod 1024])%Z.

(** The state of the UTF-8 decoder inside a multi-byte sequence: the bits
    read so far, the number of bytes still needed, and the range the next
    byte must lie in. *)
Record Utf8State : Type := mkUtf8State {
  u_cp : Z;
  u_needed : nat;
  u_lower : Z;
  u_upper : Z
}.

Definition utf8Start (b : Z) : jsstring * option Utf8State :=
  if between 0 127 b then ([b], None)
  else if between 194 223 b
  then ([], Some {| u_cp := b - 192; u_needed := 1; u_lower := 128; u_upper := 191 |})
  else if between 224 239 b
  then ([], Some {| u_cp := b - 224; u_needed := 2;
                    u_lower := if (b =? 224)%Z then 160 else 128;
                    u_upper := if (b =? 237)%Z then 159 else 191 |})
  else if between 240 244 b
  then ([], Some {| u_cp := b - 240; u_needed := 3;
                    u_lower := if (b =? 240)%Z then 144 else 128;
                    u_upper := if (b =? 244)%Z then 143 else 191 |})
  else ([65533%Z], None).

Definition utf8Step (st : option Utf8State) (b : Z)
  : jsstring * option Utf8State :=
  match st with
  | None => utf8Start b
  | Some s =>
      if between (u_lower s) (u_upper s) b then
        let cp := (u_cp s * 64 + (b - 128))%Z in
        match u_needed s with
        | 0%nat => ([65533%Z], None)
        | 1%nat => (utf16 cp, None)
        | S n =>
            ([], Some {| u_cp := cp; u_needed := n; u_lower := 128; u_upper := 191 |})
        end
      else
        let '(out, st') := utf8Start b in (65533%Z :: out, st')
  end.

Fixpoint utf8DecodeFrom (st : option Utf8State) (bs : bytes) : jsstring :=
  match bs with
  | [] => match st with Some _ => [65533%Z] | None => [] end
  | b :: rest =>
      let '(out, st') := utf8Step st b in out ++ utf8DecodeFrom st' rest
  end.

(** [buf.toString('utf8')], also what a decipher does for a ['utf8'] output:
    ill-formed input is replaced by U+FFFD, never refused. *)
Definition utf8Decode (bs : bytes) : jsstring := utf8DecodeFrom None bs.

(** *** JSON *)

#[warnings="-register-all"]
Inductive JSON : Type :=
| JNull
| JBool (b : bool)
| JNumber (lexeme : jsstring)
| JString (s : jsstring)
| JArray (items : list JSON)
| JObject (members : list (jsstring * JSON)).

Definition hex4 (u : Z) : jsstring :=
  [hexDigit (u / 4096); hexDigit (u / 256 mod 16); hexDigit (u / 16 mod 16);
   hexDigit (u mod 16)]%Z.

(** The escape [\uXXXX]. *)
Definition escapeUnit (u : Z) : jsstring := [92; 117]%Z ++ hex4 u.

(** The body of a string literal as [JSON.stringify] writes it: the quote,
    the backslash and the control characters are escaped, and so is an
    unpaired surrogate. *)
Fixpoint quoteBody (s : jsstring) : jsstring :=
  match s with
  | [] => []
  | u :: rest =>
      if isHighSurrogate u then
        match rest with
        | l :: rest' =>
            if isLowSurrogate l then u :: l :: quoteBody rest'
            else escapeUnit u ++ quoteBody rest
        | [] => escapeUnit u
        end
      else
        (if isLowSurrogate u then escapeUnit u
         else if (u =? 34)%Z then [92; 34]%Z
         else if (u =? 92)%Z then [92; 92]%Z
         else if (u =? 8)%Z then [92; 98]%Z
         else if (u =? 12)%Z then [92; 102]%Z
         else if (u =? 10)%Z then [92; 110]%Z
         else if (u =? 13)%Z then [92; 114]%Z
         else if (u =? 9)%Z then [92; 116]%Z
         else if (u <? 32)%Z then escapeUnit u
         else [u])
        ++ quoteBody rest
  end.

Definition quote (s : jsstring) : jsstring := [34%Z] ++ quoteBody s ++ [34%Z].

Definition isWhitespace (c : Z) : bool :=
  (c =? 32)%Z || (c =? 9)%Z || (c =? 10)%Z || (c =? 13)%Z.

Fixpoint skipWs (s : jsstring) : jsstring :=
  match s with
  | c :: rest => if isWhitespace c then skipWs rest else s
  | [] => []
  end.

Definition consFst (c : Z) (r : option (jsstring * jsstring))
  : option (jsstring * jsstring) :=
  match r with
  | Some (str, rest) => Some (c :: str, rest)
  | None => None
  end.

(** The character a two-character escape stands for. *)
Definition simpleEscape (e : Z) : option Z :=
  if (e =? 34)%Z then Some 34%Z
  else if (e =? 92)%Z then Some 92%Z
  else if (e =? 47)%Z then Some 47%Z
  else if (e =? 98)%Z then Some 8%Z
  else if (e =? 102)%Z then Some 12%Z
  else if (e =? 110)%Z then Some 10%Z
  else if (e =? 114)%Z then Some 13%Z
  else if (e =? 116)%Z then Some 9%Z
  else None.

(** A string literal after its opening quote: the string and what follows
    the closing quote. *)
Fixpoint parseStringBody (s : jsstring) : option (jsstring * jsstring) :=
  match s with
  | [] => None
  | c :: rest =>
      if (c =? 34)%Z then Some ([], rest)
      else if (c =? 92)%Z then
        match rest with
        | e :: rest' =>
            if (e =? 117)%Z then
              match rest' with
              | h1 :: h2 :: h3 :: h4 :: rest'' =>
                  match hexValue h1, hexValue h2, hexValue h3, hexValue h4 with
                  | Some a, Some b, Some c', Some d =>
                      consFst (((a * 16 + b) * 16 + c') * 16 + d)%Z
                        (parseStringBody rest'')
                  | _, _, _, _ => None
                  end
              | _ => None
              end
            else
              match simpleEscape e with
              | Some ch => consFst ch (parseStringBody rest')
              | None => None
              end
        | [] => None
        end
      else if (c <? 32)%Z then None
      else consFst c (parseStringBody rest)
  end.

Definition isDigit (c : Z) : bool := between 48 57 c.

Fixpoint spanDigits (s : jsstring) : jsstring * jsstring :=
  match s with
  | c :: rest =>
      if isDigit c
      then let '(ds, r) := spanDigits rest in (c :: ds, r)
      else ([], s)
  | [] => ([], [])
  end.

(** A number literal: an optional minus sign, then 0 or a digit from 1 to 9
    followed by any digits, then optionally a dot with at least one digit,
    then optionally an exponent (e or E, an optional sign, at least one
    digit). *)
Definition lexNumber (s : jsstring) : option (jsstring * jsstring) :=
  let '(sign, s1) :=
    match s with
    | c :: r => if (c =? 45)%Z then ([c], r) else ([], s)
    | [] => ([], s)
    end in
  match s1 with
  | [] => None
  | c :: r =>
      let int :=
        if (c =? 48)%Z then Some ([c], r)
        else if between 49 57 c
        then let '(ds, r') := spanDigits r in Some (c :: ds, r')
        else None in
      match int with
      | None => None
      | Some (i, s2) =>
          let frac :=
            match s2 with
            | d :: r2 =>
                if (d =? 46)%Z then
                  match spanDigits r2 with
                  | ([], _) => None
                  | (ds, r3) => Some (d :: ds, r3)
                  end
                else Some ([], s2)
            | [] => Some ([], s2)
            end in
          match frac with
          | None => None
          | Some (f, s3) =>
              let exp :=
                match s3 with
                | e :: r3 =>
                    if (e =? 101)%Z || (e =? 69)%Z then
                      let '(sg, r4) :=
                        match r3 with
                        | g :: r4 =>
                            if (g =? 43)%Z || (g =? 45)%Z then ([g], r4)
                            else ([], r3)
                        | [] => ([], r3)
                        end in
                      match spanDigits r4 with
                      | ([], _) => None
                      | (ds, r5) => Some (e :: sg ++ ds, r5)
                      end
                    else Some ([], s3)
                | [] => Some ([], s3)
                end in
              match exp with
              | None => None
              | Some (x, s4) => Some (sign ++ i ++ f ++ x, s4)
              end
          end
      end
  end.

(** Whether [s] starts with the literal [lit]; what follows it. *)
Fixpoint stripPrefix (lit s : jsstring) : option jsstring :=
  match lit, s with
  | [], _ => Some s
  | a :: lit', b :: s' => if (a =? b)%Z then stripPrefix lit' s' else None
  | _ :: _, [] => None
  end.

(** A value, the elements of an array after its first value, and the
    members of an object; [fuel] bounds the depth of the calls. *)
Fixpoint parseValue (fuel : nat) (s : jsstring) : option (JSON * jsstring) :=
  match fuel with
  | O => None
  | S fuel' =>
      match skipWs s with
      | [] => None
      | c :: rest =>
          if (c =? 34)%Z then
            match parseStringBody rest with
            | Some (str, r) => Some (JString str, r)
            | None => None
            end
          else if (c =? 91)%Z then
            match skipWs rest with
            | c' :: r' =>
                if (c' =? 93)%Z then Some (JArray [], r')
                else
                  match parseElements fuel' rest with
                  | Some (items, r) => Some (JArray items, r)
                  | None => None
                  end
            | [] => None
            end
          else if (c =? 123)%Z then
            match skipWs rest with
            | c' :: r' =>
                if (c' =? 125)%Z then Some (JObject [], r')
                else
                  match parseMembers fuel' rest with
                  | Some (members, r) => Some (JObject members, r)
                  | None => None
                  end
            | [] => None
            end
          else
            match stripPrefix (js "null") (c :: rest) with
            | Some r => Some (JNull, r)
            | None =>
            match stripPrefix (js "true") (c :: rest) with
            | Some r => Some (JBool true, r)
            | None =>
            match stripPrefix (js "false") (c :: rest) with
            | Some r => Some (JBool false, r)
            | None =>
            match lexNumber (c :: rest) with
            | Some (lexeme, r) => Some (JNumber lexeme, r)
            | None => None
            end end end end
      end
  end
with parseElements (fuel : nat) (s : jsstring)
  : option (list JSON * jsstring) :=
  match fuel with
  | O => None
  | S fuel' =>
      match parseValue fuel' s with
      | None => None
      | Some (v, r) =>
          match skipWs r with
          | c :: r' =>
              if (c =? 44)%Z then
                match parseElements fuel' r' with
                | Some (vs, r'') => Some (v :: vs, r'')
                | None => None
                end
              else if (c =? 93)%Z then Some ([v], r')
              else None
          | [] => None
          end
      end
  end
with parseMembers (fuel : nat) (s : jsstring)
  : option (list (jsstring * JSON) * jsstring) :=
  match fuel with
  | O => None
  | S fuel' =>
      match skipWs s with
      | q :: r0 =>
          if (q =? 34)%Z then
            match parseStringBody r0 with
            | None => None
            | Some (key, r1) =>
                match skipWs r1 with
                | colon :: r2 =>
                    if (colon =? 58)%Z then
                      match parseValue fuel' r2 with
                      | None => None
                      | Some (v, r3) =>
                          match skipWs r3 with
                          | c :: r4 =>
                              if (c =? 44)%Z then
                                match parseMembers fuel' r4 with
                                | Some (ms, r5) => Some ((key, v) :: ms, r5)
                                | None => None
                                end
                              else if (c =? 125)%Z then Some ([(key, v)], r4)
                              else None
                          | [] => None
                          end
                      end
                    else None
                | [] => None
                end
            end
          else None
      | [] => None
      end
  end.

(** [JSON.parse]: [None] when it throws. *)
Definition JSON_parse (s : jsstring) : option JSON :=
  match parseValue (S (2 * length s)) s with
  | Some (v, rest) =>
      match skipWs rest with
      | [] => Some v
      | _ :: _ => None
      end
  | None => None
  end.

(** [JSON.stringify] of an object with the two string properties
    [encrypted] and [iv], in that order. *)
Definition JSON_stringify_EncryptedData (encrypted iv : jsstring) : jsstring :=
  js "{" ++ quote (js "encrypted") ++ js ":" ++ quote encrypted
  ++ js "," ++ quote (js "iv") ++ js ":" ++ quote iv ++ js "}".

Definition jsstring_eqb (a b : jsstring) : bool := bool_decide (a = b).

(** The own property [name] of an object literal: of two members with one
    name the later one wins. *)
Fixpoint getMember (name : jsstring) (members : list (jsstring * JSON))
  : option JSON :=
  match members with
  | [] => None
  | (k, v) :: rest =>
      match getMember name rest with
      | Some v' => Some v'
      | None => if jsstring_eqb k name then Some v else None
      end
  end.

End Js.

(* ===================================================================== *)
(** ** The PII cipher (AES-256-CTR field encryption)                      *)
(* ===================================================================== *)

Module Encryption.

Import Js.

Definition IV_LENGTH : nat := 16.
Definition KEY_LENGTH : nat := 32.

Section WithCipher.

(** AES-256 in counter mode under the key that [getEncryptionKey] derives
    from [config.JWT_SECRET]: the key-stream byte at a position, for an
    initialisation vector. *)
Variable keystream : bytes -> nat -> Z.
(** [Buffer.from(v, 'hex')] when [v] is an array or an object (the encoding
    is then ignored): the bytes, or [None] when it throws. *)
Variable bufferFromObject : JSON -> option bytes.

(** Counter mode: each byte is combined with the key stream, so enciphering
    and deciphering are the same operation. *)
Fixpoint xorFrom (iv : bytes) (i : nat) (data : bytes) : bytes :=
  match data with
  | [] => []
  | b :: rest => Z.lxor b (keystream iv i mod 256) :: xorFrom iv (S i) rest
  end.

(** [createCipheriv] and [createDecipheriv] for ['aes-256-ctr']: they throw
    unless the initialisation vector has 16 bytes (the derived key always
    has 32). *)
Definition createCipheriv (iv : bytes) : option (bytes -> bytes) :=
  if (length iv =? IV_LENGTH)%nat then Some (xorFrom iv 0) else None.

(** [encryptPII], with [iv] the bytes drawn by [crypto.randomBytes];
    [None] when the function throws. *)
Definition encryptPII (iv : bytes) (plaintext : jsstring) : option jsstring :=
  match plaintext with
  | [] => Some plaintext
  | _ :: _ =>
      match createCipheriv iv with
      | None => None
      | Some cipher =>
          let encrypted := toHex (cipher (utf8Encode plaintext)) in
          Some (toBase64
                  (utf8Encode
                     (JSON_stringify_EncryptedData encrypted (toHex iv))))
      end
  end.

(** [o[name]] on a parsed value: [None] is the [TypeError] of reading a
    property of [null]; [Some None] is [undefined]. *)
Definition getProperty (o : JSON) (name : jsstring) : option (option JSON) :=
  match o with
  | JNull => None
  | JObject members => Some (getMember name members)
  | _ => Some None
  end.

(** [Buffer.from(v, 'hex')]: a string is decoded, [undefined], [null],
    booleans and numbers are refused. *)
Definition bufferFromHex (v : option JSON) : option bytes :=
  match v with
  | Some (JString s) => Some (fromHex s)
  | Some (JArray items) => bufferFromObject (JArray items)
  | Some (JObject members) => bufferFromObject (JObject members)
  | _ => None
  end.

(** The data argument of [decipher.update(data, 'hex', 'utf8')]: it must be
    a string, and one of even length. *)
Definition hexInput (v : option JSON) : option bytes :=
  match v with
  | Some (JString s) => if Nat.even (length s) then Some (fromHex s) else None
  | _ => None
  end.

(** The body of [decryptPII]'s [try] block; [None] when it throws. *)
Definition tryDecrypt (encryptedText : jsstring) : option jsstring :=
  match JSON_parse (utf8Decode (fromBase64 encryptedText)) with
  | None => None
  | Some encryptedData =>
      match getProperty encryptedData (js "iv") with
      | None => None
      | Some ivValue =>
          match bufferFromHex ivValue with
          | None => None
          | Some iv =>
              match createCipheriv iv with
              | None => None
              | Some decipher =>
                  match getProperty encryptedData (js "encrypted") with
                  | None => None
                  | Some encryptedValue =>
                      match hexInput encryptedValue with
                      | None => None
                      | Some data => Some (utf8Decode (decipher data))
                      end
                  end
              end
          end
      end
  end.

(** [decryptPII]: whatever is thrown inside is caught, and the input is
    returned as it came. *)
Definition decryptPII (encryptedText : jsstring) : jsstring :=
  match encryptedText with
  | [] => encryptedText
  | _ :: _ =>
      match tryDecrypt encryptedText with
      | Some decrypted => decrypted
      | None => encryptedText
      end
  end.

End WithCipher.

(** [isEncrypted]: the input decodes to JSON that is an object with the
    properties [encrypted] and [iv]. *)
Definition isEncrypted (data : jsstring) : bool :=
  match data with
  | [] => false
  | _ :: _ =>
      match JSON_parse (utf8Decode (fromBase64 data)) with
      | Some (JObject members) =>
          bool_decide (is_Some (getMember (js "encrypted") members))
          && bool_decide (is_Some (getMember (js "iv") members))
      | _ => false
      end
  end.

(** A stand-in key stream and sample data for concrete runs. *)
Definition countingStream (iv : bytes) (i : nat) : Z :=
  (Z.of_nat i * 7 + nth 0 iv 0)%Z.

Definition refuseObjects (_ : JSON) : option bytes := None.

Definition sampleIv : bytes := [0; 1; 2; 3; 4; 5; 6; 7; 8; 9; 10; 11; 12; 13; 14; 15]%Z.
Definition otherIv : bytes := [15; 1; 2; 3; 4; 5; 6; 7; 8; 9; 10; 11; 12; 13; 14; 15]%Z.

End Encryption.

(* ===================================================================== *)
(** ** Regular expressions, as [RegExp.prototype.test] runs them          *)
(* ===================================================================== *)

Module RegExp.

Import Js.

(** The constructs the patterns of the repository use.  A character test
    stands for a literal character or a class; for a pattern with the [i]
    flag the test accepts both cases of an ASCII letter (no other code unit
    folds to an ASCII character when the [u] flag is absent). *)
Inductive Regex : Type :=
| Eps
| Chr (test : Z -> bool)
| Seq (a b : Regex)
| Alt (a b : Regex)
| Star (a : Regex)
| Bol
| Eol
| WordBoundary
| NotAhead (a : Regex).

(** A position in the input: the code unit before it, when there is one,
    and the input that remains. *)
Definition Pos : Type := option Z * jsstring.

Definition isWordChar (c : Z) : bool :=
  between 97 122 c || between 65 90 c || between 48 57 c || (c =? 95)%Z.

(** [\s]: white space and line terminators. *)
Definition isSpace (c : Z) : bool :=
  between 9 13 c || (c =? 32)%Z || (c =? 160)%Z || (c =? 5760)%Z
  || between 8192 8202 c || (c =? 8232)%Z || (c =? 8233)%Z || (c =? 8239)%Z
  || (c =? 8287)%Z || (c =? 12288)%Z || (c =? 65279)%Z.

Definition isLineTerminator (c : Z) : bool :=
  (c =? 10)%Z || (c =? 13)%Z || (c =? 8232)%Z || (c =? 8233)%Z.

Definition wordBefore (p : Pos) : bool :=
  match p.1 with Some c => isWordChar c | None => false end.

Definition wordAfter (p : Pos) : bool :=
  match p.2 with c :: _ => isWordChar c | [] => false end.

(** A greedy repetition: [step] is the matcher of the repeated pattern.
    Another iteration is tried first, and it must consume something; when
    no iteration leads to a match the repetition stops here.  The input
    that remains bounds the number of iterations. *)
Fixpoint starLoop (step : (Pos -> option Pos) -> Pos -> option Pos)
    (k : Pos -> option Pos) (fuel : nat) (p : Pos) : option Pos :=
  match fuel with
  | O => k p
  | S fuel' =>
      match step (fun p' => if (length p'.2 <? length p.2)%nat
                            then starLoop step k fuel' p' else None) p with
      | Some q => Some q
      | None => k p
      end
  end.

(** The backtracking matcher: [matchRegex r k p] tries the ways [r] can
    match at [p] in priority order and returns the first result the
    continuation [k] accepts. *)
Fixpoint matchRegex (r : Regex) (k : Pos -> option Pos) (p : Pos)
  : option Pos :=
  match r with
  | Eps => k p
  | Chr test =>
      match p.2 with
      | c :: rest => if test c then k (Some c, rest) else None
      | [] => None
      end
  | Seq a b => matchRegex a (matchRegex b k) p
  | Alt a b =>
      match matchRegex a k p with
      | Some q => Some q
      | None => matchRegex b k p
      end
  | Star a => starLoop (matchRegex a) k (length p.2) p
  | Bol => match p.1 with None => k p | Some _ => None end
  | Eol => match p.2 with [] => k p | _ :: _ => None end
  | WordBoundary => if xorb (wordBefore p) (wordAfter p) then k p else None
  | NotAhead a =>
      match matchRegex a Some p with
      | Some _ => None
      | None => k p
      end
  end.

(** The code unit before the position reached after [consumed], when the
    one before [consumed] was [prev]. *)
Fixpoint prevAfter (prev : option Z) (consumed : jsstring) : option Z :=
  match consumed with
  | [] => prev
  | c :: rest => prevAfter (Some c) rest
  end.

(** The leftmost match at or after a position: where it ends. *)
Fixpoint searchFrom (r : Regex) (prev : option Z) (rest : jsstring)
  : option Pos :=
  match matchRegex r Some (prev, rest) with
  | Some q => Some q
  | None =>
      match rest with
      | c :: rest' => searchFrom r (Some c) rest'
      | [] => None
      end
  end.

(** A [RegExp] object: its pattern and whether it carries the [g] flag.
    Its [lastIndex] is kept by the owner of the object. *)
Record RegExp : Type := mkRegExp {
  pattern : Regex;
  global : bool
}.

(** The code unit before index [i] of [s]. *)
Definition charBefore (i : nat) (s : jsstring) : option Z :=
  match i with
  | O => None
  | S j => nth_error s j
  end.

(** [re.test(s)] for an object whose [lastIndex] is [lastIndex]: the result
    and the new [lastIndex].  Without the [g] flag the search starts at 0
    and [lastIndex] is left alone; with it the search starts at
    [lastIndex], which becomes the end of the match, or 0 when there is
    none. *)
Definition test (re : RegExp) (lastIndex : nat) (s : jsstring) : bool * nat :=
  if global re then
    if (length s <? lastIndex)%nat then (false, 0%nat)
    else
      match searchFrom (pattern re) (charBefore lastIndex s) (drop lastIndex s) with
      | Some q => (true, (length s - length q.2)%nat)
      | None => (false, 0%nat)
      end
  else
    match searchFrom (pattern re) None s with
    | Some _ => (true, lastIndex)
    | None => (false, lastIndex)
    end.

(** Whether the pattern matches somewhere in [s]. *)
Definition matches (re : RegExp) (s : jsstring) : bool :=
  match searchFrom (pattern re) None s with
  | Some _ => true
  | None => false
  end.

(** The loop [for (const pattern of PATTERNS) if (pattern.test(s)) ...]
    over objects whose [lastIndex] values are [state]: whether a test
    succeeded (the loop is left at the first one), and the new values. *)
Fixpoint testAll (res : list RegExp) (state : list nat) (s : jsstring)
  : bool * list nat :=
  match res, state with
  | re :: res', i :: state' =>
      let '(found, i') := test re i s in
      if found then (true, i' :: state')
      else let '(found', state'') := testAll res' state' s in
           (found', i' :: state'')
  | _, _ => (false, state)
  end.

(** The [lastIndex] values of freshly created objects. *)
Definition fresh (res : list RegExp) : list nat := map (fun _ => 0%nat) res.

(** *** Building patterns *)

Definition char (c : Z) : Regex := Chr (fun x => (x =? c)%Z).
Definition notChar (c : Z) : Regex := Chr (fun x => negb (x =? c)%Z).

(** A literal character under the [i] flag. *)
Definition foldCase (c : Z) : Z :=
  if between 65 90 c then (c + 32)%Z else c.

Definition charCI (c : Z) : Regex :=
  Chr (fun x => (foldCase x =? foldCase c)%Z).

Fixpoint seqOf (rs : list Regex) : Regex :=
  match rs with
  | [] => Eps
  | [r] => r
  | r :: rs' => Seq r (seqOf rs')
  end.

(** A literal, and a literal under the [i] flag. *)
Definition lit (s : string) : Regex := seqOf (map char (js s)).
Definition litCI (s : string) : Regex := seqOf (map charCI (js s)).

Definition plus (r : Regex) : Regex := Seq r (Star r).
Definition opt (r : Regex) : Regex := Alt r Eps.
(** [.]: any code unit but a line terminator. *)
Definition dot : Regex := Chr (fun x => negb (isLineTerminator x)).
Definition space : Regex := Chr isSpace.
Definition word : Regex := Chr isWordChar.

End RegExp.

(* ===================================================================== *)
(** ** xss-protection.ts                                                  *)
(* ===================================================================== *)

Module Xss.

Import Js RegExp.

(** The closing tag of the first pattern. *)
Definition closeTag : Regex := litCI "</script>".

(** The repeated group of the first pattern: not at the closing tag, one
    [<], then any run of characters other than [<]. *)
Definition scriptGroup : Regex :=
  seqOf [NotAhead closeTag; char 60; Star (notChar 60)].

Definition scriptPattern : Regex :=
  seqOf [litCI "<script"; WordBoundary; Star (notChar 60); Star scriptGroup;
         closeTag].

(** [XSS_PATTERNS]: ten objects created once, when the module is loaded,
    all with the flags [gi]. *)
Definition XSS_PATTERNS : list RegExp :=
  map (fun r => {| pattern := r; global := true |})
    [ scriptPattern;
      litCI "javascript:";
      litCI "vbscript:";
      seqOf [litCI "on"; plus word; Star space; char 61];
      seqOf [litCI "expression"; Star space; char 40];
      seqOf [litCI "url"; Star space; char 40];
      litCI "&lt;script";
      litCI "&lt;iframe";
      litCI "data:text/html";
      seqOf [char 60; Star space; litCI "meta"; plus space; litCI "http-equiv"] ].

(** [s.replace(/pat/g, by)] for a literal [pat]: the occurrences are
    replaced from left to right, without overlap. *)
Fixpoint replaceLiteral (pat by_ : jsstring) (skip : nat) (s : jsstring)
  : jsstring :=
  match s with
  | [] => []
  | c :: rest =>
      match skip with
      | S n => replaceLiteral pat by_ n rest
      | O =>
          match stripPrefix pat s with
          | Some _ => by_ ++ replaceLiteral pat by_ (length pat - 1) rest
          | None => c :: replaceLiteral pat by_ 0 rest
          end
      end
  end.

Definition replaceAll (pat by_ : string) (s : jsstring) : jsstring :=
  replaceLiteral (js pat) (js by_) 0 s.

(** Step 3 of [sanitizeXSS]: six replacements, one after the other. *)
Definition decodeEntities (s : jsstring) : jsstring :=
  replaceAll "&#x2F;" "/"
    (replaceAll "&#x27;" "'"
       (replaceLiteral (js "&quot;") [34%Z] 0
          (replaceAll "&gt;" ">"
             (replaceAll "&lt;" "<"
                (replaceAll "&amp;" "&" s))))).

(** What a call of [sanitizeXSS] does: it returns a string, or it throws
    (always the same error, whatever was thrown inside). *)
Inductive Outcome : Type :=
| Returned (s : jsstring)
| Threw.

Definition MAX_LENGTH : Z := 10000.

Section WithDOMPurify.

(** [DOMPurify.sanitize(input, PURIFY_CONFIG)], with no tag and no
    attribute allowed and the text content kept. *)
Variable purify : jsstring -> jsstring.

(** [sanitizeXSS] on a non-empty string, for pattern objects whose
    [lastIndex] values are [state]. *)
Definition sanitizeXSS (state : list nat) (input : jsstring)
  : Outcome * list nat :=
  match input with
  | [] => (Returned input, state)
  | _ :: _ =>
      let '(found, state1) := testAll XSS_PATTERNS state input in
      if found then (Threw, state1)
      else
        let sanitized := decodeEntities (purify input) in
        let '(found', state2) := testAll XSS_PATTERNS state1 sanitized in
        if found' then (Threw, state2)
        else if (MAX_LENGTH <? Z.of_nat (length sanitized))%Z then (Threw, state2)
        else (Returned sanitized, state2)
  end.

End WithDOMPurify.

(** Whether one of the dangerous patterns matches somewhere in [s]. *)
Definition dangerous (s : jsstring) : bool :=
  existsb (fun re => matches re s) XSS_PATTERNS.

(** The input holds a script element: an opening tag, any text, and the
    closing tag. *)
Definition containsScript (s : jsstring) : Prop :=
  exists pre body post,
    s = pre ++ js "<script>" ++ body ++ js "</script>" ++ post.

(** The closing tag lies somewhere ahead. *)
Definition closeAhead (t : jsstring) : Prop :=
  exists u post, t = u ++ js "</script>" ++ post.



(** Stand-ins for the purifier on concrete runs: one that returns its
    input, and one that drops everything from the first [<] on. *)
Definition keepAll (s : jsstring) : jsstring := s.

Fixpoint dropFromTag (s : jsstring) : jsstring :=
  match s with
  | [] => []
  | c :: rest => if (c =? 60)%Z then [] else c :: dropFromTag rest
  end.

End Xss.

(* ===================================================================== *)
(** ** path-traversal-protection.ts                                       *)
(* ===================================================================== *)

(** Node's [path] module on a POSIX host: [normalize], [resolve],
    [extname] and [basename] work on the segments between [/]. *)
Module Path.

Import Js.

Definition SLASH : Z := 47.
Definition DOT : Z := 46.

(** The segments between the separators; an empty string has one empty
    segment. *)
Fixpoint splitOn (sep : Z) (s : jsstring) : list jsstring :=
  match s with
  | [] => [[]]
  | c :: rest =>
      if (c =? sep)%Z then [] :: splitOn sep rest
      else match splitOn sep rest with
           | seg :: segs => (c :: seg) :: segs
           | [] => [[c]]
           end
  end.

Fixpoint join (segs : list jsstring) : jsstring :=
  match segs with
  | [] => []
  | [seg] => seg
  | seg :: segs' => seg ++ SLASH :: join segs'
  end.

(** One segment met by [normalizeString]; [stack] holds the segments kept
    so far, the last one first.  Empty segments and [.] are skipped;
    [..] removes the last segment unless there is none or it is [..]
    itself, in which case it is kept when the path may climb above its
    start. *)
Definition normalizeStep (allowAboveRoot : bool) (stack : list jsstring)
    (seg : jsstring) : list jsstring :=
  if jsstring_eqb seg [] || jsstring_eqb seg [DOT] then stack
  else if jsstring_eqb seg [DOT; DOT] then
    match stack with
    | top :: stack' =>
        if jsstring_eqb top [DOT; DOT]
        then (if allowAboveRoot then seg :: stack else stack)
        else stack'
    | [] => if allowAboveRoot then [seg] else []
    end
  else seg :: stack.

Definition normalizeSegments (allowAboveRoot : bool) (path : jsstring)
  : list jsstring :=
  rev (fold_left (normalizeStep allowAboveRoot) (splitOn SLASH path) []).

Definition normalizeString (path : jsstring) (allowAboveRoot : bool)
  : jsstring :=
  join (normalizeSegments allowAboveRoot path).

Definition isAbsolute (path : jsstring) : bool :=
  match path with c :: _ => (c =? SLASH)%Z | [] => false end.

Definition trailingSeparator (path : jsstring) : bool :=
  match rev path with c :: _ => (c =? SLASH)%Z | [] => false end.

(** [path.normalize]. *)
Definition normalize (path : jsstring) : jsstring :=
  match path with
  | [] => [DOT]
  | _ :: _ =>
      let body := normalizeString path (negb (isAbsolute path)) in
      match body with
      | [] =>
          if isAbsolute path then [SLASH]
          else if trailingSeparator path then [DOT; SLASH] else [DOT]
      | _ :: _ =>
          let body' := if trailingSeparator path then body ++ [SLASH] else body in
          if isAbsolute path then SLASH :: body' else body'
      end
  end.

(** The loop of [path.resolve]: the arguments are taken from the last to
    the first, then the working directory, until an absolute one is
    met. *)
Fixpoint resolveLoop (args : list jsstring) (resolvedPath : jsstring)
  : jsstring * bool :=
  match args with
  | [] => (resolvedPath, false)
  | path :: args' =>
      match path with
      | [] => resolveLoop args' resolvedPath
      | c :: _ =>
          let resolvedPath' := path ++ SLASH :: resolvedPath in
          if (c =? SLASH)%Z then (resolvedPath', true)
          else resolveLoop args' resolvedPath'
      end
  end.

(** [path.resolve(...args)] in the working directory [cwd]. *)
Definition resolve (cwd : jsstring) (args : list jsstring) : jsstring :=
  let '(resolvedPath, resolvedAbsolute) := resolveLoop (rev args ++ [cwd]) [] in
  let body := normalizeString resolvedPath (negb resolvedAbsolute) in
  if resolvedAbsolute then SLASH :: body
  else match body with [] => [DOT] | _ :: _ => body end.

Fixpoint dropSlashes (s : jsstring) : jsstring :=
  match s with
  | c :: rest => if (c =? SLASH)%Z then dropSlashes rest else s
  | [] => []
  end.

(** The last component of a path, trailing separators left out: what
    [basename] returns and [extname] looks at. *)
Definition lastComponent (path : jsstring) : jsstring :=
  List.last (splitOn SLASH (rev (dropSlashes (rev path)))) [].

Definition basename (path : jsstring) : jsstring := lastComponent path.

(** The index of the last [.] of a component. *)
Fixpoint lastDot (s : jsstring) : option nat :=
  match s with
  | [] => None
  | c :: rest =>
      match lastDot rest with
      | Some i => Some (S i)
      | None => if (c =? DOT)%Z then Some 0%nat else None
      end
  end.

(** [path.extname]: from the last [.] of the last component, unless there
    is none, it is the first character of the component, or the
    component is [..]. *)
Definition extname (path : jsstring) : jsstring :=
  let base := lastComponent path in
  match lastDot base with
  | None => []
  | Some O => []
  | Some ((S _) as d) =>
      if jsstring_eqb base [DOT; DOT] then [] else drop d base
  end.

End Path.

Module PathTraversal.

Import Js RegExp Path.

(** *** Platform functions *)

Fixpoint trimStart (s : jsstring) : jsstring :=
  match s with
  | c :: rest => if isSpace c then trimStart rest else s
  | [] => []
  end.

(** [String.prototype.trim]. *)
Definition trim (s : jsstring) : jsstring :=
  rev (trimStart (rev (trimStart s))).

(** [%XY] at the head of the text: the byte and the text after it. *)
Definition takeEscape (s : jsstring) : option (Z * jsstring) :=
  match s with
  | 37%Z :: a :: b :: rest =>
      match hexValue a, hexValue b with
      | Some h, Some l => Some (16 * h + l, rest)%Z
      | _, _ => None
      end
  | _ => None
  end.

Fixpoint takeEscapes (n : nat) (s : jsstring) : option (bytes * jsstring) :=
  match n with
  | O => Some ([], s)
  | S n' =>
      match takeEscape s with
      | Some (b, rest) =>
          match takeEscapes n' rest with
          | Some (bs, rest') => Some (b :: bs, rest')
          | None => None
          end
      | None => None
      end
  end.

(** The number of bytes a UTF-8 sequence has when it starts with [b]
    (at least 128); [None] for a continuation byte and for more than
    four leading one bits. *)
Definition sequenceLength (b : Z) : option nat :=
  if between 192 223 b then Some 2%nat
  else if between 224 239 b then Some 3%nat
  else if between 240 247 b then Some 4%nat
  else None.

Definition isContinuation (b : Z) : bool := between 128 191 b.

(** The code point of a well-formed UTF-8 sequence of two to four
    bytes. *)
Definition decodeOctets (octets : bytes) : option Z :=
  match octets with
  | [b0; b1] =>
      let cp := ((b0 - 192) * 64 + (b1 - 128))%Z in
      if isContinuation b1 && (128 <=? cp)%Z then Some cp else None
  | [b0; b1; b2] =>
      let cp := ((b0 - 224) * 4096 + (b1 - 128) * 64 + (b2 - 128))%Z in
      if isContinuation b1 && isContinuation b2 && (2048 <=? cp)%Z
         && negb (between 55296 57343 cp)
      then Some cp else None
  | [b0; b1; b2; b3] =>
      let cp := ((b0 - 240) * 262144 + (b1 - 128) * 4096
                 + (b2 - 128) * 64 + (b3 - 128))%Z in
      if isContinuation b1 && isContinuation b2 && isContinuation b3
         && between 65536 1114111 cp
      then Some cp else None
  | _ => None
  end.

Fixpoint decodeFrom (fuel : nat) (s : jsstring) : option jsstring :=
  match fuel with
  | O => Some []
  | S fuel' =>
      match s with
      | [] => Some []
      | c :: rest =>
          if (c =? 37)%Z then
            match takeEscape s with
            | None => None
            | Some (b, rest1) =>
                if (b <? 128)%Z then cons b <$> decodeFrom fuel' rest1
                else
                  match sequenceLength b with
                  | None => None
                  | Some n =>
                      match takeEscapes (n - 1) rest1 with
                      | None => None
                      | Some (more, rest2) =>
                          match decodeOctets (b :: more) with
                          | None => None
                          | Some cp => app (utf16 cp) <$> decodeFrom fuel' rest2
                          end
                      end
                  end
            end
          else cons c <$> decodeFrom fuel' rest
      end
  end.

(** [decodeURIComponent]; [None] stands for a [URIError]. *)
Definition decodeURIComponent (s : jsstring) : option jsstring :=
  decodeFrom (length s) s.

(** Lower case of an ASCII text. *)
Definition asciiLower (s : jsstring) : jsstring := map foldCase s.

(** What is assumed of [String.prototype.toLowerCase]. *)
Definition lowersAscii (toLowerCase : jsstring -> jsstring) : Prop :=
  forall s, forallb isAscii s = true -> toLowerCase s = asciiLower s.

Fixpoint startsWith (s prefix : jsstring) : bool :=
  match prefix, s with
  | [], _ => true
  | p :: prefix', c :: s' => (c =? p)%Z && startsWith s' prefix'
  | _ :: _, [] => false
  end.

Definition includes (l : list jsstring) (s : jsstring) : bool :=
  existsb (jsstring_eqb s) l.

(** *** The tables *)

Definition dots2 : Regex := lit "..".
(** Two dots or more. *)
Definition dotsMany : Regex := seqOf [char 46; char 46; Star (char 46)].
Definition anySlash : Regex := Chr (fun c => (c =? 92)%Z || (c =? 47)%Z).

Definition g (r : Regex) : RegExp := {| pattern := r; global := true |}.
Definition once (r : Regex) : RegExp := {| pattern := r; global := false |}.

Definition DANGEROUS_PATH_PATTERNS : list RegExp :=
  [ g dots2;
    once (Alt (lit "./") (lit ".\"));
    g dotsMany;
    g (lit "/..");
    g (seqOf [lit "\.."; opt (char 92)]);
    once (Alt (lit "../") (lit "..\"));
    g (lit "../");
    g (seqOf [char 47; dotsMany]);
    g (seqOf [char 92; dotsMany; opt (char 92)]);
    g (litCI "%2e%2e");
    g (litCI "%252e%252e");
    g (litCI "%c0%ae%c0%ae");
    g (litCI "%e0%80%ae%e0%80%ae");
    g dots2;
    g (litCI ".%2e");
    g (litCI "%2e.");
    g (litCI ".%252e");
    g (litCI "%252e.");
    g (seqOf [char 63; Star dot; dots2]);
    g (seqOf [char 35; Star dot; dots2]);
    g (litCI "file:");
    g (seqOf [Bol; litCI "/proc/"]);
    g (seqOf [Bol; litCI "/dev/"]);
    g (seqOf [Bol; litCI "/sys/"]);
    g (seqOf [Bol; litCI "C:\Windows\"]);
    g (seqOf [Bol; litCI "C:\Program Files\"]);
    g (seqOf [Bol; litCI "/etc/"]);
    g (seqOf [Bol; litCI "/var/"]);
    g (seqOf [Bol; litCI "/root/"]);
    g (seqOf [Bol; litCI "/home/"; Star dot; litCI "/."]);
    g (seqOf [dots2; anySlash]);
    g (seqOf [anySlash; dots2; anySlash]);
    g (seqOf [Bol; dots2]);
    g (seqOf [dots2; Eol]) ].

Definition DANGEROUS_EXTENSIONS : list jsstring :=
  map js [ ".exe"; ".bat"; ".cmd"; ".scr"; ".vbs"; ".js"; ".jar";
           ".sh"; ".ps1"; ".py"; ".php"; ".asp"; ".aspx"; ".jsp";
           ".dll"; ".sys"; ".ini"; ".cfg"; ".conf"; ".htaccess";
           ".passwd"; ".shadow"; ".key"; ".pem"; ".crt" ].

Definition FORBIDDEN_DIRECTORIES : list jsstring :=
  map js [ "/etc"; "/proc"; "/dev"; "/sys"; "/root"; "/boot";
           "/var/log"; "/var/lib"; "/usr/bin"; "/usr/sbin";
           "C:\Windows"; "C:\Program Files"; "C:\Program Files (x86)";
           "C:\Users\Default"; "C:\ProgramData";
           "C:\System Volume Information";
           "/System"; "/Library"; "/private"; "/usr/local/bin" ].

Definition FORBIDDEN_FILENAMES : list jsstring :=
  map js [ "passwd"; "shadow"; "hosts"; "fstab"; "sudoers";
           "web.config"; ".htaccess"; ".htpasswd"; ".env";
           "config.php"; "wp-config.php"; "database.yml";
           "secrets.json"; "private.key"; "id_rsa"; "id_dsa" ].

(** The class of [invalidChars]: [<>:|?*], the double quote, the control
    characters and DEL. *)
Definition isInvalidChar (c : Z) : bool :=
  (c =? 60)%Z || (c =? 62)%Z || (c =? 58)%Z || (c =? 34)%Z || (c =? 124)%Z
  || (c =? 63)%Z || (c =? 42)%Z || between 0 31 c || (c =? 127)%Z.

Definition invalidChars : RegExp := g (Chr isInvalidChar).

(** *** Results *)

Inductive Severity : Type := low | medium | high | critical.

Inductive Reason : Type :=
| InvalidPath
| TraversalDetected
| DangerousExtension (ext : jsstring)
| ForbiddenAccess (forbiddenDir : jsstring)
| ForbiddenSystemFile (filename : jsstring)
| PathTooLong
| InvalidCharacters.

Record PathValidationResult : Type := mkResult {
  isValid : bool;
  sanitized : option jsstring;
  reason : option Reason;
  severity : Severity
}.

Definition invalid (r : Reason) (s : Severity) : PathValidationResult :=
  {| isValid := false; sanitized := None; reason := Some r; severity := s |}.

Definition valid (p : jsstring) : PathValidationResult :=
  {| isValid := true; sanitized := Some p; reason := None; severity := low |}.

(** The decoding loop: at most five rounds, until the text no longer
    changes; a round that fails keeps the text of the round before. *)
Fixpoint decodeLoop (rounds : nat) (decodedPath previousPath : jsstring)
  : jsstring :=
  match rounds with
  | O => decodedPath
  | S rounds' =>
      if jsstring_eqb decodedPath previousPath then decodedPath
      else match decodeURIComponent decodedPath with
           | None => decodedPath
           | Some decoded' => decodeLoop rounds' decoded' decodedPath
           end
  end.

Definition replaceBackslashes (s : jsstring) : jsstring :=
  map (fun c => if (c =? 92)%Z then 47%Z else c) s.

Section WithPlatform.

Variable toLowerCase : jsstring -> jsstring.
(** [process.cwd()]. *)
Variable cwd : jsstring.

(** [sanitizeFilePath(filePath)], with the [lastIndex] values of the
    module's pattern objects before the call: the result, the values
    after the call, and the security events logged.  The error of
    [decodeURIComponent] is caught inside the decoding loop and no other
    step throws on a string, so the outer [catch] has no case here.
    [invalidChars] is created by the call and starts at 0. *)
Definition sanitizeFilePath (state : list nat) (filePath : jsstring)
  : PathValidationResult * list nat * list LogEntry :=
  match filePath with
  | [] => (invalid InvalidPath medium, state, [])
  | _ :: _ =>
      let originalPath := trim filePath in
      let decodedPath := decodeLoop 5 originalPath [] in
      let '(found, state') := testAll DANGEROUS_PATH_PATTERNS state decodedPath in
      if found then
        (invalid TraversalDetected high, state',
         [SecurityEvent "SUSPICIOUS_ACTIVITY" "path_traversal_attempt" "HIGH"])
      else
        let normalizedPath := replaceBackslashes (normalize decodedPath) in
        let ext := toLowerCase (extname normalizedPath) in
        if includes DANGEROUS_EXTENSIONS ext then
          (invalid (DangerousExtension ext) high, state', [])
        else
          match find (fun forbiddenDir =>
                        startsWith (toLowerCase normalizedPath)
                                   (toLowerCase forbiddenDir))
                     FORBIDDEN_DIRECTORIES with
          | Some forbiddenDir =>
              (invalid (ForbiddenAccess forbiddenDir) critical, state',
               [SecurityEvent "ACCESS_DENIED" "forbidden_directory_access"
                  "CRITICAL"])
          | None =>
              let filename := toLowerCase (basename normalizedPath) in
              if existsb (fun forbiddenFile =>
                            jsstring_eqb filename forbiddenFile
                            || startsWith filename (forbiddenFile ++ [46%Z]))
                         FORBIDDEN_FILENAMES
              then (invalid (ForbiddenSystemFile filename) high, state', [])
              else if (255 <? Z.of_nat (length normalizedPath))%Z
              then (invalid PathTooLong medium, state', [])
              else if matches invalidChars normalizedPath
              then (invalid InvalidCharacters medium, state', [])
              else (valid normalizedPath, state', [])
          end
  end.

(** [createSecurePath(basePath, userPath)]; [None] is [null]. *)
Definition createSecurePath (state : list nat) (basePath userPath : jsstring)
  : option jsstring * list nat * list LogEntry :=
  let '(validation, state', events) := sanitizeFilePath state userPath in
  match isValid validation, sanitized validation with
  | true, Some ((_ :: _) as sanitizedPath) =>
      let fullPath := resolve cwd [basePath; sanitizedPath] in
      let normalizedBasePath := resolve cwd [basePath] in
      if negb (startsWith fullPath normalizedBasePath) then
        (None, state',
         events ++ [SecurityEvent "SUSPICIOUS_ACTIVITY" "path_escape_attempt"
                      "CRITICAL"])
      else (Some fullPath, state', events)
  | _, _ => (None, state', events)
  end.

(** The segments of the absolute form of a path. *)
Definition segmentsOf (p : jsstring) : list jsstring :=
  normalizeSegments false (resolve cwd [p]).

Fixpoint properPrefix (a b : list jsstring) : bool :=
  match a, b with
  | [], _ :: _ => true
  | x :: a', y :: b' => jsstring_eqb x y && properPrefix a' b'
  | _, [] => false
  end.

(** [p], once resolved, lies strictly inside the directory [base]: the
    segments of [base] are the first segments of [p], and [p] has
    more. *)
Definition strictDescendant (base p : jsstring) : bool :=
  properPrefix (segmentsOf base) (segmentsOf p).

End WithPlatform.

End PathTraversal.

(* ===================================================================== *)
(** ** The credentials manager: construction and what its maps satisfy    *)
(* ===================================================================== *)

Module CredentialsState.

Import Credentials.

(** The two maps of a manager before its constructor has run. *)
Definition emptyManager : Manager := {| secrets := ∅; rotationTimers := ∅ |}.

(** Every secret's version is its rotation count plus one. *)
Definition versionsCountRotations (m : Manager) : Prop :=
  forall name es,
    secrets m !! name = Some es ->
    version (metadata es) = (rotationCount (metadata es) + 1)%N.

(** Every pending rotation timer belongs to a stored secret. *)
Definition timersHaveSecrets (m : Manager) : Prop :=
  forall name due,
    rotationTimers m !! name = Some due -> is_Some (secrets m !! name).

Section WithCrypto.

Variable base64 : list N -> string.
Variable gcmEncrypt : string -> option (string * string).

(** [initializeSecrets]: the signing key is stored under [jwt_primary]
    unless the name is taken; [None] when [storeSecret] throws. *)
Definition initializeSecrets (now : Z) (e : Entropy) (JWT_SECRET : string)
    (m : Manager) : option (Manager * list LogEntry) :=
  match secrets m !! "jwt_primary" with
  | Some _ => Some (m, [SecureLog "info" "CREDENTIALS_MANAGER_INITIALIZED"])
  | None =>
      match storeSecret base64 gcmEncrypt now e "jwt_primary" JWT_SECRET jwt m with
      | Some (m', lg) =>
          Some (m', lg ++ [SecureLog "info" "CREDENTIALS_MANAGER_INITIALIZED"])
      | None => None
      end
  end.

(** [new SecureCredentialsManager()]. *)
Definition construct (now : Z) (e : Entropy) (JWT_SECRET : string)
  : option (Manager * list LogEntry) :=
  initializeSecrets now e JWT_SECRET emptyManager.

End WithCrypto.

End CredentialsState.

(* ===================================================================== *)
(** ** [SECURE_JWT_CONFIG] and [ENV_SECURITY_CHECKS]                      *)
(* ===================================================================== *)

Module EnvChecks.

Import Credentials.

(** [SECURE_JWT_CONFIG.secret()]:
    [credentialsManager.getSecret('jwt_primary') || config.JWT_SECRET]. *)
Definition jwtSecret (gcmDecrypt : string -> string -> option string)
    (JWT_SECRET : string) (m : Manager) : string :=
  match (getSecret gcmDecrypt "jwt_primary" m).1 with
  | Some s => if truthy s then s else JWT_SECRET
  | None => JWT_SECRET
  end.

Fixpoint dropChars (n : nat) (s : string) : string :=
  match n, s with
  | S n', String _ rest => dropChars n' rest
  | _, _ => s
  end.

(** [s.split(sep)[0]] for a separator that is not empty: the text before
    its first occurrence, or all of [s]. *)
Fixpoint beforeFirst (sep s : string) : string :=
  if String.prefix sep s then ""
  else match s with
       | String c rest => String c (beforeFirst sep rest)
       | EmptyString => ""
       end.

(** The text after the first occurrence of [sep]. *)
Fixpoint afterFirst (sep s : string) : option string :=
  if String.prefix sep s then Some (dropChars (String.length sep) s)
  else match s with
       | String _ rest => afterFirst sep rest
       | EmptyString => None
       end.

(** [s.split(sep)[1]]: the text between the first two occurrences of
    [sep]; [None] is [undefined]. *)
Definition splitSecond (sep s : string) : option string :=
  match afterFirst sep s with
  | Some rest => Some (beforeFirst sep rest)
  | None => None
  end.

Inductive Severity : Type := LOW | MEDIUM | HIGH | CRITICAL.

Record Issue : Type := mkIssue {
  variable : string;
  severity : Severity
}.

(** What the checks read: [config] and [process.env.NODE_ENV]. *)
Record Environment : Type := mkEnvironment {
  JWT_SECRET : string;
  DATABASE_URL : option string;
  NODE_ENV : string;
  process_env_NODE_ENV : option string
}.

Definition jwtTooShort (env : Environment) : bool :=
  negb (truthy (JWT_SECRET env)) || (String.length (JWT_SECRET env) <? 32)%nat.

(** The password of the database URL is found after [password=], up to the
    next [&] and [@]; it is reported when it is not empty and shorter than
    12 characters. *)
Definition databasePasswordTooShort (env : Environment) : bool :=
  match DATABASE_URL env with
  | None => false
  | Some url =>
      if RateLimit.includes "password=" url then
        match splitSecond "password=" url with
        | Some urlParts =>
            if truthy urlParts then
              let passwordPart := beforeFirst "@" (beforeFirst "&" urlParts) in
              truthy passwordPart && (String.length passwordPart <? 12)%nat
            else false
        | None => false
        end
      else false
  end.

Definition environmentMismatch (env : Environment) : bool :=
  String.eqb (NODE_ENV env) "development"
  && match process_env_NODE_ENV env with
     | Some v => String.eqb v "production"
     | None => false
     end.

Definition validateEnvironmentSecrets (env : Environment) : list Issue :=
  (if jwtTooShort env
   then [{| variable := "JWT_SECRET"; severity := CRITICAL |}] else [])
  ++ (if databasePasswordTooShort env
      then [{| variable := "DATABASE_URL"; severity := HIGH |}] else [])
  ++ (if environmentMismatch env
      then [{| variable := "NODE_ENV"; severity := HIGH |}] else []).

Definition isSeverity (s : Severity) (i : Issue) : bool :=
  match s, severity i with
  | LOW, LOW | MEDIUM, MEDIUM | HIGH, HIGH | CRITICAL, CRITICAL => true
  | _, _ => false
  end.

Record Report : Type := mkReport {
  score : Z;
  issues : list Issue;
  recommendations : nat
}.

(** [generateSecurityReport]; of the recommendations, a fixed list of five
    texts, the number is kept. *)
Definition generateSecurityReport (env : Environment) : Report :=
  let issues := validateEnvironmentSecrets env in
  let criticalCount := Z.of_nat (length (List.filter (isSeverity CRITICAL) issues)) in
  let highCount := Z.of_nat (length (List.filter (isSeverity HIGH) issues)) in
  let mediumCount := Z.of_nat (length (List.filter (isSeverity MEDIUM) issues)) in
  {| score := Z.max 0 (100 - criticalCount * 40 - highCount * 20 - mediumCount * 10);
     issues := issues;
     recommendations := 5 |}.

(** A sample environment: a long signing key and a database URL whose
    password has five characters. *)
Definition sampleEnvironment : Environment :=
  {| JWT_SECRET := "0123456789abcdef0123456789abcdef";
     DATABASE_URL := Some "postgres://db.local/app?user=fos&password=hello&ssl=1";
     NODE_ENV := "production";
     process_env_NODE_ENV := Some "production" |}.

End EnvChecks.

(* ===================================================================== *)
(** ** advanced-rate-limit.ts: lifting a block                            *)
(* ===================================================================== *)

Module RateLimitAdmin.

Import RateLimit.

(** [DEL key]: the number of keys removed, 1 when the key was there and 0
    otherwise. *)
Definition del (now : Z) (key : string) (st : Redis.Store)
  : option (N * Redis.Store) :=
  if Redis.up st then
    Some (match Redis.lookupLive now key st with
          | Some _ => 1%N
          | None => 0%N
          end,
          {| Redis.up := true; Redis.data := base.delete key (Redis.data st) |})
  else None.

(** [unblockIP]: a cache error is logged and read as "nothing
    unblocked". *)
Definition unblockIP (now : Z) (ip : string) (st : Redis.Store)
  : bool * Redis.Store * list LogEntry :=
  match del now (generateBlockKey ip) st with
  | Some (result, st') =>
      if (0 <? result)%N then (true, st', [SecureLog "info" "IP_UNBLOCKED"])
      else (false, st', [])
  | None => (false, st, [SecureLog "error" "UNBLOCK_IP_ERROR"])
  end.

(** A cache that commands do not reach. *)
Definition unreachable (st : Redis.Store) : Redis.Store :=
  {| Redis.up := false; Redis.data := Redis.data st |}.

End RateLimitAdmin.

(* ===================================================================== *)
(** ** cors-security.ts: the request guard                                *)
(* ===================================================================== *)

Module CorsMiddleware.

Import Cors.

Record Request : Type := mkRequest {
  method : string;
  url : string;
  ip : string;
  (** [request.headers[name]]: [None] when the header is absent. *)
  headers : string -> option string
}.

Inductive Reply : Type :=
| Continue
| Reject (status : N) (code : string).

Definition suspiciousHeaders : list string :=
  ["x-forwarded-host"; "x-real-ip"; "x-forwarded-for"; "forwarded"].

Definition header (req : Request) (name : string) : option string :=
  match headers req name with
  | Some v => if truthy v then Some v else None
  | None => None
  end.

Section WithPlatform.

Variable parseURL : string -> option URL.
Variable NODE_ENV : string.

(** The events logged for proxy headers, in production only. *)
Definition proxyHeaderEvents (req : Request) : list LogEntry :=
  flat_map
    (fun name =>
       match header req name with
       | Some headerValue =>
           if String.eqb NODE_ENV "production"
              && negb (RateLimit.includes "127.0.0.1" headerValue)
           then [SecurityEvent "SUSPICIOUS_ACTIVITY" (url req) "MEDIUM"]
           else []
       | None => []
       end)
    suspiciousHeaders.

(** The hook returned by [corsSecurityMiddleware()]: the reply, the events
    logged, and whether the random delay of a preflight request is
    awaited. *)
Definition corsSecurityMiddleware (req : Request)
  : Reply * list LogEntry * bool :=
  let method := RateLimit.toUpperCase (method req) in
  if existsb (String.eqb method) FORBIDDEN_METHODS then
    (Reject 405 "METHOD_NOT_ALLOWED",
     [SecurityEvent "SUSPICIOUS_ACTIVITY" (url req) "HIGH"], false)
  else
    let checked :=
      if negb (String.eqb (CorsMiddleware.method req) "GET")
         && negb (String.eqb (CorsMiddleware.method req) "HEAD")
         && negb (String.eqb (CorsMiddleware.method req) "OPTIONS")
      then
        match header req "origin", header req "referer" with
        | Some origin, Some referer =>
            match parseURL origin, parseURL referer with
            | Some originUrl, Some refererUrl =>
                if negb (String.eqb (url_origin originUrl) (url_origin refererUrl))
                then Some (Reject 403 "CORS_SECURITY_VIOLATION",
                           [SecurityEvent "SUSPICIOUS_ACTIVITY" (url req) "HIGH"])
                else None
            | _, _ =>
                Some (Reject 400 "MALFORMED_HEADERS",
                      [SecurityEvent "ACCESS_DENIED" (url req) "MEDIUM"])
            end
        | _, _ => None
        end
      else None in
    match checked with
    | Some (reply, events) => (reply, events, false)
    | None =>
        (Continue, proxyHeaderEvents req,
         String.eqb (CorsMiddleware.method req) "OPTIONS")
    end.

End WithPlatform.

(** A parser for sample runs: it knows three URLs. *)
Definition sampleParse (s : string) : option URL :=
  if String.eqb s "https://freelance-os.com"
  then Some {| url_origin := "https://freelance-os.com";
               url_hostname := "freelance-os.com"; url_port := "";
               url_protocol := "https:" |}
  else if String.eqb s "http://localhost:5173"
  then Some {| url_origin := "http://localhost:5173"; url_hostname := "localhost";
               url_port := "5173"; url_protocol := "http:" |}
  else if String.eqb s "http://localhost"
  then Some {| url_origin := "http://localhost"; url_hostname := "localhost";
               url_port := ""; url_protocol := "http:" |}
  else None.

Definition sampleRequest : Request :=
  {| method := "POST"; url := "/api/v1/clients"; ip := "1.2.3.4";
     headers := fun name =>
       if String.eqb name "origin" then Some "https://freelance-os.com" else None |}.

End CorsMiddleware.

(* ===================================================================== *)
(** ** secure-error-handler.ts: the reply to a failed request             *)
(* ===================================================================== *)

Module ErrorResponse.

Import ErrorHandler.

(** What the handler reads of the request. *)
Record Request : Type := mkRequest {
  req_id : string;
  req_url : string;
  req_method : string;
  req_ip : string;
  req_userAgent : option string
}.

(** The error thrown: its [name] and the rest. *)
Record Thrown : Type := mkThrown {
  name : string;
  error : JsError
}.

(** The body sent to the client; the last three fields are present in
    development only. *)
Record ResponseBody : Type := mkResponseBody {
  body_id : string;
  body_type : ErrorType;
  body_message : string;
  body_timestamp : Z;
  body_internalMessage : option string;
  body_severity : option ErrorSeverity;
  body_metadata : option (list (string * string))
}.

Definition sendSecureErrorResponse (NODE_ENV : string) (e : SecureError)
  : N * ResponseBody :=
  let development := String.eqb NODE_ENV "development" in
  (statusCode e,
   {| body_id := id e;
      body_type := type e;
      body_message := userMessage e;
      body_timestamp := timestamp e;
      body_internalMessage := if development then Some (message e) else None;
      body_severity := if development then Some (severity e) else None;
      body_metadata := if development then Some (metadata e) else None |}).

(** An entry of the metadata whose value may be [undefined]: it is then
    left out. *)
Definition entry (key : string) (v : option string) : list (string * string) :=
  match v with Some s => [(key, s)] | None => [] end.

Definition options (req : Request) (severity : option ErrorSeverity)
    (metadata : list (string * string)) : Options :=
  {| opt_userMessage := None; opt_statusCode := None; opt_severity := severity;
     opt_metadata := metadata; opt_requestId := Some (req_id req);
     opt_userId := None |}.

(** The type [secureErrorHandler] gives to an error, and the options it
    passes on: the tests are tried in this order. *)
Definition classify (thrown : Thrown) (req : Request) : ErrorType * Options :=
  let msg := err_message (error thrown) in
  let has needle := RateLimit.includes needle msg in
  if String.eqb (name thrown) "ValidationError" then
    (VALIDATION,
     options req None [("url", req_url req); ("method", req_method req)])
  else if has "Unauthorized" then
    (AUTHENTICATION, options req None [("url", req_url req); ("ip", req_ip req)])
  else if has "Forbidden" then
    (AUTHORIZATION, options req None [("url", req_url req); ("ip", req_ip req)])
  else if has "rate limit" then
    (RATE_LIMIT,
     options req None ([("ip", req_ip req)] ++ entry "userAgent" (req_userAgent req)))
  else if has "database" || has "connection" then
    (DATABASE, options req None [])
  else if has "security" || has "attack" then
    (SECURITY,
     options req (Some CRITICAL)
       ([("ip", req_ip req)] ++ entry "userAgent" (req_userAgent req)
        ++ [("url", req_url req); ("method", req_method req)]))
  else (INTERNAL, options req None []).

(** [secureErrorHandler]: what is logged and what is sent. *)
Definition secureErrorHandler (NODE_ENV : string) (now : Z) (rnd : string)
    (thrown : Thrown) (req : Request) : list Effect * (N * ResponseBody) :=
  let '(t, opts) := classify thrown req in
  let secureError := createSecureError now rnd t (error thrown) opts in
  (logSecureError NODE_ENV secureError (error thrown),
   sendSecureErrorResponse NODE_ENV secureError).

Definition sampleRequest : Request :=
  {| req_id := "req-1"; req_url := "/api/v1/clients"; req_method := "GET";
     req_ip := "1.2.3.4"; req_userAgent := None |}.

End ErrorResponse.

(* ===================================================================== *)
(** ** path-traversal-protection.ts: the request hook                     *)
(* ===================================================================== *)

Module PathGuards.

Import Js RegExp Path PathTraversal.

(** The text [needle] occurs somewhere in [s]. *)
Definition containsText (needle s : jsstring) : Prop :=
  exists pre post, s = pre ++ needle ++ post.

Inductive HookReply : Type :=
| Continue
| Reject (status : N) (code : string).

(** The names of the query parameters the hook looks at. *)
Definition pathParams : list jsstring :=
  map js ["path"; "file"; "filename"; "dir"; "directory"].

Section WithPlatform.

Variable toLowerCase : jsstring -> jsstring.

(** The loop over [Object.entries(request.params)]; a value that is not a
    string is [None].  The result tells whether the request was
    rejected. *)
Fixpoint checkParams (state : list nat)
    (params : list (jsstring * option jsstring))
  : bool * list nat * list LogEntry :=
  match params with
  | [] => (false, state, [])
  | (_, None) :: rest => checkParams state rest
  | (_, Some value) :: rest =>
      let '(validation, state', events) :=
        sanitizeFilePath toLowerCase state value in
      if isValid validation then
        let '(rejected, state'', events') := checkParams state' rest in
        (rejected, state'', events ++ events')
      else
        (true, state',
         events ++ [SecurityEvent "SUSPICIOUS_ACTIVITY" "path_param_attack" "HIGH"])
  end.

(** The loop over the five query parameters; [query name] is the value of
    the parameter when it is a string. *)
Fixpoint checkQuery (state : list nat) (query : jsstring -> option jsstring)
    (names : list jsstring) : bool * list nat * list LogEntry :=
  match names with
  | [] => (false, state, [])
  | param :: rest =>
      match query param with
      | Some ((_ :: _) as value) =>
          let '(validation, state', events) :=
            sanitizeFilePath toLowerCase state value in
          if isValid validation then
            let '(rejected, state'', events') := checkQuery state' query rest in
            (rejected, state'', events ++ events')
          else
            (true, state',
             events
             ++ [SecurityEvent "SUSPICIOUS_ACTIVITY" "path_query_attack" "HIGH"])
      | _ => checkQuery state query rest
      end
  end.

(** The hook returned by [pathTraversalValidationHook()]; [params] and
    [query] are [None] when the request has none. *)
Definition pathTraversalValidationHook (state : list nat)
    (params : option (list (jsstring * option jsstring)))
    (query : option (jsstring -> option jsstring))
  : HookReply * list nat * list LogEntry :=
  let '(rejected, state1, events1) :=
    match params with
    | Some entries => checkParams state entries
    | None => (false, state, [])
    end in
  if rejected then (Reject 400 "INVALID_PATH_PARAM", state1, events1)
  else
    let '(rejected', state2, events2) :=
      match query with
      | Some q => checkQuery state1 q pathParams
      | None => (false, state1, [])
      end in
    if rejected' then (Reject 400 "INVALID_QUERY_PARAM", state2, events1 ++ events2)
    else (Continue, state2, events1 ++ events2).

End WithPlatform.

End PathGuards.

(* ===================================================================== *)
(** ** Paths inside a base directory                                      *)
(* ===================================================================== *)

Module PathInside.

Import Js Path.

(** A segment that [normalizeString] keeps as it is. *)
Definition keptSegment (seg : jsstring) : bool :=
  negb (jsstring_eqb seg [] || jsstring_eqb seg [DOT]).

(** A plain name: not empty, not [..], and without a slash. *)
Definition plainSegment (seg : jsstring) : Prop :=
  seg <> [] /\ seg <> [DOT; DOT] /\ ~ In SLASH seg.

(** [p] is the absolute path [base] followed by further plain segments
    (possibly none): it names [base] itself or something inside it. *)
Definition insideOrEqual (base p : jsstring) : Prop :=
  exists baseSegments extra,
    base = SLASH :: join baseSegments
    /\ p = SLASH :: join (baseSegments ++ extra)
    /\ Forall (fun seg => ~ In SLASH seg) baseSegments
    /\ Forall plainSegment extra.

End PathInside.

(* ===================================================================== *)
(** ** Field encryption ([encryptFields], [decryptFields])                *)
(* ===================================================================== *)

Module FieldEncryption.

Import Js Encryption.

(** An object as the map of its own properties; a value is any JSON
    value, of which only the strings matter here. *)
Abbreviation Obj := (gmap jsstring JSON).

Section WithCipher.

Variable keystream : bytes -> nat -> Z.
Variable bufferFromObject : JSON -> option bytes.
(** [crypto.randomBytes(IV_LENGTH)]: the bytes of the [n]-th draw. *)
Variable randomBytes : nat -> bytes.

(** One round of the loop of [encryptFields]: a property that holds a
    non-empty string is replaced by its token; [drawn] counts the random
    draws made so far.  [None] when [encryptPII] throws. *)
Definition encryptField (acc : Obj * nat) (field : jsstring)
  : option (Obj * nat) :=
  let '(encrypted, drawn) := acc in
  match encrypted !! field with
  | Some (JString ((_ :: _) as plaintext)) =>
      match encryptPII keystream (randomBytes drawn) plaintext with
      | Some token => Some (<[field := JString token]> encrypted, S drawn)
      | None => None
      end
  | _ => Some acc
  end.

Fixpoint encryptFieldsFrom (acc : Obj * nat) (fieldsToEncrypt : list jsstring)
  : option (Obj * nat) :=
  match fieldsToEncrypt with
  | [] => Some acc
  | field :: rest =>
      match encryptField acc field with
      | Some acc' => encryptFieldsFrom acc' rest
      | None => None
      end
  end.

(** [encryptFields(obj, fieldsToEncrypt)], after [drawn] random draws. *)
Definition encryptFields (drawn : nat) (obj : Obj)
    (fieldsToEncrypt : list jsstring) : option (Obj * nat) :=
  encryptFieldsFrom (obj, drawn) fieldsToEncrypt.

Definition decryptField (decrypted : Obj) (field : jsstring) : Obj :=
  match decrypted !! field with
  | Some (JString ((_ :: _) as text)) =>
      <[field := JString (decryptPII keystream bufferFromObject text)]> decrypted
  | _ => decrypted
  end.

(** [decryptFields(obj, fieldsToDecrypt)]. *)
Definition decryptFields (obj : Obj) (fieldsToDecrypt : list jsstring) : Obj :=
  fold_left decryptField fieldsToDecrypt obj.

End WithCipher.

(** [PII_FIELDS], and the fields of the [client] extension. *)
Definition PII_FIELDS : list jsstring :=
  map js ["email"; "phone"; "address"; "city"; "siret"; "tvaNumber"; "notes"].

(** A sample client record and a source of initialisation vectors. *)
Definition sampleClient : Obj :=
  list_to_map
    [(js "name", JString (js "Ada"));
     (js "email", JString (js "ada@example.com"));
     (js "phone", JString []);
     (js "notes", JNull)].

Definition sampleDraws (n : nat) : bytes :=
  map (fun b => (b + Z.of_nat n) mod 256)%Z sampleIv.

End FieldEncryption.

(* ===================================================================== *)
(** ** Validation schemas ([SECURITY_PATTERNS], the [secure...Schema]s,    *)
(**    [sanitizeInput])                                                    *)
(* ===================================================================== *)

Module Validation.

Import Js RegExp.

(** *** [SECURITY_LIMITS] *)

Definition NAME_MIN : nat := 1.
Definition NAME_MAX : nat := 50.
Definition PHONE_MAX : nat := 20.
Definition ADDRESS_MAX : nat := 100.
Definition NOTES_MAX : nat := 500.
Definition TVA_MAX : nat := 15.
Definition COUNTRY_LENGTH : nat := 2.
Definition PASSWORD_MIN : nat := 12.
Definition PASSWORD_MAX : nat := 128.
Definition TAGS_MAX : nat := 10.
Definition TAG_LENGTH_MAX : nat := 30.

(** *** Quantifiers and look-ahead *)

(** [r{n}]. *)
Fixpoint count (n : nat) (r : Regex) : Regex :=
  match n with
  | O => Eps
  | S n' => Seq r (count n' r)
  end.

(** [r{0,n}], greedy: one more [r] is tried before none. *)
Fixpoint upTo (n : nat) (r : Regex) : Regex :=
  match n with
  | O => Eps
  | S n' => Alt (Seq r (upTo n' r)) Eps
  end.

(** [(?=r)] for a pattern without groups: the position is kept and the
    match goes on exactly when [(?!r)] fails there. *)
Definition ahead (r : Regex) : Regex := NotAhead (NotAhead r).

(** *** Character classes *)

Definition isDigit (c : Z) : bool := between 48 57 c.
Definition isLower (c : Z) : bool := between 97 122 c.
Definition isUpper (c : Z) : bool := between 65 90 c.

(** The characters the class of [SAFE_TEXT] excludes: less-than,
    greater-than, double quote, apostrophe, backquote, semicolon,
    backslash and the two braces. *)
Definition isUnsafe (c : Z) : bool :=
  existsb (Z.eqb c) [60; 62; 34; 39; 96; 59; 92; 123; 125]%Z.

(** The class of [SAFE_NAME]: ASCII letters, U+00C0 to U+00FF, white
    space, hyphen and apostrophe. *)
Definition isNameChar (c : Z) : bool :=
  isLower c || isUpper c || between 192 255 c || isSpace c
  || (c =? 45)%Z || (c =? 39)%Z.

(** The special characters of a password: at sign, dollar, exclamation
    mark, percent, asterisk, question mark and ampersand. *)
Definition isSpecial (c : Z) : bool :=
  existsb (Z.eqb c) [64; 36; 33; 37; 42; 63; 38]%Z.

Definition isPasswordChar (c : Z) : bool :=
  isUpper c || isLower c || isDigit c || isSpecial c.

(** *** [SECURITY_PATTERNS] (none has a flag) *)

Definition once (r : Regex) : RegExp := {| pattern := r; global := false |}.

Definition PHONE_FR : RegExp :=
  once (seqOf [Bol; Alt (lit "+33") (char 48); Chr (between 49 57);
               count 8 (Chr isDigit); Eol]).

Definition SIRET : RegExp := once (seqOf [Bol; count 14 (Chr isDigit); Eol]).

Definition TVA_FR : RegExp :=
  once (seqOf [Bol; lit "FR"; count 11 (Chr isDigit); Eol]).

Definition ZIP_FR : RegExp := once (seqOf [Bol; count 5 (Chr isDigit); Eol]).

Definition SAFE_NAME : RegExp :=
  once (seqOf [Bol; Chr isNameChar; upTo 49 (Chr isNameChar); Eol]).

Definition SAFE_TEXT : RegExp :=
  once (seqOf [Bol; Star (Chr (fun c => negb (isUnsafe c))); Eol]).

Definition STRONG_PASSWORD : RegExp :=
  once (seqOf [Bol;
               ahead (Seq (Star dot) (Chr isLower));
               ahead (Seq (Star dot) (Chr isUpper));
               ahead (Seq (Star dot) (Chr isDigit));
               ahead (Seq (Star dot) (Chr isSpecial));
               count 12 (Chr isPasswordChar); Star (Chr isPasswordChar);
               Eol]).

(** *** [SECURITY_MESSAGES] *)

Definition INVALID_FORMAT : string := "Format invalide".
Definition TOO_LONG : string := "Données trop volumineuses".
Definition TOO_SHORT : string := "Données insuffisantes".
Definition INVALID_CHARS : string := "Caractères non autorisés".

(** *** String schemas *)

(** The checks of a [z.string()] chain. *)
Inductive Check : Type :=
| min_ (n : nat)
| max_ (n : nat)
| length_ (n : nat)
| regex_ (re : RegExp).

(** A chain [z.string().check(..., message)...], with [.optional()] or
    [.default(value)] at its end. *)
Record StringSchema : Type := mkSchema {
  checks : list (Check * string);
  optional : bool;
  default : option jsstring
}.

Definition chain (checks : list (Check * string)) : StringSchema :=
  {| checks := checks; optional := false; default := None |}.

(** A value handed to a schema. *)
Inductive Input : Type :=
| Undefined
| Text (s : jsstring)
| Other.

(** The result of [safeParse]: the data, the messages of the failed
    checks, or a value of the wrong type. *)
Inductive Parsed : Type :=
| Success (data : Input)
| Issues (messages : list string)
| InvalidType.

(** Whether a check passes; a pattern is tested from index 0. *)
Definition holds (c : Check) (s : jsstring) : bool :=
  match c with
  | min_ n => (n <=? length s)%nat
  | max_ n => (length s <=? n)%nat
  | length_ n => (length s =? n)%nat
  | regex_ re => matches re s
  end.

(** Every check of the chain is run; the failed ones report their
    message, in the order of the chain. *)
Definition issues (schema : StringSchema) (s : jsstring) : list string :=
  map snd (List.filter (fun c => negb (holds c.1 s)) (checks schema)).

Definition parseText (schema : StringSchema) (s : jsstring) : Parsed :=
  match issues schema s with
  | [] => Success (Text s)
  | messages => Issues messages
  end.

Definition safeParse (schema : StringSchema) (input : Input) : Parsed :=
  match input with
  | Text s => parseText schema s
  | Undefined =>
      match default schema with
      | Some value => parseText schema value
      | None => if optional schema then Success Undefined else InvalidType
      end
  | Other => InvalidType
  end.

Definition accepts (schema : StringSchema) (input : Input) : bool :=
  match safeParse schema input with
  | Success _ => true
  | _ => false
  end.

Definition secureNameSchema : StringSchema :=
  chain [(min_ NAME_MIN, TOO_SHORT); (max_ NAME_MAX, TOO_LONG);
         (regex_ SAFE_NAME, INVALID_CHARS)].

Definition securePasswordSchema : StringSchema :=
  chain [(min_ PASSWORD_MIN, "Minimum 12 caractères");
         (max_ PASSWORD_MAX, TOO_LONG);
         (regex_ STRONG_PASSWORD,
          "Doit contenir: majuscule, minuscule, chiffre et caractère spécial")].

Definition securePhoneSchema : StringSchema :=
  {| checks := [(max_ PHONE_MAX, TOO_LONG);
                (regex_ PHONE_FR, "Numéro de téléphone français invalide")];
     optional := true; default := None |}.

Definition secureAddressSchema : StringSchema :=
  {| checks := [(max_ ADDRESS_MAX, TOO_LONG); (regex_ SAFE_TEXT, INVALID_CHARS)];
     optional := true; default := None |}.

Definition secureNotesSchema : StringSchema :=
  {| checks := [(max_ NOTES_MAX, TOO_LONG); (regex_ SAFE_TEXT, INVALID_CHARS)];
     optional := true; default := None |}.

Definition secureSiretSchema : StringSchema :=
  {| checks := [(regex_ SIRET, "SIRET invalide (14 chiffres)")];
     optional := true; default := None |}.

Definition secureTvaSchema : StringSchema :=
  {| checks := [(max_ TVA_MAX, TOO_LONG);
                (regex_ TVA_FR, "Numéro TVA français invalide")];
     optional := true; default := None |}.

Definition secureZipSchema : StringSchema :=
  {| checks := [(regex_ ZIP_FR, "Code postal français invalide")];
     optional := true; default := None |}.

Definition secureCountrySchema : StringSchema :=
  {| checks := [(length_ COUNTRY_LENGTH, "Code pays sur 2 lettres")];
     optional := false; default := Some (js "FR") |}.

(** The schema of one tag, and [secureTagsSchema] on an array (an absent
    value stands for the empty array): every element is parsed and the
    array may hold at most [TAGS_MAX] of them. *)
Definition tagSchema : StringSchema :=
  chain [(max_ TAG_LENGTH_MAX, TOO_LONG); (regex_ SAFE_TEXT, INVALID_CHARS)].

Definition acceptsTags (tags : option (list Input)) : bool :=
  match tags with
  | Some items =>
      (length items <=? TAGS_MAX)%nat && forallb (accepts tagSchema) items
  | None => true
  end.

(** *** [sanitizeInput] *)

(** The class of the second replacement: the control characters but tab,
    line feed and carriage return. *)
Definition isControl (c : Z) : bool :=
  between 0 8 c || (c =? 11)%Z || (c =? 12)%Z || between 14 31 c
  || (c =? 127)%Z.

(** [s.replace(/class/g, '')] for a class of single code units. *)
Definition removeAll (class : Z -> bool) (s : jsstring) : jsstring :=
  List.filter (fun c => negb (class c)) s.

Definition sanitizeInput (input : Input) : jsstring :=
  match input with
  | Text s =>
      removeAll isControl (removeAll (fun c => (c =? 0)%Z) (PathTraversal.trim s))
  | _ => []
  end.

End Validation.

(* ===================================================================== *)
(** ** The secure logger ([sanitizeForLogging])                           *)
(* ===================================================================== *)

Module SecureLogger.

Import Js.

(** A value handed to the logger.  An object stands for the list
    [Object.entries] returns for it: its own enumerable properties, in
    property order, no key twice. *)
#[warnings="-register-all"]
Inductive Value : Type :=
| VUndefined
| VNull
| VBoolean (b : bool)
| VNumber (lexeme : jsstring)
| VString (s : jsstring)
| VArray (items : list Value)
| VObject (entries : list (jsstring * Value)).

Definition PII_PATTERNS : list jsstring :=
  map js ["email"; "password"; "token"; "secret"; "key"; "phone"; "address";
          "siret"; "tva"; "iban"; "card"].

Definition AT : Z := 64.

(** [s.includes(sub)]. *)
Fixpoint includesText (s sub : jsstring) : bool :=
  PathTraversal.startsWith s sub
  || match s with
     | _ :: rest => includesText rest sub
     | [] => false
     end.

(** [s.slice(-n)]. *)
Definition lastChars (n : nat) (s : jsstring) : jsstring :=
  drop (length s - n) s.

(** The branch of a string: a text cut in two non-empty parts by its only
    at sign keeps the first two characters of the first part. *)
Definition maskText (data : jsstring) : jsstring :=
  if includesText data [AT] then
    match Path.splitOn AT data with
    | [(_ :: _) as local; (_ :: _) as domain] =>
        take (Nat.min 2 (length local)) local ++ js "***@" ++ domain
    | _ => data
    end
  else data.

(** What is stored for a property whose lower-cased name holds one of
    the patterns. *)
Definition maskField (lowerKey : jsstring) (value : Value) : jsstring :=
  match value with
  | VString value =>
      if includesText lowerKey (js "email") then
        if includesText value [AT] then
          take 2 value ++ js "***@"
          ++ match Path.splitOn AT value with
             | _ :: second :: _ => second
             | _ => js "undefined"
             end
        else js "***"
      else if includesText lowerKey (js "phone") then
        if (4 <? length value)%nat then js "***" ++ lastChars 4 value
        else js "***"
      else if includesText lowerKey (js "token")
              || includesText lowerKey (js "secret")
              || includesText lowerKey (js "key") then
        if (8 <? length value)%nat
        then take 4 value ++ js "..." ++ lastChars 4 value
        else js "***"
      else js "***"
  | _ => js "***"
  end.

(** The name whose assignment goes to the prototype setter: on the fresh
    object [sanitized] it creates no property. *)
Definition PROTO : jsstring := js "__proto__".

(** The own properties of [sanitized] after the assignments
    [sanitized[key] = value] of the loop. *)
Definition assigned (entries : list (jsstring * Value))
  : list (jsstring * Value) :=
  List.filter (fun entry => negb (jsstring_eqb entry.1 PROTO)) entries.

Section WithPlatform.

(** [String.prototype.toLowerCase]. *)
Variable toLowerCase : jsstring -> jsstring.

Definition sensitive (key : jsstring) : bool :=
  existsb (fun pattern => includesText (toLowerCase key) pattern) PII_PATTERNS.

Fixpoint sanitizeForLogging (data : Value) : Value :=
  match data with
  | VString s => VString (maskText s)
  | VArray items => VArray (map sanitizeForLogging items)
  | VObject entries =>
      VObject
        (assigned
           (map (fun entry =>
                   match entry with
                   | (key, value) =>
                       let lowerKey := toLowerCase key in
                       (key,
                        if sensitive key
                        then VString (maskField lowerKey value)
                        else sanitizeForLogging value)
                   end) entries))
  | _ => data
  end.

(** *** Reading a logged value *)

(** [entries[key]] for an own property. *)
Fixpoint property (key : jsstring) (entries : list (jsstring * Value))
  : option Value :=
  match entries with
  | [] => None
  | (k, v) :: rest => if jsstring_eqb k key then Some v else property key rest
  end.

(** One step into a value: an element of an array or a property of an
    object. *)
Inductive Step : Type :=
| Index (i : nat)
| Key (key : jsstring).

Fixpoint valueAt (data : Value) (path : list Step) : option Value :=
  match path with
  | [] => Some data
  | Index i :: rest =>
      match data with
      | VArray items =>
          match nth_error items i with
          | Some item => valueAt item rest
          | None => None
          end
      | _ => None
      end
  | Key key :: rest =>
      match data with
      | VObject entries =>
          match property key entries with
          | Some value => valueAt value rest
          | None => None
          end
      | _ => None
      end
  end.

(** A path through array elements and properties of ordinary names. *)
Definition plainPath (path : list Step) : bool :=
  forallb (fun step =>
             match step with
             | Index _ => true
             | Key key => negb (sensitive key) && negb (jsstring_eqb key PROTO)
             end) path.

End WithPlatform.

(** A sample of logged data. *)
Definition sampleData : Value :=
  VObject [(js "user",
            VObject [(js "name", VString (js "Ada"));
                     (js "Password", VObject [(js "hash", VString (js "x"))])]);
           (js "attempts", VArray [VNumber (js "1")])].

End SecureLogger.

(* ===================================================================== *)
(** ** advanced-rate-limit.ts: [getRateLimitStats]                        *)
(* ===================================================================== *)

Module RateLimitStats.

Import RateLimit.

(** [TTL key]: -2 for a key that does not exist, -1 for a key without
    expiry, else the time left, rounded to the second. *)
Definition ttl (now : Z) (key : string) (st : Redis.Store) : option Z :=
  if Redis.up st then
    Some (match Redis.lookupLive now key st with
          | None => -2
          | Some e =>
              match Redis.expireAt e with
              | None => -1
              | Some t => (t - now + 500) / 1000
              end
          end)%Z
  else None.

(** The property names of [RATE_LIMITS], in the order of
    [Object.entries]. *)
Definition typeName (t : LimitType) : string :=
  match t with
  | auth => "auth"
  | create => "create"
  | read => "read"
  | update => "update"
  | delete => "delete"
  | general => "general"
  end.

Definition types : list LimitType :=
  [auth; create; read; update; delete; general].

Record LimitStats : Type := mkLimitStats {
  current : nat;
  max_ : nat;
  windowSeconds : Z;
  resetIn : Z
}.

Record Stats : Type := mkStats {
  stats_ip : string;
  blocked : bool;
  limits : list (string * LimitStats)
}.

(** The loop over the types; [None] when a cache command throws. *)
Fixpoint collect (NODE_ENV : string) (now : Z) (ip : string)
    (st : Redis.Store) (ts : list LimitType)
  : option (list (string * LimitStats)) :=
  match ts with
  | [] => Some []
  | t :: rest =>
      let config := RATE_LIMITS NODE_ENV t in
      let key := generateRateLimitKey ip (typeName t) None in
      match Redis.zcard now key st with
      | None => None
      | Some count =>
          match ttl now key st with
          | None => None
          | Some seconds =>
              match collect NODE_ENV now ip st rest with
              | None => None
              | Some more =>
                  Some ((typeName t,
                         {| current := count;
                            max_ := maxRequests config;
                            windowSeconds := windowMs config / 1000;
                            resetIn := if (0 <? seconds)%Z then seconds else 0 |})
                        :: more)
              end
          end
      end
  end.

(** [getRateLimitStats(ip)] at [now]: the statistics, or null with a
    logged error when a cache command throws. *)
Definition getRateLimitStats (NODE_ENV : string) (now : Z) (ip : string)
    (st : Redis.Store) : option Stats * list LogEntry :=
  let '(isBlocked, lg) := isIPBlocked now ip st in
  match collect NODE_ENV now ip st types with
  | Some limits =>
      (Some {| stats_ip := ip; blocked := isBlocked; limits := limits |}, lg)
  | None => (None, lg ++ [SecureLog "error" "RATE_LIMIT_STATS_ERROR"])
  end.

(** The statistics of a client for whom nothing is recorded. *)
Definition idle (NODE_ENV : string) (t : LimitType) : string * LimitStats :=
  (typeName t,
   {| current := 0;
      max_ := maxRequests (RATE_LIMITS NODE_ENV t);
      windowSeconds := windowMs (RATE_LIMITS NODE_ENV t) / 1000;
      resetIn := 0 |}).

End RateLimitStats.

(* ===================================================================== *)
(** ** xss-protection.ts: the request hook                                *)
(* ===================================================================== *)

Module XssHook.

Import Js RegExp Xss.

(** The values of a request body are those of [SecureLogger.Value]; an
    object is the list of its own properties. *)
Abbreviation Value := SecureLogger.Value.
Abbreviation VString := SecureLogger.VString.
Abbreviation VArray := SecureLogger.VArray.
Abbreviation VObject := SecureLogger.VObject.
Abbreviation property := SecureLogger.property.

(** [entries[key] = v] for an own property (a name that is not there is
    added at the end). *)
Fixpoint assign (key : jsstring) (v : Value) (entries : list (jsstring * Value))
  : list (jsstring * Value) :=
  match entries with
  | [] => [(key, v)]
  | (k, x) :: rest =>
      if jsstring_eqb k key then (k, v) :: rest
      else (k, x) :: assign key v rest
  end.

Definition isString (v : Value) : bool :=
  match v with
  | SecureLogger.VString _ => true
  | _ => false
  end.

(** The fields the hook looks at: the listed ones, or every property
    that holds a string when none is listed. *)
Definition fieldsToValidate (fieldsToCheck : list jsstring)
    (entries : list (jsstring * Value)) : list jsstring :=
  match fieldsToCheck with
  | _ :: _ => fieldsToCheck
  | [] => map fst (List.filter (fun entry => isString entry.2) entries)
  end.

(** The hook lets the request go on, or it answers 400 with the code
    [XSS_DETECTED] and a message that names the field. *)
Inductive HookReply : Type :=
| Continue
| XssDetected (field : jsstring).

(** The elements of an array under their indices. *)
Definition indexed (items : list Value) : list (jsstring * Value) :=
  imap (fun i item => (js (pretty i), item)) items.

Section WithDOMPurify.

Variable purify : jsstring -> jsstring.

(** The loop over the fields: a field that holds a non-empty string is
    replaced by its sanitized text, and the first one that
    [sanitizeXSS] refuses ends the request. *)
Fixpoint validateFields (state : list nat) (entries : list (jsstring * Value))
    (fields : list jsstring)
  : HookReply * list (jsstring * Value) * list nat :=
  match fields with
  | [] => (Continue, entries, state)
  | field :: rest =>
      match property field entries with
      | Some (SecureLogger.VString ((_ :: _) as text)) =>
          match sanitizeXSS purify state text with
          | (Returned sanitized, state') =>
              validateFields state' (assign field (VString sanitized) entries) rest
          | (Threw, state') => (XssDetected field, entries, state')
          end
      | _ => validateFields state entries rest
      end
  end.

(** The hook returned by [xssValidationHook(fieldsToCheck)], for pattern
    objects whose [lastIndex] values are [state]: the reply, the body as
    the hook leaves it, and the new values. *)
Definition xssValidationHook (fieldsToCheck : list jsstring)
    (state : list nat) (body : Value) : HookReply * Value * list nat :=
  match body with
  | SecureLogger.VObject entries =>
      let '(reply, entries', state') :=
        validateFields state entries (fieldsToValidate fieldsToCheck entries) in
      (reply, VObject entries', state')
  | SecureLogger.VArray items =>
      let entries := indexed items in
      let '(reply, entries', state') :=
        validateFields state entries (fieldsToValidate fieldsToCheck entries) in
      (reply, VArray (map snd entries'), state')
  | _ => (Continue, body, state)
  end.

End WithDOMPurify.

(** What the hook promises of a text: no dangerous pattern matches it
    and it has at most 10000 characters. *)
Definition cleanText (s : jsstring) : Prop :=
  dangerous s = false /\ (Z.of_nat (length s) <= MAX_LENGTH)%Z.

(** A sample body. *)
Definition sampleBody : Value :=
  VObject [(js "name", VString (js "Ada"));
           (js "age", SecureLogger.VNumber (js "36"))].

End XssHook.

(* ===================================================================== *)
(** ** xss-protection.ts: [sanitizeObjectXSS]                             *)
(* ===================================================================== *)

Module XssObject.

Import Js RegExp Xss.

Abbreviation Value := SecureLogger.Value.
Abbreviation VString := SecureLogger.VString.
Abbreviation VArray := SecureLogger.VArray.
Abbreviation VObject := SecureLogger.VObject.

Section WithDOMPurify.

Variable purify : jsstring -> jsstring.

(** [value.map(item => typeof item === 'string' ? sanitizeXSS(item) :
    item)]; [None] when a call throws. *)
Fixpoint sanitizeItems (state : list nat) (items : list Value)
  : option (list Value) * list nat :=
  match items with
  | [] => (Some [], state)
  | item :: rest =>
      match item with
      | SecureLogger.VString s =>
          match sanitizeXSS purify state s with
          | (Returned sanitized, state') =>
              let '(more, state'') := sanitizeItems state' rest in
              (option_map (cons (VString sanitized)) more, state'')
          | (Threw, state') => (None, state')
          end
      | _ =>
          let '(more, state') := sanitizeItems state rest in
          (option_map (cons item) more, state')
      end
  end.

(** Whether a string under [key] is to be sanitized. *)
Definition listed (fieldsToSanitize : list jsstring) (key : jsstring) : bool :=
  match fieldsToSanitize with
  | [] => true
  | _ :: _ => existsb (jsstring_eqb key) fieldsToSanitize
  end.

(** One round of the loop over the properties: the value stored under
    [key]; [recurse] is the call for a nested object. *)
Definition sanitizeProperty
    (recurse : list nat -> Value -> option Value * list nat)
    (fieldsToSanitize : list jsstring) (state : list nat)
    (key : jsstring) (value : Value) : option Value * list nat :=
  match value with
  | SecureLogger.VString s =>
      if listed fieldsToSanitize key then
        match sanitizeXSS purify state s with
        | (Returned sanitized, state') => (Some (VString sanitized), state')
        | (Threw, state') => (None, state')
        end
      else (Some value, state)
  | SecureLogger.VArray items =>
      let '(items', state') := sanitizeItems state items in
      (option_map VArray items', state')
  | SecureLogger.VObject _ => recurse state value
  | _ => (Some value, state)
  end.

(** The loop over [Object.entries(sanitized)]. *)
Fixpoint sanitizeEntries
    (recurse : list nat -> Value -> option Value * list nat)
    (fieldsToSanitize : list jsstring) (state : list nat)
    (entries : list (jsstring * Value))
  : option (list (jsstring * Value)) * list nat :=
  match entries with
  | [] => (Some [], state)
  | (key, value) :: rest =>
      match sanitizeProperty recurse fieldsToSanitize state key value with
      | (None, state1) => (None, state1)
      | (Some value', state1) =>
          let '(more, state2) :=
            sanitizeEntries recurse fieldsToSanitize state1 rest in
          (option_map (cons (key, value')) more, state2)
      end
  end.

(** [sanitizeObjectXSS] on an object that is not an array: the copy with
    its sanitized properties, or [None] when a call of [sanitizeXSS]
    throws; the state is that of the pattern objects. *)
Fixpoint sanitizeObject (fieldsToSanitize : list jsstring) (state : list nat)
    (obj : Value) {struct obj} : option Value * list nat :=
  match obj with
  | SecureLogger.VObject entries =>
      let '(sanitized, state') :=
        sanitizeEntries (fun state value =>
                           sanitizeObject fieldsToSanitize state value)
          fieldsToSanitize state entries in
      (option_map VObject sanitized, state')
  | _ => (Some obj, state)
  end.

(** [sanitizeObjectXSS(obj, fieldsToSanitize)]: a value that is not an
    object is returned as it is; an array handed in directly is spread
    into an object with its indices as property names. *)
Definition sanitizeObjectXSS (fieldsToSanitize : list jsstring)
    (state : list nat) (obj : Value) : option Value * list nat :=
  match obj with
  | SecureLogger.VArray items =>
      sanitizeObject fieldsToSanitize state (VObject (XssHook.indexed items))
  | _ => sanitizeObject fieldsToSanitize state obj
  end.

End WithDOMPurify.

(** A string element of an array. *)
Definition cleanItem (item : Value) : Prop :=
  match item with
  | SecureLogger.VString s => XssHook.cleanText s
  | _ => True
  end.

(** What the sanitized copy of an object is made of: every string
    property is clean, every string element of an array property is
    clean, and so on in the object properties. *)
Fixpoint cleanObject (obj : Value) : Prop :=
  match obj with
  | SecureLogger.VObject entries =>
      (fix all (entries : list (jsstring * Value)) : Prop :=
         match entries with
         | [] => True
         | (_, value) :: rest =>
             match value with
             | SecureLogger.VString s => XssHook.cleanText s
             | SecureLogger.VArray items => Forall cleanItem items
             | SecureLogger.VObject _ => cleanObject value
             | _ => True
             end /\ all rest
         end) entries
  | _ => True
  end.

(** No element of the array is a string. *)
Definition noString (items : list Value) : Prop :=
  Forall (fun item => XssHook.isString item = false) items.

(** A sample: a script inside an object inside an array. *)
Definition sampleNested : Value :=
  VObject [(js "title", VString (js "Hello"));
           (js "lines",
            VArray [VObject [(js "label",
                              VString (js "<script>alert(1)</script>"))]])].

End XssObject.

(* ===================================================================== *)
(** ** redis.ts: the cache and session helpers                            *)
(* ===================================================================== *)

Module Cache.

(** [GET key]: the string, null for a key that is not there; the command
    rejects on a key that holds a sorted set. *)
Definition get (now : Z) (key : string) (st : Redis.Store)
  : option (option string) :=
  if Redis.up st then
    match Redis.lookupLive now key st with
    | None => Some None
    | Some {| Redis.value := Redis.VString s |} => Some (Some s)
    | Some {| Redis.value := Redis.VZSet _ |} => None
    end
  else None.

(** What the helpers write with [logger]. *)
Inductive Log : Type :=
| Debug (message : string)
| Error (message : string).

Section WithJSON.

(** The cached values, with [JSON.stringify] and [JSON.parse] ([None]
    when it throws). *)
Variable Data : Type.
Variable stringify : Data -> string.
Variable parse : string -> option Data.

(** [setCache]: [SETEX] rejects a time to live that is not positive; an
    error is logged and swallowed. *)
Definition setCache (now : Z) (key : string) (value : Data) (ttl : Z)
    (st : Redis.Store) : Redis.Store * list Log :=
  if (0 <? ttl)%Z then
    match Redis.setex now key ttl (stringify value) st with
    | Some st' => (st', [Debug "Cache set"])
    | None => (st, [Error "Erreur lors du cache"])
    end
  else (st, [Error "Erreur lors du cache"]).

(** [getCache]: null on a miss and on any error. *)
Definition getCache (now : Z) (key : string) (st : Redis.Store)
  : option Data * list Log :=
  match get now key st with
  | Some (Some value) =>
      if truthy value then
        match parse value with
        | Some data => (Some data, [Debug "Cache hit"])
        | None => (None, [Debug "Cache hit";
                          Error "Erreur lors de la récupération du cache"])
        end
      else (None, [Debug "Cache miss"])
  | Some None => (None, [Debug "Cache miss"])
  | None => (None, [Error "Erreur lors de la récupération du cache"])
  end.

Definition deleteCache (now : Z) (key : string) (st : Redis.Store)
  : Redis.Store * list Log :=
  match RateLimitAdmin.del now key st with
  | Some (_, st') => (st', [Debug "Cache deleted"])
  | None => (st, [Error "Erreur lors de la suppression du cache"])
  end.

Definition sessionKey (userId : string) : string := "session:" +:+ userId.

(** [setSession(userId, sessionData, ttl)]; the default [ttl] is 86400. *)
Definition setSession (now : Z) (userId : string) (sessionData : Data)
    (ttl : Z) (st : Redis.Store) : Redis.Store * list Log :=
  setCache now (sessionKey userId) sessionData ttl st.

Definition getSession (now : Z) (userId : string) (st : Redis.Store)
  : option Data * list Log :=
  getCache now (sessionKey userId) st.

Definition deleteSession (now : Z) (userId : string) (st : Redis.Store)
  : Redis.Store * list Log :=
  deleteCache now (sessionKey userId) st.

End WithJSON.

(** A stand-in for the JSON functions on concrete runs: a value is a
    string, written with a leading quote. *)
Definition quote (s : string) : string := String "'" s.

Definition unquote (s : string) : option string :=
  match s with
  | String "'" rest => Some rest
  | _ => None
  end.

End Cache.

(* ===================================================================== *)
(** ** The PII cipher: inputs that cannot be tokens                       *)
(* ===================================================================== *)

Module TokenShape.

Import Js.




End TokenShape.

(* ===================================================================== *)
(** ** cors-security.ts: the IPv6 loopback origin                         *)
(* ===================================================================== *)

Module CorsSamples.

Import Cors.

(** A parser for sample runs that also knows the origin of the IPv6
    loopback: as a URL object does, it gives the host name of
    [http://[::1]:5173] in brackets. *)
Definition ipv6Parse (s : string) : option URL :=
  if String.eqb s "http://[::1]:5173"
  then Some {| url_origin := "http://[::1]:5173"; url_hostname := "[::1]";
               url_port := "5173"; url_protocol := "http:" |}
  else CorsMiddleware.sampleParse s.

End CorsSamples.

(* ===================================================================== *)
(** ** The credentials manager: what a generated secret is drawn from     *)
(* ===================================================================== *)

Module CredentialsDraws.

Import Credentials.

(** What [generateStrongSecret] draws from [crypto] for a type of secret:
    random bytes, a UUID and 16 random bytes, or the indices returned by
    [randomInt]. *)
Inductive Draw : Type :=
| DrawBytes (bs : list N)
| DrawKey (uuid : string) (bs : list N)
| DrawPicks (indices : list nat).

Definition drawsOf (e : Entropy) (t : SecretType) : Draw :=
  match t with
  | jwt => DrawBytes (bytes_len e)
  | api_key => DrawKey (uuid_nodash e) (bytes_16 e)
  | database => DrawPicks (picks e)
  | encryption => DrawBytes (bytes_len e)
  | oauth => DrawBytes (bytes_len e)
  end.

Definition isByteN (b : N) : Prop := (b < 256)%N.

(** The ranges of what [crypto] returns: bytes, a UUID of 32 characters
    once its dashes are removed, and indices into [chars]. *)
Definition wellDrawn (e : Entropy) : Prop :=
  Forall isByteN (bytes_len e)
  /\ Forall isByteN (bytes_16 e)
  /\ String.length (uuid_nodash e) = 32%nat
  /\ Forall (fun i => (i < String.length chars)%nat) (picks e).

(** An encoding that tells any two byte strings apart, as ['hex'] and
    ['base64url'] do. *)
Definition injectiveOnBytes (enc : list N -> string) : Prop :=
  forall a b, Forall isByteN a -> Forall isByteN b -> enc a = enc b -> a = b.

(** A stand-in for such an encoding on concrete managers: one character
    per byte. *)
Definition latin1 (bs : list N) : string :=
  string_of_list_ascii (map ascii_of_N bs).

(** The password of a database secret, read from the left. *)
Definition passwordOf (indices : list nat) : string :=
  foldr (fun i rest => charAt chars i +:+ rest) "" indices.

Definition otherEntropy : Entropy :=
  {| bytes_len := [8; 42; 255]%N; uuid_nodash := "fedcba9876543210fedcba9876543210";
     bytes_16 := [3; 2; 1]%N; picks := [1; 68; 27]%nat; iv_bytes := [7; 7]%N |}.

End CredentialsDraws.

(* ===================================================================== *)
(** * Part II: theorems                                                   *)
(* ===================================================================== *)

(** ** The origin guard *)

Section CorsFacts.

Import Cors.

Variable parseURL : string -> option URL.
Variable FRONTEND_URL : string.

(** An empty [Origin] header is treated like a missing one. *)
Lemma isOriginAllowed_empty_origin environment :
  isOriginAllowed parseURL FRONTEND_URL (Some "") environment
  = isOriginAllowed parseURL FRONTEND_URL None environment.
Proof. reflexivity. Qed.

(** C7, as the code has it: a request with no [Origin] header is allowed
    exactly when the environment is ['development'], and nothing is logged;
    in particular it is refused in production and in every other
    environment that is not development. *)
Theorem isOriginAllowed_absent_origin environment :
  isOriginAllowed parseURL FRONTEND_URL None environment
  = (bool_decide (environment = "development"), []).
Proof.
  unfold isOriginAllowed. f_equal.
  destruct (String.eqb_spec environment "development") as [->|Hne].
  - by rewrite bool_decide_eq_true_2.
  - by rewrite bool_decide_eq_false_2.
Qed.

End CorsFacts.

(** C7 as stated fails: ['test'] is one of the three values of [NODE_ENV],
    it is not production, and a request without origin is refused there. *)
Lemma absent_origin_refused_in_test :
  ~ (forall parseURL FRONTEND_URL environment,
        environment <> "production" ->
        fst (Cors.isOriginAllowed parseURL FRONTEND_URL None environment) = true).
Proof.
  intros H.
  specialize (H (fun _ => None) "http://localhost:5173" "test").
  cbn in H. discriminate H. discriminate.
Qed.

(** ** The global error handlers *)

Section ErrorHandlerFacts.

Import ErrorHandler.

(** [createSecureError] keeps the type it is given and lets an explicit
    severity option win over the computed one. *)
Lemma createSecureError_type_severity now rnd t err o s :
  opt_severity o = Some s ->
  type (createSecureError now rnd t err o) = t
  /\ severity (createSecureError now rnd t err o) = s.
Proof. intros Hs. unfold createSecureError. cbn. by rewrite Hs. Qed.

(** C9, as the code has it.  An uncaught exception is classified as
    internal with critical severity, logged once at error level, and in
    production (only) the process exit is scheduled after the log entry.
    An unhandled rejection is classified as internal with HIGH severity,
    logged once at error level, and never followed by an exit. *)
Theorem global_handlers_effects NODE_ENV now rnd :
  (forall error, exists e ws,
      setupGlobalErrorHandlers NODE_ENV now rnd (UncaughtException error)
      = Logged "error" "ERREUR CRITIQUE" e ws
        :: (if bool_decide (NODE_ENV = "production")
            then [SetTimeoutExit 1000 1] else [])
      /\ type e = INTERNAL /\ severity e = CRITICAL)
  /\ (forall reason p, exists e ws,
      setupGlobalErrorHandlers NODE_ENV now rnd (UnhandledRejection reason p)
      = [Logged "error" "ERREUR ELEVEE" e ws]
      /\ type e = INTERNAL /\ severity e = HIGH).
Proof.
  split.
  - intros error. eexists _, _. split; [|split].
    + cbn. unfold onUncaughtException, logSecureError. cbn.
      destruct (String.eqb_spec NODE_ENV "production") as [->|Hne].
      * reflexivity.
      * by rewrite bool_decide_eq_false_2.
    + reflexivity.
    + reflexivity.
  - intros reason p. eexists _, _. split; [|split].
    + reflexivity.
    + reflexivity.
    + reflexivity.
Qed.

End ErrorHandlerFacts.

(** C9 as stated fails for unhandled rejections: in production the handler
    neither rates the error critical nor schedules the exit. *)
Lemma unhandled_rejection_not_critical_no_exit :
  ~ (forall NODE_ENV now rnd ev,
        NODE_ENV = "production" ->
        (exists l tag e ws,
            In (ErrorHandler.Logged l tag e ws)
               (ErrorHandler.setupGlobalErrorHandlers NODE_ENV now rnd ev)
            /\ ErrorHandler.severity e = ErrorHandler.CRITICAL)
        /\ existsb ErrorHandler.isExit
             (ErrorHandler.setupGlobalErrorHandlers NODE_ENV now rnd ev) = true).
Proof.
  intros H.
  destruct (H "production" 0%Z "ABC123"
              (ErrorHandler.UnhandledRejection
                 (ErrorHandler.ReasonOther "boom" None) "[object Promise]")
              eq_refl) as [_ Hexit].
  vm_compute in Hexit. discriminate Hexit.
Qed.

(** ** The credentials manager *)

Section CredentialsFacts.

Import Credentials.

Variable base64 base64url hex : list N -> string.
Variable gcmEncrypt : string -> option (string * string).
Variable gcmDecrypt : string -> string -> option string.

Local Abbreviation getSecret := (Credentials.getSecret gcmDecrypt).
Local Abbreviation rotateSecret :=
  (Credentials.rotateSecret base64 base64url hex gcmEncrypt).
Local Abbreviation generateStrongSecret :=
  (Credentials.generateStrongSecret base64url hex).
Local Abbreviation run := (Credentials.run base64 base64url hex gcmEncrypt).
Local Abbreviation step := (Credentials.step base64 base64url hex gcmEncrypt).

Lemma getSecret_revoked name m :
  revoked name m -> (getSecret name m).1 = None.
Proof.
  intros (es & Hes & Hact). unfold Credentials.getSecret.
  by rewrite Hes, Hact.
Qed.

(** A successful rotation replaces the entry of the name by the encryption
    of the generated value, with both counters bumped by one. *)
Lemma rotateSecret_true now e name m m' lg :
  rotateSecret now e name m = (true, m', lg) ->
  exists es encrypted tg,
    secrets m !! name = Some es
    /\ gcmEncrypt (generateStrongSecret e (type (metadata es)))
       = Some (encrypted, tg)
    /\ secrets m' !! name
       = Some {| encryptedValue := encrypted; iv := base64 (iv_bytes e);
                 tag := tg;
                 metadata :=
                   {| type := type (metadata es);
                      createdAt := createdAt (metadata es);
                      lastRotatedAt := now;
                      rotationCount := rotationCount (metadata es) + 1;
                      isActive := isActive (metadata es);
                      version := version (metadata es) + 1 |} |}.
Proof.
  unfold Credentials.rotateSecret, encryptSecret.
  destruct (secrets m !! name) as [es|] eqn:Hes; [|discriminate].
  destruct (gcmEncrypt _) as [[encrypted tg]|] eqn:Henc; [|discriminate].
  intros [= <- _]. exists es, encrypted, tg. split; [done|]. split; [done|].
  cbn. by rewrite lookup_insert_eq.
Qed.

(** Rotation keeps a revoked secret revoked, whatever it returns. *)
Lemma rotateSecret_revoked now e name name' m :
  revoked name m -> revoked name (rotateSecret now e name' m).1.2.
Proof.
  intros (es & Hes & Hact). unfold Credentials.rotateSecret.
  destruct (secrets m !! name') as [es'|] eqn:Hes'; [|by exists es].
  destruct (encryptSecret _ _ _ _) as [[[encrypted ivs] tg]|]; [|by exists es].
  unfold revoked. cbn. destruct (decide (name' = name)) as [->|Hne].
  - rewrite lookup_insert_eq. eexists. split; [done|]. cbn. congruence.
  - rewrite lookup_insert_ne by done. by exists es.
Qed.

Lemma revokeSecret_revoked name name' m :
  revoked name m -> revoked name (revokeSecret name' m).1.2.
Proof.
  intros (es & Hes & Hact). unfold revokeSecret.
  destruct (secrets m !! name') as [es'|] eqn:Hes'; [|by exists es].
  unfold revoked. cbn. destruct (decide (name' = name)) as [->|Hne].
  - rewrite lookup_insert_eq. by eexists.
  - rewrite lookup_insert_ne by done. by exists es.
Qed.

(** No call other than storing the name anew reactivates a revoked secret. *)
Lemma step_revoked name m c :
  ~ storesName name c -> revoked name m -> revoked name (step m c).
Proof.
  intros Hns Hrev. destruct c as [now [e n v t|n|e n|n|e n| |]]; cbn.
  - unfold storeSecret, encryptSecret.
    destruct (gcmEncrypt v) as [[encrypted tg]|]; [|done].
    destruct Hrev as (es & Hes & Hact). exists es. split; [|done].
    cbn. rewrite lookup_insert_ne; [done|]. intros ->. by apply Hns.
  - done.
  - by apply rotateSecret_revoked.
  - by apply revokeSecret_revoked.
  - unfold fireTimer. destruct (rotationTimers m !! n) as [due|]; [|done].
    destruct (due <=? now)%Z; [|done].
    apply rotateSecret_revoked. destruct Hrev as (es & Hes & Hact). by exists es.
  - done.
  - done.
Qed.

Lemma run_revoked name calls : forall m,
  Forall (fun c => ~ storesName name c) calls ->
  revoked name m -> revoked name (run m calls).
Proof.
  induction calls as [|c calls IH]; intros m Hall Hrev; [done|].
  inversion Hall as [|? ? Hc Hrest]; subst. cbn.
  apply IH; [done|]. by apply step_revoked.
Qed.

End CredentialsFacts.

(** ** The rate limiter *)

Section RateLimitFacts.

Import RateLimit.

(** Every category has a positive window of whole seconds and a block that
    lasts at least as long as its window. *)
Lemma RATE_LIMITS_shape NODE_ENV t :
  exists d,
    blockDuration (RATE_LIMITS NODE_ENV t) = Some d
    /\ (0 < d)%Z
    /\ (0 < windowMs (RATE_LIMITS NODE_ENV t) <= d * 1000)%Z
    /\ (ceilSeconds (windowMs (RATE_LIMITS NODE_ENV t)) * 1000
        = windowMs (RATE_LIMITS NODE_ENV t))%Z
    /\ (0 < maxRequests (RATE_LIMITS NODE_ENV t))%nat.
Proof.
  destruct t; cbn; eexists; (split; [reflexivity|]);
    repeat split; try done; try lia;
    try (destruct (String.eqb _ _)); lia.
Qed.

(** The block key of a client is never the window key of a request. *)
Lemma blockKey_ne_rateLimitKey ip ip' endpoint userId :
  generateBlockKey ip <> generateRateLimitKey ip' endpoint userId.
Proof.
  unfold generateBlockKey, generateRateLimitKey.
  destruct userId as [u|]; [destruct (truthy u)|]; cbn; discriminate.
Qed.

Lemma lookupLive_ext now key st st' :
  Redis.data st' !! key = Redis.data st !! key ->
  Redis.lookupLive now key st' = Redis.lookupLive now key st.
Proof. unfold Redis.lookupLive. by intros ->. Qed.

(** A key that is dead stays dead as time passes. *)
Lemma lookupLive_None_mono now now' key st :
  (now <= now')%Z ->
  Redis.lookupLive now key st = None -> Redis.lookupLive now' key st = None.
Proof.
  unfold Redis.lookupLive, Redis.live. intros Hle.
  destruct (Redis.data st !! key) as [e|]; [|done].
  destruct (Redis.expireAt e) as [t|]; [|done].
  destruct (now <? t)%Z eqn:H1; [done|].
  destruct (now' <? t)%Z eqn:H2; [lia|done].
Qed.

(** A blocked client is answered 429 at once, and nothing is recorded. *)
Lemma blocked_client_rejected NODE_ENV now rnd req st e :
  Redis.up st = true ->
  Redis.lookupLive now (generateBlockKey (ip req)) st = Some e ->
  exists lg,
    advancedRateLimitMiddleware NODE_ENV now rnd req st = (Blocked 300, st, lg).
Proof.
  intros Hup Hb. unfold advancedRateLimitMiddleware.
  rewrite andb_false_r. cbn.
  unfold isIPBlocked, Redis.exists_. rewrite Hup, Hb. cbn. by eexists.
Qed.

Lemma inWindow_empty ws : inWindow ws ∅ = ∅.
Proof. unfold inWindow. apply map_filter_empty. Qed.

(** Purging: the entries at or before the window start are removed, the
    other keys are untouched, and the key is either gone (nothing is left)
    or holds exactly the entries inside the window. *)
Lemma zremrangebyscore_window now key ws st z :
  Redis.up st = true ->
  window now key st = Some z ->
  exists st1,
    Redis.zremrangebyscore now key ws st = Some st1
    /\ Redis.up st1 = true
    /\ (forall k, k <> key -> Redis.data st1 !! k = Redis.data st !! k)
    /\ ((Redis.lookupLive now key st1 = None /\ inWindow ws z = ∅)
        \/ exists ex,
            Redis.lookupLive now key st1
            = Some {| Redis.value := Redis.VZSet (inWindow ws z);
                      Redis.expireAt := ex |}).
Proof.
  intros Hup Hw. unfold window in Hw. unfold Redis.zremrangebyscore.
  rewrite Hup.
  destruct (Redis.lookupLive now key st) as [[[v|z0] ex]|] eqn:Hl;
    [discriminate| |].
  - injection Hw as <-. fold (inWindow ws z0).
    eexists. split; [done|]. cbn. split; [done|].
    destruct (decide (inWindow ws z0 = ∅)) as [Hz|Hz].
    + split; [intros k Hk; by rewrite lookup_delete_ne|].
      left. split; [|done]. unfold Redis.lookupLive. cbn.
      by rewrite lookup_delete_eq.
    + split; [intros k Hk; by rewrite lookup_insert_ne|].
      right. exists ex. unfold Redis.lookupLive. cbn.
      rewrite lookup_insert_eq.
      unfold Redis.lookupLive in Hl.
      destruct (Redis.data st !! key) as [e0|]; [|done].
      destruct (Redis.live now e0) eqn:Hlive; [|done].
      injection Hl as ->. unfold Redis.live in *. cbn in *. by rewrite Hlive.
  - injection Hw as <-. exists st. split; [done|]. split; [done|].
    split; [done|]. left. split; [done|]. apply inWindow_empty.
Qed.

(** The window step when the limit is reached: the request is answered
    429 with the window length as retry-after, and the client is blocked
    for the block duration of the category. *)
Lemma slidingWindow_denies NODE_ENV now rnd req st z :
  let limits := RATE_LIMITS NODE_ENV (getRateLimitType (method req) (url req)) in
  let key := generateRateLimitKey (ip req) (url req) (userId req) in
  Redis.up st = true ->
  window now key st = Some z ->
  (maxRequests limits <= size (inWindow (now - windowMs limits) z))%nat ->
  exists d st' lg,
    blockDuration limits = Some d
    /\ slidingWindow NODE_ENV now rnd req st
       = (Some (Exceeded (maxRequests limits) (windowMs limits / 1000)
                  (ceilSeconds (windowMs limits)), lg), st')
    /\ Redis.up st' = true
    /\ Redis.data st' !! generateBlockKey (ip req)
       = Some {| Redis.value := Redis.VString (pretty d);
                 Redis.expireAt := Some (now + d * 1000)%Z |}
    /\ (forall k, k <> key -> k <> generateBlockKey (ip req) ->
          Redis.data st' !! k = Redis.data st !! k)
    /\ window now key st' = Some (inWindow (now - windowMs limits) z).
Proof.
  intros limits key Hup Hw Hfull.
  destruct (RATE_LIMITS_shape NODE_ENV (getRateLimitType (method req) (url req)))
    as (d & Hd & Hdpos & _).
  fold limits in Hd.
  destruct (zremrangebyscore_window now key (now - windowMs limits) st z Hup Hw)
    as (st1 & Hrem & Hup1 & Hother & Hkey).
  assert (Hcard : Redis.zcard now key st1
                  = Some (size (inWindow (now - windowMs limits) z))).
  { unfold Redis.zcard. rewrite Hup1.
    destruct Hkey as [[-> ->]|[ex ->]]; [by rewrite map_size_empty|done]. }
  assert (Hw1 : window now key st1 = Some (inWindow (now - windowMs limits) z)).
  { unfold window. destruct Hkey as [[-> ->]|[ex ->]]; done. }
  exists d. unfold slidingWindow. fold limits key. rewrite Hrem, Hcard.
  destruct (maxRequests limits <=? _)%nat eqn:Hle;
    [|apply Nat.leb_gt in Hle; lia].
  rewrite Hd. destruct (d =? 0)%Z eqn:Hd0; [lia|].
  unfold blockIP, Redis.setex. rewrite Hup1. eexists _, _.
  split; [done|]. split; [done|]. cbn. split; [done|].
  split; [by rewrite lookup_insert_eq|].
  split.
  - intros k Hk Hkb. rewrite lookup_insert_ne by done. by apply Hother.
  - unfold window in *. erewrite lookupLive_ext; [exact Hw1|]. cbn.
    rewrite lookup_insert_ne; [done|]. apply blockKey_ne_rateLimitKey.
Qed.

(** The window step below the limit: the request passes, its member is
    recorded with the current time as score next to the entries still
    inside the window, and the key's time to live is the window length. *)
Lemma slidingWindow_admits NODE_ENV now rnd req st z :
  let limits := RATE_LIMITS NODE_ENV (getRateLimitType (method req) (url req)) in
  let key := generateRateLimitKey (ip req) (url req) (userId req) in
  Redis.up st = true ->
  window now key st = Some z ->
  (size (inWindow (now - windowMs limits) z) < maxRequests limits)%nat ->
  exists st' h,
    slidingWindow NODE_ENV now rnd req st = (Some (Pass (Some h), []), st')
    /\ h_remaining h
       = (Z.of_nat (maxRequests limits)
          - Z.of_nat (size (inWindow (now - windowMs limits) z)) - 1)%Z
    /\ Redis.up st' = true
    /\ Redis.data st' !! key
       = Some {| Redis.value :=
                   Redis.VZSet (<[member now rnd := now]>
                                  (inWindow (now - windowMs limits) z));
                 Redis.expireAt :=
                   Some (now + ceilSeconds (windowMs limits) * 1000)%Z |}
    /\ (forall k, k <> key -> Redis.data st' !! k = Redis.data st !! k).
Proof.
  intros limits key Hup Hw Hroom.
  destruct (zremrangebyscore_window now key (now - windowMs limits) st z Hup Hw)
    as (st1 & Hrem & Hup1 & Hother & Hkey).
  assert (Hcard : Redis.zcard now key st1
                  = Some (size (inWindow (now - windowMs limits) z))).
  { unfold Redis.zcard. rewrite Hup1.
    destruct Hkey as [[-> ->]|[ex ->]]; [by rewrite map_size_empty|done]. }
  unfold slidingWindow. fold limits key. rewrite Hrem, Hcard.
  destruct (maxRequests limits <=? _)%nat eqn:Hle;
    [apply Nat.leb_le in Hle; lia|].
  unfold Redis.zadd. rewrite Hup1.
  destruct Hkey as [[Hl Hz]|[ex Hl]]; rewrite Hl.
  - unfold Redis.expire, Redis.lookupLive. cbn. rewrite lookup_insert_eq. cbn.
    eexists _, _. split; [done|]. cbn. split; [done|]. split; [done|].
    split.
    + rewrite lookup_insert_eq. rewrite Hz. by rewrite insert_empty.
    + intros k Hk. rewrite !lookup_insert_ne by done. by apply Hother.
  - assert (Hlive : Redis.live now
                      {| Redis.value := Redis.VZSet (inWindow (now - windowMs limits) z);
                         Redis.expireAt := ex |} = true).
    { unfold Redis.lookupLive in Hl.
      destruct (Redis.data st1 !! key) as [e0|]; [|done].
      destruct (Redis.live now e0) eqn:Hlv; [|done]. by injection Hl as ->. }
    unfold Redis.expire, Redis.lookupLive. cbn. rewrite lookup_insert_eq.
    unfold Redis.live in *. cbn in *. rewrite Hlive.
    eexists _, _. split; [done|]. cbn. split; [done|]. split; [done|].
    split.
    + by rewrite lookup_insert_eq.
    + intros k Hk. rewrite !lookup_insert_ne by done. by apply Hother.
Qed.

(** For a client that is not blocked the hook is the window step. *)
Lemma middleware_not_blocked NODE_ENV now rnd req st :
  Redis.up st = true ->
  Redis.lookupLive now (generateBlockKey (ip req)) st = None ->
  advancedRateLimitMiddleware NODE_ENV now rnd req st
  = match slidingWindow NODE_ENV now rnd req st with
    | (Some (reply, lg), st') => (reply, st', lg)
    | (None, st') => (Pass None, st', [SecureLog "error" "RATE_LIMIT_MIDDLEWARE_ERROR"])
    end.
Proof.
  intros Hup Hb. unfold advancedRateLimitMiddleware.
  rewrite andb_false_r. cbn.
  unfold isIPBlocked, Redis.exists_. rewrite Hup, Hb. cbn.
  by destruct (slidingWindow NODE_ENV now rnd req st) as [[[reply lg]|] st'].
Qed.

(** Entries recorded no later than [t0] are all outside a window that
    starts at [t0] or later. *)
Lemma inWindow_all_old ws t0 (z : gmap string Z) :
  (t0 <= ws)%Z ->
  (forall m s, z !! m = Some s -> (s <= t0)%Z) ->
  inWindow ws z = ∅.
Proof.
  intros Hle Hold. unfold inWindow. apply map_empty_filter.
  intros m s Hm. cbn. specialize (Hold m s Hm). lia.
Qed.

Lemma inWindow_lookup ws (z : gmap string Z) m s :
  inWindow ws z !! m = Some s -> z !! m = Some s /\ (ws < s)%Z.
Proof. unfold inWindow. intros H. by apply map_lookup_filter_Some in H. Qed.

(** The window of one key.  The hook keeps a window per client and request
    URL (and user), with the limits of the URL's category.  For a client that is
    not blocked, the check at [now] counts only the entries recorded under
    the request's key after [now - windowMs]; older entries are purged and
    never count.
    - When the count has reached the category's limit, the request is
      denied and a block entry for the client is created that expires after
      the category's block duration; until then every request of the client
      is rejected without looking at any window, and once the duration has
      elapsed the request is admitted again.
    - Below the limit the request is admitted, its member is added with the
      current time as score, and the key's time to live is set to the
      window length. *)
Theorem sliding_window_per_key NODE_ENV now rnd req st z :
  let limits := RATE_LIMITS NODE_ENV (getRateLimitType (method req) (url req)) in
  let key := generateRateLimitKey (ip req) (url req) (userId req) in
  let bkey := generateBlockKey (ip req) in
  let counted := inWindow (now - windowMs limits) z in
  Redis.up st = true ->
  Redis.lookupLive now bkey st = None ->
  window now key st = Some z ->
  ((maxRequests limits <= size counted)%nat ->
     exists d st' lg,
       blockDuration limits = Some d
       /\ advancedRateLimitMiddleware NODE_ENV now rnd req st
          = (Exceeded (maxRequests limits) (windowMs limits / 1000)
               (ceilSeconds (windowMs limits)), st', lg)
       /\ Redis.data st' !! bkey
          = Some {| Redis.value := Redis.VString (pretty d);
                    Redis.expireAt := Some (now + d * 1000)%Z |}
       /\ (forall t rnd' req' st'',
             (now <= t < now + d * 1000)%Z ->
             ip req' = ip req ->
             Redis.up st'' = true ->
             Redis.data st'' !! bkey = Redis.data st' !! bkey ->
             exists lg',
               advancedRateLimitMiddleware NODE_ENV t rnd' req' st''
               = (Blocked 300, st'', lg'))
       /\ (forall t rnd' st'',
             (now + d * 1000 <= t)%Z ->
             (forall m s, z !! m = Some s -> (s <= now)%Z) ->
             Redis.up st'' = true ->
             Redis.data st'' !! bkey = Redis.data st' !! bkey ->
             Redis.data st'' !! key = Redis.data st' !! key ->
             exists h st3 lg',
               advancedRateLimitMiddleware NODE_ENV t rnd' req st''
               = (Pass (Some h), st3, lg')))
  /\ ((size counted < maxRequests limits)%nat ->
       exists h st' lg,
         advancedRateLimitMiddleware NODE_ENV now rnd req st
         = (Pass (Some h), st', lg)
         /\ Redis.data st' !! key
            = Some {| Redis.value := Redis.VZSet (<[member now rnd := now]> counted);
                      Redis.expireAt :=
                        Some (now + ceilSeconds (windowMs limits) * 1000)%Z |}
         /\ Redis.data st' !! bkey = Redis.data st !! bkey).
Proof.
  intros limits key bkey counted Hup Hb Hw. split.
  - intros Hfull.
    destruct (slidingWindow_denies NODE_ENV now rnd req st z Hup Hw Hfull)
      as (d & st' & lg & Hd & Hsw & Hup' & Hblock & Hother & Hw').
    fold limits key bkey in Hd, Hsw, Hblock, Hother, Hw'.
    exists d, st', lg. split; [done|]. split.
    { rewrite middleware_not_blocked by done. by rewrite Hsw. }
    split; [done|]. split.
    + intros t rnd' req' st'' Ht Hip Hup'' Hsame.
      eapply blocked_client_rejected; [done|].
      rewrite Hip. fold bkey. unfold Redis.lookupLive.
      rewrite Hsame, Hblock. unfold Redis.live. cbn.
      destruct (t <? now + d * 1000)%Z eqn:Hlt; [done|lia].
    + intros t rnd' st'' Ht Hold Hup'' Hsameb Hsamek.
      destruct (RATE_LIMITS_shape NODE_ENV (getRateLimitType (method req) (url req)))
        as (d' & Hd' & Hdpos & Hwin & _ & Hmax).
      fold limits in Hd', Hwin, Hmax. rewrite Hd in Hd'. injection Hd' as <-.
      assert (Hdead : Redis.lookupLive t bkey st'' = None).
      { unfold Redis.lookupLive. rewrite Hsameb, Hblock. unfold Redis.live. cbn.
        destruct (t <? now + d * 1000)%Z eqn:Hlt; [lia|done]. }
      assert (Hwt : exists z1, window t key st'' = Some z1
                               /\ forall m s, z1 !! m = Some s -> (s <= now)%Z).
      { unfold window in *. unfold Redis.lookupLive in *. rewrite Hsamek.
        destruct (Redis.data st' !! key) as [e|]; [|by exists ∅].
        destruct (Redis.live t e) eqn:Hlt; [|by exists ∅].
        assert (Hln : Redis.live now e = true).
        { unfold Redis.live in *. destruct (Redis.expireAt e); [|done]. lia. }
        rewrite Hln in Hw'. destruct e as [[v|z1] ex]; [done|].
        injection Hw' as ->. eexists. split; [done|].
        intros m s Hm. apply inWindow_lookup in Hm as [Hm _]. eauto. }
      destruct Hwt as (z1 & Hwt & Hz1).
      assert (Hnone : inWindow (t - windowMs limits) z1 = ∅).
      { apply (inWindow_all_old _ now); [lia|done]. }
      destruct (slidingWindow_admits NODE_ENV t rnd' req st'' z1 Hup'' Hwt)
        as (st3 & h & Hsw3 & _).
      { fold limits. rewrite Hnone, map_size_empty. done. }
      exists h, st3, []. rewrite middleware_not_blocked by done. by rewrite Hsw3.
  - intros Hroom.
    destruct (slidingWindow_admits NODE_ENV now rnd req st z Hup Hw Hroom)
      as (st' & h & Hsw & _ & _ & Hkey & Hother).
    exists h, st', []. split.
    { rewrite middleware_not_blocked by done. by rewrite Hsw. }
    split; [done|]. apply Hother. apply blockKey_ne_rateLimitKey.
Qed.

Lemma serve_cons NODE_ENV now rnd req calls st :
  serve NODE_ENV ((now, rnd, req) :: calls) st
  = let r := advancedRateLimitMiddleware NODE_ENV now rnd req st in
    ((r.1.1 :: (serve NODE_ENV calls r.1.2).1), (serve NODE_ENV calls r.1.2).2).
Proof.
  cbn. destruct (advancedRateLimitMiddleware NODE_ENV now rnd req st)
         as [[reply st'] lg]. cbn.
  by destruct (serve NODE_ENV calls st') as [replies st''].
Qed.

Lemma lastTime_cons tprev e events :
  lastTime tprev (e :: events) = lastTime e.1 events.
Proof. reflexivity. Qed.

Lemma ascending_lastTime events : forall tprev,
  ascending tprev events -> (tprev <= lastTime tprev events)%Z.
Proof.
  induction events as [|e events IH]; intros tprev Hasc.
  - cbn. lia.
  - destruct Hasc as [Hle Hasc]. rewrite lastTime_cons.
    specialize (IH _ Hasc). lia.
Qed.

(** Attempts that follow one another inside one window, with fresh members
    and room under the limit, are all admitted and all recorded. *)
Lemma attempts_admitted NODE_ENV req t_lo events : forall st zcur tprev,
  let limits := RATE_LIMITS NODE_ENV (getRateLimitType (method req) (url req)) in
  let key := generateRateLimitKey (ip req) (url req) (userId req) in
  let bkey := generateBlockKey (ip req) in
  Redis.up st = true ->
  Redis.lookupLive tprev bkey st = None ->
  Redis.data st !! key
  = Some {| Redis.value := Redis.VZSet zcur;
            Redis.expireAt := Some (tprev + windowMs limits)%Z |} ->
  (forall m s, zcur !! m = Some s -> (t_lo <= s)%Z) ->
  (t_lo <= tprev)%Z ->
  ascending tprev events ->
  Forall (fun e => (e.1 < t_lo + windowMs limits)%Z) events ->
  NoDup (map (fun e => member e.1 e.2) events) ->
  Forall (fun e => zcur !! member e.1 e.2 = None) events ->
  (size zcur + length events <= maxRequests limits)%nat ->
  exists z',
    Forall (fun r => isAllowed r = true)
      (serve NODE_ENV (attemptsOf req events) st).1
    /\ length (serve NODE_ENV (attemptsOf req events) st).1 = length events
    /\ Redis.up (serve NODE_ENV (attemptsOf req events) st).2 = true
    /\ Redis.lookupLive (lastTime tprev events) bkey
         (serve NODE_ENV (attemptsOf req events) st).2 = None
    /\ Redis.data (serve NODE_ENV (attemptsOf req events) st).2 !! key
       = Some {| Redis.value := Redis.VZSet z';
                 Redis.expireAt :=
                   Some (lastTime tprev events + windowMs limits)%Z |}
    /\ size z' = (size zcur + length events)%nat
    /\ (forall m s, z' !! m = Some s -> (t_lo <= s)%Z).
Proof.
  induction events as [|[t r] events IH];
    intros st zcur tprev limits key bkey Hup Hb Hkey Hlo Htlo Hasc Hwin Hnd Hfresh Hroom.
  - exists zcur. cbn. rewrite Nat.add_0_r. eauto 10.
  - change (attemptsOf req ((t, r) :: events))
      with ((t, r, req) :: attemptsOf req events).
    rewrite serve_cons. cbn zeta.
    destruct Hasc as [Hle Hasc]. cbn in Hle.
    inversion Hwin as [|? ? Ht Hwin']; subst. cbn in Ht.
    inversion Hfresh as [|? ? Hfr Hfresh']; subst. cbn in Hfr.
    cbn in Hnd. apply NoDup_cons in Hnd as [Hnotin Hnd].
    destruct (RATE_LIMITS_shape NODE_ENV (getRateLimitType (method req) (url req)))
      as (d & _ & _ & Hw & Hceil & _).
    fold limits in Hw, Hceil.
    assert (Hb' : Redis.lookupLive t bkey st = None)
      by (by apply (lookupLive_None_mono tprev)).
    assert (Hwt : window t key st = Some zcur).
    { unfold window, Redis.lookupLive. rewrite Hkey. unfold Redis.live. cbn.
      destruct (t <? tprev + windowMs limits)%Z eqn:Hlt; [done|lia]. }
    assert (Hall : inWindow (t - windowMs limits) zcur = zcur).
    { unfold inWindow. apply map_filter_id. intros m s Hm. cbn.
      specialize (Hlo m s Hm). lia. }
    destruct (slidingWindow_admits NODE_ENV t r req st zcur Hup Hwt)
      as (st' & h & Hsw & _ & Hup' & Hkey' & Hother).
    { fold limits. rewrite Hall. cbn in Hroom. lia. }
    fold limits key in Hkey', Hother. rewrite Hall, Hceil in Hkey'.
    rewrite middleware_not_blocked by done. rewrite Hsw. cbn [fst snd].
    destruct (IH st' (<[member t r := t]> zcur) t) as (z' & H1 & H2 & H3 & H4 & H5 & H6 & H7).
    + done.
    + unfold Redis.lookupLive. fold bkey.
      rewrite (Hother bkey) by apply blockKey_ne_rateLimitKey.
      exact Hb'.
    + exact Hkey'.
    + intros m s Hm. destruct (decide (m = member t r)) as [->|Hne].
      * rewrite lookup_insert_eq in Hm. injection Hm as <-. lia.
      * rewrite lookup_insert_ne in Hm by done. eauto.
    + lia.
    + exact Hasc.
    + exact Hwin'.
    + exact Hnd.
    + apply Forall_forall. intros e He.
      rewrite Forall_forall in Hfresh'.
      rewrite lookup_insert_ne; [by apply Hfresh'|].
      intros Heq. apply Hnotin. rewrite Heq.
      apply list_elem_of_In, in_map_iff. exists e.
      split; [done|by apply list_elem_of_In].
    + rewrite (map_size_insert_None _ _ _ Hfr). cbn in Hroom. fold limits. lia.
    + exists z'. rewrite lastTime_cons. cbn [fst].
      split; [by constructor|]. split; [cbn [length fst]; by rewrite H2|].
      split; [done|]. split; [done|]. split; [done|].
      split; [|done]. rewrite H6, (map_size_insert_None _ _ _ Hfr). cbn. lia.
Qed.

Lemma serve_app NODE_ENV calls1 : forall calls2 st,
  serve NODE_ENV (calls1 ++ calls2) st
  = ((serve NODE_ENV calls1 st).1
       ++ (serve NODE_ENV calls2 (serve NODE_ENV calls1 st).2).1,
     (serve NODE_ENV calls2 (serve NODE_ENV calls1 st).2).2).
Proof.
  induction calls1 as [|[[now rnd] req] calls1 IH]; intros calls2 st.
  - cbn. by destruct (serve NODE_ENV calls2 st).
  - rewrite <- app_comm_cons, !serve_cons. cbn zeta. rewrite IH. reflexivity.
Qed.

Lemma ascending_app events : forall tprev next,
  ascending tprev (events ++ [next]) ->
  ascending tprev events
  /\ (lastTime tprev events <= next.1)%Z
  /\ Forall (fun e => (e.1 <= next.1)%Z) events.
Proof.
  induction events as [|e events IH]; intros tprev next Hasc.
  - cbn in *. split; [done|]. split; [lia|constructor].
  - cbn in Hasc. destruct Hasc as [Hle Hasc].
    destruct (IH _ _ Hasc) as (H1 & H2 & H3).
    split; [by split|]. split; [done|].
    constructor; [|done].
    pose proof (ascending_lastTime _ _ H1). lia.
Qed.

(** Once as many attempts as the category allows have been recorded inside
    one window, the next attempt on the same key is denied and the client
    is blocked for the category's block duration. *)
Lemma attempts_then_denied NODE_ENV req st z0 first more next :
  let limits := RATE_LIMITS NODE_ENV (getRateLimitType (method req) (url req)) in
  let key := generateRateLimitKey (ip req) (url req) (userId req) in
  let bkey := generateBlockKey (ip req) in
  S (length more) = maxRequests limits ->
  Redis.up st = true ->
  Redis.lookupLive first.1 bkey st = None ->
  window first.1 key st = Some z0 ->
  inWindow (first.1 - windowMs limits) z0 = ∅ ->
  ascending first.1 (more ++ [next]) ->
  (next.1 < first.1 + windowMs limits)%Z ->
  NoDup (map (fun e => member e.1 e.2) (first :: more)) ->
  exists admitted d,
    (serve NODE_ENV (attemptsOf req (first :: more ++ [next])) st).1
    = admitted ++ [Exceeded (maxRequests limits) (windowMs limits / 1000)
                     (ceilSeconds (windowMs limits))]
    /\ length admitted = maxRequests limits
    /\ Forall (fun r => isAllowed r = true) admitted
    /\ blockDuration limits = Some d
    /\ Redis.data (serve NODE_ENV (attemptsOf req (first :: more ++ [next])) st).2
         !! bkey
       = Some {| Redis.value := Redis.VString (pretty d);
                 Redis.expireAt := Some (next.1 + d * 1000)%Z |}.
Proof.
  intros limits key bkey Hlen Hup Hb Hw Hz0 Hasc Hnext Hnd.
  destruct first as [t1 r1]. cbn [fst snd] in *.
  destruct (RATE_LIMITS_shape NODE_ENV (getRateLimitType (method req) (url req)))
    as (d0 & _ & _ & Hwin & Hceil & Hmax).
  fold limits in Hwin, Hceil, Hmax.
  apply ascending_app in Hasc as (Hasc & Hlast & Hbefore).
  cbn in Hnd. apply NoDup_cons in Hnd as [Hnotin Hnd].
  (* the first attempt *)
  destruct (slidingWindow_admits NODE_ENV t1 r1 req st z0 Hup Hw)
    as (st1 & h1 & Hsw1 & _ & Hup1 & Hkey1 & Hother1).
  { fold limits. rewrite Hz0, map_size_empty. lia. }
  fold limits key in Hkey1, Hother1. rewrite Hz0, Hceil in Hkey1.
  (* the attempts that follow it *)
  destruct (attempts_admitted NODE_ENV req t1 more st1 (<[member t1 r1 := t1]> ∅) t1)
    as (z' & Hall & Hlen' & Hup' & Hb' & Hkey' & Hsize & Hlo).
  { done. }
  { unfold Redis.lookupLive. fold bkey.
    rewrite (Hother1 bkey) by apply blockKey_ne_rateLimitKey. exact Hb. }
  { exact Hkey1. }
  { intros m s Hm. destruct (decide (m = member t1 r1)) as [->|Hne].
    - rewrite lookup_insert_eq in Hm. injection Hm as <-. lia.
    - by rewrite lookup_insert_ne, lookup_empty in Hm. }
  { lia. }
  { exact Hasc. }
  { eapply Forall_impl; [exact Hbefore|]. cbn. intros e He. fold limits. lia. }
  { exact Hnd. }
  { apply Forall_forall. intros e He.
    rewrite lookup_insert_ne; [apply lookup_empty|].
    intros Heq. apply Hnotin. rewrite Heq.
    apply list_elem_of_In, in_map_iff. exists e.
    split; [done|by apply list_elem_of_In]. }
  { rewrite map_size_insert_None by apply lookup_empty.
    rewrite map_size_empty. fold limits. lia. }
  fold limits key bkey in Hb', Hkey'.
  set (st5 := (serve NODE_ENV (attemptsOf req more) st1).2) in *.
  (* the attempt after them *)
  destruct next as [tn rn]. cbn [fst snd] in *.
  assert (Hwn : window tn key st5 = Some z').
  { unfold window, Redis.lookupLive. rewrite Hkey'. unfold Redis.live. cbn.
    pose proof (ascending_lastTime _ _ Hasc).
    destruct (tn <? lastTime t1 more + windowMs limits)%Z eqn:Hlt; [done|lia]. }
  assert (Hcount : inWindow (tn - windowMs limits) z' = z').
  { unfold inWindow. apply map_filter_id. intros m s Hm. cbn.
    specialize (Hlo m s Hm). lia. }
  assert (Hbn : Redis.lookupLive tn bkey st5 = None)
    by (by apply (lookupLive_None_mono (lastTime t1 more))).
  destruct (slidingWindow_denies NODE_ENV tn rn req st5 z' Hup' Hwn)
    as (d & st6 & lg & Hd & Hsw6 & _ & Hblock & _).
  { fold limits. rewrite Hcount, Hsize.
    rewrite map_size_insert_None by apply lookup_empty.
    rewrite map_size_empty. lia. }
  fold limits bkey in Hd, Hsw6, Hblock.
  (* putting the run together *)
  change (attemptsOf req ((t1, r1) :: more ++ [(tn, rn)]))
    with ((t1, r1, req) :: attemptsOf req (more ++ [(tn, rn)])).
  unfold attemptsOf at 1 2. rewrite map_app. fold (attemptsOf req more).
  cbn [map fst snd].
  rewrite serve_cons. cbn zeta.
  rewrite middleware_not_blocked by done. rewrite Hsw1. cbn [fst snd].
  rewrite serve_app. fold st5. cbn [fst snd].
  rewrite serve_cons. cbn zeta.
  rewrite middleware_not_blocked by done. rewrite Hsw6. cbn [fst snd serve].
  exists (Pass (Some h1) :: (serve NODE_ENV (attemptsOf req more) st1).1), d.
  split; [by rewrite app_comm_cons|].
  split; [cbn [length]; rewrite Hlen'; lia|].
  split; [by constructor|]. split; done.
Qed.

(** C1, as the code has it.  A client that is not blocked and has no
    attempt recorded in the last 15 minutes makes six attempts on one auth
    URL within 15 minutes (with distinct recorded members).  The first five
    are admitted; the sixth is answered with the rate-limit denial whose
    retry-after is 900 seconds (the window length, not the block duration),
    and a block entry lasting 1800 seconds is created.  Any request of the
    client one second later is rejected because of the block, whatever the
    windows hold; that rejection carries the fixed retry-after of 300
    seconds. *)
Theorem sixth_login_attempt NODE_ENV req st z0 first more sixth :
  let key := generateRateLimitKey (ip req) (url req) (userId req) in
  let bkey := generateBlockKey (ip req) in
  let result := serve NODE_ENV (attemptsOf req (first :: more ++ [sixth])) st in
  includes "/auth/" (url req) = true ->
  length more = 4%nat ->
  Redis.up st = true ->
  Redis.lookupLive first.1 bkey st = None ->
  window first.1 key st = Some z0 ->
  inWindow (first.1 - 900000) z0 = ∅ ->
  ascending first.1 (more ++ [sixth]) ->
  (sixth.1 < first.1 + 900000)%Z ->
  NoDup (map (fun e => member e.1 e.2) (first :: more)) ->
  exists admitted,
    result.1 = admitted ++ [Exceeded 5 900 900]
    /\ length admitted = 5%nat
    /\ Forall (fun r => isAllowed r = true) admitted
    /\ Redis.data result.2 !! bkey
       = Some {| Redis.value := Redis.VString "1800";
                 Redis.expireAt := Some (sixth.1 + 1800000)%Z |}
    /\ forall rnd req' st'',
         ip req' = ip req ->
         Redis.up st'' = true ->
         Redis.data st'' !! bkey = Redis.data result.2 !! bkey ->
         exists lg,
           advancedRateLimitMiddleware NODE_ENV (sixth.1 + 1000) rnd req' st''
           = (Blocked 300, st'', lg).
Proof.
  intros key bkey result Hauth Hlen Hup Hb Hw Hz0 Hasc Hin Hnd.
  assert (Htype : getRateLimitType (method req) (url req) = auth)
    by (unfold getRateLimitType; by rewrite Hauth).
  pose proof (attempts_then_denied NODE_ENV req st z0 first more sixth) as Hgen.
  cbn zeta in Hgen. rewrite Htype in Hgen.
  cbn [RATE_LIMITS windowMs maxRequests blockDuration] in Hgen.
  destruct Hgen as (admitted & d & Hres & Hlen' & Hall & Hd & Hblock);
    try done.
  { by rewrite Hlen. }
  injection Hd as <-. fold result bkey in Hres, Hblock.
  assert (Hpretty : pretty (30 * 60)%Z = "1800") by (vm_compute; reflexivity).
  rewrite Hpretty in Hblock.
  change (30 * 60 * 1000)%Z with 1800000%Z in Hblock.
  exists admitted. split; [exact Hres|]. split; [exact Hlen'|].
  split; [exact Hall|]. split; [exact Hblock|].
  intros rnd req' st'' Hip Hup'' Hsame.
  eapply blocked_client_rejected; [done|].
  rewrite Hip. fold bkey. unfold Redis.lookupLive.
  rewrite Hsame, Hblock. unfold Redis.live. cbn.
  destruct (sixth.1 + 1000 <? sixth.1 + 1800000)%Z eqn:Hlt; [done|lia].
Qed.

End RateLimitFacts.

Import RateLimit.

(** The scenario of the specification, run on the sample data. *)
Lemma sixth_login_attempt_witness :
  let result :=
    serve "production"
      (attemptsOf loginRequest ((1000%Z, "0.1") :: fourMore ++ [(6000%Z, "0.6")]))
      emptyStore in
  exists admitted,
    result.1 = admitted ++ [Exceeded 5 900 900]
    /\ length admitted = 5%nat
    /\ Forall (fun r => isAllowed r = true) admitted
    /\ Redis.data result.2 !! generateBlockKey "1.2.3.4"
       = Some {| Redis.value := Redis.VString "1800";
                 Redis.expireAt := Some 1806000%Z |}
    /\ forall rnd req' st'',
         ip req' = "1.2.3.4" ->
         Redis.up st'' = true ->
         Redis.data st'' !! generateBlockKey "1.2.3.4"
         = Redis.data result.2 !! generateBlockKey "1.2.3.4" ->
         exists lg,
           advancedRateLimitMiddleware "production" 7000 rnd req' st''
           = (Blocked 300, st'', lg).
Proof.
  apply (sixth_login_attempt "production" loginRequest emptyStore ∅
           (1000%Z, "0.1") fourMore (6000%Z, "0.6")).
  - reflexivity.
  - reflexivity.
  - reflexivity.
  - reflexivity.
  - reflexivity.
  - reflexivity.
  - cbn. lia.
  - cbn. lia.
  - apply (bool_decide_unpack _). vm_compute. reflexivity.
Defined.

(** C1 as stated fails: in the scenario the sixth attempt is denied with a
    retry-after of 900 seconds, which is not close to 1800. *)
Lemma sixth_attempt_retry_after_is_900 :
  ~ (forall NODE_ENV req st first more sixth,
        includes "/auth/" (url req) = true ->
        length more = 4%nat ->
        st = emptyStore ->
        ascending first.1 (more ++ [sixth]) ->
        (sixth.1 < first.1 + 900000)%Z ->
        NoDup (map (fun e => member e.1 e.2) (first :: more)) ->
        exists reply ra,
          (serve NODE_ENV (attemptsOf req (first :: more ++ [sixth])) st).1 !! 5%nat
          = Some reply
          /\ retryAfterOf reply = Some ra
          /\ (1800 - 60 <= ra <= 1800 + 60)%Z).
Proof.
  intros H.
  destruct (H "production" loginRequest emptyStore (1000%Z, "0.1") fourMore
              (6000%Z, "0.6"))
    as (reply & ra & Hreply & Hra & Hnear).
  - reflexivity.
  - reflexivity.
  - reflexivity.
  - cbn. lia.
  - cbn. lia.
  - apply (bool_decide_unpack _). vm_compute. reflexivity.
  - vm_compute in Hreply. injection Hreply as <-.
    cbn in Hra. injection Hra as <-. lia.
Qed.

(** The theorem at work on the sample data: with five attempts recorded the
    sixth is denied and the client blocked for 1800 seconds; on the empty
    cache the first attempt is admitted. *)
Lemma sliding_window_per_key_witness :
  (exists st' lg,
      advancedRateLimitMiddleware "production" 6000 "0.6" loginRequest fullStore
      = (Exceeded 5 900 900, st', lg)
      /\ Redis.data st' !! generateBlockKey "1.2.3.4"
         = Some {| Redis.value := Redis.VString "1800";
                   Redis.expireAt := Some 1806000%Z |})
  /\ (exists h st' lg,
        advancedRateLimitMiddleware "production" 1000 "0.1" loginRequest emptyStore
        = (Pass (Some h), st', lg)).
Proof.
  split.
  - destruct (proj1 (sliding_window_per_key "production" 6000 "0.6" loginRequest
                       fullStore fiveEntries eq_refl eq_refl eq_refl))
      as (d & st' & lg & Hd & Hmw & Hblock & _).
    + vm_compute. lia.
    + injection Hd as <-. exists st', lg. split; [exact Hmw|exact Hblock].
  - destruct (proj2 (sliding_window_per_key "production" 1000 "0.1" loginRequest
                       emptyStore ∅ eq_refl eq_refl eq_refl))
      as (h & st' & lg & Hmw & _).
    + vm_compute. lia.
    + by exists h, st', lg.
Defined.

(** The window is not kept per category.  Five login attempts exhaust the
    auth limit of the login URL, yet the same client's next request in the
    auth category, on the register URL, is admitted. *)
Lemma limit_is_per_url_not_per_category :
  ~ (forall NODE_ENV (K : LimitType) (client : string) (calls : list Call)
            (next : Call),
        Forall (fun c => ip c.2 = client
                         /\ getRateLimitType (method c.2) (url c.2) = K)
               (calls ++ [next]) ->
        length calls = maxRequests (RATE_LIMITS NODE_ENV K) ->
        Forall (fun r => isAllowed r = true) (serve NODE_ENV calls emptyStore).1 ->
        Forall (fun c => (next.1.1 - windowMs (RATE_LIMITS NODE_ENV K) < c.1.1
                          <= next.1.1)%Z) calls ->
        isAllowed
          (advancedRateLimitMiddleware NODE_ENV next.1.1 next.1.2 next.2
             (serve NODE_ENV calls emptyStore).2).1.1 = false).
Proof.
  intros H.
  specialize (H "production" auth "1.2.3.4"
                (attemptsOf loginRequest ((1000%Z, "0.1") :: fourMore))
                (6000%Z, "0.6", registerRequest)).
  assert (H1 : Forall (fun c : Call =>
                         ip c.2 = "1.2.3.4"
                         /\ getRateLimitType (method c.2) (url c.2) = auth)
                 (attemptsOf loginRequest ((1000%Z, "0.1") :: fourMore)
                    ++ [(6000%Z, "0.6", registerRequest)]))
    by (repeat constructor).
  assert (H2 : Forall (fun r => isAllowed r = true)
                 (serve "production"
                    (attemptsOf loginRequest ((1000%Z, "0.1") :: fourMore))
                    emptyStore).1)
    by (vm_compute; repeat constructor).
  specialize (H H1 eq_refl H2).
  assert (Hr : isAllowed
                 (advancedRateLimitMiddleware "production" 6000 "0.6" registerRequest
                    (serve "production"
                       (attemptsOf loginRequest ((1000%Z, "0.1") :: fourMore))
                       emptyStore).2).1.1 = false).
  { apply H. repeat constructor; cbn; lia. }
  vm_compute in Hr. discriminate Hr.
Qed.

(** ** Encodings *)

Section EncodingFacts.

Import Js.

Open Scope Z_scope.

(** Linear arithmetic with division and remainder by constants. *)
Ltac zlia := Z.div_mod_to_equations; lia.

(** Settle the comparisons of the goal whose outcome arithmetic decides. *)
Ltac decide_tests :=
  repeat match goal with
  | |- context [(?a <=? ?b)] =>
      first [ replace (a <=? b) with true by (symmetry; apply Z.leb_le; zlia)
            | replace (a <=? b) with false by (symmetry; apply Z.leb_gt; zlia) ]
  | |- context [(?a <? ?b)] =>
      first [ replace (a <? b) with true by (symmetry; apply Z.ltb_lt; zlia)
            | replace (a <? b) with false by (symmetry; apply Z.ltb_ge; zlia) ]
  | |- context [(?a =? ?b)] =>
      first [ replace (a =? b) with true by (symmetry; apply Z.eqb_eq; zlia)
            | replace (a =? b) with false by (symmetry; apply Z.eqb_neq; zlia) ]
  end.

Lemma between_spec lo hi x : between lo hi x = true <-> lo <= x <= hi.
Proof. unfold between. rewrite andb_true_iff, Z.leb_le, Z.leb_le. tauto. Qed.

Lemma hexValue_hexDigit n : 0 <= n < 16 -> hexValue (hexDigit n) = Some n.
Proof.
  intros Hn. unfold hexValue, hexDigit, between.
  destruct (Z.ltb_spec n 10); decide_tests; cbn; f_equal; lia.
Qed.

Lemma hexDigit_plain n : 0 <= n < 16 -> isPlain (hexDigit n) = true.
Proof.
  intros Hn. unfold isPlain, hexDigit, between.
  destruct (Z.ltb_spec n 10); decide_tests; reflexivity.
Qed.

Lemma isByte_spec b : isByte b = true <-> 0 <= b < 256.
Proof. unfold isByte. rewrite between_spec. lia. Qed.

Lemma toHex_cons b bs :
  toHex (b :: bs) = hexDigit (b / 16) :: hexDigit (b mod 16) :: toHex bs.
Proof. reflexivity. Qed.

(** Decoding the hexadecimal text of a buffer gives the buffer back. *)
Lemma fromHex_toHex bs :
  Forall (fun b => isByte b = true) bs -> fromHex (toHex bs) = bs.
Proof.
  induction 1 as [|b bs Hb _ IH]; [done|].
  apply isByte_spec in Hb. rewrite toHex_cons. cbn [fromHex].
  rewrite !hexValue_hexDigit by zlia. rewrite IH. f_equal. zlia.
Qed.

Lemma toHex_plain bs :
  Forall (fun b => isByte b = true) bs ->
  Forall (fun c => isPlain c = true) (toHex bs).
Proof.
  induction 1 as [|b bs Hb _ IH]; [constructor|].
  apply isByte_spec in Hb. rewrite toHex_cons.
  constructor; [apply hexDigit_plain; zlia|].
  constructor; [apply hexDigit_plain; zlia|done].
Qed.

Lemma toHex_length bs : length (toHex bs) = (2 * length bs)%nat.
Proof.
  induction bs as [|b bs IH]; [done|].
  rewrite toHex_cons. cbn [length]. rewrite IH. lia.
Qed.

Lemma b64Value_b64Char v :
  0 <= v < 64 -> b64Value (b64Char v) = Some v /\ b64Char v <> 61.
Proof.
  intros Hv. unfold b64Value, b64Char, between.
  destruct (Z.ltb_spec v 26); [decide_tests; cbn; split; [f_equal|]; lia|].
  destruct (Z.ltb_spec v 52); [decide_tests; cbn; split; [f_equal|]; lia|].
  destruct (Z.ltb_spec v 62); [decide_tests; cbn; split; [f_equal|]; lia|].
  destruct (Z.eqb_spec v 62); cbn; split; try lia; f_equal; lia.
Qed.

Lemma sextets_b64Char v rest :
  0 <= v < 64 -> sextets (b64Char v :: rest) = v :: sextets rest.
Proof.
  intros Hv. destruct (b64Value_b64Char v Hv) as [Hval Hne]. cbn.
  destruct (Z.eqb_spec (b64Char v) 61); [done|]. by rewrite Hval.
Qed.

(** Decoding the base64 text of a buffer gives the buffer back. *)
Lemma fromBase64_toBase64 bs :
  Forall (fun b => isByte b = true) bs -> fromBase64 (toBase64 bs) = bs.
Proof.
  unfold fromBase64.
  assert (H3 : forall n bs, (length bs <= n)%nat ->
                 Forall (fun b => isByte b = true) bs ->
                 packBytes (sextets (toBase64 bs)) = bs).
  { clear bs. induction n as [n IH] using lt_wf_ind.
    intros bs Hlen Hall.
    destruct bs as [|b1 [|b2 [|b3 rest]]]; [done| | |].
    - inversion Hall as [|? ? H1 _]; subst. apply isByte_spec in H1.
      cbn [toBase64]. rewrite !sextets_b64Char by zlia. cbn.
      f_equal. zlia.
    - inversion Hall as [|? ? H1 Hall']; subst.
      inversion Hall' as [|? ? H2 _]; subst.
      apply isByte_spec in H1, H2.
      cbn [toBase64]. rewrite !sextets_b64Char by zlia. cbn.
      f_equal; [zlia|]. f_equal. zlia.
    - inversion Hall as [|? ? H1 Hall']; subst.
      inversion Hall' as [|? ? H2 Hall'']; subst.
      inversion Hall'' as [|? ? H3 Hrest]; subst.
      apply isByte_spec in H1, H2, H3.
      cbn [toBase64 app]. rewrite !sextets_b64Char by zlia.
      cbn [packBytes app].
      rewrite (IH (length rest)) by (cbn in Hlen; try lia; done).
      f_equal; [zlia|]. f_equal; [zlia|]. f_equal. zlia. }
  intros Hall. by apply (H3 (length bs)).
Qed.

(** The decoder reads the bytes of a scalar value back as that value. *)
Lemma utf8Decode_encodeScalar cp rest :
  0 <= cp < 1114112 -> ~ (55296 <= cp <= 57343) ->
  utf8DecodeFrom None (encodeScalar cp ++ rest)
  = utf16 cp ++ utf8DecodeFrom None rest.
Proof.
  intros Hcp Hns. unfold encodeScalar.
  destruct (Z.ltb_spec cp 128).
  { cbn [app utf8DecodeFrom utf8Step]. unfold utf8Start, between.
    decide_tests. cbn. unfold utf16. decide_tests. reflexivity. }
  destruct (Z.ltb_spec cp 2048).
  { cbn [app utf8DecodeFrom utf8Step]. unfold utf8Start, between.
    decide_tests. cbn [andb utf8DecodeFrom utf8Step app u_lower u_upper].
    unfold between. decide_tests. cbn [andb u_needed u_cp app].
    replace ((192 + cp / 64 - 192) * 64 + (128 + cp mod 64 - 128)) with cp
      by zlia.
    reflexivity. }
  destruct (Z.ltb_spec cp 65536).
  { cbn [app utf8DecodeFrom utf8Step]. unfold utf8Start, between.
    decide_tests. cbn [andb utf8DecodeFrom utf8Step app u_lower u_upper].
    unfold between.
    destruct (Z.eqb_spec (224 + cp / 4096) 224);
      destruct (Z.eqb_spec (224 + cp / 4096) 237);
      decide_tests;
      cbn [andb u_needed u_cp app utf8DecodeFrom utf8Step u_lower u_upper];
      unfold between; decide_tests; cbn [andb u_needed u_cp app];
      replace (((224 + cp / 4096 - 224) * 64 + (128 + cp / 64 mod 64 - 128)) * 64
               + (128 + cp mod 64 - 128)) with cp by zlia;
      reflexivity. }
  cbn [app utf8DecodeFrom utf8Step]. unfold utf8Start, between.
  decide_tests. cbn [andb utf8DecodeFrom utf8Step app u_lower u_upper].
  unfold between.
  destruct (Z.eqb_spec (240 + cp / 262144) 240);
    destruct (Z.eqb_spec (240 + cp / 262144) 244);
    decide_tests;
    cbn [andb u_needed u_cp app utf8DecodeFrom utf8Step u_lower u_upper];
    unfold between; decide_tests;
    cbn [andb u_needed u_cp app utf8DecodeFrom utf8Step u_lower u_upper];
    unfold between; decide_tests; cbn [andb u_needed u_cp app];
    replace ((((240 + cp / 262144 - 240) * 64 + (128 + cp / 4096 mod 64 - 128)) * 64
              + (128 + cp / 64 mod 64 - 128)) * 64 + (128 + cp mod 64 - 128))
      with cp by zlia;
    reflexivity.
Qed.

Lemma encodeScalar_bytes cp :
  0 <= cp < 1114112 -> Forall (fun b => isByte b = true) (encodeScalar cp).
Proof.
  intros Hcp. unfold encodeScalar.
  destruct (Z.ltb_spec cp 128); [|destruct (Z.ltb_spec cp 2048);
    [|destruct (Z.ltb_spec cp 65536)]];
    repeat constructor; apply isByte_spec; zlia.
Qed.

Lemma isWellFormed_cons u s :
  isWellFormed (u :: s) = true ->
  (isHighSurrogate u = true
   /\ exists l s', s = l :: s' /\ isLowSurrogate l = true
                   /\ isWellFormed s' = true)
  \/ (isHighSurrogate u = false /\ isLowSurrogate u = false
      /\ isCodeUnit u = true /\ isWellFormed s = true).
Proof.
  cbn [isWellFormed]. destruct (isHighSurrogate u) eqn:Hh.
  - destruct s as [|l s']; [done|]. intros [Hl Hs]%andb_true_iff.
    left. split; [done|]. by exists l, s'.
  - intros [[Hu Hl]%andb_true_iff Hs]%andb_true_iff. right.
    by destruct (isLowSurrogate u).
Qed.

(** A string without unpaired surrogates survives the trip through UTF-8. *)
Lemma utf8Decode_utf8Encode s :
  isWellFormed s = true -> utf8Decode (utf8Encode s) = s.
Proof.
  unfold utf8Decode.
  assert (H : forall n s, (length s <= n)%nat -> isWellFormed s = true ->
                utf8DecodeFrom None (utf8Encode s) = s).
  { clear s. induction n as [n IH] using lt_wf_ind. intros s Hlen Hwf.
    destruct s as [|u s]; [done|].
    apply isWellFormed_cons in Hwf
      as [(Hh & l & s' & -> & Hl & Hwf)|(Hh & Hl & Hu & Hwf)].
    - cbn [utf8Encode]. rewrite Hh, Hl.
      apply between_spec in Hh, Hl.
      rewrite utf8Decode_encodeScalar by lia.
      rewrite (IH (length s')) by (cbn in Hlen; try lia; done).
      unfold utf16. decide_tests. cbn [app]. f_equal; [zlia|]. f_equal. zlia.
    - cbn [utf8Encode]. rewrite Hh, Hl.
      apply between_spec in Hu.
      assert (~ (55296 <= u <= 57343)).
      { intros Hr. destruct (Z.le_gt_cases u 56319).
        - assert (isHighSurrogate u = true) by (apply between_spec; lia).
          congruence.
        - assert (isLowSurrogate u = true) by (apply between_spec; lia).
          congruence. }
      rewrite utf8Decode_encodeScalar by lia.
      rewrite (IH (length s)) by (cbn in Hlen; try lia; done).
      unfold utf16. decide_tests. reflexivity. }
  intros Hwf. by apply (H (length s)).
Qed.

(** Whatever the string, its UTF-8 encoding is a sequence of bytes. *)
Lemma utf8Encode_bytes s :
  Forall (fun u => isCodeUnit u = true) s ->
  Forall (fun b => isByte b = true) (utf8Encode s).
Proof.
  assert (H : forall n s, (length s <= n)%nat ->
                Forall (fun u => isCodeUnit u = true) s ->
                Forall (fun b => isByte b = true) (utf8Encode s)).
  { clear s. induction n as [n IH] using lt_wf_ind. intros s Hlen Hall.
    destruct s as [|u s]; [constructor|].
    inversion Hall as [|? ? Hu Hall']; subst.
    assert (Hrepl : Forall (fun b => isByte b = true) replacement)
      by (repeat constructor).
    assert (Hs : Forall (fun b => isByte b = true) (utf8Encode s))
      by (apply (IH (length s)); [cbn in Hlen; lia|done|done]).
    cbn [utf8Encode]. destruct (isHighSurrogate u) eqn:Hh.
    - destruct s as [|l s']; [done|].
      inversion Hall' as [|? ? Hlu Hall'']; subst.
      destruct (isLowSurrogate l) eqn:Hl.
      + apply Forall_app. split.
        * apply between_spec in Hh, Hl. apply encodeScalar_bytes. lia.
        * apply (IH (length s')); [cbn in Hlen; lia|done|done].
      + by apply Forall_app.
    - destruct (isLowSurrogate u) eqn:Hl; [by apply Forall_app|].
      apply Forall_app. split; [|done].
      apply between_spec in Hu. apply encodeScalar_bytes. lia. }
  intros Hall. by apply (H (length s)).
Qed.

Lemma isWellFormed_codeUnits s :
  isWellFormed s = true -> Forall (fun u => isCodeUnit u = true) s.
Proof.
  assert (H : forall n s, (length s <= n)%nat -> isWellFormed s = true ->
                Forall (fun u => isCodeUnit u = true) s).
  { clear s. induction n as [n IH] using lt_wf_ind. intros s Hlen Hwf.
    destruct s as [|u s]; [constructor|].
    apply isWellFormed_cons in Hwf
      as [(Hh & l & s' & -> & Hl & Hwf)|(Hh & Hl & Hu & Hwf)].
    - apply between_spec in Hh, Hl.
      constructor; [apply between_spec; lia|].
      constructor; [apply between_spec; lia|].
      apply (IH (length s')); [cbn in Hlen; lia|done|done].
    - constructor; [done|].
      apply (IH (length s)); [cbn in Hlen; lia|done|done]. }
  intros Hwf. by apply (H (length s)).
Qed.

(** ASCII text is well formed, and UTF-8 leaves it as it is. *)
Lemma ascii_isWellFormed s :
  Forall (fun c => isAscii c = true) s -> isWellFormed s = true.
Proof.
  induction 1 as [|c s Hc _ IH]; [done|].
  apply between_spec in Hc. cbn [isWellFormed].
  unfold isHighSurrogate, isLowSurrogate, isCodeUnit, between.
  decide_tests. by rewrite IH.
Qed.

Lemma isPlain_isAscii c : isPlain c = true -> isAscii c = true.
Proof.
  unfold isPlain. intros [[Hc _]%andb_true_iff _]%andb_true_iff.
  apply between_spec in Hc. apply between_spec. lia.
Qed.

Lemma isPlain_spec c :
  isPlain c = true <-> 32 <= c <= 126 /\ c <> 34 /\ c <> 92.
Proof.
  unfold isPlain. rewrite !andb_true_iff, !negb_true_iff, between_spec.
  rewrite !Z.eqb_neq. tauto.
Qed.

(** [JSON.stringify] writes a string of plain characters between quotes,
    unchanged. *)
Lemma quoteBody_plain s :
  Forall (fun c => isPlain c = true) s -> quoteBody s = s.
Proof.
  induction 1 as [|c s Hc _ IH]; [done|].
  apply isPlain_spec in Hc as (Hr & H34 & H92). cbn [quoteBody].
  unfold isHighSurrogate, isLowSurrogate, between. decide_tests.
  cbn [andb app]. by rewrite IH.
Qed.

(** The parser reads plain characters up to the closing quote. *)
Lemma parseStringBody_plain s rest :
  Forall (fun c => isPlain c = true) s ->
  parseStringBody (s ++ 34 :: rest) = Some (s, rest).
Proof.
  induction 1 as [|c s Hc _ IH]; [done|].
  apply isPlain_spec in Hc as (Hr & H34 & H92).
  cbn [app parseStringBody]. decide_tests. by rewrite IH.
Qed.

Lemma JSON_stringify_EncryptedData_ascii encrypted iv :
  Forall (fun c => isPlain c = true) encrypted ->
  Forall (fun c => isPlain c = true) iv ->
  Forall (fun c => isAscii c = true) (JSON_stringify_EncryptedData encrypted iv).
Proof.
  intros He Hi. unfold JSON_stringify_EncryptedData, quote.
  rewrite !quoteBody_plain by first [done|by repeat constructor].
  repeat (apply Forall_app; split);
    first [ by repeat constructor
          | eapply Forall_impl; [eassumption|]; apply isPlain_isAscii ].
Qed.

(** [JSON.parse] reads back what [JSON.stringify] wrote for the two
    properties. *)
Lemma JSON_parse_stringify_EncryptedData encrypted iv :
  Forall (fun c => isPlain c = true) encrypted ->
  Forall (fun c => isPlain c = true) iv ->
  JSON_parse (JSON_stringify_EncryptedData encrypted iv)
  = Some (JObject [(js "encrypted", JString encrypted); (js "iv", JString iv)]).
Proof.
  intros He Hi. unfold JSON_parse.
  assert (Hfuel : exists f,
             S (2 * length (JSON_stringify_EncryptedData encrypted iv))
             = S (S (S (S f)))).
  { assert (2 <= length (JSON_stringify_EncryptedData encrypted iv))%nat.
    { unfold JSON_stringify_EncryptedData. rewrite !length_app.
      change (length (js "{")) with 1%nat.
      change (length (js "}")) with 1%nat. lia. }
    exists (2 * length (JSON_stringify_EncryptedData encrypted iv) - 3)%nat.
    lia. }
  destruct Hfuel as [f ->].
  unfold JSON_stringify_EncryptedData, quote.
  rewrite !quoteBody_plain by first [done|by repeat constructor].
  change (js "{") with [123]. change (js ":") with [58].
  change (js ",") with [44]. change (js "}") with [125].
  cbn [app]. rewrite <- !app_assoc. cbn [app].
  cbn [parseValue skipWs isWhitespace Z.eqb Pos.eqb orb].
  cbn [parseMembers skipWs isWhitespace Z.eqb Pos.eqb orb].
  rewrite (parseStringBody_plain (js "encrypted")) by (by repeat constructor).
  cbn [parseMembers parseValue skipWs isWhitespace Z.eqb Pos.eqb orb].
  rewrite (parseStringBody_plain encrypted) by done.
  cbn [parseMembers parseValue skipWs isWhitespace Z.eqb Pos.eqb orb].
  rewrite (parseStringBody_plain (js "iv")) by (by repeat constructor).
  cbn [parseMembers parseValue skipWs isWhitespace Z.eqb Pos.eqb orb].
  rewrite (parseStringBody_plain iv) by done.
  cbn [parseMembers parseValue skipWs isWhitespace Z.eqb Pos.eqb orb].
  reflexivity.
Qed.

End EncodingFacts.

(** ** The PII cipher *)

Section EncryptionFacts.

Import Js Encryption.

Open Scope Z_scope.

Variable keystream : bytes -> nat -> Z.
Variable bufferFromObject : JSON -> option bytes.

Local Abbreviation encryptPII := (Encryption.encryptPII keystream).
Local Abbreviation decryptPII := (Encryption.decryptPII keystream bufferFromObject).
Local Abbreviation tryDecrypt := (Encryption.tryDecrypt keystream bufferFromObject).
Local Abbreviation xorFrom := (Encryption.xorFrom keystream).

Lemma lxor_byte a b : 0 <= a < 256 -> 0 <= b < 256 -> 0 <= Z.lxor a b < 256.
Proof.
  intros Ha Hb. split; [apply Z.lxor_nonneg; lia|].
  destruct (Z.eq_dec (Z.lxor a b) 0) as [->|Hne]; [lia|].
  assert (0 <= Z.lxor a b) by (apply Z.lxor_nonneg; lia).
  change 256 with (2 ^ 8). apply Z.log2_lt_pow2; [lia|].
  pose proof (Z.log2_lxor a b) as Hl.
  assert (Hlog : forall x, 0 <= x < 256 -> Z.log2 x < 8).
  { intros x Hx. destruct (Z.eq_dec x 0) as [->|]; [done|].
    apply Z.log2_lt_pow2; [lia|]. change (2 ^ 8) with 256. lia. }
  pose proof (Hlog a Ha). pose proof (Hlog b Hb). lia.
Qed.

Lemma xorFrom_bytes iv data : forall i,
  Forall (fun b => isByte b = true) data ->
  Forall (fun b => isByte b = true) (xorFrom iv i data).
Proof.
  induction data as [|b data IH]; intros i Hall; [constructor|].
  inversion Hall as [|? ? Hb Hall']; subst. cbn [Encryption.xorFrom].
  constructor; [|by apply IH].
  apply isByte_spec in Hb. apply isByte_spec. apply lxor_byte; [done|].
  apply Z.mod_pos_bound. lia.
Qed.

(** Counter mode is its own inverse. *)
Lemma xorFrom_involutive iv data : forall i,
  xorFrom iv i (xorFrom iv i data) = data.
Proof.
  induction data as [|b data IH]; intros i; [done|].
  cbn [Encryption.xorFrom]. rewrite IH. f_equal.
  by rewrite Z.lxor_assoc, Z.lxor_nilpotent, Z.lxor_0_r.
Qed.

Lemma toBase64_nonempty b bs : exists c cs, toBase64 (b :: bs) = c :: cs.
Proof. destruct bs as [|b2 [|b3 rest]]; cbn [toBase64 app]; eauto. Qed.

(** What the token of an encryption decodes to. *)
Lemma encryptPII_token iv u P :
  length iv = 16%nat ->
  Forall (fun b => isByte b = true) iv ->
  Forall (fun c => isCodeUnit c = true) (u :: P) ->
  exists c token,
    encryptPII iv (u :: P) = Some (c :: token)
    /\ JSON_parse (utf8Decode (fromBase64 (c :: token)))
       = Some (JObject
                 [(js "encrypted",
                   JString (toHex (xorFrom iv 0 (utf8Encode (u :: P)))));
                  (js "iv", JString (toHex iv))]).
Proof.
  intros Hlen Hiv HP. unfold Encryption.encryptPII, createCipheriv.
  rewrite Hlen. cbn [Nat.eqb IV_LENGTH].
  set (ct := xorFrom iv 0 (utf8Encode (u :: P))).
  assert (Hct : Forall (fun b => isByte b = true) ct)
    by (apply xorFrom_bytes, utf8Encode_bytes; done).
  pose proof (toHex_plain _ Hct) as Hpe. pose proof (toHex_plain _ Hiv) as Hpi.
  pose proof (JSON_stringify_EncryptedData_ascii _ _ Hpe Hpi) as Hascii.
  pose proof (ascii_isWellFormed _ Hascii) as Hwf.
  set (text := JSON_stringify_EncryptedData (toHex ct) (toHex iv)) in *.
  assert (Hne : exists b bs, utf8Encode text = b :: bs).
  { unfold text, JSON_stringify_EncryptedData. change (js "{") with [123].
    cbn [app]. eexists 123, _. reflexivity. }
  destruct Hne as (b & bs & Hb).
  destruct (toBase64_nonempty b bs) as (c & token & Htok).
  exists c, token. rewrite Hb, Htok. split; [done|].
  rewrite <- Htok, <- Hb.
  rewrite fromBase64_toBase64
    by (apply utf8Encode_bytes, isWellFormed_codeUnits; done).
  rewrite utf8Decode_utf8Encode by done.
  by apply JSON_parse_stringify_EncryptedData.
Qed.

(** Decrypting the token runs the cipher backwards over the bytes of the
    plaintext. *)
Lemma tryDecrypt_encryptPII iv u P :
  length iv = 16%nat ->
  Forall (fun b => isByte b = true) iv ->
  Forall (fun c => isCodeUnit c = true) (u :: P) ->
  exists c token,
    encryptPII iv (u :: P) = Some (c :: token)
    /\ tryDecrypt (c :: token) = Some (utf8Decode (utf8Encode (u :: P))).
Proof.
  intros Hlen Hiv HP.
  destruct (encryptPII_token iv u P Hlen Hiv HP) as (c & token & Henc & Hparse).
  exists c, token. split; [done|].
  unfold Encryption.tryDecrypt. rewrite Hparse.
  assert (Hct : Forall (fun b => isByte b = true)
                  (xorFrom iv 0 (utf8Encode (u :: P))))
    by (apply xorFrom_bytes, utf8Encode_bytes; done).
  change (getProperty _ (js "iv")) with (Some (Some (JString (toHex iv)))).
  cbn [bufferFromHex]. rewrite (fromHex_toHex iv) by done.
  unfold createCipheriv. rewrite Hlen. cbn [Nat.eqb IV_LENGTH].
  change (getProperty _ (js "encrypted"))
    with (Some (Some (JString (toHex (xorFrom iv 0 (utf8Encode (u :: P))))))).
  cbn [hexInput]. rewrite toHex_length.
  replace (Nat.even (2 * _)) with true
    by (symmetry; apply Nat.even_spec; by eexists).
  rewrite fromHex_toHex by done. by rewrite xorFrom_involutive.
Qed.

(** C4, as the code has it.  For every non-empty plaintext [P] and every
    16-byte initialisation vector, [encryptPII] returns a token;
    [decryptPII] of that token is [P] whenever [P] is a well-formed string
    (one without unpaired surrogates); and encrypting [P] again with a
    different vector gives a different token. *)
Theorem pii_round_trip iv P :
  P <> [] ->
  Forall (fun c => isCodeUnit c = true) P ->
  length iv = 16%nat ->
  Forall (fun b => isByte b = true) iv ->
  exists token,
    encryptPII iv P = Some token
    /\ (isWellFormed P = true -> decryptPII token = P)
    /\ (forall iv',
          length iv' = 16%nat ->
          Forall (fun b => isByte b = true) iv' ->
          iv' <> iv ->
          encryptPII iv' P <> Some token).
Proof.
  intros Hne HP Hlen Hiv. destruct P as [|u P]; [done|].
  destruct (tryDecrypt_encryptPII iv u P Hlen Hiv HP) as (c & token & Henc & Hdec).
  exists (c :: token). split; [done|]. split.
  - intros Hwf. unfold Encryption.decryptPII. rewrite Hdec.
    by apply utf8Decode_utf8Encode.
  - intros iv' Hlen' Hiv' Hdiff Henc'.
    destruct (encryptPII_token iv u P Hlen Hiv HP) as (c1 & t1 & He1 & Hp1).
    destruct (encryptPII_token iv' u P Hlen' Hiv' HP) as (c2 & t2 & He2 & Hp2).
    rewrite Henc in He1. rewrite Henc' in He2.
    injection He1 as <- <-. injection He2 as <- <-.
    rewrite Hp1 in Hp2. injection Hp2 as _ Hivs.
    apply Hdiff. rewrite <- (fromHex_toHex iv'), <- (fromHex_toHex iv) by done.
    by rewrite Hivs.
Qed.

(** C10.  The token [encryptPII] returns for a non-empty plaintext is
    recognised by [isEncrypted]; the empty string is returned as it is and
    is not recognised. *)
Theorem isEncrypted_encryptPII iv P :
  Forall (fun c => isCodeUnit c = true) P ->
  length iv = 16%nat ->
  Forall (fun b => isByte b = true) iv ->
  (P <> [] ->
   exists token, encryptPII iv P = Some token /\ isEncrypted token = true)
  /\ encryptPII iv [] = Some []
  /\ isEncrypted [] = false.
Proof.
  intros HP Hlen Hiv. split; [|done].
  intros Hne. destruct P as [|u P]; [done|].
  destruct (encryptPII_token iv u P Hlen Hiv HP) as (c & token & Henc & Hparse).
  exists (c :: token). split; [done|].
  unfold isEncrypted. rewrite Hparse.
  apply andb_true_iff. split; apply bool_decide_eq_true_2; by eexists.
Qed.

End EncryptionFacts.

(** The round trip on the sample data. *)
Lemma pii_round_trip_witness :
  exists token,
    Encryption.encryptPII Encryption.countingStream Encryption.sampleIv
      (Js.js "jean.dupont@example.com") = Some token
    /\ Encryption.decryptPII Encryption.countingStream Encryption.refuseObjects token
       = Js.js "jean.dupont@example.com"
    /\ Encryption.encryptPII Encryption.countingStream Encryption.otherIv
         (Js.js "jean.dupont@example.com") <> Some token.
Proof.
  destruct (pii_round_trip Encryption.countingStream Encryption.refuseObjects
              Encryption.sampleIv (Js.js "jean.dupont@example.com"))
    as (token & Henc & Hdec & Hdiff).
  - discriminate.
  - apply Forall_forall. intros c Hc. vm_compute in Hc.
    repeat (apply elem_of_cons in Hc as [->|Hc]; [reflexivity|]).
    by apply elem_of_nil in Hc.
  - reflexivity.
  - repeat constructor.
  - exists token. split; [exact Henc|]. split; [by apply Hdec|].
    apply Hdiff; [reflexivity|repeat constructor|discriminate].
Defined.

(** C4 as stated fails on a plaintext that is an unpaired surrogate: UTF-8
    cannot carry it, the cipher is fed U+FFFD instead, and that is what
    comes back. *)
Lemma lone_surrogate_not_restored :
  ~ (forall keystream bufferFromObject iv P token,
        P <> [] ->
        Forall (fun c => Js.isCodeUnit c = true) P ->
        length iv = 16%nat ->
        Forall (fun b => Js.isByte b = true) iv ->
        Encryption.encryptPII keystream iv P = Some token ->
        Encryption.decryptPII keystream bufferFromObject token = P).
Proof.
  intros H.
  assert (Hd : Encryption.decryptPII Encryption.countingStream
                 Encryption.refuseObjects
                 (default [] (Encryption.encryptPII Encryption.countingStream
                                Encryption.sampleIv [55296%Z]))
               = [55296%Z]).
  { apply (H _ _ Encryption.sampleIv).
    - discriminate.
    - repeat constructor.
    - reflexivity.
    - repeat constructor.
    - reflexivity. }
  vm_compute in Hd. discriminate Hd.
Qed.

(** The recognition of tokens on the sample data. *)
Lemma isEncrypted_encryptPII_witness :
  (exists token,
      Encryption.encryptPII Encryption.countingStream Encryption.sampleIv
        [55296%Z; 233%Z] = Some token
      /\ Encryption.isEncrypted token = true)
  /\ Encryption.encryptPII Encryption.countingStream Encryption.sampleIv []
     = Some []
  /\ Encryption.isEncrypted [] = false.
Proof.
  destruct (isEncrypted_encryptPII Encryption.countingStream Encryption.sampleIv
              [55296%Z; 233%Z])
    as (Htok & Hempty & Hnot).
  - repeat constructor.
  - reflexivity.
  - repeat constructor.
  - split; [apply Htok; discriminate|]. by split.
Defined.

(** Inputs that are not tokens come back unchanged: a legacy plaintext,
    the base64 text of the JSON number 123, and that of the JSON [null]. *)
Example decryptPII_legacy_plaintext :
  Encryption.decryptPII Encryption.countingStream Encryption.refuseObjects
    (Js.js "jean.dupont@example.com")
  = Js.js "jean.dupont@example.com"
  /\ Encryption.decryptPII Encryption.countingStream Encryption.refuseObjects
       (Js.js "MTIz") = Js.js "MTIz"
  /\ Encryption.decryptPII Encryption.countingStream Encryption.refuseObjects
       (Js.js "bnVsbA==") = Js.js "bnVsbA=="
  /\ Encryption.isEncrypted (Js.js "bnVsbA==") = false.
Proof. vm_compute. repeat split. Qed.

(** The base64 decoder is forgiving: a token with a stray character in
    front of it still decodes and decrypts. *)
Example decryptPII_forgiving_base64 :
  forall token,
    Encryption.encryptPII Encryption.countingStream Encryption.sampleIv
      (Js.js "a@b.fr") = Some token ->
    Encryption.decryptPII Encryption.countingStream Encryption.refuseObjects
      (33%Z :: token) = Js.js "a@b.fr".
Proof. intros token Htok. vm_compute in Htok. injection Htok as <-. reflexivity. Qed.

(** ** Regular expressions *)

Section RegExpFacts.

Import Js RegExp.



Lemma test_false_resets re i s :
  global re = true -> (test re i s).1 = false -> (test re i s).2 = 0%nat.
Proof.
  unfold test. intros ->.
  destruct (length s <? i)%nat; [done|].
  by destruct (searchFrom _ _ _).
Qed.

Lemma test_fresh re s : (test re 0 s).1 = matches re s.
Proof.
  unfold test, matches. destruct (global re).
  - cbn. rewrite drop_0. by destruct (searchFrom (pattern re) None s).
  - by destruct (searchFrom (pattern re) None s).
Qed.

(** The loop over fresh objects succeeds exactly when one of the patterns
    matches. *)
Lemma testAll_fresh res s :
  (testAll res (fresh res) s).1 = existsb (fun re => matches re s) res.
Proof.
  induction res as [|re res IH]; [done|].
  cbn [fresh map testAll existsb]. fold (fresh res).
  pose proof (test_fresh re s) as Hf.
  destruct (test re 0 s) as [found i']. cbn in Hf. subst found.
  destruct (matches re s); [done|].
  destruct (testAll res (fresh res) s) as [found' state'']. by cbn in *.
Qed.


(** A loop over global patterns that fails leaves every [lastIndex] at 0. *)
Lemma testAll_false_fresh res s : forall state,
  Forall (fun re => global re = true) res ->
  length state = length res ->
  (testAll res state s).1 = false ->
  (testAll res state s).2 = fresh res.
Proof.
  induction res as [|re res IH]; intros state Hg Hlen Hf.
  - by destruct state.
  - destruct state as [|i state]; [done|].
    inversion Hg as [|? ? Hre Hres]; subst.
    cbn [testAll] in *.
    pose proof (test_false_resets re i s Hre) as Hreset.
    destruct (test re i s) as [found i']. cbn in Hreset.
    destruct found; [done|]. rewrite Hreset by done.
    specialize (IH state Hres).
    destruct (testAll res state s) as [found' state''].
    cbn in *. f_equal. apply IH; [lia|done].
Qed.

(** A match at some position makes the search succeed. *)
Lemma searchFrom_app r pre : forall prev rest,
  matchRegex r Some (prevAfter prev pre, rest) <> None ->
  searchFrom r prev (pre ++ rest) <> None.
Proof.
  induction pre as [|c pre IH]; intros prev rest Hm.
  - cbn in Hm. cbn [app]. destruct rest as [|c rest]; cbn [searchFrom].
    + by destruct (matchRegex r Some (prev, [])).
    + by destruct (matchRegex r Some (prev, c :: rest)).
  - cbn [app searchFrom].
    destruct (matchRegex r Some (prev, c :: pre ++ rest)); [done|].
    by apply IH.
Qed.

Lemma starLoop_stop step k fuel p :
  k p <> None -> starLoop step k fuel p <> None.
Proof.
  intros Hk. destruct fuel as [|fuel]; [done|]. cbn [starLoop].
  by destruct (step _ p).
Qed.

Lemma starLoop_iterate step k fuel p :
  step (fun p' => if (length p'.2 <? length p.2)%nat
                  then starLoop step k fuel p' else None) p <> None ->
  starLoop step k (S fuel) p <> None.
Proof. intros Hs. cbn [starLoop]. by destruct (step _ p). Qed.

(** A repeated character class can stop after any run of characters of the
    class: if the rest of the pattern matches there, the whole matches. *)
Lemma starLoop_class f k a : forall prev b fuel,
  (length (a ++ b) <= fuel)%nat ->
  Forall (fun c => f c = true) a ->
  k (prevAfter prev a, b) <> None ->
  starLoop (matchRegex (Chr f)) k fuel (prev, a ++ b) <> None.
Proof.
  induction a as [|c a IH]; intros prev b fuel Hfuel Hall Hk.
  - by apply starLoop_stop.
  - destruct fuel as [|fuel]; [cbn in Hfuel; lia|].
    inversion Hall as [|? ? Hc Hall']; subst.
    apply starLoop_iterate. cbn [matchRegex snd app]. rewrite Hc.
    cbn [snd]. replace (length (a ++ b) <? length (c :: a ++ b))%nat with true
      by (symmetry; apply Nat.ltb_lt; cbn; lia).
    apply IH; [cbn in Hfuel; lia|done|done].
Qed.

End RegExpFacts.

(** ** The XSS sanitizer *)

Section XssFacts.

Import Js RegExp Xss.

Lemma closeTag_matches k prev post :
  matchRegex closeTag k (prev, js "</script>" ++ post) = k (Some 62%Z, post).
Proof. reflexivity. Qed.

(** Up to the first [<] of a text that holds the closing tag. *)
Lemma closeAhead_first_lt t :
  closeAhead t ->
  exists a t2 t3,
    t = a ++ t2 /\ Forall (fun c => negb (c =? 60)%Z = true) a
    /\ closeAhead t2 /\ t2 = 60%Z :: t3.
Proof.
  intros (u & post & ->). induction u as [|c u IH].
  - exists [], (js "</script>" ++ post), (js "/script>" ++ post).
    split; [done|]. split; [constructor|]. split; [by exists [], post|done].
  - destruct (Z.eqb_spec c 60) as [->|Hne].
    + exists [], ((60%Z :: u) ++ js "</script>" ++ post), (u ++ js "</script>" ++ post).
      split; [done|]. split; [constructor|]. split; [by exists (60%Z :: u), post|done].
    + destruct IH as (a & t2 & t3 & Heq & Ha & Ht2 & Ht3).
      exists (c :: a), t2, t3. split; [cbn [app]; by f_equal|].
      split; [|done]. constructor; [|done].
      by apply negb_true_iff, Z.eqb_neq.
Qed.

(** One round of the group, when the closing tag does not start here. *)
Lemma scriptGroup_step k prev t1 :
  matchRegex closeTag Some (prev, 60%Z :: t1) = None ->
  matchRegex scriptGroup k (prev, 60%Z :: t1)
  = starLoop (matchRegex (notChar 60)) k (length t1) (Some 60%Z, t1).
Proof.
  intros HC. unfold scriptGroup. cbn [seqOf matchRegex]. rewrite HC.
  reflexivity.
Qed.

(** From a [<] with the closing tag ahead, the repeated group followed by
    the closing tag finds its way. *)
Lemma scriptGroup_loop : forall n t prev fuel,
  (length t <= n)%nat ->
  (length t <= fuel)%nat ->
  closeAhead t ->
  (exists t1, t = 60%Z :: t1) ->
  starLoop (matchRegex scriptGroup) (matchRegex closeTag Some) fuel (prev, t)
  <> None.
Proof.
  induction n as [n IH] using lt_wf_ind.
  intros t prev fuel Hn Hfuel Hclose [t1 ->].
  destruct (matchRegex closeTag Some (prev, 60%Z :: t1)) as [q|] eqn:HC.
  { apply starLoop_stop. by rewrite HC. }
  destruct fuel as [|fuel]; [cbn in Hfuel; lia|].
  apply starLoop_iterate.
  assert (Hclose1 : closeAhead t1).
  { destruct Hclose as (u & post & Heq). destruct u as [|c u].
    - cbn [app] in Heq. rewrite Heq, closeTag_matches in HC. done.
    - injection Heq as _ ->. by exists u, post. }
  rewrite (scriptGroup_step _ _ _ HC).
  destruct (closeAhead_first_lt t1 Hclose1) as (a & t2 & t3 & -> & Ha & Ht2 & ->).
  apply starLoop_class; [lia|done|].
  cbn [snd].
  replace (length (60%Z :: t3) <? length (60%Z :: a ++ 60%Z :: t3))%nat with true
    by (symmetry; apply Nat.ltb_lt; cbn; rewrite length_app; cbn; lia).
  apply (IH (length (60%Z :: t3))).
  - cbn in Hn. rewrite length_app in Hn. cbn in *. lia.
  - done.
  - cbn in Hfuel. rewrite length_app in Hfuel. cbn in *. lia.
  - done.
  - by exists t3.
Qed.

(** The first pattern matches at the opening tag of a script element. *)
Lemma scriptPattern_matches prev body post :
  matchRegex scriptPattern Some
    (prev, js "<script>" ++ body ++ js "</script>" ++ post) <> None.
Proof.
  change (matchRegex scriptPattern Some
            (prev, js "<script>" ++ body ++ js "</script>" ++ post))
    with (starLoop (matchRegex (notChar 60))
            (matchRegex (Seq (Star scriptGroup) closeTag) Some)
            (length (62%Z :: body ++ js "</script>" ++ post))
            (Some 116%Z, 62%Z :: body ++ js "</script>" ++ post)).
  assert (Hclose : closeAhead (62%Z :: body ++ js "</script>" ++ post))
    by (by exists (62%Z :: body), post).
  destruct (closeAhead_first_lt _ Hclose) as (a & t2 & t3 & Heq & Ha & Ht2 & ->).
  rewrite Heq. apply starLoop_class; [done|done|].
  cbn [matchRegex snd].
  apply (scriptGroup_loop (length (60%Z :: t3))); [done|done|done|by exists t3].
Qed.

(** Every input that holds a script element matches a dangerous pattern. *)
Lemma containsScript_dangerous s : containsScript s -> dangerous s = true.
Proof.
  intros (pre & body & post & ->). unfold dangerous, XSS_PATTERNS.
  cbn [map existsb]. apply orb_true_iff. left.
  unfold matches. cbn [pattern].
  pose proof (searchFrom_app scriptPattern pre None
                (js "<script>" ++ body ++ js "</script>" ++ post)
                (scriptPattern_matches _ body post)) as Hs.
  by destruct (searchFrom scriptPattern None _).
Qed.

Lemma XSS_PATTERNS_global : Forall (fun re => global re = true) XSS_PATTERNS.
Proof. unfold XSS_PATTERNS. repeat constructor. Qed.

Section WithDOMPurify.

Variable purify : jsstring -> jsstring.

(** A dangerous input is refused by pattern objects in their initial
    state. *)
Lemma sanitizeXSS_refuses_dangerous S :
  S <> [] -> dangerous S = true ->
  (sanitizeXSS purify (fresh XSS_PATTERNS) S).1 = Threw.
Proof.
  intros Hne Hd. destruct S as [|c S]; [done|]. cbn [sanitizeXSS].
  pose proof (testAll_fresh XSS_PATTERNS (c :: S)) as Hf.
  fold (dangerous (c :: S)) in Hf. rewrite Hd in Hf.
  destruct (testAll XSS_PATTERNS (fresh XSS_PATTERNS) (c :: S)) as [found st1].
  cbn in Hf. by subst found.
Qed.

(** When the first loop lets the input through, every object is back in
    its initial state for the second loop. *)
Lemma sanitizeXSS_second_loop state S :
  S <> [] -> length state = length XSS_PATTERNS ->
  let sanitized := decodeEntities (purify S) in
  (sanitizeXSS purify state S).1 = Threw
  \/ sanitizeXSS purify state S
     = (let '(found, state2) :=
          testAll XSS_PATTERNS (fresh XSS_PATTERNS) sanitized in
        if found then (Threw, state2)
        else if (MAX_LENGTH <? Z.of_nat (length sanitized))%Z
             then (Threw, state2)
             else (Returned sanitized, state2)).
Proof.
  intros Hne Hlen sanitized. destruct S as [|c S]; [done|].
  cbn [sanitizeXSS]. fold sanitized. clearbody sanitized.
  pose proof (testAll_false_fresh XSS_PATTERNS (c :: S) state
                XSS_PATTERNS_global Hlen) as Hreset.
  destruct (testAll XSS_PATTERNS state (c :: S)) as [found st1].
  destruct found; [by left|]. right.
  cbn [fst snd] in Hreset. by rewrite Hreset.
Qed.




End WithDOMPurify.

End XssFacts.



(** The pattern objects are shared between calls.  After a call has
    refused a script element, the first pattern's [lastIndex] is 25, its
    next test starts there, and the same input gets through to the
    purifier (here one that drops the element): the call returns. *)
Example stale_lastIndex_lets_script_through :
  let input := Js.js "<script>alert(1)</script>" in
  let first := Xss.sanitizeXSS Xss.dropFromTag (RegExp.fresh Xss.XSS_PATTERNS) input in
  first.1 = Xss.Threw
  /\ nth 0 first.2 0%nat = 25%nat
  /\ (Xss.sanitizeXSS Xss.dropFromTag first.2 input).1 = Xss.Returned [].
Proof. vm_compute. repeat split. Qed.

(** ** Path validation *)

Section PathFacts.

Import Js RegExp Path PathTraversal.

(** A pattern without the [g] flag starts at 0 whatever happened before:
    when the second pattern of a list is one and matches, the loop finds
    a match, at the first pattern or at the second. *)
Lemma testAll_second_once r1 r2 res i0 i1 state s :
  global r2 = false ->
  matches r2 s = true ->
  (testAll (r1 :: r2 :: res) (i0 :: i1 :: state) s).1 = true.
Proof.
  intros Hg Hm. cbn [testAll].
  destruct (test r1 i0 s) as [[] i0']; [done|].
  unfold test at 1. rewrite Hg. unfold matches in Hm.
  by destruct (searchFrom (pattern r2) None s).
Qed.

Lemma find_none_Forall {A} (f : A -> bool) (l : list A) :
  Forall (fun x => f x = false) l -> find f l = None.
Proof. induction 1 as [|x l Hx _ IH]; [done|]. cbn. by rewrite Hx. Qed.

Lemma existsb_false_Forall {A} (f : A -> bool) (l : list A) :
  Forall (fun x => f x = false) l -> existsb f l = false.
Proof. induction 1 as [|x l Hx _ IH]; [done|]. cbn. by rewrite Hx. Qed.

Lemma startsWith_prefix s p : startsWith s p = true -> exists t, s = p ++ t.
Proof.
  revert s. induction p as [|c p IH]; intros s H; [by exists s|].
  destruct s as [|d s]; [done|]. cbn in H.
  apply andb_true_iff in H as [Hc Hs]. apply Z.eqb_eq in Hc as ->.
  destruct (IH s Hs) as [t ->]. by exists t.
Qed.

Section WithPlatform.

Variable toLowerCase : jsstring -> jsstring.
Variable cwd : jsstring.

(** A path in which a dangerous pattern is found is not valid. *)
Lemma sanitizeFilePath_rejects state filePath :
  (testAll DANGEROUS_PATH_PATTERNS state
     (decodeLoop 5 (trim filePath) [])).1 = true ->
  isValid (sanitizeFilePath toLowerCase state filePath).1.1 = false.
Proof.
  intros Hf. destruct filePath as [|c filePath]; [done|].
  unfold sanitizeFilePath.
  destruct (testAll DANGEROUS_PATH_PATTERNS state _) as [found state'].
  cbn in Hf. by subst found.
Qed.

(** A path that passes every check is valid, and its sanitized form is
    the normalized path. *)
Lemma sanitizeFilePath_accepts state filePath :
  let decodedPath := decodeLoop 5 (trim filePath) [] in
  let normalizedPath := replaceBackslashes (normalize decodedPath) in
  let filename := toLowerCase (basename normalizedPath) in
  filePath <> [] ->
  (testAll DANGEROUS_PATH_PATTERNS state decodedPath).1 = false ->
  includes DANGEROUS_EXTENSIONS (toLowerCase (extname normalizedPath)) = false ->
  Forall (fun forbiddenDir =>
            startsWith (toLowerCase normalizedPath) (toLowerCase forbiddenDir)
            = false) FORBIDDEN_DIRECTORIES ->
  Forall (fun forbiddenFile =>
            jsstring_eqb filename forbiddenFile
            || startsWith filename (forbiddenFile ++ [46%Z]) = false)
         FORBIDDEN_FILENAMES ->
  (255 <? Z.of_nat (length normalizedPath))%Z = false ->
  matches invalidChars normalizedPath = false ->
  (sanitizeFilePath toLowerCase state filePath).1.1 = valid normalizedPath.
Proof.
  intros decodedPath normalizedPath filename Hne Hpat Hext Hdir Hfile Hlen Hchars.
  destruct filePath as [|c filePath]; [done|].
  unfold sanitizeFilePath. fold decodedPath.
  destruct (testAll DANGEROUS_PATH_PATTERNS state decodedPath) as [found state'].
  cbn in Hpat. subst found. cbv zeta. fold normalizedPath.
  rewrite Hext. rewrite (find_none_Forall _ _ Hdir).
  fold filename. rewrite (existsb_false_Forall _ _ Hfile).
  by rewrite Hlen, Hchars.
Qed.

(** An invalid path gives [null]. *)
Lemma createSecurePath_invalid state basePath userPath :
  isValid (sanitizeFilePath toLowerCase state userPath).1.1 = false ->
  (createSecurePath toLowerCase cwd state basePath userPath).1.1 = None.
Proof.
  intros Hv. unfold createSecurePath.
  destruct (sanitizeFilePath toLowerCase state userPath)
    as [[validation state'] events].
  cbn in Hv. by rewrite Hv.
Qed.

(** A valid path is resolved against the base, and returned when the
    base, resolved, is a prefix of the result as a string. *)
Lemma createSecurePath_valid state basePath userPath p :
  (sanitizeFilePath toLowerCase state userPath).1.1 = valid p ->
  p <> [] ->
  startsWith (resolve cwd [basePath; p]) (resolve cwd [basePath]) = true ->
  (createSecurePath toLowerCase cwd state basePath userPath).1.1
  = Some (resolve cwd [basePath; p]).
Proof.
  intros Hv Hp Hs. unfold createSecurePath.
  destruct (sanitizeFilePath toLowerCase state userPath)
    as [[validation state'] events].
  cbn in Hv. subst validation. cbn [isValid sanitized valid].
  destruct p as [|c p]; [done|]. by rewrite Hs.
Qed.

(** What the final check of [createSecurePath] ensures: the resolved base
    is a prefix of the result, as a string. *)
Lemma createSecurePath_prefix state basePath userPath fullPath :
  (createSecurePath toLowerCase cwd state basePath userPath).1.1
  = Some fullPath ->
  exists rest, fullPath = resolve cwd [basePath] ++ rest.
Proof.
  unfold createSecurePath.
  destruct (sanitizeFilePath toLowerCase state userPath)
    as [[validation state'] events].
  destruct (isValid validation); [|done].
  destruct (sanitized validation) as [[|c p]|]; [done| |done].
  destruct (startsWith _ _) eqn:Hs; [|done].
  cbn. intros [= <-]. by apply startsWith_prefix.
Qed.

(** [createSecurePath(B, "../../etc/passwd")] is [null] for every base
    and whatever the [lastIndex] values of the pattern objects: the first
    pattern finds [..] or, when its [lastIndex] makes it miss, the second
    one, which has no [g] flag, finds [./]. *)
Lemma createSecurePath_etc_passwd state basePath :
  length state = length DANGEROUS_PATH_PATTERNS ->
  (createSecurePath toLowerCase cwd state basePath (js "../../etc/passwd")).1.1
  = None.
Proof.
  intros Hlen. apply createSecurePath_invalid, sanitizeFilePath_rejects.
  destruct state as [|i0 [|i1 state]]; [done|done|].
  replace (decodeLoop 5 (trim (js "../../etc/passwd")) [])
    with (js "../../etc/passwd") by (vm_compute; reflexivity).
  apply testAll_second_once; [reflexivity|vm_compute; reflexivity].
Qed.

(** C8: the final check compares strings, not path segments.  With base
    [/srv/up], the path [/srv/uploads/x] passes every check of
    [sanitizeFilePath], resolves to itself, starts with the characters of
    the base, and is returned, although it lies in a sibling directory of
    the base and not inside it. *)
Theorem createSecurePath_accepts_sibling :
  lowersAscii toLowerCase ->
  (createSecurePath toLowerCase cwd (fresh DANGEROUS_PATH_PATTERNS)
     (js "/srv/up") (js "/srv/uploads/x")).1.1
  = Some (js "/srv/uploads/x")
  /\ strictDescendant cwd (js "/srv/up") (js "/srv/uploads/x") = false.
Proof.
  intros Hlow. split; [|vm_compute; reflexivity].
  assert (Hsan : (sanitizeFilePath toLowerCase (fresh DANGEROUS_PATH_PATTERNS)
                    (js "/srv/uploads/x")).1.1 = valid (js "/srv/uploads/x")).
  { replace (js "/srv/uploads/x")
      with (replaceBackslashes
              (normalize (decodeLoop 5 (trim (js "/srv/uploads/x")) []))) at 2
      by (vm_compute; reflexivity).
    apply sanitizeFilePath_accepts.
    - discriminate.
    - vm_compute. reflexivity.
    - rewrite Hlow by (vm_compute; reflexivity). vm_compute. reflexivity.
    - repeat (apply Forall_cons; split);
        [rewrite !Hlow by (vm_compute; reflexivity); vm_compute; reflexivity ..
        |apply Forall_nil; exact I].
    - rewrite Hlow by (vm_compute; reflexivity).
      repeat (apply Forall_cons; split);
        [vm_compute; reflexivity .. |apply Forall_nil; exact I].
    - vm_compute. reflexivity.
    - vm_compute. reflexivity. }
  rewrite (createSecurePath_valid _ _ _ _ Hsan);
    [vm_compute; reflexivity|discriminate|vm_compute; reflexivity].
Qed.

End WithPlatform.

End PathFacts.

(** The theorem with ASCII lower-casing and the working directory
    [/app]. *)
Lemma createSecurePath_accepts_sibling_witness :
  (PathTraversal.createSecurePath PathTraversal.asciiLower (Js.js "/app")
     (RegExp.fresh PathTraversal.DANGEROUS_PATH_PATTERNS)
     (Js.js "/srv/up") (Js.js "/srv/uploads/x")).1.1
  = Some (Js.js "/srv/uploads/x")
  /\ PathTraversal.strictDescendant (Js.js "/app") (Js.js "/srv/up")
       (Js.js "/srv/uploads/x") = false.
Proof.
  apply (createSecurePath_accepts_sibling PathTraversal.asciiLower (Js.js "/app")).
  intros s _. reflexivity.
Defined.

(** The base itself is returned for the path [.], and for a path of
    spaces: the result is then not strictly inside the base either. *)
Example createSecurePath_returns_base :
  (PathTraversal.createSecurePath PathTraversal.asciiLower (Js.js "/app")
     (RegExp.fresh PathTraversal.DANGEROUS_PATH_PATTERNS)
     (Js.js "/srv/up") (Js.js ".")).1.1 = Some (Js.js "/srv/up")
  /\ (PathTraversal.createSecurePath PathTraversal.asciiLower (Js.js "/app")
        (RegExp.fresh PathTraversal.DANGEROUS_PATH_PATTERNS)
        (Js.js "/srv/up") (Js.js " ")).1.1 = Some (Js.js "/srv/up").
Proof. split; vm_compute; reflexivity. Qed.

(** ** The credentials manager: storing, timers and invariants *)

Section CredentialsLifecycle.

Import Credentials CredentialsState.

Variable base64 base64url hex : list N -> string.
Variable gcmEncrypt : string -> option (string * string).
Variable gcmDecrypt : string -> string -> option string.

Local Abbreviation getSecret := (Credentials.getSecret gcmDecrypt).
Local Abbreviation storeSecret := (Credentials.storeSecret base64 gcmEncrypt).
Local Abbreviation rotateSecret :=
  (Credentials.rotateSecret base64 base64url hex gcmEncrypt).
Local Abbreviation fireTimer :=
  (Credentials.fireTimer base64 base64url hex gcmEncrypt).
Local Abbreviation generateStrongSecret :=
  (Credentials.generateStrongSecret base64url hex).
Local Abbreviation run := (Credentials.run base64 base64url hex gcmEncrypt).
Local Abbreviation step := (Credentials.step base64 base64url hex gcmEncrypt).
Local Abbreviation construct := (CredentialsState.construct base64 gcmEncrypt).

(** X1.  A secret that [storeSecret] has stored is read back by
    [getSecret] (when the cipher decrypts what it encrypted); the entry is
    active, at version 1 with no rotation, whatever was stored under the
    name before (a revoked secret included); and the other names read as
    before.  Its rotation timer is due one millisecond later, not thirty
    days: the interval is longer than the longest delay of a timer, and
    [setTimeout] then uses a delay of 1. *)
Theorem stored_secret_is_readable now e name value t m m' lg :
  storeSecret now e name value t m = Some (m', lg) ->
  (forall encrypted tg,
      gcmEncrypt value = Some (encrypted, tg) ->
      gcmDecrypt encrypted tg = Some value) ->
  (getSecret name m').1 = Some value
  /\ (exists es,
        secrets m' !! name = Some es
        /\ type (metadata es) = t
        /\ isActive (metadata es) = true
        /\ version (metadata es) = 1%N
        /\ rotationCount (metadata es) = 0%N)
  /\ rotationTimers m' !! name = Some (now + 1)%Z
  /\ (TIMEOUT_MAX < rotationInterval)%Z
  /\ (forall other, other <> name -> getSecret other m' = getSecret other m).
Proof.
  intros Hst Hrt. unfold Credentials.storeSecret, encryptSecret in Hst.
  destruct (gcmEncrypt value) as [[encrypted tg]|] eqn:Henc; [|done].
  injection Hst as <- <-. split; [|split; [|split; [|split]]].
  - unfold Credentials.getSecret. cbn. rewrite lookup_insert_eq. cbn.
    unfold decryptSecret. by rewrite (Hrt _ _ eq_refl).
  - eexists. cbn. rewrite lookup_insert_eq. done.
  - cbn [scheduleRotation rotationTimers]. by rewrite lookup_insert_eq.
  - by vm_compute.
  - intros other Hne. unfold Credentials.getSecret. cbn.
    by rewrite lookup_insert_ne.
Qed.

Lemma rotateSecret_versions now e name m :
  versionsCountRotations m ->
  versionsCountRotations (rotateSecret now e name m).1.2.
Proof.
  intros Hinv. unfold Credentials.rotateSecret.
  destruct (secrets m !! name) as [es|] eqn:Hes; [|done].
  destruct (encryptSecret _ _ _ _) as [[[encrypted ivs] tg]|]; [|done].
  intros n es'. cbn. destruct (decide (name = n)) as [->|Hne].
  - rewrite lookup_insert_eq. intros [= <-]. cbn.
    by rewrite (Hinv _ _ Hes).
  - rewrite lookup_insert_ne by done. apply Hinv.
Qed.

Lemma step_versions m c :
  versionsCountRotations m -> versionsCountRotations (step m c).
Proof.
  intros Hinv. destruct c as [now [e n v t|n|e n|n|e n| |]]; cbn; try done.
  - unfold Credentials.storeSecret, encryptSecret.
    destruct (gcmEncrypt v) as [[encrypted tg]|]; [|done].
    intros n' es'. cbn. destruct (decide (n = n')) as [->|Hne].
    + rewrite lookup_insert_eq. by intros [= <-].
    + rewrite lookup_insert_ne by done. apply Hinv.
  - by apply rotateSecret_versions.
  - unfold revokeSecret. destruct (secrets m !! n) as [es|] eqn:Hes; [|done].
    intros n' es'. cbn. destruct (decide (n = n')) as [->|Hne].
    + rewrite lookup_insert_eq. intros [= <-]. cbn. by apply (Hinv n').
    + rewrite lookup_insert_ne by done. apply Hinv.
  - unfold Credentials.fireTimer.
    destruct (rotationTimers m !! n) as [due|]; [|done].
    destruct (due <=? now)%Z; [|done]. by apply rotateSecret_versions.
Qed.

(** X2.  The version of a secret counts its rotations: when every secret
    of a manager has a version one above its rotation count (as after
    construction), this still holds after any sequence of calls: stores,
    reads, rotations on demand or by timer, revocations, integrity checks
    and clean-up. *)
Theorem version_counts_rotations calls : forall m,
  versionsCountRotations m -> versionsCountRotations (run m calls).
Proof.
  induction calls as [|c calls IH]; intros m Hinv; [done|].
  cbn. apply IH. by apply step_versions.
Qed.

Lemma rotateSecret_timers now e name m :
  timersHaveSecrets m -> timersHaveSecrets (rotateSecret now e name m).1.2.
Proof.
  intros Hinv. unfold Credentials.rotateSecret.
  destruct (secrets m !! name) as [es|] eqn:Hes; [|done].
  destruct (encryptSecret _ _ _ _) as [[[encrypted ivs] tg]|]; [|done].
  intros n due. cbn. destruct (decide (name = n)) as [->|Hne].
  - rewrite !lookup_insert_eq. by eexists.
  - rewrite !lookup_insert_ne by done. apply Hinv.
Qed.

Lemma step_timers m c : timersHaveSecrets m -> timersHaveSecrets (step m c).
Proof.
  intros Hinv. destruct c as [now [e n v t|n|e n|n|e n| |]]; cbn; try done.
  - unfold Credentials.storeSecret, encryptSecret.
    destruct (gcmEncrypt v) as [[encrypted tg]|]; [|done].
    intros n' due. cbn. destruct (decide (n = n')) as [->|Hne].
    + rewrite !lookup_insert_eq. by eexists.
    + rewrite !lookup_insert_ne by done. apply Hinv.
  - by apply rotateSecret_timers.
  - unfold revokeSecret. destruct (secrets m !! n) as [es|] eqn:Hes; [|done].
    intros n' due. cbn. destruct (decide (n = n')) as [->|Hne].
    + by rewrite lookup_delete_eq.
    + rewrite lookup_delete_ne, lookup_insert_ne by done. apply Hinv.
  - unfold Credentials.fireTimer.
    destruct (rotationTimers m !! n) as [due|] eqn:Hdue; [|done].
    destruct (due <=? now)%Z; [|done]. apply rotateSecret_timers.
    intros n' due'. cbn. destruct (decide (n = n')) as [->|Hne].
    + by rewrite lookup_delete_eq.
    + rewrite lookup_delete_ne by done. apply Hinv.
Qed.

(** X3.  No rotation timer outlives its secret's entry: when every
    pending timer of a manager belongs to a stored secret, this still
    holds after any sequence of calls; and after [cleanup] no timer is
    pending, so that no rotation fires any more, while every secret reads
    as before. *)
Theorem timers_belong_to_secrets calls m :
  timersHaveSecrets m ->
  timersHaveSecrets (run m calls)
  /\ (forall now e name,
        fireTimer now e name (cleanup (run m calls)) = cleanup (run m calls))
  /\ (forall name,
        getSecret name (cleanup (run m calls)) = getSecret name (run m calls)).
Proof.
  intros Hinv. split; [|done].
  revert m Hinv. induction calls as [|c calls IH]; intros m Hinv; [done|].
  cbn. apply IH. by apply step_timers.
Qed.

(** X4.  Revocation does not prevent rotation: [rotateSecret] on a revoked
    secret succeeds (when the cipher does), replaces the stored value,
    raises the version and sets a rotation timer again (due one
    millisecond later, the delay [setTimeout] uses for the interval), and
    the secret stays unreadable. *)
Theorem rotation_of_revoked_secret now e name m es encrypted tg :
  secrets m !! name = Some es ->
  isActive (metadata es) = false ->
  gcmEncrypt (generateStrongSecret e (type (metadata es))) = Some (encrypted, tg) ->
  exists m' lg es',
    rotateSecret now e name m = (true, m', lg)
    /\ (getSecret name m').1 = None
    /\ rotationTimers m' !! name = Some (now + 1)%Z
    /\ secrets m' !! name = Some es'
    /\ encryptedValue es' = encrypted
    /\ version (metadata es') = (version (metadata es) + 1)%N.
Proof.
  intros Hes Hact Henc. unfold Credentials.rotateSecret, encryptSecret.
  rewrite Hes, Henc. eexists _, _, _. split; [done|]. cbn.
  unfold Credentials.getSecret. cbn. rewrite !lookup_insert_eq. cbn.
  by rewrite Hact.
Qed.

(** X5.  Automatic rotation.  A timer that is not yet due does nothing.
    When it fires, at or after its due time, the secret is rotated (new
    value, version raised, rotation dated at the firing time) and the next
    timer is due one millisecond after the firing, the delay [setTimeout]
    uses for the thirty-day interval; so when that timer fires in its turn
    the secret is rotated again, two versions within two milliseconds of
    the first firing.  But when the cipher fails at a firing the secret
    keeps its value and no timer is left, so that the secret is never
    rotated automatically again. *)
Theorem timer_driven_rotation now e name m due es :
  rotationTimers m !! name = Some due ->
  secrets m !! name = Some es ->
  ((now < due)%Z -> fireTimer now e name m = m)
  /\ ((due <= now)%Z ->
      forall encrypted tg,
        gcmEncrypt (generateStrongSecret e (type (metadata es)))
        = Some (encrypted, tg) ->
        (exists es',
            secrets (fireTimer now e name m) !! name = Some es'
            /\ encryptedValue es' = encrypted
            /\ version (metadata es') = (version (metadata es) + 1)%N
            /\ lastRotatedAt (metadata es') = now
            /\ rotationTimers (fireTimer now e name m) !! name
               = Some (now + 1)%Z)
        /\ (forall e' encrypted' tg',
              gcmEncrypt (generateStrongSecret e' (type (metadata es)))
              = Some (encrypted', tg') ->
              exists es'',
                secrets (fireTimer (now + 1) e' name (fireTimer now e name m))
                  !! name = Some es''
                /\ encryptedValue es'' = encrypted'
                /\ version (metadata es'') = (version (metadata es) + 2)%N
                /\ lastRotatedAt (metadata es'') = (now + 1)%Z))
  /\ ((due <= now)%Z ->
      gcmEncrypt (generateStrongSecret e (type (metadata es))) = None ->
      secrets (fireTimer now e name m) = secrets m
      /\ rotationTimers (fireTimer now e name m) !! name = None).
Proof.
  intros Hdue Hes. split; [|split].
  - intros Hlt. unfold Credentials.fireTimer. rewrite Hdue.
    destruct (due <=? now)%Z eqn:Hle; [lia|done].
  - intros Hle encrypted tg Henc.
    assert (Hfired : fireTimer now e name m
                     = scheduleRotation now name
                         {| secrets :=
                              <[name := {| encryptedValue := encrypted;
                                           iv := base64 (iv_bytes e); tag := tg;
                                           metadata :=
                                             {| type := type (metadata es);
                                                createdAt := createdAt (metadata es);
                                                lastRotatedAt := now;
                                                rotationCount :=
                                                  rotationCount (metadata es) + 1;
                                                isActive := isActive (metadata es);
                                                version := version (metadata es) + 1 |} |}]>
                                (secrets m);
                            rotationTimers := base.delete name (rotationTimers m) |}).
    { unfold Credentials.fireTimer. rewrite Hdue.
      destruct (due <=? now)%Z eqn:Hle'; [|lia].
      unfold Credentials.rotateSecret, encryptSecret. cbn [secrets rotationTimers].
      by rewrite Hes, Henc. }
    split.
    + rewrite Hfired. cbn [scheduleRotation secrets rotationTimers].
      rewrite !lookup_insert_eq. by eexists.
    + intros e' encrypted' tg' Henc'. rewrite Hfired.
      unfold Credentials.fireTimer at 1.
      cbn [scheduleRotation secrets rotationTimers]. rewrite lookup_insert_eq.
      change (timeoutDelay rotationInterval) with 1%Z.
      destruct (now + 1 <=? now + 1)%Z eqn:Hle'; [|lia].
      unfold Credentials.rotateSecret, encryptSecret. cbn [secrets rotationTimers].
      rewrite lookup_insert_eq. cbn [metadata type]. rewrite Henc'.
      cbn [fst snd scheduleRotation secrets]. rewrite lookup_insert_eq.
      eexists. split; [done|]. cbn. split; [done|]. split; [lia|done].
  - intros Hle Henc. unfold Credentials.fireTimer. rewrite Hdue.
    destruct (due <=? now)%Z eqn:Hle'; [|lia].
    unfold Credentials.rotateSecret, encryptSecret. cbn.
    rewrite Hes, Henc. cbn. by rewrite lookup_delete_eq.
Qed.

End CredentialsLifecycle.

(** Storing an API key in the sample manager. *)
Lemma stored_secret_is_readable_witness :
  exists m' lg,
    Credentials.storeSecret Credentials.decimalEncoding Credentials.plainEncrypt
      1000 Credentials.sampleEntropy "api" "fos_key" Credentials.api_key
      Credentials.sampleManager = Some (m', lg)
    /\ (Credentials.getSecret Credentials.plainDecrypt "api" m').1 = Some "fos_key"
    /\ Credentials.rotationTimers m' !! "api" = Some 1001%Z.
Proof.
  eexists _, _. split; [reflexivity|].
  pose proof (stored_secret_is_readable Credentials.decimalEncoding
                Credentials.plainEncrypt Credentials.plainDecrypt
                1000 Credentials.sampleEntropy "api" "fos_key"
                Credentials.api_key Credentials.sampleManager _ _ eq_refl) as H.
  destruct H as (Hget & _ & Htimer & _).
  - intros encrypted tg [= <- <-]. reflexivity.
  - split; [exact Hget|exact Htimer].
Defined.

(** The invariants on the empty manager followed by a store, a rotation, a
    revocation and a clean-up. *)
Lemma version_counts_rotations_witness :
  CredentialsState.versionsCountRotations
    (Credentials.run Credentials.decimalEncoding Credentials.decimalEncoding
       Credentials.decimalEncoding Credentials.plainEncrypt
       CredentialsState.emptyManager
       [(0%Z, Credentials.OpStore Credentials.sampleEntropy "k" "v" Credentials.jwt);
        (5%Z, Credentials.OpRotate Credentials.sampleEntropy "k");
        (9%Z, Credentials.OpRevoke "k")]).
Proof.
  apply version_counts_rotations. intros name es H.
  unfold CredentialsState.emptyManager in H. cbn [Credentials.secrets] in H.
  rewrite lookup_empty in H. discriminate H.
Defined.

Lemma timers_belong_to_secrets_witness :
  CredentialsState.timersHaveSecrets
    (Credentials.run Credentials.decimalEncoding Credentials.decimalEncoding
       Credentials.decimalEncoding Credentials.plainEncrypt
       CredentialsState.emptyManager
       [(0%Z, Credentials.OpStore Credentials.sampleEntropy "k" "v" Credentials.jwt);
        (9%Z, Credentials.OpRevoke "k");
        (12%Z, Credentials.OpRotate Credentials.sampleEntropy "k")]).
Proof.
  apply (timers_belong_to_secrets Credentials.decimalEncoding
           Credentials.decimalEncoding Credentials.decimalEncoding
           Credentials.plainEncrypt Credentials.plainDecrypt).
  intros name due H.
  unfold CredentialsState.emptyManager in H.
  cbn [Credentials.rotationTimers] in H.
  rewrite lookup_empty in H. discriminate H.
Defined.

(** Rotating the signing key of the sample manager once it is revoked. *)
Lemma rotation_of_revoked_secret_witness :
  let revokedManager :=
    (Credentials.revokeSecret "jwt_primary" Credentials.sampleManager).1.2 in
  exists m' lg es',
    Credentials.rotateSecret Credentials.decimalEncoding
      Credentials.decimalEncoding Credentials.decimalEncoding
      Credentials.plainEncrypt 2000 Credentials.sampleEntropy "jwt_primary"
      revokedManager = (true, m', lg)
    /\ (Credentials.getSecret Credentials.plainDecrypt "jwt_primary" m').1 = None
    /\ Credentials.rotationTimers m' !! "jwt_primary" = Some (2000 + 1)%Z
    /\ Credentials.secrets m' !! "jwt_primary" = Some es'
    /\ Credentials.encryptedValue es' = "742255"
    /\ Credentials.version (Credentials.metadata es') = (1 + 1)%N.
Proof.
  intros revokedManager.
  exact (rotation_of_revoked_secret Credentials.decimalEncoding
           Credentials.decimalEncoding Credentials.decimalEncoding
           Credentials.plainEncrypt Credentials.plainDecrypt
           2000 Credentials.sampleEntropy "jwt_primary" revokedManager
           _ _ _ eq_refl eq_refl eq_refl).
Defined.

(** The timer of the sample manager, set at time 0: it is due at time 1;
    fired at time 5 it rotates the key and the next timer is due at 6. *)
Lemma timer_driven_rotation_witness :
  Credentials.fireTimer Credentials.decimalEncoding Credentials.decimalEncoding
    Credentials.decimalEncoding Credentials.plainEncrypt
    0 Credentials.sampleEntropy "jwt_primary" Credentials.sampleManager
  = Credentials.sampleManager
  /\ Credentials.rotationTimers
       (Credentials.fireTimer Credentials.decimalEncoding
          Credentials.decimalEncoding Credentials.decimalEncoding
          Credentials.plainEncrypt 5 Credentials.sampleEntropy "jwt_primary"
          Credentials.sampleManager) !! "jwt_primary" = Some (5 + 1)%Z.
Proof.
  split.
  - refine (proj1 (timer_driven_rotation Credentials.decimalEncoding
                     Credentials.decimalEncoding Credentials.decimalEncoding
                     Credentials.plainEncrypt 0 Credentials.sampleEntropy
                     "jwt_primary" Credentials.sampleManager _ _ eq_refl eq_refl)
                  _).
    reflexivity.
  - pose proof (proj1 (proj2 (timer_driven_rotation Credentials.decimalEncoding
                     Credentials.decimalEncoding Credentials.decimalEncoding
                     Credentials.plainEncrypt 5 Credentials.sampleEntropy
                     "jwt_primary" Credentials.sampleManager _ _ eq_refl eq_refl))
                  ltac:(vm_compute; discriminate) _ _ eq_refl) as [H _].
    destruct H as (es' & _ & _ & _ & _ & Htimer). exact Htimer.
Defined.

(** ** The JWT secret and the environment checks *)

Section JwtSecretFacts.

Import Credentials CredentialsState EnvChecks.

Variable base64 base64url hex : list N -> string.
Variable gcmEncrypt : string -> option (string * string).
Variable gcmDecrypt : string -> string -> option string.

(** X6.  The secret that signs tokens.  After construction it is
    [config.JWT_SECRET] (when the cipher decrypts what it encrypted).
    When the [jwt_primary] secret is revoked, or absent, the static
    [config.JWT_SECRET] is used again, whatever a rotation had put in its
    place: revoking the signing key does not stop tokens from being
    signed. *)
Theorem jwtSecret_falls_back_to_config JWT_SECRET :
  (forall now e m lg,
      construct base64 gcmEncrypt now e JWT_SECRET = Some (m, lg) ->
      (forall encrypted tg,
          gcmEncrypt JWT_SECRET = Some (encrypted, tg) ->
          gcmDecrypt encrypted tg = Some JWT_SECRET) ->
      jwtSecret gcmDecrypt JWT_SECRET m = JWT_SECRET)
  /\ (forall m, revoked "jwt_primary" m ->
                jwtSecret gcmDecrypt JWT_SECRET m = JWT_SECRET)
  /\ (forall m, secrets m !! "jwt_primary" = None ->
                jwtSecret gcmDecrypt JWT_SECRET m = JWT_SECRET)
  /\ (forall m es s,
        secrets m !! "jwt_primary" = Some es ->
        isActive (metadata es) = true ->
        gcmDecrypt (encryptedValue es) (tag es) = Some s ->
        s <> "" ->
        jwtSecret gcmDecrypt JWT_SECRET m = s).
Proof.
  split; [|split; [|split]].
  - intros now e m lg Hc Hrt. unfold construct, initializeSecrets in Hc.
    cbn [secrets emptyManager] in Hc. rewrite lookup_empty in Hc.
    unfold storeSecret, encryptSecret in Hc.
    destruct (gcmEncrypt JWT_SECRET) as [[encrypted tg]|] eqn:Henc; [|done].
    injection Hc as <- _. unfold jwtSecret, getSecret. cbn.
    rewrite lookup_insert_eq. cbn. unfold decryptSecret.
    rewrite (Hrt _ _ eq_refl). cbn. by destruct (truthy JWT_SECRET).
  - intros m (es & Hes & Hact). unfold jwtSecret, getSecret.
    by rewrite Hes, Hact.
  - intros m Hnone. unfold jwtSecret, getSecret. by rewrite Hnone.
  - intros m es s Hes Hact Hdec Hne. unfold jwtSecret, getSecret.
    rewrite Hes, Hact. cbn. unfold decryptSecret. rewrite Hdec. cbn.
    unfold truthy. destruct (String.eqb_spec s ""); [done|done].
Qed.

End JwtSecretFacts.

Section EnvChecksFacts.

Import EnvChecks.

(** X7.  The security report.  Each of the three checks costs a fixed
    amount: 40 points for a signing key that is empty or shorter than 32
    characters, 20 for a database password that is not empty and shorter
    than 12 characters, 20 for a development configuration running with
    [NODE_ENV=production].  The score is therefore one of 100, 80, 60, 40
    and 20, never lower; it is 100 exactly when no issue is reported; and
    no issue of medium or low severity is ever reported. *)
Theorem security_report_score env :
  let report := generateSecurityReport env in
  let cost (b : bool) (points : Z) := if b then points else 0%Z in
  score report
  = (100 - cost (jwtTooShort env) 40 - cost (databasePasswordTooShort env) 20
     - cost (environmentMismatch env) 20)%Z
  /\ (20 <= score report <= 100)%Z
  /\ (score report = 100%Z <-> issues report = [])
  /\ Forall (fun i => severity i = CRITICAL \/ severity i = HIGH) (issues report).
Proof.
  unfold generateSecurityReport, validateEnvironmentSecrets. cbn [score issues].
  destruct (jwtTooShort env), (databasePasswordTooShort env),
    (environmentMismatch env); cbn;
    (split; [reflexivity|]); (split; [lia|]);
    (split; [split; intros H; (reflexivity || discriminate H || lia)|]);
    repeat (apply List.Forall_cons; [first [by left|by right]|]);
    apply List.Forall_nil.
Qed.

(** A database password of one to eleven characters is reported, and an
    empty one is not. *)
Example database_password_rule :
  databasePasswordTooShort sampleEnvironment = true
  /\ databasePasswordTooShort
       {| JWT_SECRET := ""; DATABASE_URL := Some "postgres://h/db?password=&x=1";
          NODE_ENV := "test"; process_env_NODE_ENV := None |} = false
  /\ score (generateSecurityReport sampleEnvironment) = 80%Z.
Proof. repeat split. Qed.

End EnvChecksFacts.

(** ** The rate limiter: an unreachable cache, and lifting a block *)

Section RateLimitAdminFacts.

Import RateLimit RateLimitAdmin.

Lemma middleware_cache_down NODE_ENV now rnd req st :
  Redis.up st = false ->
  exists lg,
    advancedRateLimitMiddleware NODE_ENV now rnd req st = (Pass None, st, lg).
Proof.
  intros Hup. unfold advancedRateLimitMiddleware.
  rewrite andb_false_r. cbn.
  unfold isIPBlocked, Redis.exists_. rewrite Hup.
  unfold slidingWindow, Redis.zremrangebyscore. rewrite Hup. by eexists.
Qed.

(** X8.  The limiter fails open: while the cache does not answer, every
    request of every client is let through, without rate-limit headers,
    whatever was recorded and whoever was blocked, and the cache is left
    as it was. *)
Theorem cache_down_fails_open NODE_ENV calls st :
  Redis.up st = false ->
  Forall (fun reply => reply = Pass None) (serve NODE_ENV calls st).1
  /\ (serve NODE_ENV calls st).2 = st
  /\ length (serve NODE_ENV calls st).1 = length calls.
Proof.
  intros Hup. induction calls as [|[[now rnd] req] calls IH]; [done|].
  cbn [serve].
  destruct (middleware_cache_down NODE_ENV now rnd req st Hup) as [lg ->].
  destruct (serve NODE_ENV calls st) as [replies st'].
  cbn in *. destruct IH as (Hall & -> & Hlen).
  split; [by constructor|]. split; [done|]. by rewrite Hlen.
Qed.

(** X9.  [unblockIP] reports whether the client was blocked at that
    moment; after it the client is not blocked at any time, whatever the
    block duration was, and the next request of the client is handled by
    its window alone; no other key of the cache is touched.  A block set
    by [blockIP] for a positive duration is in force until it is lifted or
    runs out. *)
Theorem unblockIP_lifts_block now ip st :
  Redis.up st = true ->
  let after := (unblockIP now ip st).1.2 in
  (unblockIP now ip st).1.1 = (isIPBlocked now ip st).1
  /\ Redis.up after = true
  /\ (forall t, (isIPBlocked t ip after).1 = false)
  /\ (forall k, k <> generateBlockKey ip ->
                Redis.data after !! k = Redis.data st !! k)
  /\ (forall NODE_ENV t rnd req,
        RateLimit.ip req = ip ->
        advancedRateLimitMiddleware NODE_ENV t rnd req after
        = match slidingWindow NODE_ENV t rnd req after with
          | (Some (reply, lg), st') => (reply, st', lg)
          | (None, st') =>
              (Pass None, st', [SecureLog "error" "RATE_LIMIT_MIDDLEWARE_ERROR"])
          end)
  /\ (forall t0 d,
        (0 < d)%Z -> (t0 <= now < t0 + d * 1000)%Z ->
        (isIPBlocked now ip (blockIP t0 ip d st).1).1 = true
        /\ (unblockIP now ip (blockIP t0 ip d st).1).1.1 = true).
Proof.
  intros Hup after.
  assert (Hafter : after = {| Redis.up := true;
                              Redis.data := base.delete (generateBlockKey ip)
                                              (Redis.data st) |}).
  { unfold after, unblockIP, del. rewrite Hup.
    by destruct (Redis.lookupLive now (generateBlockKey ip) st). }
  assert (Hdead : forall t, Redis.lookupLive t (generateBlockKey ip) after = None).
  { intros t. rewrite Hafter. unfold Redis.lookupLive. cbn.
    by rewrite lookup_delete_eq. }
  split; [|split; [|split; [|split; [|split]]]].
  - unfold unblockIP, del, isIPBlocked, Redis.exists_. rewrite Hup.
    by destruct (Redis.lookupLive now (generateBlockKey ip) st).
  - by rewrite Hafter.
  - intros t. unfold isIPBlocked, Redis.exists_. rewrite Hdead.
    by rewrite Hafter.
  - intros k Hk. rewrite Hafter. cbn. by rewrite lookup_delete_ne.
  - intros NODE_ENV t rnd req Hip. apply middleware_not_blocked.
    + by rewrite Hafter.
    + rewrite Hip. apply Hdead.
  - intros t0 d Hd Ht.
    assert (Hlive : Redis.lookupLive now (generateBlockKey ip) (blockIP t0 ip d st).1
                    = Some {| Redis.value := Redis.VString (pretty d);
                              Redis.expireAt := Some (t0 + d * 1000)%Z |}).
    { unfold blockIP, Redis.setex. rewrite Hup. cbn.
      unfold Redis.lookupLive, Redis.live. cbn. rewrite lookup_insert_eq. cbn.
      destruct (now <? t0 + d * 1000)%Z eqn:Hlt; [done|lia]. }
    assert (Hup' : Redis.up (blockIP t0 ip d st).1 = true).
    { unfold blockIP, Redis.setex. by rewrite Hup. }
    split.
    + unfold isIPBlocked, Redis.exists_. by rewrite Hup', Hlive.
    + unfold unblockIP, del. by rewrite Hup', Hlive.
Qed.

End RateLimitAdminFacts.

(** Two requests against a cache that is down. *)
Lemma cache_down_fails_open_witness :
  (RateLimit.serve "production"
     [(1000%Z, "0.1", RateLimit.loginRequest);
      (1001%Z, "0.2", RateLimit.loginRequest)]
     (RateLimitAdmin.unreachable RateLimit.fullStore)).1
  = [RateLimit.Pass None; RateLimit.Pass None].
Proof.
  pose proof (cache_down_fails_open "production"
                [(1000%Z, "0.1", RateLimit.loginRequest);
                 (1001%Z, "0.2", RateLimit.loginRequest)]
                (RateLimitAdmin.unreachable RateLimit.fullStore) eq_refl)
    as (Hall & _ & Hlen).
  destruct (RateLimit.serve _ _ _).1 as [|r1 [|r2 [|r3 rest]]];
    try discriminate Hlen.
  inversion Hall as [|? ? -> Hall']. inversion Hall' as [|? ? -> _].
  reflexivity.
Defined.

(** Lifting a block on the empty cache: there was none. *)
Lemma unblockIP_lifts_block_witness :
  (RateLimitAdmin.unblockIP 5000 "1.2.3.4" RateLimit.emptyStore).1.1 = false
  /\ (RateLimitAdmin.unblockIP 7000 "1.2.3.4"
        (RateLimit.blockIP 5000 "1.2.3.4" 300 RateLimit.emptyStore).1).1.1 = true.
Proof.
  split.
  - rewrite (proj1 (unblockIP_lifts_block 5000 "1.2.3.4" RateLimit.emptyStore
                      eq_refl)).
    reflexivity.
  - pose proof (unblockIP_lifts_block 7000 "1.2.3.4" RateLimit.emptyStore
                  eq_refl) as H.
    cbv zeta in H. destruct H as (_ & _ & _ & _ & _ & H).
    apply (H 5000%Z 300%Z); lia.
Defined.

(** ** The CORS origin guard and request guard *)

Section CorsRules.

Import Cors CorsMiddleware.

Variable parseURL : string -> option URL.
Variable FRONTEND_URL : string.

Local Abbreviation isOriginAllowed := (Cors.isOriginAllowed parseURL FRONTEND_URL).

(** X10.  Outside production and development no origin is allowed: in any
    other environment (such as ['test'] or a staging name) the guard
    refuses every request, with or without an [Origin] header, the
    whitelisted origins included. *)
Theorem isOriginAllowed_other_environment origin environment :
  environment <> "production" ->
  environment <> "development" ->
  (isOriginAllowed origin environment).1 = false.
Proof.
  intros Hp Hd. unfold Cors.isOriginAllowed.
  apply String.eqb_neq in Hp. apply String.eqb_neq in Hd.
  destruct origin as [o|]; [|by rewrite Hd].
  destruct (truthy o); cbn; [|by rewrite Hd].
  destruct (parseURL o); [|done]. by rewrite Hp, Hd.
Qed.

(** X11.  In development an origin on [localhost] or [127.0.0.1] is
    allowed exactly when its port is one of the seven development ports,
    where an origin without an explicit port counts as port 443 for
    [https:] and 80 otherwise; so such an origin on its default port is
    always refused.  An origin on any other host is allowed exactly when
    it has the origin of a production entry.  The IPv6 loopback is such
    another host: a URL object gives its host name in brackets, [[::1]],
    which the guard's comparison with [::1] never matches, so
    [http://[::1]:5173] is refused unless it is whitelisted. *)
Theorem development_origin_rule o url :
  truthy o = true ->
  parseURL o = Some url ->
  let port := parseInt_or (url_port url)
                (if String.eqb (url_protocol url) "https:" then 443 else 80)%N in
  let allowed := (isOriginAllowed (Some o) "development").1 in
  let whitelisted := existsb (sameOriginAs parseURL url)
                       (PRODUCTION_ALLOWED_ORIGINS FRONTEND_URL) in
  (url_hostname url = "localhost" \/ url_hostname url = "127.0.0.1" ->
   allowed = existsb (N.eqb port) DEV_ALLOWED_PORTS
   /\ (parseInt (url_port url) = None -> allowed = false))
  /\ (url_hostname url = "[::1]" -> allowed = whitelisted)
  /\ (url_hostname url <> "localhost" ->
      url_hostname url <> "127.0.0.1" ->
      url_hostname url <> "::1" ->
      allowed = whitelisted).
Proof.
  intros Ho Hu port allowed whitelisted.
  assert (Hother : isLoopback (url_hostname url) = false -> allowed = whitelisted).
  { intros Hl. unfold allowed, whitelisted, Cors.isOriginAllowed.
    rewrite Ho, Hu. cbn. rewrite Hl. cbn.
    match goal with
    | |- (if negb ?b then _ else _).1 = _ => by destruct b
    end. }
  split; [|split].
  - intros Hhost.
    assert (Hl : isLoopback (url_hostname url) = true)
      by (by destruct Hhost as [-> | ->]).
    unfold allowed, Cors.isOriginAllowed. rewrite Ho, Hu. cbn.
    rewrite Hl. cbn. fold port. split.
    + match goal with
      | |- (if negb ?b then _ else _).1 = _ => by destruct b
      end.
    + intros Hnone. unfold port, parseInt_or. rewrite Hnone.
      by destruct (String.eqb (url_protocol url) "https:").
  - intros Hhost. apply Hother. by rewrite Hhost.
  - intros H1 H2 H3. apply Hother. unfold isLoopback.
    apply String.eqb_neq in H1. apply String.eqb_neq in H2.
    apply String.eqb_neq in H3. by rewrite H1, H2, H3.
Qed.

Variable NODE_ENV : string.

Local Abbreviation corsSecurityMiddleware :=
  (CorsMiddleware.corsSecurityMiddleware parseURL NODE_ENV).

(** X12.  What the request guard rejects.  A method of the forbidden list
    is answered 405 in whatever letter case it comes.  Any other request
    is rejected only for its [Origin] and [Referer] headers, and only
    when it carries both and its method is none of [GET], [HEAD],
    [OPTIONS]: 403 when the two parse to different origins, 400 when one
    does not parse.  A request that lacks either header always
    continues. *)
Theorem corsSecurityMiddleware_rejections req :
  let reply := (corsSecurityMiddleware req).1.1 in
  (existsb (String.eqb (RateLimit.toUpperCase (method req))) FORBIDDEN_METHODS
   = true -> reply = Reject 405 "METHOD_NOT_ALLOWED")
  /\ (existsb (String.eqb (RateLimit.toUpperCase (method req))) FORBIDDEN_METHODS
      = false ->
      (header req "origin" = None \/ header req "referer" = None
       \/ method req = "GET" \/ method req = "HEAD" \/ method req = "OPTIONS" ->
       reply = Continue)
      /\ (forall origin referer,
            header req "origin" = Some origin ->
            header req "referer" = Some referer ->
            method req <> "GET" -> method req <> "HEAD" ->
            method req <> "OPTIONS" ->
            reply
            = match parseURL origin, parseURL referer with
              | Some originUrl, Some refererUrl =>
                  if String.eqb (url_origin originUrl) (url_origin refererUrl)
                  then Continue
                  else Reject 403 "CORS_SECURITY_VIOLATION"
              | _, _ => Reject 400 "MALFORMED_HEADERS"
              end)).
Proof.
  intros reply. unfold reply, CorsMiddleware.corsSecurityMiddleware. split.
  - by intros ->.
  - intros ->. split.
    + intros H.
      destruct (String.eqb_spec (method req) "GET") as [|Hg]; [done|].
      destruct (String.eqb_spec (method req) "HEAD") as [|Hh]; [done|].
      destruct (String.eqb_spec (method req) "OPTIONS") as [|Hopt]; [done|].
      cbn. destruct H as [->|[H|[H|[H|H]]]]; [done| |done|done|done].
      rewrite H. by destruct (header req "origin").
    + intros origin referer -> -> Hg Hh Hopt.
      apply String.eqb_neq in Hg. apply String.eqb_neq in Hh.
      apply String.eqb_neq in Hopt. rewrite Hg, Hh, Hopt. cbn.
      destruct (parseURL origin) as [ou|]; [|done].
      destruct (parseURL referer) as [ru|]; [|done].
      by destruct (String.eqb (url_origin ou) (url_origin ru)).
Qed.

End CorsRules.

(** A whitelisted origin in the ['test'] environment. *)
Lemma isOriginAllowed_other_environment_witness :
  (Cors.isOriginAllowed CorsMiddleware.sampleParse "http://localhost:5173"
     (Some "https://freelance-os.com") "test").1 = false.
Proof.
  apply isOriginAllowed_other_environment; discriminate.
Defined.

(** [http://localhost:5173] is allowed in development, [http://localhost]
    is not, and neither is [http://[::1]:5173]. *)
Lemma development_origin_rule_witness :
  (Cors.isOriginAllowed CorsMiddleware.sampleParse "" (Some "http://localhost:5173")
     "development").1 = true
  /\ (Cors.isOriginAllowed CorsMiddleware.sampleParse "" (Some "http://localhost")
        "development").1 = false
  /\ (Cors.isOriginAllowed CorsSamples.ipv6Parse "" (Some "http://[::1]:5173")
        "development").1 = false.
Proof.
  split; [|split].
  - pose proof (development_origin_rule CorsMiddleware.sampleParse ""
                  "http://localhost:5173" _ eq_refl eq_refl) as H.
    cbv zeta in H. destruct H as [H _]. destruct (H (or_introl eq_refl)) as [-> _].
    reflexivity.
  - pose proof (development_origin_rule CorsMiddleware.sampleParse ""
                  "http://localhost" _ eq_refl eq_refl) as H.
    cbv zeta in H. destruct H as [H _]. destruct (H (or_introl eq_refl)) as [_ H'].
    apply H'. reflexivity.
  - pose proof (development_origin_rule CorsSamples.ipv6Parse ""
                  "http://[::1]:5173" _ eq_refl eq_refl) as H.
    cbv zeta in H. destruct H as (_ & H & _). rewrite (H eq_refl).
    reflexivity.
Defined.

(** ** The reply to a failed request *)

Section ErrorResponseFacts.

Import ErrorHandler ErrorResponse.

(** X13.  What a client learns from a failed request.  Whatever the error
    and the request, the message of the reply is the fixed text of the
    error's type and never the error's own message, and the status is the
    one of the type: 400, 401, 403, 429 or 500, never 404 or 503, which
    the handler attributes to no error.  Outside development the body
    holds nothing else than the identifier, the type, that text and the
    time.  An error named [ValidationError] is answered 400 whatever its
    message says. *)
Theorem secureErrorHandler_reply NODE_ENV now rnd thrown req :
  let reply := (secureErrorHandler NODE_ENV now rnd thrown req).2 in
  let body := reply.2 in
  body_message body = USER_ERROR_MESSAGES (body_type body)
  /\ reply.1 = ERROR_STATUS_CODES (body_type body)
  /\ In reply.1 [400; 401; 403; 429; 500]%N
  /\ body_type body <> RESOURCE_NOT_FOUND
  /\ body_type body <> EXTERNAL_SERVICE
  /\ body_id body = generateErrorId now rnd
  /\ (NODE_ENV <> "development" ->
      body_internalMessage body = None
      /\ body_severity body = None
      /\ body_metadata body = None)
  /\ (name thrown = "ValidationError" -> reply.1 = 400%N).
Proof.
  intros reply body. subst body reply. unfold secureErrorHandler.
  assert (Hopts : forall t opts,
            classify thrown req = (t, opts) ->
            opt_userMessage opts = None /\ opt_statusCode opts = None
            /\ t <> RESOURCE_NOT_FOUND /\ t <> EXTERNAL_SERVICE
            /\ (name thrown = "ValidationError" -> t = VALIDATION)).
  { intros t opts. unfold classify.
    destruct (String.eqb_spec (name thrown) "ValidationError") as [Hn|Hn].
    - intros [= <- <-]. done.
    - repeat (match goal with
              | |- context [if ?b then _ else _] => destruct b
              end; [intros [= <- <-]; done|]).
      intros [= <- <-]. done. }
  destruct (classify thrown req) as [t opts] eqn:Hc.
  destruct (Hopts t opts eq_refl) as (Hum & Hsc & Hnf & Hes & Hval).
  unfold sendSecureErrorResponse, createSecureError.
  cbn -[USER_ERROR_MESSAGES ERROR_STATUS_CODES generateErrorId or_string
        or_number In].
  rewrite Hum, Hsc. cbn -[USER_ERROR_MESSAGES ERROR_STATUS_CODES generateErrorId In].
  split; [done|]. split; [done|].
  split; [destruct t; cbn; tauto|].
  split; [done|]. split; [done|]. split; [done|]. split.
  - intros Hdev. apply String.eqb_neq in Hdev. by rewrite Hdev.
  - intros Hn. by rewrite (Hval Hn).
Qed.

End ErrorResponseFacts.

(** ** The XSS sanitizer: what a returning call guarantees *)

Section XssReturns.

Import Js RegExp Xss.

Variable purify : jsstring -> jsstring.

(** X14.  When [sanitizeXSS] returns on a non-empty input, from whatever
    state the shared pattern objects were in, the text returned is the
    purified and entity-decoded input, it matches no dangerous pattern, it
    is at most 10000 characters long, and every pattern object is back in
    its initial state; so the next call refuses every dangerous input, in
    particular every text that holds a script element. *)
Theorem sanitizeXSS_returned state S out state' :
  S <> [] ->
  length state = length XSS_PATTERNS ->
  sanitizeXSS purify state S = (Returned out, state') ->
  out = decodeEntities (purify S)
  /\ dangerous out = false
  /\ (Z.of_nat (length out) <= MAX_LENGTH)%Z
  /\ state' = fresh XSS_PATTERNS
  /\ (forall S', S' <> [] -> dangerous S' = true ->
                 (sanitizeXSS purify state' S').1 = Threw)
  /\ (forall S', containsScript S' ->
                 (sanitizeXSS purify state' S').1 = Threw).
Proof.
  intros Hne Hlen Hret.
  destruct (sanitizeXSS_second_loop purify state S Hne Hlen) as [Ht|Heq];
    [by rewrite Hret in Ht|].
  rewrite Hret in Heq. cbv zeta in Heq.
  set (sanitized := decodeEntities (purify S)) in *.
  pose proof (testAll_fresh XSS_PATTERNS sanitized) as Hf.
  pose proof (testAll_false_fresh XSS_PATTERNS sanitized (fresh XSS_PATTERNS)
                XSS_PATTERNS_global) as Hreset.
  destruct (testAll XSS_PATTERNS (fresh XSS_PATTERNS) sanitized)
    as [found state2].
  destruct found; [done|]. cbn in Hf. cbn [fst snd] in Hreset.
  destruct (MAX_LENGTH <? Z.of_nat (length sanitized))%Z eqn:Hlong; [done|].
  injection Heq as -> ->.
  assert (Hfresh : state2 = fresh XSS_PATTERNS)
    by (apply Hreset; [unfold fresh; by rewrite length_map|done]).
  split; [done|]. split; [done|]. split; [lia|]. split; [done|].
  rewrite Hfresh. split.
  - intros S' Hne' Hd. by apply sanitizeXSS_refuses_dangerous.
  - intros S' Hs. apply sanitizeXSS_refuses_dangerous.
    + destruct Hs as (pre & body & post & ->). by destruct pre.
    + by apply containsScript_dangerous.
Qed.

End XssReturns.

(** A plain word is returned, after which a script element is refused. *)
Lemma sanitizeXSS_returned_witness :
  (Xss.sanitizeXSS Xss.keepAll (RegExp.fresh Xss.XSS_PATTERNS)
     (Js.js "<script>alert(1)</script>")).1 = Xss.Threw.
Proof.
  pose proof (sanitizeXSS_returned Xss.keepAll (RegExp.fresh Xss.XSS_PATTERNS)
                (Js.js "hello") (Js.js "hello") (RegExp.fresh Xss.XSS_PATTERNS))
    as H.
  destruct H as (_ & _ & _ & _ & H & _).
  - discriminate.
  - reflexivity.
  - vm_compute. reflexivity.
  - apply H; [discriminate|vm_compute; reflexivity].
Defined.

(** ** Path validation: traversal sequences and accepted paths *)

Section PathGuardFacts.

Import Js RegExp Path PathTraversal PathGuards.

Lemma testAll_length res s : forall state,
  length (testAll res state s).2 = length state.
Proof.
  induction res as [|re res IH]; intros state; [by destruct state|].
  destruct state as [|i state]; [done|]. cbn [testAll].
  destruct (test re i s) as [found i'].
  destruct found; [done|].
  specialize (IH state). destruct (testAll res state s) as [found' state''].
  cbn in *. by rewrite IH.
Qed.

Lemma containsText_rev needle s :
  containsText needle s -> containsText (rev needle) (rev s).
Proof.
  intros (pre & post & ->). exists (rev post), (rev pre).
  by rewrite !rev_app_distr, <- app_assoc.
Qed.

(** Leading white space is not part of a text that starts with another
    character. *)
Lemma trimStart_containsText a rest s :
  isSpace a = false ->
  containsText (a :: rest) s -> containsText (a :: rest) (trimStart s).
Proof.
  intros Ha (pre & post & ->). induction pre as [|c pre IH].
  - cbn. rewrite Ha. by exists [], post.
  - cbn [app trimStart]. destruct (isSpace c); [done|].
    by exists (c :: pre), post.
Qed.

Lemma trim_containsText a b s :
  isSpace a = false -> isSpace b = false ->
  containsText [a; b] s -> containsText [a; b] (trim s).
Proof.
  intros Ha Hb H. unfold trim.
  apply (containsText_rev [b; a]). apply trimStart_containsText; [done|].
  apply (containsText_rev [a; b]). by apply trimStart_containsText.
Qed.

(** An escape sequence is a percent sign and two hexadecimal digits. *)
Lemma takeEscape_Some s b rest :
  takeEscape s = Some (b, rest) ->
  exists h l a c,
    s = 37%Z :: a :: c :: rest /\ hexValue a = Some h /\ hexValue c = Some l
    /\ b = (16 * h + l)%Z.
Proof.
  unfold takeEscape. intros Ht.
  repeat case_match; simplify_eq. eauto 10.
Qed.

(** It cannot overlap a dot followed by a separator. *)
Lemma takeEscape_containsText x s b rest :
  takeEscape s = Some (b, rest) ->
  containsText [46%Z; x] s -> containsText [46%Z; x] rest.
Proof.
  intros Ht (pre & post & Hs).
  apply takeEscape_Some in Ht as (h & l & a & c & -> & Ha & Hc & _).
  destruct pre as [|p0 [|p1 [|p2 pre]]]; cbn [app] in Hs; simplify_eq.
  - by exists pre, post.
Qed.

Lemma takeEscape_length s b rest :
  takeEscape s = Some (b, rest) -> (length rest < length s)%nat.
Proof.
  intros Ht. apply takeEscape_Some in Ht as (h & l & a & c & -> & _).
  cbn. lia.
Qed.

Lemma takeEscapes_containsText x n : forall s bs rest,
  takeEscapes n s = Some (bs, rest) ->
  containsText [46%Z; x] s ->
  containsText [46%Z; x] rest /\ (length rest <= length s)%nat.
Proof.
  induction n as [|n IH]; intros s bs rest Ht Hc; cbn in Ht.
  - by simplify_eq.
  - destruct (takeEscape s) as [[b r]|] eqn:He; [|done].
    destruct (takeEscapes n r) as [[bs' r']|] eqn:Hes; [|done]. simplify_eq.
    destruct (IH _ _ _ Hes (takeEscape_containsText _ _ _ _ He Hc)) as [H1 H2].
    split; [done|]. apply takeEscape_length in He. lia.
Qed.

Lemma containsText_app_l needle u s :
  containsText needle s -> containsText needle (u ++ s).
Proof.
  intros (pre & post & ->). exists (u ++ pre), post. by rewrite <- app_assoc.
Qed.

(** Decoding keeps a dot followed by a separator where it is. *)
Lemma decodeFrom_containsText x :
  x = 47%Z \/ x = 92%Z ->
  forall fuel s out,
    (length s <= fuel)%nat ->
    containsText [46%Z; x] s ->
    decodeFrom fuel s = Some out ->
    containsText [46%Z; x] out.
Proof.
  intros Hx. induction fuel as [|fuel IH]; intros s out Hlen Hc Hd.
  { destruct Hc as (pre & post & ->). rewrite length_app in Hlen.
    cbn in Hlen. lia. }
  destruct s as [|c rest].
  { destruct Hc as (pre & post & Hs). by destruct pre. }
  cbn [decodeFrom] in Hd. destruct (c =? 37)%Z eqn:Hc37.
  - destruct (takeEscape (c :: rest)) as [[b rest1]|] eqn:He; [|done].
    pose proof (takeEscape_containsText _ _ _ _ He Hc) as Hc1.
    pose proof (takeEscape_length _ _ _ He) as Hl1. cbn in Hl1, Hlen.
    destruct (b <? 128)%Z.
    + apply fmap_Some in Hd as (o' & Ho & ->).
      apply (containsText_app_l _ [b]). apply (IH rest1); [lia|done|done].
    + destruct (sequenceLength b) as [n|]; [|done].
      destruct (takeEscapes (n - 1) rest1) as [[more rest2]|] eqn:Hes; [|done].
      destruct (decodeOctets (b :: more)) as [cp|]; [|done].
      apply fmap_Some in Hd as (o' & Ho & ->).
      destruct (takeEscapes_containsText _ _ _ _ _ Hes Hc1) as [Hc2 Hl2].
      apply containsText_app_l. apply (IH rest2); [lia|done|done].
  - apply fmap_Some in Hd as (o' & Ho & ->).
    destruct Hc as (pre & post & Hs). destruct pre as [|p0 pre].
    + cbn [app] in Hs. simplify_eq.
      destruct fuel as [|fuel]; [cbn in Hlen; lia|].
      cbn [decodeFrom] in Ho.
      replace (x =? 37)%Z with false in Ho by (by destruct Hx as [-> | ->]).
      apply fmap_Some in Ho as (o'' & _ & ->). by exists [], o''.
    + cbn [app] in Hs. simplify_eq.
      apply (containsText_app_l _ [p0]). apply (IH (pre ++ [46%Z; x] ++ post)).
      * change (S (length (pre ++ [46%Z; x] ++ post)) <= S fuel)%nat in Hlen.
        lia.
      * by exists pre, post.
      * done.
Qed.

Lemma decodeLoop_containsText x :
  x = 47%Z \/ x = 92%Z ->
  forall rounds decodedPath previousPath,
    containsText [46%Z; x] decodedPath ->
    containsText [46%Z; x] (decodeLoop rounds decodedPath previousPath).
Proof.
  intros Hx. induction rounds as [|rounds IH]; intros d prev Hc; [done|].
  cbn [decodeLoop]. destruct (jsstring_eqb d prev); [done|].
  destruct (decodeURIComponent d) as [d'|] eqn:Hd; [|done].
  apply IH. by apply (decodeFrom_containsText x Hx (length d) d).
Qed.

Lemma sanitizeFilePath_state_length toLowerCase state filePath :
  length (sanitizeFilePath toLowerCase state filePath).1.2 = length state.
Proof.
  unfold sanitizeFilePath. destruct filePath as [|c filePath]; [done|].
  pose proof (testAll_length DANGEROUS_PATH_PATTERNS
                (decodeLoop 5 (trim (c :: filePath)) []) state) as Hl.
  destruct (testAll DANGEROUS_PATH_PATTERNS state _) as [found state'].
  cbn in Hl. repeat case_match; done.
Qed.

(** A character class that matches nowhere: no character is in it. *)
Lemma matches_class_false f s :
  matches {| pattern := Chr f; global := true |} s = false ->
  Forall (fun c => f c = false) s.
Proof.
  unfold matches. cbn [pattern]. generalize (@None Z).
  induction s as [|c s IH]; intros prev H; [constructor|].
  cbn [searchFrom matchRegex snd] in H.
  destruct (f c) eqn:Hc; [done|]. constructor; [done|]. by apply (IH (Some c)).
Qed.

Lemma normalize_nonempty p : normalize p <> [].
Proof.
  unfold normalize. destruct p as [|c p]; [done|].
  destruct (normalizeString (c :: p) _) as [|b body].
  - by repeat case_match.
  - destruct (trailingSeparator (c :: p)), (isAbsolute (c :: p)); done.
Qed.

Section WithPlatform.

Variable toLowerCase : jsstring -> jsstring.
Variable cwd : jsstring.

Local Abbreviation sanitizeFilePath := (PathTraversal.sanitizeFilePath toLowerCase).
Local Abbreviation createSecurePath :=
  (PathTraversal.createSecurePath toLowerCase cwd).

Lemma traversal_text_rejected x state filePath :
  x = 47%Z \/ x = 92%Z ->
  length state = length DANGEROUS_PATH_PATTERNS ->
  containsText [46%Z; x] filePath ->
  isValid (sanitizeFilePath state filePath).1.1 = false.
Proof.
  intros Hx Hlen Hc. apply sanitizeFilePath_rejects.
  assert (Hd : containsText [46%Z; x] (decodeLoop 5 (trim filePath) [])).
  { apply (decodeLoop_containsText x Hx). apply trim_containsText; [done| |done].
    by destruct Hx as [-> | ->]. }
  destruct Hd as (pre & post & ->).
  destruct state as [|i0 [|i1 state]]; [done|done|].
  apply testAll_second_once; [reflexivity|].
  unfold matches.
  pose proof (searchFrom_app (Alt (lit "./") (lit ".\")) pre None
                ([46%Z; x] ++ post)) as Hs.
  cbn [pattern once].
  destruct (searchFrom (Alt (lit "./") (lit ".\")) None (pre ++ [46%Z; x] ++ post));
    [done|].
  exfalso. apply Hs; [|done]. by destruct Hx as [-> | ->].
Qed.

(** X15.  A path in which a dot is followed by a slash or a backslash
    ([./], [.\], hence every [../] and [..\]) is refused by
    [sanitizeFilePath], and [createSecurePath] returns null for it, as it
    is typed, in whatever state earlier calls have left the pattern
    objects: white space around the path and percent-decoding do not
    remove the sequence, and the pattern that finds it has no [g]
    flag. *)
Theorem traversal_sequence_always_refused x state basePath filePath :
  x = 47%Z \/ x = 92%Z ->
  length state = length DANGEROUS_PATH_PATTERNS ->
  containsText [46%Z; x] filePath ->
  isValid (sanitizeFilePath state filePath).1.1 = false
  /\ (createSecurePath state basePath filePath).1.1 = None.
Proof.
  intros Hx Hlen Hc.
  pose proof (traversal_text_rejected x state filePath Hx Hlen Hc) as Hr.
  split; [done|]. by apply createSecurePath_invalid.
Qed.

(** X16.  What a caller can rely on when [sanitizeFilePath] accepts a
    path: the sanitized path is the normalized form of the trimmed and
    decoded input with backslashes turned into slashes; it is not empty
    and at most 255 characters long; it holds no backslash, no control
    character and none of [<>:|?*] and the double quote; its extension is
    not a dangerous one; it does not start with a forbidden directory; and
    nothing was logged. *)
Theorem accepted_path_is_clean state filePath :
  isValid (sanitizeFilePath state filePath).1.1 = true ->
  exists p,
    (sanitizeFilePath state filePath).1.1 = valid p
    /\ (sanitizeFilePath state filePath).2 = []
    /\ p = replaceBackslashes (normalize (decodeLoop 5 (trim filePath) []))
    /\ p <> []
    /\ (length p <= 255)%nat
    /\ Forall (fun c => isInvalidChar c = false /\ c <> 92%Z) p
    /\ includes DANGEROUS_EXTENSIONS (toLowerCase (extname p)) = false
    /\ Forall (fun forbiddenDir =>
                 startsWith (toLowerCase p) (toLowerCase forbiddenDir) = false)
              FORBIDDEN_DIRECTORIES.
Proof.
  unfold PathTraversal.sanitizeFilePath.
  destruct filePath as [|c0 filePath]; [done|].
  set (decodedPath := decodeLoop 5 (trim (c0 :: filePath)) []).
  destruct (testAll DANGEROUS_PATH_PATTERNS state decodedPath) as [found state'].
  destruct found; [done|]. cbv zeta.
  set (p := replaceBackslashes (normalize decodedPath)).
  destruct (includes DANGEROUS_EXTENSIONS (toLowerCase (extname p))) eqn:Hext;
    [done|].
  destruct (find _ FORBIDDEN_DIRECTORIES) as [d|] eqn:Hdir; [done|].
  destruct (existsb _ FORBIDDEN_FILENAMES); [done|].
  destruct (255 <? Z.of_nat (length p))%Z eqn:Hlen; [done|].
  destruct (matches invalidChars p) eqn:Hchars; [done|].
  intros _. exists p. split; [done|]. split; [done|]. split; [done|].
  split.
  { unfold p, replaceBackslashes. intros Hnil.
    apply map_eq_nil in Hnil. by apply normalize_nonempty in Hnil. }
  split; [lia|]. split; [|split; [done|]].
  - apply matches_class_false in Hchars.
    apply Forall_forall. intros c Hc. split.
    + by apply (proj1 (Forall_forall _ _) Hchars).
    + unfold p, replaceBackslashes in Hc.
      apply list_elem_of_In, in_map_iff in Hc as (c' & Hc' & _).
      destruct (Z.eqb_spec c' 92); [by subst c|]. by subst c.
  - apply Forall_forall. intros d Hd.
    apply list_elem_of_In in Hd.
    pose proof (find_none _ _ Hdir d Hd) as Hnone. exact Hnone.
Qed.

(** X17.  The request hook answers 400, code [INVALID_PATH_PARAM], to
    every request one of whose route parameters is a string in which a
    dot is followed by a slash or a backslash, wherever that parameter
    stands among the others and in whatever state the pattern objects
    are. *)
Theorem hook_rejects_traversal_parameter x state params query key value :
  x = 47%Z \/ x = 92%Z ->
  length state = length DANGEROUS_PATH_PATTERNS ->
  In (key, Some value) params ->
  containsText [46%Z; x] value ->
  (pathTraversalValidationHook toLowerCase state (Some params) query).1.1
  = Reject 400 "INVALID_PATH_PARAM".
Proof.
  intros Hx Hlen Hin Hc.
  assert (Hrej : (checkParams toLowerCase state params).1.1 = true).
  { revert state Hlen. induction params as [|[k v] params IH]; intros state Hlen;
      [done|].
    cbn [checkParams]. destruct v as [v|].
    - pose proof (sanitizeFilePath_state_length toLowerCase state v) as Hl.
      destruct (PathTraversal.sanitizeFilePath toLowerCase state v)
        as [[validation state'] events] eqn:Hs.
      destruct (isValid validation) eqn:Hv; [|done].
      destruct Hin as [Heq|Hin].
      + simplify_eq.
        pose proof (traversal_text_rejected x state value Hx Hlen Hc) as Hr.
        rewrite Hs in Hr. cbn in Hr. congruence.
      + cbn in Hl. specialize (IH Hin state').
        destruct (checkParams toLowerCase state' params) as [[r st''] ev'].
        cbn in *. apply IH. congruence.
    - destruct Hin as [Heq|Hin]; [done|]. by apply IH. }
  unfold pathTraversalValidationHook.
  destruct (checkParams toLowerCase state params) as [[rejected state1] events1].
  cbn in Hrej. by subst rejected.
Qed.

End WithPlatform.

End PathGuardFacts.

(** The path [../../etc/passwd] under the base [/srv/up]. *)
Lemma traversal_sequence_always_refused_witness :
  (PathTraversal.createSecurePath PathTraversal.asciiLower (Js.js "/app")
     (RegExp.fresh PathTraversal.DANGEROUS_PATH_PATTERNS) (Js.js "/srv/up")
     (Js.js "../../etc/passwd")).1.1 = None.
Proof.
  apply (traversal_sequence_always_refused PathTraversal.asciiLower (Js.js "/app")
           47%Z).
  - by left.
  - reflexivity.
  - by exists (Js.js "."), (Js.js "../etc/passwd").
Defined.

(** The path [docs/report.pdf] is accepted as it is. *)
Lemma accepted_path_is_clean_witness :
  exists p,
    (PathTraversal.sanitizeFilePath PathTraversal.asciiLower
       (RegExp.fresh PathTraversal.DANGEROUS_PATH_PATTERNS)
       (Js.js "docs/report.pdf")).1.1 = PathTraversal.valid p
    /\ p = Js.js "docs/report.pdf".
Proof.
  destruct (accepted_path_is_clean PathTraversal.asciiLower
              (RegExp.fresh PathTraversal.DANGEROUS_PATH_PATTERNS)
              (Js.js "docs/report.pdf")) as (p & Hv & _ & Hp & _).
  - vm_compute. reflexivity.
  - exists p. split; [exact Hv|]. rewrite Hp. vm_compute. reflexivity.
Defined.

(** A request for [/files/:name] with the name [../secret]. *)
Lemma hook_rejects_traversal_parameter_witness :
  (PathGuards.pathTraversalValidationHook PathTraversal.asciiLower
     (RegExp.fresh PathTraversal.DANGEROUS_PATH_PATTERNS)
     (Some [(Js.js "id", None); (Js.js "name", Some (Js.js "../secret"))])
     None).1.1
  = PathGuards.Reject 400 "INVALID_PATH_PARAM".
Proof.
  apply (hook_rejects_traversal_parameter PathTraversal.asciiLower 47%Z _ _ _
           (Js.js "name") (Js.js "../secret")).
  - by left.
  - reflexivity.
  - right. left. reflexivity.
  - by exists (Js.js "."), (Js.js "secret").
Defined.

(** ** Relative paths stay inside the base directory *)

Section PathInsideFacts.

Import Js RegExp Path PathTraversal PathGuards PathInside.

Local Abbreviation dd := ([46; 46]%Z : jsstring).

Lemma splitOn_nonempty sep s : splitOn sep s <> [].
Proof.
  destruct s as [|c s]; [done|]. cbn.
  destruct (c =? sep)%Z; [done|]. by destruct (splitOn sep s).
Qed.

(** Splitting at a separator splits the list of segments. *)
Lemma splitOn_app sep u v :
  splitOn sep (u ++ sep :: v) = splitOn sep u ++ splitOn sep v.
Proof.
  induction u as [|c u IH]; cbn [app splitOn].
  - by rewrite Z.eqb_refl.
  - destruct (c =? sep)%Z; [by rewrite IH|]. rewrite IH.
    pose proof (splitOn_nonempty sep u). by destruct (splitOn sep u).
Qed.

Lemma splitOn_no_sep sep s :
  Forall (fun seg => ~ In sep seg) (splitOn sep s).
Proof.
  induction s as [|c s IH]; cbn.
  - constructor; [by intros []|constructor].
  - destruct (Z.eqb_spec c sep) as [->|Hne].
    + constructor; [by intros []|done].
    + destruct (splitOn sep s) as [|seg segs]; [repeat constructor; by intros [|[]]|].
      inversion IH as [|? ? Hseg Hsegs]; subst.
      constructor; [|done]. intros [Hc|Hin]; [done|by apply Hseg].
Qed.

(** Every segment is a piece of the text. *)
Lemma splitOn_pieces sep s :
  (exists seg segs post, splitOn sep s = seg :: segs /\ s = seg ++ post)
  /\ Forall (fun seg => exists pre post, s = pre ++ seg ++ post) (splitOn sep s).
Proof.
  induction s as [|c s [(seg & segs & post & Hsplit & Hs) IH]]; cbn.
  - split; [by exists [], [], []|]. constructor; [by exists [], []|constructor].
  - destruct (c =? sep)%Z.
    + split; [by exists [], (splitOn sep s), (c :: s)|].
      constructor; [by exists [], (c :: s)|].
      eapply Forall_impl; [exact IH|]. intros seg' (pre' & post' & ->).
      by exists (c :: pre'), post'.
    + rewrite Hsplit in *. split.
      * exists (c :: seg), segs, post. by rewrite Hs.
      * inversion IH as [|? ? _ Hrest]; subst. constructor.
        -- by exists [], post.
        -- eapply Forall_impl; [exact Hrest|]. intros seg' (pre' & post' & Heq).
           exists (c :: pre'), post'. by rewrite Heq.
Qed.

Lemma containsText_trans needle pre s post :
  containsText needle s -> containsText needle (pre ++ s ++ post).
Proof.
  intros (a & b & ->). exists (pre ++ a), (b ++ post).
  by rewrite <- !app_assoc.
Qed.

(** Two dots cannot straddle a slash. *)
Lemma containsText_dd_sep a : forall b,
  containsText dd (a ++ 47%Z :: b) -> containsText dd a \/ containsText dd b.
Proof.
  induction a as [|x a IH]; intros b (pre & post & Heq).
  - destruct pre as [|c pre]; cbn [app] in Heq; simplify_eq.
    right. by exists pre, post.
  - destruct pre as [|c pre]; cbn [app] in Heq; simplify_eq.
    + destruct a as [|y a]; cbn [app] in *; simplify_eq.
      left. by exists [], a.
    + destruct (IH b) as [Hl|Hr]; [by exists pre, post| |by right].
      left. by apply (containsText_app_l _ [c]).
Qed.

Lemma containsText_nil needle : needle <> [] -> ~ containsText needle [].
Proof.
  intros Hne (pre & post & Heq). symmetry in Heq.
  apply app_eq_nil in Heq as [_ Heq]. apply app_eq_nil in Heq as [Heq _]. done.
Qed.

Lemma join_no_dd segs :
  Forall (fun seg => ~ containsText dd seg) segs -> ~ containsText dd (join segs).
Proof.
  induction 1 as [|seg segs Hseg Hsegs IH]; [by apply containsText_nil|].
  destruct segs as [|seg' segs]; [done|].
  change (join (seg :: seg' :: segs)) with (seg ++ 47%Z :: join (seg' :: segs)).
  intros Hc. apply containsText_dd_sep in Hc as [Hc|Hc]; [done|by apply IH].
Qed.

(** Without a [..] segment nothing is popped: the segments kept are the
    ones that are neither empty nor [.]. *)
Lemma normalizeStep_plain allowAboveRoot segs : forall stack,
  Forall (fun seg => seg <> dd) segs ->
  fold_left (normalizeStep allowAboveRoot) segs stack
  = rev (List.filter keptSegment segs) ++ stack.
Proof.
  induction segs as [|seg segs IH]; intros stack Hall; [done|].
  inversion Hall as [|? ? Hseg Hall']; subst. cbn [fold_left List.filter].
  rewrite IH by done. unfold normalizeStep, keptSegment.
  destruct (jsstring_eqb seg [] || jsstring_eqb seg [DOT]); cbn [negb]; [done|].
  replace (jsstring_eqb seg [DOT; DOT]) with false
    by (symmetry; apply bool_decide_eq_false_2; exact Hseg).
  cbn [rev]. by rewrite <- app_assoc.
Qed.

Lemma no_dd_segments s :
  ~ containsText dd s -> Forall (fun seg => ~ containsText dd seg /\ seg <> dd)
                           (splitOn 47 s).
Proof.
  intros Hs. eapply Forall_impl; [apply (proj2 (splitOn_pieces 47 s))|].
  intros seg (pre & post & ->). split.
  - intros Hc. apply Hs. by apply containsText_trans.
  - intros ->. apply Hs. by exists pre, post.
Qed.

Lemma normalizeString_no_dd s allowAboveRoot :
  ~ containsText dd s ->
  normalizeString s allowAboveRoot = join (List.filter keptSegment (splitOn 47 s))
  /\ ~ containsText dd (normalizeString s allowAboveRoot).
Proof.
  intros Hs. pose proof (no_dd_segments s Hs) as Hsegs.
  assert (Heq : normalizeString s allowAboveRoot
                = join (List.filter keptSegment (splitOn 47 s))).
  { unfold normalizeString, normalizeSegments.
    rewrite normalizeStep_plain
      by (eapply Forall_impl; [exact Hsegs|]; by intros seg [_ ?]).
    by rewrite app_nil_r, rev_involutive. }
  split; [done|]. rewrite Heq. apply join_no_dd.
  apply Forall_forall. intros seg Hin.
  apply list_elem_of_In, filter_In in Hin as [Hin _].
  apply list_elem_of_In in Hin.
  by apply (proj1 (Forall_forall _ _) Hsegs seg Hin).
Qed.

Lemma cons_slash_no_dd s : ~ containsText dd s -> ~ containsText dd (47%Z :: s).
Proof.
  intros Hs Hc. apply (containsText_dd_sep []) in Hc as [Hc|Hc]; [|done].
  by apply (containsText_nil dd) in Hc.
Qed.

Lemma snoc_slash_no_dd s : ~ containsText dd s -> ~ containsText dd (s ++ [47%Z]).
Proof.
  intros Hs Hc. apply containsText_dd_sep in Hc as [Hc|Hc]; [done|].
  by apply (containsText_nil dd) in Hc.
Qed.

Lemma normalize_no_dd s : ~ containsText dd s -> ~ containsText dd (normalize s).
Proof.
  intros Hs. unfold normalize. destruct s as [|c s].
  { intros (pre & post & Heq). by destruct pre as [|? [|? ?]]. }
  pose proof (proj2 (normalizeString_no_dd (c :: s)
                       (negb (isAbsolute (c :: s))) Hs)) as Hbody.
  destruct (normalizeString (c :: s) _) as [|b body].
  - repeat case_match; intros (pre & post & Heq);
      by destruct pre as [|? [|? [|? ?]]].
  - destruct (trailingSeparator (c :: s)), (isAbsolute (c :: s));
      auto using cons_slash_no_dd, snoc_slash_no_dd.
Qed.

Lemma replaceBackslashes_no_dd s :
  ~ containsText dd s -> ~ containsText dd (replaceBackslashes s).
Proof.
  intros Hs (pre & post & Heq). apply Hs. unfold replaceBackslashes in Heq.
  apply map_eq_app in Heq as (pre' & rest & -> & Hpre & Hrest).
  apply (map_eq_app _ _ [46%Z; 46%Z]) in Hrest as (mid & post' & -> & Hmid & Hpost).
  destruct mid as [|c1 [|c2 [|? ?]]]; try done. cbn in Hmid.
  exists pre', post'.
  assert (c1 = 46%Z) as -> by (by destruct (Z.eqb_spec c1 92); simplify_eq).
  assert (c2 = 46%Z) as -> by (by destruct (Z.eqb_spec c2 92); simplify_eq).
  done.
Qed.

(** What [path.resolve] has put together when it stops. *)
Lemma resolveLoop_acc args : forall acc,
  resolveLoop args acc
  = ((resolveLoop args []).1 ++ acc, (resolveLoop args []).2).
Proof.
  induction args as [|path args IH]; intros acc; [done|].
  cbn [resolveLoop]. destruct path as [|c path]; [apply IH|].
  cbn zeta. destruct (c =? SLASH)%Z.
  - cbn. by rewrite <- app_assoc.
  - rewrite IH. rewrite (IH ((c :: path) ++ [SLASH])). cbn [fst snd].
    by rewrite <- !app_assoc.
Qed.

Lemma resolveLoop_absolute cwd args :
  isAbsolute cwd = true ->
  exists Y0, resolveLoop (args ++ [cwd]) [] = (Y0 ++ [SLASH], true).
Proof.
  intros Habs. induction args as [|path args IH]; cbn [app resolveLoop].
  - destruct cwd as [|c cwd]; [done|]. cbn in Habs. cbn zeta. rewrite Habs.
    by exists (c :: cwd).
  - destruct path as [|c path]; [done|]. cbn zeta.
    destruct (c =? SLASH)%Z; [by exists (c :: path)|].
    rewrite resolveLoop_acc. destruct IH as [Y0 ->]. cbn [fst snd].
    exists (Y0 ++ SLASH :: c :: path). by rewrite <- !app_assoc.
Qed.

Lemma resolveLoop_relative path args acc :
  path <> [] -> isAbsolute path = false ->
  resolveLoop (path :: args) acc = resolveLoop args (path ++ SLASH :: acc).
Proof.
  intros Hne Hrel. destruct path as [|c path]; [done|].
  cbn [resolveLoop]. cbn in Hrel. cbn zeta. by rewrite Hrel.
Qed.

Lemma join_app_prefix a b : exists t, join (a ++ b) = join a ++ t.
Proof.
  induction a as [|seg a [t IH]]; [by exists (join b)|].
  destruct a as [|seg' a].
  - cbn [app]. destruct b as [|seg' b].
    + exists []. cbn. by rewrite app_nil_r.
    + by exists (SLASH :: join (seg' :: b)).
  - change (join ((seg :: seg' :: a) ++ b))
      with (seg ++ SLASH :: join ((seg' :: a) ++ b)).
    rewrite IH. exists t.
    change (join (seg :: seg' :: a)) with (seg ++ SLASH :: join (seg' :: a)).
    by rewrite <- app_assoc.
Qed.

Lemma startsWith_app prefix : forall t, startsWith (prefix ++ t) prefix = true.
Proof.
  induction prefix as [|c prefix IH]; intros t; [by destruct t|].
  cbn. by rewrite Z.eqb_refl, IH.
Qed.

Lemma fold_normalizeStep_no_slash segs : forall stack,
  Forall (fun seg => ~ In SLASH seg) segs ->
  Forall (fun seg => ~ In SLASH seg) stack ->
  Forall (fun seg => ~ In SLASH seg) (fold_left (normalizeStep false) segs stack).
Proof.
  induction segs as [|seg segs IH]; intros stack Hsegs Hstack; [done|].
  inversion Hsegs as [|? ? Hseg Hsegs']; subst. cbn [fold_left].
  apply IH; [done|]. unfold normalizeStep.
  repeat case_match; try done; try (by constructor).
  by inversion Hstack.
Qed.

Section WithPlatform.

Variable toLowerCase : jsstring -> jsstring.
Variable cwd : jsstring.

Local Abbreviation sanitizeFilePath := (PathTraversal.sanitizeFilePath toLowerCase).
Local Abbreviation createSecurePath :=
  (PathTraversal.createSecurePath toLowerCase cwd).

(** An accepted path, with the patterns in their initial state, holds no
    two dots in a row. *)
Lemma accepted_path_no_dd filePath p :
  (sanitizeFilePath (fresh DANGEROUS_PATH_PATTERNS) filePath).1.1 = valid p ->
  p <> [] /\ ~ containsText dd p.
Proof.
  unfold PathTraversal.sanitizeFilePath.
  destruct filePath as [|c0 filePath]; [done|].
  set (decodedPath := decodeLoop 5 (trim (c0 :: filePath)) []).
  pose proof (testAll_fresh DANGEROUS_PATH_PATTERNS decodedPath) as Hf.
  destruct (testAll DANGEROUS_PATH_PATTERNS (fresh DANGEROUS_PATH_PATTERNS)
              decodedPath) as [found state'].
  destruct found; [done|]. cbv zeta.
  repeat case_match; try done. intros [= <-]. split.
  - unfold replaceBackslashes. intros Hnil. apply map_eq_nil in Hnil.
    by apply normalize_nonempty in Hnil.
  - apply replaceBackslashes_no_dd, normalize_no_dd.
    intros (pre & post & Hd). cbn [fst] in Hf. symmetry in Hf.
    change DANGEROUS_PATH_PATTERNS
      with (g dots2 :: tl DANGEROUS_PATH_PATTERNS) in Hf.
    cbn [existsb] in Hf. apply orb_false_iff in Hf as [Hf _].
    unfold matches in Hf. cbn [pattern g] in Hf.
    pose proof (searchFrom_app dots2 pre None (dd ++ post)) as Hs.
    rewrite <- Hd in Hs.
    destruct (searchFrom dots2 None decodedPath); [done|]. by apply Hs.
Qed.

(** X18.  A relative path cannot leave the base directory.  When
    [sanitizeFilePath] accepts a path (the pattern objects being in their
    initial state) and the sanitized path does not start with a slash,
    [createSecurePath] returns, for every base and an absolute working
    directory, the resolved base followed by further plain segments: the
    base itself or a path inside it, never a sibling. *)
Theorem relative_path_stays_inside basePath userPath p :
  isAbsolute cwd = true ->
  (sanitizeFilePath (fresh DANGEROUS_PATH_PATTERNS) userPath).1.1 = valid p ->
  isAbsolute p = false ->
  exists fullPath,
    (createSecurePath (fresh DANGEROUS_PATH_PATTERNS) basePath userPath).1.1
    = Some fullPath
    /\ insideOrEqual (resolve cwd [basePath]) fullPath.
Proof.
  intros Hcwd Hvalid Hrel.
  destruct (accepted_path_no_dd userPath p Hvalid) as [Hne Hdd].
  destruct (resolveLoop_absolute cwd [basePath] Hcwd) as [Y0 HY].
  assert (Hbase : resolve cwd [basePath]
                  = SLASH :: join (normalizeSegments false (Y0 ++ [SLASH]))).
  { unfold resolve. change (rev [basePath] ++ [cwd]) with ([basePath] ++ [cwd]).
    by rewrite HY. }
  assert (Hfull : resolve cwd [basePath; p]
                  = SLASH :: join (normalizeSegments false
                                     (Y0 ++ SLASH :: p ++ [SLASH]))).
  { unfold resolve.
    change (rev [basePath; p] ++ [cwd]) with (p :: [basePath] ++ [cwd]).
    rewrite resolveLoop_relative by done.
    rewrite resolveLoop_acc, HY. cbn [fst snd negb].
    unfold normalizeString. by rewrite <- app_assoc. }
  set (stackY := fold_left (normalizeStep false) (splitOn SLASH Y0) []).
  assert (HsegsY : normalizeSegments false (Y0 ++ [SLASH]) = rev stackY).
  { unfold normalizeSegments. rewrite (splitOn_app SLASH Y0 []).
    by rewrite fold_left_app. }
  set (extra := List.filter keptSegment (splitOn SLASH (p ++ [SLASH]))).
  assert (Hplain : Forall (fun seg => ~ containsText dd seg /\ seg <> dd)
                     (splitOn SLASH (p ++ [SLASH])))
    by (apply no_dd_segments; by apply snoc_slash_no_dd).
  assert (HsegsF : normalizeSegments false (Y0 ++ SLASH :: p ++ [SLASH])
                   = rev stackY ++ extra).
  { unfold normalizeSegments. rewrite splitOn_app, fold_left_app.
    fold stackY. rewrite normalizeStep_plain
      by (eapply Forall_impl; [exact Hplain|]; by intros seg [_ ?]).
    by rewrite rev_app_distr, rev_involutive. }
  rewrite HsegsY in Hbase. rewrite HsegsF in Hfull.
  exists (SLASH :: join (rev stackY ++ extra)). split.
  - rewrite (createSecurePath_valid toLowerCase cwd _ _ _ p Hvalid Hne).
    + by rewrite Hfull.
    + rewrite Hfull, Hbase.
      destruct (join_app_prefix (rev stackY) extra) as [t ->].
      apply (startsWith_app (SLASH :: join (rev stackY))).
  - exists (rev stackY), extra. split; [done|]. split; [done|]. split.
    + apply List.Forall_rev.
      apply fold_normalizeStep_no_slash; [apply splitOn_no_sep|constructor].
    + apply Forall_forall. intros seg Hin.
      apply list_elem_of_In, filter_In in Hin as [Hin Hkept].
      apply list_elem_of_In in Hin.
      pose proof (proj1 (Forall_forall _ _) Hplain seg Hin) as [_ Hnd].
      pose proof (proj1 (Forall_forall _ _) (splitOn_no_sep SLASH (p ++ [SLASH]))
                    seg Hin) as Hns.
      split; [|done]. intros ->. by vm_compute in Hkept.
Qed.

End WithPlatform.

End PathInsideFacts.

(** The path [docs/report.pdf] under the base [/srv/up]. *)
Lemma relative_path_stays_inside_witness :
  exists fullPath,
    (PathTraversal.createSecurePath PathTraversal.asciiLower (Js.js "/app")
       (RegExp.fresh PathTraversal.DANGEROUS_PATH_PATTERNS) (Js.js "/srv/up")
       (Js.js "docs/report.pdf")).1.1 = Some fullPath
    /\ PathInside.insideOrEqual
         (Path.resolve (Js.js "/app") [Js.js "/srv/up"]) fullPath.
Proof.
  apply (relative_path_stays_inside PathTraversal.asciiLower (Js.js "/app")
           (Js.js "/srv/up") (Js.js "docs/report.pdf") (Js.js "docs/report.pdf")).
  - reflexivity.
  - vm_compute. reflexivity.
  - reflexivity.
Defined.

(** ** Field encryption *)

Section FieldEncryptionFacts.

Import Js Encryption FieldEncryption.

Variable keystream : bytes -> nat -> Z.
Variable bufferFromObject : JSON -> option bytes.
Variable randomBytes : nat -> bytes.

Local Abbreviation encryptFields :=
  (FieldEncryption.encryptFields keystream randomBytes).
Local Abbreviation encryptFieldsFrom :=
  (FieldEncryption.encryptFieldsFrom keystream randomBytes).
Local Abbreviation decryptFields :=
  (FieldEncryption.decryptFields keystream bufferFromObject).
Local Abbreviation decryptField :=
  (FieldEncryption.decryptField keystream bufferFromObject).

(** One value: its token is not empty, decrypts to the value and is
    recognised. *)
Lemma encryptPII_round_trip iv c s :
  length iv = 16%nat ->
  Forall (fun b => isByte b = true) iv ->
  isWellFormed (c :: s) = true ->
  exists t token,
    encryptPII keystream iv (c :: s) = Some (t :: token)
    /\ decryptPII keystream bufferFromObject (t :: token) = c :: s
    /\ isEncrypted (t :: token) = true.
Proof.
  intros Hlen Hiv Hwf.
  pose proof (isWellFormed_codeUnits _ Hwf) as Hcu.
  destruct (tryDecrypt_encryptPII keystream bufferFromObject iv c s Hlen Hiv Hcu)
    as (t & token & Henc & Hdec).
  destruct (encryptPII_token keystream iv c s Hlen Hiv Hcu)
    as (t' & token' & Henc' & Hparse).
  rewrite Henc in Henc'. injection Henc' as <- <-.
  exists t, token. split; [done|]. split.
  - unfold decryptPII. rewrite Hdec. by apply utf8Decode_utf8Encode.
  - unfold isEncrypted. rewrite Hparse.
    apply andb_true_iff. split; apply bool_decide_eq_true_2; by eexists.
Qed.

Lemma decryptField_insert field v f obj :
  field <> f ->
  decryptField (<[field := v]> obj) f = <[field := v]> (decryptField obj f).
Proof.
  intros Hne. unfold FieldEncryption.decryptField.
  rewrite lookup_insert_ne by done.
  destruct (obj !! f) as [[| | |[|c s]| |]|]; try done.
  by rewrite insert_insert_ne.
Qed.

Lemma decryptFields_insert field v fields : forall obj,
  field ∉ fields ->
  decryptFields (<[field := v]> obj) fields
  = <[field := v]> (decryptFields obj fields).
Proof.
  induction fields as [|f fields IH]; intros obj Hnotin; [done|].
  apply not_elem_of_cons in Hnotin as [Hne Hnotin].
  cbn [FieldEncryption.decryptFields fold_left].
  rewrite decryptField_insert by done. by apply IH.
Qed.

(** X19.  Field encryption and its inverse.  For a list of distinct
    field names, random vectors of 16 bytes and an object whose listed
    string properties are well-formed strings, [encryptFields] succeeds,
    and:
    - every listed property that held a non-empty string now holds a
      token that [isEncrypted] recognises;
    - every other property, and every listed property that is absent,
      empty or not a string, is as it was, and no property is added or
      removed;
    - [decryptFields] with the same list gives the original object
      back. *)
Theorem field_encryption_round_trip fields : forall drawn obj,
  NoDup fields ->
  (forall n, length (randomBytes n) = 16%nat
             /\ Forall (fun b => isByte b = true) (randomBytes n)) ->
  (forall field s, field ∈ fields -> obj !! field = Some (JString s) ->
                   isWellFormed s = true) ->
  exists encrypted drawn',
    encryptFields drawn obj fields = Some (encrypted, drawn')
    /\ decryptFields encrypted fields = obj
    /\ (forall field c s,
          field ∈ fields -> obj !! field = Some (JString (c :: s)) ->
          exists token, encrypted !! field = Some (JString token)
                        /\ isEncrypted token = true)
    /\ (forall field,
          field ∉ fields \/ (forall c s, obj !! field <> Some (JString (c :: s))) ->
          encrypted !! field = obj !! field)
    /\ dom encrypted = dom obj.
Proof.
  unfold FieldEncryption.encryptFields.
  induction fields as [|f fields IH]; intros drawn obj Hnd Hiv Hwf.
  - exists obj, drawn. split; [done|]. split; [done|].
    split; [intros ? ? ? Hin; by apply elem_of_nil in Hin|]. done.
  - apply NoDup_cons in Hnd as [Hnotin Hnd].
    cbn [FieldEncryption.encryptFieldsFrom FieldEncryption.encryptField].
    destruct (obj !! f) as [v|] eqn:Hf.
    2:{ destruct (IH drawn obj Hnd Hiv) as (enc & n' & Henc & Hdec & Htok & Hsame & Hdom).
        { intros field s Hin. apply Hwf. by right. }
        exists enc, n'. split; [done|].
        assert (Hencf : enc !! f = None) by (rewrite Hsame; [done|by left]).
        split.
        { cbn [FieldEncryption.decryptFields fold_left].
          unfold FieldEncryption.decryptField at 2. by rewrite Hencf. }
        split.
        { intros field c s Hin Hl. apply elem_of_cons in Hin as [->|Hin];
            [congruence|by eapply Htok]. }
        split; [|done].
        intros field [Hout|Hns].
        - apply not_elem_of_cons in Hout as [_ Hout]. apply Hsame. by left.
        - apply Hsame. by right. }
    assert (Hskip : (forall c s, v <> JString (c :: s)) ->
              exists encrypted drawn',
                encryptFieldsFrom (obj, drawn) fields = Some (encrypted, drawn')
                /\ decryptFields encrypted (f :: fields) = obj
                /\ (forall field c s,
                      field ∈ f :: fields -> obj !! field = Some (JString (c :: s)) ->
                      exists token, encrypted !! field = Some (JString token)
                                    /\ isEncrypted token = true)
                /\ (forall field,
                      field ∉ f :: fields
                      \/ (forall c s, obj !! field <> Some (JString (c :: s))) ->
                      encrypted !! field = obj !! field)
                /\ dom encrypted = dom obj).
    { intros Hv.
      destruct (IH drawn obj Hnd Hiv) as (enc & n' & Henc & Hdec & Htok & Hsame & Hdom).
      { intros field s Hin. apply Hwf. by right. }
      exists enc, n'. split; [done|].
      assert (Hencf : enc !! f = Some v) by (rewrite Hsame; [done|by left]).
      split.
      { cbn [FieldEncryption.decryptFields fold_left].
        unfold FieldEncryption.decryptField at 2. rewrite Hencf.
        destruct v as [| | |[|c s]| |]; try done. by destruct (Hv c s). }
      split.
      { intros field c s Hin Hl. apply elem_of_cons in Hin as [->|Hin].
        - rewrite Hf in Hl. injection Hl as ->. by destruct (Hv c s).
        - by eapply Htok. }
      split; [|done].
      intros field [Hout|Hns].
      - apply not_elem_of_cons in Hout as [_ Hout]. apply Hsame. by left.
      - apply Hsame. by right. }
    destruct v as [| | |[|c s]| |]; try (apply Hskip; by intros).
    clear Hskip.
    destruct (Hiv drawn) as [Hlen Hbytes].
    assert (Hwfs : isWellFormed (c :: s) = true)
      by (apply (Hwf f); [by left|done]).
    destruct (encryptPII_round_trip (randomBytes drawn) c s Hlen Hbytes Hwfs)
      as (t & token & Henc & Hdec & Hrec).
    rewrite Henc.
    destruct (IH (S drawn) (<[f := JString (t :: token)]> obj) Hnd Hiv)
      as (enc & n' & Hencs & Hdecs & Htok & Hsame & Hdom).
    { intros field s' Hin. rewrite lookup_insert_ne by (by intros ->).
      apply Hwf. by right. }
    exists enc, n'. split; [done|].
    assert (Hencf : enc !! f = Some (JString (t :: token))).
    { rewrite Hsame by (by left). by rewrite lookup_insert_eq. }
    split.
    { cbn [FieldEncryption.decryptFields fold_left].
      unfold FieldEncryption.decryptField at 2. rewrite Hencf, Hdec.
      change (fold_left decryptField fields ?o) with (decryptFields o fields).
      rewrite decryptFields_insert by done. rewrite Hdecs.
      rewrite insert_insert_eq. by apply insert_id. }
    split.
    { intros field c' s' Hin Hl. apply elem_of_cons in Hin as [->|Hin].
      - by exists (t :: token).
      - apply (Htok field c' s' Hin).
        rewrite lookup_insert_ne; [done|by intros ->]. }
    split.
    { intros field Hfield.
      destruct (decide (field = f)) as [->|Hne].
      - destruct Hfield as [Hout|Hns].
        + apply not_elem_of_cons in Hout as [Hout _]. done.
        + by destruct (Hns c s).
      - rewrite Hsame.
        + by rewrite lookup_insert_ne.
        + destruct Hfield as [Hout|Hns].
          * left. by apply not_elem_of_cons in Hout as [_ Hout].
          * right. intros c' s'. rewrite lookup_insert_ne by done. apply Hns. }
    rewrite Hdom. apply dom_insert_lookup_L. by eexists.
Qed.

End FieldEncryptionFacts.

(** The sample client: the e-mail address is encrypted and restored, the
    name and the empty telephone number are untouched. *)
Lemma field_encryption_round_trip_witness :
  exists encrypted drawn',
    FieldEncryption.encryptFields Encryption.countingStream
      FieldEncryption.sampleDraws 0 FieldEncryption.sampleClient
      FieldEncryption.PII_FIELDS = Some (encrypted, drawn')
    /\ FieldEncryption.decryptFields Encryption.countingStream
         Encryption.refuseObjects encrypted FieldEncryption.PII_FIELDS
       = FieldEncryption.sampleClient.
Proof.
  destruct (field_encryption_round_trip Encryption.countingStream
              Encryption.refuseObjects FieldEncryption.sampleDraws
              FieldEncryption.PII_FIELDS 0 FieldEncryption.sampleClient)
    as (encrypted & drawn' & Henc & Hdec & _).
  - apply (bool_decide_unpack _). vm_compute. exact I.
  - intros n. split.
    + reflexivity.
    + unfold FieldEncryption.sampleDraws. apply Forall_forall. intros b Hb.
      apply list_elem_of_In, in_map_iff in Hb as (b0 & <- & _).
      apply isByte_spec. apply Z.mod_pos_bound. lia.
  - intros field s _ Hl. unfold FieldEncryption.sampleClient in Hl.
    cbn [list_to_map foldr] in Hl.
    repeat (apply lookup_insert_Some in Hl as [[_ Hl]|[_ Hl]];
            [try discriminate Hl; injection Hl as <-; vm_compute; reflexivity|]).
    rewrite lookup_empty in Hl. discriminate Hl.
  - exists encrypted, drawn'. split; [exact Henc|exact Hdec].
Defined.

(** ** Validation schemas *)

Section ValidationFacts.

Import Js RegExp Validation.

(** A pattern that starts with [^] matches at index 0 or nowhere. *)
Lemma searchFrom_bol_later r : forall rest c,
  searchFrom (Seq Bol r) (Some c) rest = None.
Proof. induction rest as [|c' rest IH]; intros c; cbn; [done|apply IH]. Qed.

Lemma searchFrom_bol r s :
  searchFrom (Seq Bol r) None s = matchRegex r Some (None, s).
Proof.
  destruct s as [|c s]; cbn [searchFrom matchRegex fst].
  - by destruct (matchRegex r Some (None, [])).
  - destruct (matchRegex r Some (None, c :: s)); [done|].
    apply searchFrom_bol_later.
Qed.

(** [r{n}] for a character class takes the next [n] characters. *)
Lemma count_class t k : forall n prev s,
  matchRegex (count n (Chr t)) k (prev, s)
  = if (n <=? length s)%nat && forallb t (take n s)
    then k (prevAfter prev (take n s), drop n s) else None.
Proof.
  induction n as [|n IH]; intros prev s; [by rewrite take_0, drop_0|].
  cbn [count matchRegex snd]. destruct s as [|c s]; [done|].
  cbn [take drop forallb length prevAfter].
  destruct (t c); [|by rewrite andb_false_r].
  rewrite IH. by rewrite andb_true_l.
Qed.

(** A starred character class followed by [$]: every remaining
    character is in the class. *)
Lemma star_class_eol t : forall s fuel prev,
  (length s <= fuel)%nat ->
  is_Some (starLoop (matchRegex (Chr t)) (matchRegex Eol Some) fuel (prev, s))
  <-> forallb t s = true.
Proof.
  induction s as [|c s IH]; intros fuel prev Hfuel.
  - destruct fuel; cbn; split; eauto.
  - destruct fuel as [|fuel]; [cbn in Hfuel; lia|].
    cbn [starLoop matchRegex snd forallb].
    destruct (t c); [|cbn; split; [by intros [? ?]|done]].
    replace (length s <? length (c :: s))%nat with true
      by (symmetry; apply Nat.ltb_lt; cbn; lia).
    cbn in Hfuel. specialize (IH fuel (Some c) ltac:(lia)).
    destruct (starLoop _ _ fuel (Some c, s)) as [q|].
    + rewrite andb_true_l. rewrite <- IH. split; eauto.
    + rewrite andb_true_l. rewrite <- IH. cbn. split; by intros [? ?].
Qed.

(** [r{0,n}] for a character class followed by [$]. *)
Lemma upTo_class_eol t : forall n s prev,
  is_Some (matchRegex (upTo n (Chr t)) (matchRegex Eol Some) (prev, s))
  <-> (length s <= n)%nat /\ forallb t s = true.
Proof.
  induction n as [|n IH]; intros s prev.
  - cbn. destruct s; cbn; split.
    + eauto.
    + intros _. eauto.
    + by intros [? ?].
    + intros [? _]. lia.
  - cbn [upTo matchRegex snd]. destruct s as [|c s].
    + cbn. split; [intros _; split; [lia|done]|eauto].
    + cbn [forallb length]. destruct (t c).
      * specialize (IH s (Some c)).
        destruct (matchRegex (upTo n (Chr t)) _ (Some c, s)) as [q|].
        -- rewrite andb_true_l.
           split; [intros _|eauto]. destruct IH as [IH _].
           destruct IH as [? ?]; [eauto|]. split; [lia|done].
        -- cbn. split; [by intros [? ?]|]. intros [Hl Hall].
           change (forallb t s = true) in Hall.
           destruct IH as [_ IH]. destruct IH as [? ?]; [split; [lia|done]|done].
      * cbn. split; [by intros [? ?]|]. by intros [_ ?].
Qed.

(** [.*x]: some character of the class [x] is reached through
    characters of the class of the star. *)
Lemma star_then_class t u : forall s fuel prev,
  (length s <= fuel)%nat ->
  is_Some (starLoop (matchRegex (Chr t)) (matchRegex (Chr u) Some) fuel (prev, s))
  <-> exists pre c post,
        s = pre ++ c :: post /\ forallb t pre = true /\ u c = true.
Proof.
  induction s as [|c s IH]; intros fuel prev Hfuel.
  - split.
    + destruct fuel; cbn; by intros [? ?].
    + intros (pre & c & post & Heq & _). by destruct pre.
  - destruct fuel as [|fuel]; [cbn in Hfuel; lia|].
    cbn [starLoop matchRegex snd].
    replace (length s <? length (c :: s))%nat with true
      by (symmetry; apply Nat.ltb_lt; cbn; lia).
    cbn in Hfuel. specialize (IH fuel (Some c) ltac:(lia)).
    split.
    + intros Hsome. destruct (t c) eqn:Htc.
      * destruct (starLoop _ _ fuel (Some c, s)) as [q|].
        -- destruct IH as [IH _]. destruct IH as (pre & x & post & -> & Hpre & Hx);
             [eauto|].
           exists (c :: pre), x, post. cbn. by rewrite Htc, Hpre.
        -- destruct (u c) eqn:Huc; [|by destruct Hsome].
           by exists [], c, s.
      * destruct (u c) eqn:Huc; [|by destruct Hsome].
        by exists [], c, s.
    + intros (pre & x & post & Heq & Hpre & Hx).
      destruct pre as [|c' pre].
      * cbn in Heq. injection Heq as <- <-. rewrite Hx.
        destruct (t c); [|eauto].
        destruct (starLoop _ _ fuel (Some c, s)); eauto.
      * cbn in Heq. injection Heq as <- ->. cbn in Hpre.
        apply andb_true_iff in Hpre as [Htc Hpre]. rewrite Htc.
        destruct IH as [_ IH]. destruct IH as [q Hq]; [by exists pre, x, post|].
        cbn [matchRegex] in Hq. rewrite Hq. eauto.
Qed.

(** A look-ahead keeps the position. *)
Lemma ahead_matches r k p :
  matchRegex (ahead r) k p
  = match matchRegex r Some p with Some _ => k p | None => None end.
Proof. cbn. by destruct (matchRegex r Some p). Qed.

(** [r{n}] for a character class followed by [$]. *)
Lemma count_class_eol t n s prev :
  is_Some (matchRegex (count n (Chr t)) (matchRegex Eol Some) (prev, s))
  <-> length s = n /\ forallb t s = true.
Proof.
  rewrite count_class.
  destruct (Nat.leb_spec n (length s)) as [Hle|Hlt]; cbn [andb].
  2:{ split; [by intros [? ?]|]. intros [? _]. lia. }
  destruct (forallb t (take n s)) eqn:Htake.
  - cbn [matchRegex snd]. destruct (drop n s) as [|c rest] eqn:Hdrop.
    + apply drop_nil_inv in Hdrop. assert (Hn : length s = n) by lia.
      rewrite <- Hn, firstn_all in Htake. split; eauto.
    + split; [by intros [? ?]|]. intros [Hn _].
      rewrite <- Hn, drop_all in Hdrop. done.
  - split; [by intros [? ?]|]. intros [Hn Hall].
    rewrite <- Hn, firstn_all in Htake. congruence.
Qed.

Lemma matches_bol r s :
  matches (once (Seq Bol r)) s = true
  <-> is_Some (matchRegex r Some (None, s)).
Proof.
  unfold matches, once. cbn [pattern]. rewrite searchFrom_bol.
  destruct (matchRegex r Some (None, s)); split; eauto; try done.
Qed.

(** A string passes a schema when every check of the chain holds. *)
Lemma accepts_Text schema s :
  accepts schema (Text s) = forallb (fun c => holds c.1 s) (checks schema).
Proof.
  unfold accepts, safeParse, parseText, issues.
  induction (checks schema) as [|[c m] l IH]; [done|].
  cbn [List.filter forallb fst].
  destruct (holds c s); [apply IH|done].
Qed.

Lemma SIRET_matches s :
  matches SIRET s = true <-> length s = 14%nat /\ forallb isDigit s = true.
Proof.
  unfold SIRET. cbn [seqOf]. rewrite matches_bol. cbn [matchRegex].
  apply count_class_eol.
Qed.

Lemma ZIP_FR_matches s :
  matches ZIP_FR s = true <-> length s = 5%nat /\ forallb isDigit s = true.
Proof.
  unfold ZIP_FR. cbn [seqOf]. rewrite matches_bol. cbn [matchRegex].
  apply count_class_eol.
Qed.

Local Ltac literals H :=
  repeat match type of H with
         | context [js ?l ++ ?r] =>
             let v := eval vm_compute in (js l) in
             change (js l ++ r) with (v ++ r) in H
         end;
  cbn [app] in H.

Lemma TVA_FR_matches s :
  matches TVA_FR s = true
  <-> exists digits, s = js "FR" ++ digits
                     /\ length digits = 11%nat /\ forallb isDigit digits = true.
Proof.
  unfold TVA_FR. cbn [seqOf]. rewrite matches_bol.
  change (lit "FR") with (Seq (char 70) (char 82)).
  destruct s as [|f [|r digits]].
  - cbn. split; [by intros [? ?]|]. by intros (? & ? & _).
  - cbn. split; [destruct (f =? 70)%Z; by intros [? ?]|]. by intros (? & ? & _).
  - cbn [matchRegex char snd].
    destruct (Z.eqb_spec f 70) as [->|Hf].
    2:{ split; [by intros [? ?]|]. intros (? & Heq & _). literals Heq. congruence. }
    destruct (Z.eqb_spec r 82) as [->|Hr].
    2:{ split; [by intros [? ?]|]. intros (? & Heq & _). literals Heq. congruence. }
    etransitivity; [apply count_class_eol|]. split.
    + intros [? ?]. by exists digits.
    + intros (ds & Heq & ? & ?). literals Heq. by simplify_eq.
Qed.

Lemma PHONE_FR_matches s :
  matches PHONE_FR s = true
  <-> exists first digits,
        (s = js "+33" ++ first :: digits \/ s = js "0" ++ first :: digits)
        /\ between 49 57 first = true
        /\ length digits = 8%nat /\ forallb isDigit digits = true.
Proof.
  unfold PHONE_FR. cbn [seqOf]. rewrite matches_bol.
  change (lit "+33") with (Seq (char 43) (Seq (char 51) (char 51))).
  set (K := matchRegex (Seq (Chr (between 49 57))
                          (Seq (count 8 (Chr isDigit)) Eol)) Some).
  assert (HK : forall prev rest,
             is_Some (K (prev, rest))
             <-> exists first digits,
                   rest = first :: digits /\ between 49 57 first = true
                   /\ length digits = 8%nat /\ forallb isDigit digits = true).
  { intros prev rest. unfold K. destruct rest as [|first digits].
    - cbn. split; [by intros [? ?]|]. by intros (? & ? & ? & _).
    - cbn [matchRegex snd]. destruct (between 49 57 first) eqn:Hb.
      + etransitivity; [apply count_class_eol|]. split.
        * intros [? ?]. by exists first, digits.
        * intros (? & ? & Heq & _ & ? & ?). by simplify_eq.
      + split; [by intros [? ?]|]. intros (? & ? & Heq & Hb' & _).
        simplify_eq. congruence. }
  match goal with
  | |- _ <-> ?R =>
      change (is_Some (match matchRegex (Seq (char 43) (Seq (char 51) (char 51)))
                               K (None, s) with
                       | Some q => Some q
                       | None => matchRegex (char 48) K (None, s)
                       end) <-> R)
  end.
  clearbody K.
  destruct s as [|c0 rest].
  { cbn. split; [by intros [? ?]|]. by intros (? & ? & [?|?] & _). }
  cbn [matchRegex char snd].
  destruct (Z.eqb_spec c0 43) as [->|H43].
  - replace (43 =? 48)%Z with false by done.
    destruct rest as [|c1 [|c2 rest]].
    + cbn. split; [by intros [? ?]|]. by intros (? & ? & [?|?] & _).
    + cbn. split; [destruct (c1 =? 51)%Z; by intros [? ?]|].
      by intros (? & ? & [?|?] & _).
    + destruct (Z.eqb_spec c1 51) as [->|H1].
      2:{ split; [by intros [? ?]|]. intros (? & ? & [Heq|Heq] & _);
            literals Heq; congruence. }
      destruct (Z.eqb_spec c2 51) as [->|H2].
      2:{ split; [by intros [? ?]|]. intros (? & ? & [Heq|Heq] & _);
            literals Heq; congruence. }
      specialize (HK (Some 51%Z) rest).
      destruct (K (Some 51%Z, rest)) as [q|].
      * split; [intros _|eauto]. destruct HK as [HK _].
        destruct HK as (first & digits & -> & ?); [eauto|].
        exists first, digits. split; [left; reflexivity|done].
      * split; [by intros [? ?]|]. intros (first & digits & [Heq|Heq] & H).
        -- literals Heq. simplify_eq. destruct HK as [_ HK].
           destruct HK as [? ?]; [by exists first, digits|done].
        -- literals Heq. congruence.
  - destruct (Z.eqb_spec c0 48) as [->|H48].
    + rewrite HK. split.
      * intros (first & digits & -> & ?). exists first, digits.
        split; [right; reflexivity|done].
      * intros (first & digits & [Heq|Heq] & H); literals Heq; [congruence|].
        simplify_eq. by exists first, digits.
    + split; [by intros [? ?]|].
      intros (? & ? & [Heq|Heq] & _); literals Heq; congruence.
Qed.

Lemma SAFE_TEXT_matches s :
  matches SAFE_TEXT s = negb (existsb isUnsafe s).
Proof.
  apply eq_true_iff_eq. unfold SAFE_TEXT. cbn [seqOf]. rewrite matches_bol.
  cbn [matchRegex snd]. etransitivity; [by apply star_class_eol|].
  rewrite negb_true_iff, <- not_true_iff_false.
  rewrite forallb_forall, existsb_exists. split.
  - intros Hall (c & Hin & Hc). specialize (Hall c Hin). by rewrite Hc in Hall.
  - intros Hnone c Hin. destruct (isUnsafe c) eqn:Hc; [|done].
    destruct Hnone. by exists c.
Qed.

Lemma SAFE_NAME_matches s :
  matches SAFE_NAME s = true
  <-> (1 <= length s <= 50)%nat /\ forallb isNameChar s = true.
Proof.
  unfold SAFE_NAME. cbn [seqOf]. rewrite matches_bol.
  destruct s as [|c s].
  { cbn. split; [by intros [? ?]|]. intros [? _]. lia. }
  cbn [matchRegex snd forallb length]. destruct (isNameChar c).
  - etransitivity; [apply upTo_class_eol|]. rewrite andb_true_l. split.
    + intros [? ?]. split; [lia|done].
    + intros [? ?]. split; [lia|done].
  - split; [by intros [? ?]|]. by intros [_ ?].
Qed.

Lemma seq_ahead r b k p :
  matchRegex (Seq (ahead r) b) k p
  = match matchRegex r Some p with
    | Some _ => matchRegex b k p
    | None => None
    end.
Proof. cbn. by destruct (matchRegex r Some p). Qed.

(** The look-ahead for a character of the class [u] on the first line. *)
Lemma dot_star_class u prev s :
  is_Some (matchRegex (Seq (Star dot) (Chr u)) Some (prev, s))
  <-> exists pre c post,
        s = pre ++ c :: post
        /\ forallb (fun x => negb (isLineTerminator x)) pre = true
        /\ u c = true.
Proof. unfold dot. cbn [matchRegex snd]. by apply star_then_class. Qed.

(** [r{n,}] for a character class followed by [$]. *)
Lemma atLeast_class_eol t n s prev :
  is_Some (matchRegex (Seq (count n (Chr t)) (Seq (Star (Chr t)) Eol)) Some
             (prev, s))
  <-> (n <= length s)%nat /\ forallb t s = true.
Proof.
  change (matchRegex (Seq (count n (Chr t)) (Seq (Star (Chr t)) Eol)) Some (prev, s))
    with (matchRegex (count n (Chr t)) (matchRegex (Seq (Star (Chr t)) Eol) Some)
            (prev, s)).
  rewrite count_class.
  assert (Hsplit : forallb t s = forallb t (take n s) && forallb t (drop n s))
    by (by rewrite <- forallb_app, take_drop).
  rewrite Hsplit.
  destruct (Nat.leb_spec n (length s)) as [Hle|Hlt]; cbn [andb].
  2:{ split; [by intros [? ?]|]. intros [? _]. lia. }
  destruct (forallb t (take n s)); cbn [andb].
  - etransitivity; [by apply star_class_eol|]. split; [done|by intros [_ ?]].
  - split; [by intros [? ?]|]. by intros [_ ?].
Qed.

Lemma passwordChar_not_terminator c :
  isPasswordChar c = true -> isLineTerminator c = false.
Proof.
  intros H.
  assert (Hc : (33 <= c <= 122)%Z).
  { unfold isPasswordChar, isUpper, isLower, isDigit, isSpecial, between in H.
    cbn [existsb] in H.
    repeat rewrite ?orb_true_iff, ?andb_true_iff, ?Z.leb_le, ?Z.eqb_eq in H.
    lia. }
  unfold isLineTerminator.
  repeat (apply orb_false_iff; split); apply Z.eqb_neq; lia.
Qed.

(** Among password characters, a look-ahead asks for one character of
    its class. *)
Lemma lookahead_password u s :
  forallb isPasswordChar s = true ->
  existsb u s = true ->
  is_Some (matchRegex (Seq (Star dot) (Chr u)) Some (None, s)).
Proof.
  intros Hall Hex. apply dot_star_class.
  apply existsb_exists in Hex as (c & Hin & Hc).
  apply in_split in Hin as (pre & post & ->).
  exists pre, c, post. split; [done|]. split; [|done].
  rewrite forallb_app in Hall. apply andb_true_iff in Hall as [Hpre _].
  apply forallb_forall. intros x Hx.
  rewrite forallb_forall in Hpre.
  by rewrite (passwordChar_not_terminator x (Hpre x Hx)).
Qed.

Lemma lookahead_found u s :
  is_Some (matchRegex (Seq (Star dot) (Chr u)) Some (None, s)) ->
  existsb u s = true.
Proof.
  intros H. apply dot_star_class in H as (pre & c & post & -> & _ & Hc).
  apply existsb_exists. exists c. split; [|done].
  apply in_or_app. right. by left.
Qed.

Lemma STRONG_PASSWORD_matches s :
  matches STRONG_PASSWORD s = true
  <-> (12 <= length s)%nat
      /\ forallb isPasswordChar s = true
      /\ existsb isLower s = true /\ existsb isUpper s = true
      /\ existsb isDigit s = true /\ existsb isSpecial s = true.
Proof.
  unfold STRONG_PASSWORD. cbn [seqOf]. rewrite matches_bol.
  rewrite !seq_ahead. split.
  - intros H.
    destruct (matchRegex (Seq (Star dot) (Chr isLower)) Some (None, s)) eqn:H1;
      [|by destruct H].
    destruct (matchRegex (Seq (Star dot) (Chr isUpper)) Some (None, s)) eqn:H2;
      [|by destruct H].
    destruct (matchRegex (Seq (Star dot) (Chr isDigit)) Some (None, s)) eqn:H3;
      [|by destruct H].
    destruct (matchRegex (Seq (Star dot) (Chr isSpecial)) Some (None, s)) eqn:H4;
      [|by destruct H].
    apply atLeast_class_eol in H as [Hlen Hall].
    split; [done|]. split; [done|].
    repeat split; apply lookahead_found; by eexists.
  - intros (Hlen & Hall & Hl & Hu & Hd & Hs).
    destruct (lookahead_password isLower s Hall Hl) as [? ->].
    destruct (lookahead_password isUpper s Hall Hu) as [? ->].
    destruct (lookahead_password isDigit s Hall Hd) as [? ->].
    destruct (lookahead_password isSpecial s Hall Hs) as [? ->].
    by apply atLeast_class_eol.
Qed.

(** X20.  The schemas of free text.  A name passes exactly when it has 1
    to 50 characters, all of them ASCII letters, letters of U+00C0 to
    U+00FF, white space, hyphens or apostrophes (so no digit).  An
    address (at most 100 characters), a note (at most 500) and a tag (at
    most 30) pass exactly when they hold none of the characters
    less-than, greater-than, double quote, apostrophe, backquote,
    semicolon, backslash and braces; a failed note reports the length
    first and the characters second, both when both fail.  An absent
    address or note passes, an absent name does not; a list of tags
    passes when it has at most 10 elements, all of them passing strings. *)
Theorem text_schemas s :
  (accepts secureNameSchema (Text s) = true
   <-> (1 <= length s <= 50)%nat /\ forallb isNameChar s = true)
  /\ accepts secureAddressSchema (Text s)
     = (length s <=? 100)%nat && negb (existsb isUnsafe s)
  /\ accepts secureNotesSchema (Text s)
     = (length s <=? 500)%nat && negb (existsb isUnsafe s)
  /\ issues secureNotesSchema s
     = (if (length s <=? 500)%nat then [] else [TOO_LONG])
       ++ (if existsb isUnsafe s then [INVALID_CHARS] else [])
  /\ accepts secureAddressSchema Undefined = true
  /\ accepts secureNotesSchema Undefined = true
  /\ accepts secureNameSchema Undefined = false
  /\ (forall items,
        acceptsTags (Some items)
        = (length items <=? 10)%nat
          && forallb (fun item =>
                        match item with
                        | Text tag =>
                            (length tag <=? 30)%nat && negb (existsb isUnsafe tag)
                        | _ => false
                        end) items).
Proof.
  split.
  { rewrite accepts_Text. cbn [checks secureNameSchema chain forallb holds fst].
    rewrite andb_true_r, !andb_true_iff, SAFE_NAME_matches.
    unfold NAME_MIN, NAME_MAX. rewrite !Nat.leb_le. tauto. }
  split.
  { rewrite accepts_Text. cbn [checks secureAddressSchema forallb holds fst].
    by rewrite andb_true_r, SAFE_TEXT_matches. }
  split.
  { rewrite accepts_Text. cbn [checks secureNotesSchema forallb holds fst].
    by rewrite andb_true_r, SAFE_TEXT_matches. }
  split.
  { unfold issues. cbn [checks secureNotesSchema List.filter holds fst].
    rewrite SAFE_TEXT_matches. unfold NOTES_MAX.
    by destruct (length s <=? 500)%nat, (existsb isUnsafe s). }
  do 3 (split; [reflexivity|]).
  intros items. unfold acceptsTags, TAGS_MAX. f_equal.
  induction items as [|item items IH]; [done|].
  cbn [forallb]. rewrite IH. f_equal.
  destruct item as [|tag|]; [done| |done].
  rewrite accepts_Text. cbn [checks tagSchema chain forallb holds fst].
  by rewrite andb_true_r, SAFE_TEXT_matches.
Qed.

(** X21.  The schemas of identifiers accept, among strings, exactly: a
    SIRET of 14 ASCII digits; a postal code of 5 ASCII digits; a VAT
    number made of [FR] and 11 digits; a telephone number made of [+33]
    or [0], a digit from 1 to 9 and 8 more digits (no space, dot or
    other separator).  The length limits of the VAT number (15) and of
    the telephone number (20) never decide. *)
Theorem identifier_schemas s :
  (accepts secureSiretSchema (Text s) = true
   <-> length s = 14%nat /\ forallb isDigit s = true)
  /\ (accepts secureZipSchema (Text s) = true
      <-> length s = 5%nat /\ forallb isDigit s = true)
  /\ (accepts secureTvaSchema (Text s) = true
      <-> exists digits,
            s = js "FR" ++ digits
            /\ length digits = 11%nat /\ forallb isDigit digits = true)
  /\ (accepts securePhoneSchema (Text s) = true
      <-> exists first digits,
            (s = js "+33" ++ first :: digits \/ s = js "0" ++ first :: digits)
            /\ between 49 57 first = true
            /\ length digits = 8%nat /\ forallb isDigit digits = true).
Proof.
  split.
  { rewrite accepts_Text. cbn [checks secureSiretSchema forallb holds fst].
    rewrite andb_true_r. apply SIRET_matches. }
  split.
  { rewrite accepts_Text. cbn [checks secureZipSchema forallb holds fst].
    rewrite andb_true_r. apply ZIP_FR_matches. }
  split.
  { rewrite accepts_Text. cbn [checks secureTvaSchema forallb holds fst].
    rewrite andb_true_r, andb_true_iff, TVA_FR_matches. split; [by intros [_ ?]|].
    intros (digits & -> & Hlen & Hall). split; [|by exists digits].
    apply Nat.leb_le. rewrite length_app, Hlen. cbn. unfold TVA_MAX. lia. }
  rewrite accepts_Text. cbn [checks securePhoneSchema forallb holds fst].
  rewrite andb_true_r, andb_true_iff, PHONE_FR_matches. split; [by intros [_ ?]|].
  intros (first & digits & Hs & Hb & Hlen & Hall).
  split; [|by exists first, digits].
  apply Nat.leb_le. unfold PHONE_MAX.
  destruct Hs as [-> | ->]; rewrite length_app; cbn; lia.
Qed.

(** X22.  A password passes [securePasswordSchema] exactly when it has
    12 to 128 characters, every one of them an ASCII letter, an ASCII
    digit or one of the seven special characters (at sign, dollar,
    exclamation mark, percent, asterisk, question mark, ampersand), with
    at least one lower-case letter, one upper-case letter, one digit and
    one special character.  Any other character, a space or a hash sign
    for instance, makes the password fail. *)
Theorem password_schema s :
  accepts securePasswordSchema (Text s) = true
  <-> (12 <= length s <= 128)%nat
      /\ forallb isPasswordChar s = true
      /\ existsb isLower s = true /\ existsb isUpper s = true
      /\ existsb isDigit s = true /\ existsb isSpecial s = true.
Proof.
  rewrite accepts_Text.
  cbn [checks securePasswordSchema chain forallb holds fst].
  rewrite andb_true_r, !andb_true_iff, STRONG_PASSWORD_matches.
  unfold PASSWORD_MIN, PASSWORD_MAX. rewrite !Nat.leb_le. tauto.
Qed.

Lemma removeAll_clean class s :
  Forall (fun c => class c = false) (removeAll class s).
Proof.
  apply Forall_forall. intros c Hin.
  apply list_elem_of_In, filter_In in Hin as [_ Hc]. by apply negb_true_iff.
Qed.

Lemma removeAll_id class s :
  Forall (fun c => class c = false) s -> removeAll class s = s.
Proof.
  induction 1 as [|c s Hc _ IH]; [done|].
  unfold removeAll in *. cbn [List.filter]. by rewrite Hc, IH.
Qed.

Lemma removeAll_twice (class1 class2 : Z -> bool) s :
  (forall c, class1 c = true -> class2 c = true) ->
  removeAll class2 (removeAll class1 s) = removeAll class2 s.
Proof.
  intros Hsub. unfold removeAll. induction s as [|c s IH]; [done|].
  cbn [List.filter]. destruct (class1 c) eqn:H1; cbn [negb List.filter].
  - by rewrite (Hsub c H1).
  - by rewrite IH.
Qed.

Lemma trimStart_Forall (P : Z -> Prop) s :
  Forall P s -> Forall P (PathTraversal.trimStart s).
Proof.
  induction 1 as [|c s Hc Hs IH]; [constructor|].
  cbn [PathTraversal.trimStart]. destruct (isSpace c); [done|by constructor].
Qed.

Lemma trim_Forall (P : Z -> Prop) s :
  Forall P s -> Forall P (PathTraversal.trim s).
Proof.
  intros H. unfold PathTraversal.trim.
  apply List.Forall_rev, trimStart_Forall, List.Forall_rev.
  by apply trimStart_Forall.
Qed.

(** X23.  [sanitizeInput] on a string: the result is the trimmed input
    without its control characters (U+0000 to U+0008, U+000B, U+000C,
    U+000E to U+001F, U+007F; tab, line feed and carriage return stay),
    so it holds none of them; an input without control characters is
    only trimmed; and because the trimming comes first, white space that
    stood next to a removed character is left at the ends: a second call
    trims the result of the first. *)
Theorem sanitizeInput_text s :
  let out := sanitizeInput (Text s) in
  out = removeAll isControl (PathTraversal.trim s)
  /\ Forall (fun c => isControl c = false) out
  /\ (Forall (fun c => isControl c = false) s -> out = PathTraversal.trim s)
  /\ sanitizeInput (Text out) = PathTraversal.trim out
  /\ sanitizeInput Undefined = [] /\ sanitizeInput Other = [].
Proof.
  intros out.
  assert (Hnul : forall c, (c =? 0)%Z = true -> isControl c = true).
  { intros c Hc. apply Z.eqb_eq in Hc as ->. done. }
  assert (Hout : out = removeAll isControl (PathTraversal.trim s)).
  { unfold out, sanitizeInput. by apply removeAll_twice. }
  assert (Hclean : Forall (fun c => isControl c = false) out).
  { rewrite Hout. apply removeAll_clean. }
  split; [done|]. split; [done|]. split.
  { intros Hs. rewrite Hout. apply removeAll_id. by apply trim_Forall. }
  split; [|done].
  unfold sanitizeInput. rewrite removeAll_twice by done.
  apply removeAll_id. by apply trim_Forall.
Qed.

(** White space left at the start of a result. *)
Example sanitizeInput_not_idempotent :
  sanitizeInput (Text [1; 32; 97]%Z) = [32; 97]%Z
  /\ sanitizeInput (Text [32; 97]%Z) = [97]%Z.
Proof. split; reflexivity. Qed.

End ValidationFacts.

(** ** The secure logger *)

Section SecureLoggerFacts.

Import Js Path SecureLogger.

Variable toLowerCase : jsstring -> jsstring.

Local Abbreviation sanitizeForLogging :=
  (SecureLogger.sanitizeForLogging toLowerCase).
Local Abbreviation sensitive := (SecureLogger.sensitive toLowerCase).
Local Abbreviation plainPath := (SecureLogger.plainPath toLowerCase).

Lemma splitOn_without sep s :
  ~ In sep s -> splitOn sep s = [s].
Proof.
  induction s as [|c s IH]; intros Hnot; [done|].
  cbn [splitOn]. destruct (Z.eqb_spec c sep) as [->|Hne].
  - destruct Hnot. by left.
  - rewrite IH; [done|]. intros Hin. apply Hnot. by right.
Qed.

(** Splitting gives one part more than there are separators. *)
Lemma splitOn_length sep s :
  length (splitOn sep s) = S (count_occ Z.eq_dec s sep).
Proof.
  induction s as [|c s IH]; [done|].
  cbn [splitOn count_occ]. destruct (Z.eqb_spec c sep) as [->|Hne].
  - destruct (Z.eq_dec sep sep); [|done]. cbn. by rewrite IH.
  - destruct (Z.eq_dec c sep); [done|].
    rewrite <- IH. pose proof (splitOn_nonempty sep s).
    by destruct (splitOn sep s).
Qed.

Lemma includesText_In c s :
  includesText s [c] = true <-> In c s.
Proof.
  induction s as [|x s IH]; [cbn; split; [done|by intros []]|].
  cbn [includesText PathTraversal.startsWith In].
  replace (PathTraversal.startsWith s []) with true by (by destruct s).
  rewrite andb_true_r, orb_true_iff, IH, Z.eqb_eq. split; intros [?|?]; auto.
Qed.

(** X24.  A string in the logged data (outside a sensitive property) is
    changed only when it holds exactly one at sign with text on both
    sides: then the first two characters of the text before the sign
    stay, the rest of it becomes three asterisks, and everything after
    the sign stays.  A string with two at signs or more, for example a
    message that names two addresses, is logged as it is, and so is a
    string without one. *)
Theorem text_masking_rule :
  (forall local domain,
      local <> [] -> domain <> [] -> ~ In AT local -> ~ In AT domain ->
      sanitizeForLogging (VString (local ++ AT :: domain))
      = VString (take 2 local ++ js "***@" ++ domain))
  /\ (forall s, count_occ Z.eq_dec s AT <> 1%nat ->
                sanitizeForLogging (VString s) = VString s)
  /\ (forall s, sanitizeForLogging (VString (AT :: s)) = VString (AT :: s))
  /\ (forall s, ~ In AT s ->
                sanitizeForLogging (VString (s ++ [AT])) = VString (s ++ [AT])).
Proof.
  split; [|split; [|split]].
  - intros local domain Hl Hd Hnl Hnd.
    cbn [SecureLogger.sanitizeForLogging]. f_equal. unfold maskText.
    replace (includesText (local ++ AT :: domain) [AT]) with true
      by (symmetry; apply includesText_In, in_or_app; right; by left).
    rewrite splitOn_app, !splitOn_without by done. cbn [app].
    destruct local as [|l0 local]; [done|]. destruct domain as [|d0 domain]; [done|].
    f_equal. destruct local; done.
  - intros s Hcount. cbn [SecureLogger.sanitizeForLogging]. f_equal.
    unfold maskText. destruct (includesText s [AT]); [|done].
    pose proof (splitOn_length AT s) as Hlen.
    destruct (splitOn AT s) as [|[|a0 a] [|[|b0 b] [|c rest]]]; try done.
    cbn in Hlen. lia.
  - intros s. cbn [SecureLogger.sanitizeForLogging]. f_equal. unfold maskText.
    destruct (includesText (AT :: s) [AT]); [|done].
    by change (splitOn AT (AT :: s)) with ([] :: splitOn AT s).
  - intros s Hs. cbn [SecureLogger.sanitizeForLogging]. f_equal. unfold maskText.
    destruct (includesText (s ++ [AT]) [AT]); [|done].
    rewrite splitOn_app, splitOn_without by done. cbn [splitOn app].
    by destruct s.
Qed.

Lemma property_assigned key entries :
  key <> PROTO ->
  property key (assigned entries) = property key entries.
Proof.
  intros Hkey. induction entries as [|[k v] entries IH]; [done|].
  unfold assigned in *. cbn [List.filter fst property].
  unfold jsstring_eqb at 1. destruct (decide (k = PROTO)) as [->|Hk].
  - rewrite bool_decide_eq_true_2 by done. cbn [negb]. rewrite IH.
    unfold jsstring_eqb. by rewrite bool_decide_eq_false_2.
  - rewrite bool_decide_eq_false_2 by done. cbn [negb property]. by rewrite IH.
Qed.

(** The property stored for a name in the sanitized object. *)
Lemma property_sanitized key entries :
  key <> PROTO ->
  property key
    (assigned
       (map (fun entry =>
               match entry with
               | (key, value) =>
                   (key,
                    if sensitive key
                    then VString (maskField (toLowerCase key) value)
                    else sanitizeForLogging value)
               end) entries))
  = match property key entries with
    | Some value =>
        Some (if sensitive key
              then VString (maskField (toLowerCase key) value)
              else sanitizeForLogging value)
    | None => None
    end.
Proof.
  intros Hkey. rewrite property_assigned by done.
  induction entries as [|[k v] entries IH]; [done|].
  cbn [map property]. unfold jsstring_eqb.
  destruct (decide (k = key)) as [->|Hne].
  - by rewrite !bool_decide_eq_true_2.
  - rewrite !bool_decide_eq_false_2 by done. apply IH.
Qed.

(** X25.  A sensitive property is masked wherever it stands.  If a
    property whose lower-cased name holds one of the patterns is reached
    in the data through array elements and properties of ordinary names,
    the logged data holds a string in its place.  That string is three
    asterisks when the value is not a string (a number, a nested object,
    null), and also when the name holds none of [email], [phone],
    [token], [secret] and [key] (a password, for instance); otherwise
    only the part kept by the rule of the name remains. *)
Theorem sensitive_property_masked data path key value :
  plainPath path = true ->
  key <> PROTO ->
  sensitive key = true ->
  valueAt data (path ++ [Key key]) = Some value ->
  valueAt (sanitizeForLogging data) (path ++ [Key key])
  = Some (VString (maskField (toLowerCase key) value))
  /\ ((forall s, value <> VString s) ->
      maskField (toLowerCase key) value = js "***")
  /\ (existsb (includesText (toLowerCase key))
        (map js ["email"; "phone"; "token"; "secret"; "key"]) = false ->
      maskField (toLowerCase key) value = js "***").
Proof.
  intros Hplain Hkey Hsens Hat. split; [|split].
  - revert data Hat. induction path as [|step path IH]; intros data Hat.
    + cbn [app valueAt] in *. destruct data; try done.
      cbn [SecureLogger.sanitizeForLogging].
      rewrite property_sanitized by done. rewrite Hsens.
      destruct (property key entries) as [v|]; [|done].
      by injection Hat as ->.
    + cbn [SecureLogger.plainPath forallb] in Hplain.
      apply andb_true_iff in Hplain as [Hstep Hplain].
      specialize (IH Hplain).
      destruct step as [i|k]; cbn [app valueAt] in *.
      * destruct data; try done. cbn [SecureLogger.sanitizeForLogging].
        rewrite nth_error_map. destruct (nth_error items i); [by apply IH|done].
      * apply andb_true_iff in Hstep as [Hs Hp].
        apply negb_true_iff in Hs. apply negb_true_iff in Hp.
        apply bool_decide_eq_false in Hp.
        destruct data; try done. cbn [SecureLogger.sanitizeForLogging].
        rewrite property_sanitized by done. rewrite Hs.
        destruct (property k entries); [by apply IH|done].
  - intros Hns. destruct value; try done. by destruct (Hns s).
  - intros Hnone. cbn [map existsb] in Hnone.
    repeat (apply orb_false_iff in Hnone as [? Hnone]).
    destruct value; try done. unfold maskField.
    by repeat match goal with H : includesText _ _ = false |- _ =>
                rewrite H; clear H end.
Qed.

End SecureLoggerFacts.

(** In the sample, the password object below [user] is masked. *)
Lemma sensitive_property_masked_witness :
  SecureLogger.valueAt
    (SecureLogger.sanitizeForLogging PathTraversal.asciiLower
       SecureLogger.sampleData)
    [SecureLogger.Key (Js.js "user"); SecureLogger.Key (Js.js "Password")]
  = Some (SecureLogger.VString (Js.js "***")).
Proof.
  pose proof (sensitive_property_masked PathTraversal.asciiLower
                SecureLogger.sampleData [SecureLogger.Key (Js.js "user")]
                (Js.js "Password")
                (SecureLogger.VObject
                   [(Js.js "hash", SecureLogger.VString (Js.js "x"))])
                eq_refl) as H.
  destruct H as (Hat & _ & _).
  - by vm_compute.
  - reflexivity.
  - reflexivity.
  - exact Hat.
Defined.

(** ** Rate-limit statistics *)

Section RateLimitStatsFacts.

Import RateLimit RateLimitStats.

Lemma includes_slash_app a b :
  includes "/" (a +:+ b) = includes "/" a || includes "/" b.
Proof.
  induction a as [|c a IH]; [by destruct b|].
  change (String c a +:+ b) with (String c (a +:+ b)).
  cbn [includes String.prefix]. rewrite IH.
  assert (P : forall x, String.prefix "" x = true) by (by intros []).
  destruct (ascii_dec "/" c); [by rewrite !P|done].
Qed.

(** The key read by the statistics is none of the keys the hook writes
    for a request whose URL starts with a slash. *)
Lemma statsKey_ne_requestKey ip0 t ip url userId :
  includes "/" ip0 = false ->
  String.prefix "/" url = true ->
  generateRateLimitKey ip0 (typeName t) None
  <> generateRateLimitKey ip url userId.
Proof.
  intros Hip Hurl Heq.
  apply (f_equal (includes "/")) in Heq.
  assert (Hleft : includes "/" (generateRateLimitKey ip0 (typeName t) None) = false).
  { unfold generateRateLimitKey. rewrite !includes_slash_app, Hip. by destruct t. }
  assert (Hright : includes "/" (generateRateLimitKey ip url userId) = true).
  { assert (Hu : includes "/" url = true).
    { destruct url as [|c url]; [done|]. cbn [includes]. by rewrite Hurl. }
    unfold generateRateLimitKey.
    destruct userId as [u|]; [destruct (truthy u)|];
      rewrite !includes_slash_app, Hu; cbn;
      by rewrite ?orb_true_r. }
  congruence.
Qed.

(** What a cache command leaves alone. *)
Lemma zremrangebyscore_frame now key max st st' k :
  Redis.zremrangebyscore now key max st = Some st' ->
  k <> key -> Redis.data st' !! k = Redis.data st !! k.
Proof.
  unfold Redis.zremrangebyscore. intros H Hk.
  destruct (Redis.up st); [|done].
  destruct (Redis.lookupLive now key st) as [[[s|z] ex]|]; simplify_eq; [|done].
  cbn [Redis.data]. case_decide.
  - by rewrite lookup_delete_ne.
  - by rewrite lookup_insert_ne.
Qed.

Lemma zadd_frame now key score member st st' k :
  Redis.zadd now key score member st = Some st' ->
  k <> key -> Redis.data st' !! k = Redis.data st !! k.
Proof.
  unfold Redis.zadd. intros H Hk.
  destruct (Redis.up st); [|done].
  destruct (Redis.lookupLive now key st) as [[[s|z] ex]|]; simplify_eq;
    cbn [Redis.data]; by rewrite lookup_insert_ne.
Qed.

Lemma expire_frame now key seconds st st' k :
  Redis.expire now key seconds st = Some st' ->
  k <> key -> Redis.data st' !! k = Redis.data st !! k.
Proof.
  unfold Redis.expire. intros H Hk.
  destruct (Redis.up st); [|done].
  destruct (Redis.lookupLive now key st); simplify_eq; [|done].
  cbn [Redis.data]. by rewrite lookup_insert_ne.
Qed.

Lemma blockIP_frame now ip seconds st k :
  k <> generateBlockKey ip ->
  Redis.data (blockIP now ip seconds st).1 !! k = Redis.data st !! k.
Proof.
  intros Hk. unfold blockIP, Redis.setex.
  destruct (Redis.up st); [|done]. cbn. by rewrite lookup_insert_ne.
Qed.

Lemma slidingWindow_frame NODE_ENV now rnd req st k :
  k <> generateBlockKey (ip req) ->
  k <> generateRateLimitKey (ip req) (url req) (userId req) ->
  Redis.data (slidingWindow NODE_ENV now rnd req st).2 !! k = Redis.data st !! k.
Proof.
  intros Hb Hr. unfold slidingWindow.
  destruct (Redis.zremrangebyscore now _ _ st) as [st1|] eqn:H1; [|done].
  pose proof (zremrangebyscore_frame _ _ _ _ _ k H1 Hr) as F1.
  destruct (Redis.zcard now _ st1) as [count|]; [|done].
  destruct (_ <=? count)%nat.
  - destruct (blockDuration _) as [d|]; [|done].
    destruct (d =? 0)%Z; [done|].
    pose proof (blockIP_frame now (ip req) d st1 k Hb) as F2.
    destruct (blockIP now (ip req) d st1) as [st2 lg]. cbn in *. congruence.
  - destruct (Redis.zadd now _ now _ st1) as [st2|] eqn:H2; [|done].
    pose proof (zadd_frame _ _ _ _ _ _ k H2 Hr) as F2.
    destruct (Redis.expire now _ _ st2) as [st3|] eqn:H3; [|cbn; congruence].
    pose proof (expire_frame _ _ _ _ _ k H3 Hr) as F3. cbn. congruence.
Qed.

Lemma middleware_frame NODE_ENV now rnd req st k :
  k <> generateBlockKey (ip req) ->
  k <> generateRateLimitKey (ip req) (url req) (userId req) ->
  Redis.data (advancedRateLimitMiddleware NODE_ENV now rnd req st).1.2 !! k
  = Redis.data st !! k.
Proof.
  intros Hb Hr. unfold advancedRateLimitMiddleware.
  rewrite andb_false_r. cbn [andb].
  destruct (isIPBlocked now (ip req) st) as [[] lg0]; [done|].
  pose proof (slidingWindow_frame NODE_ENV now rnd req st k Hb Hr) as F.
  by destruct (slidingWindow NODE_ENV now rnd req st) as [[[reply lg]|] st'].
Qed.

Lemma middleware_up NODE_ENV now rnd req st :
  Redis.up st = true ->
  Redis.up (advancedRateLimitMiddleware NODE_ENV now rnd req st).1.2 = true.
Proof.
  intros Hup. unfold advancedRateLimitMiddleware.
  rewrite andb_false_r. cbn [andb].
  destruct (isIPBlocked now (ip req) st) as [[] lg0]; [done|].
  unfold slidingWindow, Redis.zremrangebyscore, Redis.zcard, Redis.zadd,
    Redis.expire, blockIP, Redis.setex.
  rewrite Hup.
  repeat (case_match; simplify_eq; cbn in *; try done).
Qed.

Lemma serve_frame NODE_ENV k calls : forall st,
  Forall (fun c : Call =>
            k <> generateBlockKey (ip c.2)
            /\ k <> generateRateLimitKey (ip c.2) (url c.2) (userId c.2)) calls ->
  Redis.up st = true ->
  Redis.data (serve NODE_ENV calls st).2 !! k = Redis.data st !! k
  /\ Redis.up (serve NODE_ENV calls st).2 = true.
Proof.
  induction calls as [|[[now rnd] req] calls IH]; intros st Hall Hup; [done|].
  inversion Hall as [|? ? [Hb Hr] Hall']; subst. cbn [serve snd] in *.
  pose proof (middleware_frame NODE_ENV now rnd req st k Hb Hr) as F.
  pose proof (middleware_up NODE_ENV now rnd req st Hup) as U.
  destruct (advancedRateLimitMiddleware NODE_ENV now rnd req st)
    as [[reply st'] lg]. cbn in F, U.
  destruct (IH st' Hall' U) as [F' U'].
  destruct (serve NODE_ENV calls st') as [replies st'']. cbn in *.
  split; [congruence|done].
Qed.

Lemma collect_idle NODE_ENV now ip st ts :
  Redis.up st = true ->
  (forall t, Redis.data st !! generateRateLimitKey ip (typeName t) None = None) ->
  collect NODE_ENV now ip st ts = Some (map (idle NODE_ENV) ts).
Proof.
  intros Hup Hnone. induction ts as [|t ts IH]; [done|].
  cbn [collect map]. unfold Redis.zcard, ttl, Redis.lookupLive.
  rewrite Hup, Hnone, IH. done.
Qed.

(** X26.  The statistics do not see the hook's counters.  The hook
    counts the requests of a client under a key made of its address and
    the URL, [getRateLimitStats] reads the keys made of the address and
    the name of a limit type.  So, starting from a cache that holds
    nothing under the latter, after any sequence of requests whose URLs
    start with a slash, admitted or refused, the statistics of a client
    report for every type 0 requests and 0 seconds to the reset; only
    [blocked] tells what happened. *)
Theorem statistics_miss_requests NODE_ENV calls st now ip0 :
  Redis.up st = true ->
  includes "/" ip0 = false ->
  (forall t, Redis.data st !! generateRateLimitKey ip0 (typeName t) None = None) ->
  Forall (fun c : Call => String.prefix "/" (url c.2) = true) calls ->
  let st' := (serve NODE_ENV calls st).2 in
  getRateLimitStats NODE_ENV now ip0 st'
  = (Some {| stats_ip := ip0;
             blocked := (isIPBlocked now ip0 st').1;
             limits := map (idle NODE_ENV) types |}, []).
Proof.
  intros Hup Hip Hnone Hurls st'.
  assert (Hst' : Redis.up st' = true
                 /\ forall t, Redis.data st'
                              !! generateRateLimitKey ip0 (typeName t) None = None).
  { split.
    - apply (serve_frame NODE_ENV EmptyString calls st); [|done].
      apply Forall_forall. intros c _. split.
      + unfold generateBlockKey. done.
      + unfold generateRateLimitKey.
        destruct (userId c.2) as [u|]; [destruct (truthy u)|]; done.
    - intros t. rewrite <- (Hnone t).
      apply (serve_frame NODE_ENV _ calls st); [|done].
      apply Forall_forall. intros c Hc.
      rewrite Forall_forall in Hurls. split.
      + intros Heq. symmetry in Heq. by apply blockKey_ne_rateLimitKey in Heq.
      + apply statsKey_ne_requestKey; [done|]. by apply Hurls. }
  destruct Hst' as [Hup' Hnone'].
  unfold getRateLimitStats. rewrite (collect_idle _ _ _ _ _ Hup' Hnone').
  unfold isIPBlocked, Redis.exists_. rewrite Hup'. done.
Qed.

End RateLimitStatsFacts.

(** After the five login attempts of the sample, and a sixth that is
    refused, the statistics of the client show nothing. *)
Lemma statistics_miss_requests_witness :
  (RateLimitStats.getRateLimitStats "production" 7000 "1.2.3.4"
     (RateLimit.serve "production"
        (RateLimit.attemptsOf RateLimit.loginRequest
           [(1000, "0.1"); (2000, "0.2"); (3000, "0.3"); (4000, "0.4");
            (5000, "0.5"); (6000, "0.6")]%Z)
        RateLimit.emptyStore).2).1
  = Some {| RateLimitStats.stats_ip := "1.2.3.4";
            RateLimitStats.blocked := true;
            RateLimitStats.limits :=
              map (RateLimitStats.idle "production") RateLimitStats.types |}.
Proof.
  rewrite (statistics_miss_requests "production" _ RateLimit.emptyStore 7000
             "1.2.3.4").
  - vm_compute. reflexivity.
  - reflexivity.
  - reflexivity.
  - intros t. apply lookup_empty.
  - repeat constructor.
Defined.

(** ** The XSS request hook *)

Section XssHookFacts.

Import Js RegExp Xss XssHook.

Variable purify : jsstring -> jsstring.

Local Abbreviation validateFields := (XssHook.validateFields purify).
Local Abbreviation xssValidationHook := (XssHook.xssValidationHook purify).

(** What [sanitizeXSS] returns is clean, and the pattern objects are
    back in their initial state. *)
Lemma sanitizeXSS_output state S out state' :
  S <> [] ->
  length state = length XSS_PATTERNS ->
  sanitizeXSS purify state S = (Returned out, state') ->
  cleanText out /\ state' = fresh XSS_PATTERNS.
Proof.
  intros Hne Hlen Hret.
  destruct (sanitizeXSS_second_loop purify state S Hne Hlen) as [Ht|Heq];
    [by rewrite Hret in Ht|].
  rewrite Hret in Heq. cbv zeta in Heq.
  set (sanitized := decodeEntities (purify S)) in *.
  pose proof (testAll_fresh XSS_PATTERNS sanitized) as Hf.
  pose proof (testAll_false_fresh XSS_PATTERNS sanitized (fresh XSS_PATTERNS)
                XSS_PATTERNS_global) as Hreset.
  destruct (testAll XSS_PATTERNS (fresh XSS_PATTERNS) sanitized)
    as [found state2].
  destruct found; [done|]. cbn in Hf. cbn [fst snd] in Hreset.
  destruct (MAX_LENGTH <? Z.of_nat (length sanitized))%Z eqn:Hlong; [done|].
  injection Heq as -> ->.
  split; [split; [done|lia]|].
  apply Hreset; [unfold fresh; by rewrite length_map|done].
Qed.

Lemma property_assign_eq field v x entries :
  property field entries = Some x ->
  property field (assign field v entries) = Some v.
Proof.
  induction entries as [|[k y] entries IH]; [done|].
  cbn [SecureLogger.property assign].
  destruct (jsstring_eqb k field) eqn:Hk.
  - intros _. cbn [SecureLogger.property]. by rewrite Hk.
  - intros H. cbn [SecureLogger.property]. rewrite Hk. by apply IH.
Qed.

Lemma property_assign_ne field other v entries :
  other <> field ->
  property other (assign field v entries) = property other entries.
Proof.
  intros Hne. induction entries as [|[k y] entries IH].
  - cbn. unfold jsstring_eqb. by rewrite bool_decide_eq_false_2.
  - cbn [SecureLogger.property assign].
    destruct (jsstring_eqb k field) eqn:Hk.
    + apply bool_decide_eq_true in Hk as ->.
      cbn [SecureLogger.property]. unfold jsstring_eqb.
      by rewrite !bool_decide_eq_false_2.
    + cbn [SecureLogger.property]. by rewrite IH.
Qed.

(** The loop keeps what it has sanitized clean. *)
Lemma validateFields_clean fields : forall state entries seen,
  length state = length XSS_PATTERNS ->
  (forall field s, In field seen ->
                   property field entries = Some (VString s) -> cleanText s) ->
  (validateFields state entries fields).1.1 = Continue ->
  forall field s,
    In field (seen ++ fields) ->
    property field (validateFields state entries fields).1.2 = Some (VString s) ->
    cleanText s.
Proof.
  induction fields as [|f fields IH]; intros state entries seen Hlen Hseen Hc.
  { cbn. intros field s Hin. rewrite app_nil_r in Hin. by apply Hseen. }
  assert (Hskip :
    (forall s, property f entries = Some (VString s) -> s = []) ->
    (validateFields state entries fields).1.1 = Continue ->
    forall field s,
      In field (seen ++ f :: fields) ->
      property field (validateFields state entries fields).1.2 = Some (VString s) ->
      cleanText s).
  { intros Hempty Hc' field s Hin.
    apply (IH state entries (seen ++ [f]) Hlen); [|done|by rewrite <- app_assoc].
    intros g t Hg Hp. apply in_app_or in Hg as [Hg|[<-|[]]]; [by eapply Hseen|].
    rewrite (Hempty t Hp). split; [by vm_compute|by vm_compute]. }
  cbn [XssHook.validateFields] in *.
  destruct (property f entries) as [[| | | |[|c t]| |]|] eqn:Hf;
    try (apply Hskip; [intros ? ?; congruence|done]).
  clear Hskip.
  destruct (sanitizeXSS purify state (c :: t)) as [[out|] state'] eqn:Hs; [|done].
  destruct (sanitizeXSS_output state (c :: t) out state' ltac:(done) Hlen Hs)
    as [Hout ->].
  intros field s Hin.
  apply (IH (fresh XSS_PATTERNS) (assign f (VString out) entries) (seen ++ [f]));
    [unfold fresh; by rewrite length_map| |done|by rewrite <- app_assoc].
  intros g u Hg Hp. destruct (decide (g = f)) as [->|Hne].
  - rewrite (property_assign_eq _ _ _ _ Hf) in Hp. by injection Hp as <-.
  - rewrite property_assign_ne in Hp by done.
    apply in_app_or in Hg as [Hg|[<-|[]]]; [by eapply Hseen|done].
Qed.

(** From fresh pattern objects, a dangerous field ends the request. *)
Lemma validateFields_detects fields : forall entries,
  (exists field c s,
      In field fields
      /\ property field entries = Some (VString (c :: s))
      /\ dangerous (c :: s) = true) ->
  exists field,
    (validateFields (fresh XSS_PATTERNS) entries fields).1.1 = XssDetected field.
Proof.
  induction fields as [|f fields IH]; intros entries (g & c & s & Hin & Hp & Hd).
  { by destruct Hin. }
  assert (Hskip :
    g <> f ->
    exists field,
      (validateFields (fresh XSS_PATTERNS) entries fields).1.1 = XssDetected field).
  { intros Hne. apply IH. exists g, c, s.
    destruct Hin as [Heq|Hin]; [by destruct Hne|done]. }
  cbn [XssHook.validateFields].
  destruct (property f entries) as [[| | | |[|c' t]| |]|] eqn:Hf;
    try (apply Hskip; intros ->; congruence).
  clear Hskip.
  destruct (sanitizeXSS purify (fresh XSS_PATTERNS) (c' :: t))
    as [[out|] state'] eqn:Hs; [|by exists f].
  destruct (sanitizeXSS_output (fresh XSS_PATTERNS) (c' :: t) out state'
              ltac:(done) ltac:(unfold fresh; by rewrite length_map) Hs)
    as [_ ->].
  assert (Hne : g <> f).
  { intros ->. rewrite Hf in Hp. injection Hp as <- <-.
    pose proof (sanitizeXSS_refuses_dangerous purify (c' :: t) ltac:(done) Hd) as Ht.
    by rewrite Hs in Ht. }
  apply IH. exists g, c, s.
  split; [destruct Hin as [Heq|Hin]; [by destruct Hne|done]|].
  split; [|done]. by rewrite property_assign_ne.
Qed.

(** X27.  What the hook guarantees for an object body.  When it lets
    the request go on, every field it was to validate holds, if it holds
    a string at all, a text that matches no dangerous pattern and has at
    most 10000 characters, in whatever state the pattern objects were.
    When the pattern objects are in their initial state and one of these
    fields holds a dangerous text, the hook answers 400 [XSS_DETECTED].
    The fields to validate are the listed ones or, when none is listed,
    the properties that hold a string: what lies in nested objects and
    arrays is not looked at. *)
Theorem xssValidationHook_guarantee fieldsToCheck state entries :
  length state = length XSS_PATTERNS ->
  let fields := fieldsToValidate fieldsToCheck entries in
  let result := xssValidationHook fieldsToCheck state (VObject entries) in
  (result.1.1 = Continue ->
   exists entries',
     result.1.2 = VObject entries'
     /\ forall field s,
          In field fields -> property field entries' = Some (VString s) ->
          cleanText s)
  /\ (state = fresh XSS_PATTERNS ->
      (exists field c s,
          In field fields
          /\ property field entries = Some (VString (c :: s))
          /\ dangerous (c :: s) = true) ->
      exists field, result.1.1 = XssDetected field).
Proof.
  intros Hlen fields result. subst result. cbn [XssHook.xssValidationHook].
  fold fields. split.
  - intros Hc.
    pose proof (validateFields_clean fields state entries [] Hlen) as Hclean.
    destruct (validateFields state entries fields) as [[reply entries'] state'].
    cbn [fst snd] in *. exists entries'. split; [done|].
    intros field s Hin Hp. apply (Hclean ltac:(by intros ? ? []) Hc field s); done.
  - intros -> Hd.
    destruct (validateFields_detects fields entries Hd) as [field Hf].
    destruct (validateFields (fresh XSS_PATTERNS) entries fields)
      as [[reply entries'] state']. cbn [fst snd] in *. by exists field.
Qed.

End XssHookFacts.

(** The sample body passes, and its name is left clean. *)
Lemma xssValidationHook_guarantee_witness :
  exists entries',
    (XssHook.xssValidationHook Xss.keepAll [] (RegExp.fresh Xss.XSS_PATTERNS)
       XssHook.sampleBody).1.2 = SecureLogger.VObject entries'
    /\ forall field s,
         In field [Js.js "name"] ->
         SecureLogger.property field entries' = Some (SecureLogger.VString s) ->
         XssHook.cleanText s.
Proof.
  apply (xssValidationHook_guarantee Xss.keepAll [] (RegExp.fresh Xss.XSS_PATTERNS)
           [(Js.js "name", SecureLogger.VString (Js.js "Ada"));
            (Js.js "age", SecureLogger.VNumber (Js.js "36"))]).
  - reflexivity.
  - by vm_compute.
Defined.

(** ** The object sanitizer *)

Section XssObjectFacts.

Import Js RegExp Xss XssHook XssObject.

Variable purify : jsstring -> jsstring.

Local Abbreviation sanitizeItems := (XssObject.sanitizeItems purify).
Local Abbreviation sanitizeProperty := (XssObject.sanitizeProperty purify).
Local Abbreviation sanitizeEntries := (XssObject.sanitizeEntries purify).
Local Abbreviation sanitizeObject := (XssObject.sanitizeObject purify).
Local Abbreviation sanitizeObjectXSS := (XssObject.sanitizeObjectXSS purify).

(** Induction on a value and the values inside it. *)
Lemma Value_nested_ind (P : Value -> Prop) :
  P SecureLogger.VUndefined ->
  P SecureLogger.VNull ->
  (forall b, P (SecureLogger.VBoolean b)) ->
  (forall lexeme, P (SecureLogger.VNumber lexeme)) ->
  (forall s, P (VString s)) ->
  (forall items, Forall P items -> P (VArray items)) ->
  (forall entries, Forall (fun entry => P entry.2) entries -> P (VObject entries)) ->
  forall v, P v.
Proof.
  intros HU HN HB HNum HS HA HO. fix IH 1.
  intros [ | |b|lexeme|s|items|entries].
  - exact HU.
  - exact HN.
  - exact (HB b).
  - exact (HNum lexeme).
  - exact (HS s).
  - apply HA. induction items as [|item items IHitems]; constructor;
      [apply IH|apply IHitems].
  - apply HO. induction entries as [|[key value] entries IHentries]; constructor;
      [apply IH|apply IHentries].
Qed.

(** Whatever [sanitizeXSS] returns, for an empty string too, is clean,
    and the pattern objects are as many as before. *)
Lemma sanitizeXSS_returns_clean state S out state' :
  length state = length XSS_PATTERNS ->
  sanitizeXSS purify state S = (Returned out, state') ->
  cleanText out /\ length state' = length XSS_PATTERNS.
Proof.
  intros Hlen Hs. destruct S as [|c S].
  - cbn in Hs. injection Hs as <- <-. split; [|done]. split; by vm_compute.
  - destruct (sanitizeXSS_output purify state (c :: S) out state' ltac:(done) Hlen Hs)
      as [Hc ->].
    split; [done|]. unfold fresh. by rewrite length_map.
Qed.

Lemma sanitizeItems_clean items : forall state items' state',
  length state = length XSS_PATTERNS ->
  sanitizeItems state items = (Some items', state') ->
  Forall cleanItem items' /\ length state' = length XSS_PATTERNS.
Proof.
  induction items as [|item items IH]; intros state items' state' Hlen Hs.
  { cbn in Hs. injection Hs as <- <-. by split. }
  cbn [XssObject.sanitizeItems] in Hs.
  assert (Hother :
    XssHook.isString item = false ->
    (let '(more, state1) := sanitizeItems state items in
     (option_map (cons item) more, state1)) = (Some items', state') ->
    Forall cleanItem items' /\ length state' = length XSS_PATTERNS).
  { intros Hns Hs'.
    destruct (sanitizeItems state items) as [[more|] state1] eqn:Hm; [|done].
    cbn in Hs'. injection Hs' as <- <-.
    destruct (IH state more state1 Hlen Hm) as [Hall Hl].
    split; [|done]. constructor; [by destruct item|done]. }
  destruct item as [ | |b|lexeme|s|inner|inner]; try (by apply Hother).
  clear Hother.
  destruct (sanitizeXSS purify state s) as [[out|] state1] eqn:Hx; [|done].
  destruct (sanitizeXSS_returns_clean state s out state1 Hlen Hx) as [Hc Hl].
  destruct (sanitizeItems state1 items) as [[more|] state2] eqn:Hm; [|done].
  cbn in Hs. injection Hs as <- <-.
  destruct (IH state1 more state2 Hl Hm) as [Hall Hl2].
  split; [|done]. by constructor.
Qed.

(** An array without strings is returned as it is. *)
Lemma sanitizeItems_noString items : forall state,
  noString items -> sanitizeItems state items = (Some items, state).
Proof.
  induction items as [|item items IH]; intros state Hns; [done|].
  inversion Hns as [|? ? Hitem Hrest]; subst.
  cbn [XssObject.sanitizeItems]. rewrite (IH state Hrest).
  by destruct item.
Qed.

Lemma sanitizeObject_clean obj : forall state out state',
  length state = length XSS_PATTERNS ->
  sanitizeObject [] state obj = (Some out, state') ->
  cleanObject out /\ length state' = length XSS_PATTERNS.
Proof.
  induction obj as [ | |b|lexeme|s|items _|entries IH] using Value_nested_ind;
    intros state out state' Hlen Hs;
    try (cbn in Hs; injection Hs as <- <-; by split).
  cbn [XssObject.sanitizeObject] in Hs.
  change (fun state value => XssObject.sanitizeObject purify [] state value)
    with (sanitizeObject []) in Hs.
  destruct (sanitizeEntries (sanitizeObject []) [] state entries)
    as [[sanitized|] state1] eqn:He; [|done].
  cbn in Hs. injection Hs as <- <-.
  revert state sanitized state1 Hlen He.
  induction IH as [|[key value] entries Hvalue _ IHentries];
    intros state sanitized state1 Hlen He.
  { cbn in He. injection He as <- <-. by split. }
  cbn [XssObject.sanitizeEntries] in He.
  destruct (sanitizeProperty (sanitizeObject []) [] state key value)
    as [[value'|] state2] eqn:Hp; [|done].
  destruct (sanitizeEntries (sanitizeObject []) [] state2 entries)
    as [[more|] state3] eqn:Hm; [|done].
  cbn in He. injection He as <- <-.
  assert (Hprop : cleanObject (VObject [(key, value')])
                  /\ length state2 = length XSS_PATTERNS).
  { unfold XssObject.sanitizeProperty in Hp.
    destruct value as [ | |b|lexeme|s|items|inner];
      try (injection Hp as <- <-; by split).
    - cbn [listed] in Hp.
      destruct (sanitizeXSS purify state s) as [[out|] st] eqn:Hx; [|done].
      injection Hp as <- <-.
      destruct (sanitizeXSS_returns_clean _ _ _ _ Hlen Hx) as [Hc Hl].
      by split.
    - destruct (sanitizeItems state items) as [[items'|] st] eqn:Hi; [|done].
      cbn in Hp. injection Hp as <- <-.
      destruct (sanitizeItems_clean _ _ _ _ Hlen Hi) as [Hc Hl].
      by split.
    - cbn [snd] in Hvalue.
      destruct (Hvalue state value' state2 Hlen Hp) as [Hc Hl].
      split; [|done].
      assert (Hobj : exists es, value' = VObject es).
      { cbn [XssObject.sanitizeObject] in Hp.
        destruct (XssObject.sanitizeEntries purify _ [] state inner) as [[es|] st];
          [|done].
        cbn in Hp. injection Hp as <- _. by eexists. }
      destruct Hobj as [es ->]. by split. }
  destruct Hprop as [[Hv _] Hl2].
  destruct (IHentries state2 more state3 Hl2 Hm) as [Hrest Hl3].
  split; [|done]. split; [|exact Hrest].
  by destruct value'.
Qed.

(** X28.  What [sanitizeObjectXSS] guarantees when no field is named and
    it returns: in the copy, every string property is clean (no
    dangerous pattern, at most 10000 characters), every string element
    of an array property is clean, and the same holds in the object
    properties, at every depth.  It stops at arrays: an array none of
    whose elements is a string is returned as it is, so an object or an
    array inside an array keeps whatever it holds. *)
Theorem sanitizeObjectXSS_guarantee state entries out state' :
  length state = length XSS_PATTERNS ->
  sanitizeObjectXSS [] state (VObject entries) = (Some out, state') ->
  cleanObject out
  /\ (forall fieldsToSanitize st key items,
        noString items ->
        sanitizeObjectXSS fieldsToSanitize st (VObject [(key, VArray items)])
        = (Some (VObject [(key, VArray items)]), st)).
Proof.
  intros Hlen Hs. split.
  - by destruct (sanitizeObject_clean (VObject entries) state out state' Hlen Hs).
  - intros fieldsToSanitize st key items Hns.
    cbn [XssObject.sanitizeObjectXSS XssObject.sanitizeObject
           XssObject.sanitizeEntries XssObject.sanitizeProperty].
    by rewrite (sanitizeItems_noString items st Hns).
Qed.

End XssObjectFacts.

(** The sample is returned whole: its title is clean, and the script in
    the object inside the array is still there. *)
Lemma sanitizeObjectXSS_guarantee_witness :
  XssObject.cleanObject XssObject.sampleNested
  /\ XssObject.sanitizeObjectXSS Xss.keepAll [] (RegExp.fresh Xss.XSS_PATTERNS)
       XssObject.sampleNested
     = (Some XssObject.sampleNested, RegExp.fresh Xss.XSS_PATTERNS).
Proof.
  assert (Hrun : XssObject.sanitizeObjectXSS Xss.keepAll []
                   (RegExp.fresh Xss.XSS_PATTERNS) XssObject.sampleNested
                 = (Some XssObject.sampleNested, RegExp.fresh Xss.XSS_PATTERNS))
    by (by vm_compute).
  split; [|exact Hrun].
  exact (proj1 (sanitizeObjectXSS_guarantee Xss.keepAll
                  (RegExp.fresh Xss.XSS_PATTERNS) _ _ _ eq_refl Hrun)).
Defined.

(** ** The cache and session helpers *)

Section CacheFacts.

Import Cache.

Variable Data : Type.
Variable stringify : Data -> string.
Variable parse : string -> option Data.

Local Abbreviation setSession := (Cache.setSession Data stringify).
Local Abbreviation getSession := (Cache.getSession Data parse).

Lemma sessionKey_inj a b : sessionKey a = sessionKey b -> a = b.
Proof. unfold sessionKey. apply (inj (String.app "session:")). Qed.

(** X29.  Sessions.  When the cache answers, JSON parsing undoes JSON
    writing and the time to live is positive, a session that
    [setSession] has stored is what [getSession] returns for the same
    user until the time to live has passed, and null from then on; the
    sessions of other users read as before; after [deleteSession]
    nothing is read.  When the cache does not answer nothing throws:
    [setSession] leaves everything as it is and [getSession] returns
    null. *)
Theorem session_round_trip now userId sessionData ttl st :
  (forall data, parse (stringify data) = Some data) ->
  (forall data, stringify data <> "") ->
  Redis.up st = true ->
  (0 < ttl)%Z ->
  let st1 := (setSession now userId sessionData ttl st).1 in
  (forall now', (now' < now + ttl * 1000)%Z ->
                (getSession now' userId st1).1 = Some sessionData)
  /\ (forall now', (now + ttl * 1000 <= now')%Z ->
                   (getSession now' userId st1).1 = None)
  /\ (forall other now', other <> userId ->
                         getSession now' other st1 = getSession now' other st)
  /\ (forall now' now'',
        (getSession now'' userId (deleteSession now' userId st1).1).1 = None)
  /\ (setSession now userId sessionData ttl (RateLimitAdmin.unreachable st)).1
     = RateLimitAdmin.unreachable st
  /\ (forall now', (getSession now' userId (RateLimitAdmin.unreachable st)).1 = None).
Proof.
  intros Hround Hne Hup Httl st1.
  assert (Hst1 : st1 = {| Redis.up := true;
                          Redis.data :=
                            <[sessionKey userId :=
                                {| Redis.value := Redis.VString (stringify sessionData);
                                   Redis.expireAt := Some (now + ttl * 1000)%Z |}]>
                              (Redis.data st) |}).
  { unfold st1, Cache.setSession, setCache, Redis.setex.
    destruct (Z.ltb_spec 0 ttl); [|lia]. by rewrite Hup. }
  assert (Htruthy : truthy (stringify sessionData) = true).
  { unfold truthy. apply negb_true_iff, String.eqb_neq, Hne. }
  split; [|split; [|split; [|split; [|split]]]].
  - intros now' Hnow. rewrite Hst1.
    unfold Cache.getSession, getCache, get, Redis.lookupLive, Redis.live.
    cbn [Redis.up Redis.data]. rewrite lookup_insert_eq. cbn [Redis.expireAt].
    destruct (Z.ltb_spec now' (now + ttl * 1000)); [|lia].
    by rewrite Htruthy, Hround.
  - intros now' Hnow. rewrite Hst1.
    unfold Cache.getSession, getCache, get, Redis.lookupLive, Redis.live.
    cbn [Redis.up Redis.data]. rewrite lookup_insert_eq. cbn [Redis.expireAt].
    destruct (Z.ltb_spec now' (now + ttl * 1000)); [lia|done].
  - intros other now' Hother. rewrite Hst1.
    unfold Cache.getSession, getCache, get, Redis.lookupLive.
    cbn [Redis.up Redis.data]. rewrite Hup.
    rewrite lookup_insert_ne; [done|].
    intros Heq. apply sessionKey_inj in Heq. congruence.
  - intros now' now''. rewrite Hst1.
    unfold deleteSession, deleteCache, RateLimitAdmin.del, Cache.getSession,
      getCache, get.
    cbn [Redis.up Redis.data fst]. unfold Redis.lookupLive.
    cbn [Redis.up Redis.data fst]. by rewrite lookup_delete_eq.
  - unfold Cache.setSession, setCache, Redis.setex, RateLimitAdmin.unreachable.
    cbn [Redis.up]. by destruct (0 <? ttl)%Z.
  - intros now'. done.
Qed.

End CacheFacts.

(** A session stored for one day at time 0 is read one second later. *)
Lemma session_round_trip_witness :
  (Cache.getSession string Cache.unquote 1000 "u1"
     (Cache.setSession string Cache.quote 0 "u1" "admin" 86400
        RateLimit.emptyStore).1).1
  = Some "admin".
Proof.
  apply (session_round_trip string Cache.quote Cache.unquote 0 "u1" "admin"
           86400 RateLimit.emptyStore).
  - reflexivity.
  - discriminate.
  - reflexivity.
  - lia.
  - lia.
Defined.

(** ** The limit of a category across URLs *)

Section CategoryLimit.

Import RateLimit.

(** An admitted request creates no block entry. *)
Lemma middleware_allowed_block_frame NODE_ENV now rnd req st client :
  isAllowed (advancedRateLimitMiddleware NODE_ENV now rnd req st).1.1 = true ->
  Redis.data (advancedRateLimitMiddleware NODE_ENV now rnd req st).1.2
    !! generateBlockKey client
  = Redis.data st !! generateBlockKey client.
Proof.
  unfold advancedRateLimitMiddleware. rewrite andb_false_r. cbn [andb].
  destruct (isIPBlocked now (ip req) st) as [[] lg0]; [done|].
  pose proof (blockKey_ne_rateLimitKey client (ip req) (url req) (userId req))
    as Hne.
  unfold slidingWindow.
  destruct (Redis.zremrangebyscore now _ _ st) as [st1|] eqn:H1; [|done].
  pose proof (zremrangebyscore_frame _ _ _ _ _ _ H1 Hne) as F1.
  destruct (Redis.zcard now _ st1) as [count|]; [|done].
  destruct (_ <=? count)%nat.
  { by destruct (blockDuration _) as [d|];
      [destruct (d =? 0)%Z; [|destruct (blockIP now (ip req) d st1)]|]. }
  destruct (Redis.zadd now _ now _ st1) as [st2|] eqn:H2; [|done].
  pose proof (zadd_frame _ _ _ _ _ _ _ H2 Hne) as F2.
  destruct (Redis.expire now _ _ st2) as [st3|] eqn:H3; [|cbn; congruence].
  pose proof (expire_frame _ _ _ _ _ _ H3 Hne) as F3. cbn. congruence.
Qed.

Lemma serve_allowed_block_frame NODE_ENV client calls : forall st,
  Forall (fun r => isAllowed r = true) (serve NODE_ENV calls st).1 ->
  Redis.data (serve NODE_ENV calls st).2 !! generateBlockKey client
  = Redis.data st !! generateBlockKey client.
Proof.
  induction calls as [|[[now rnd] req] calls IH]; intros st Hall; [done|].
  rewrite serve_cons in *. cbv zeta in *. cbn [fst snd] in *.
  inversion Hall as [|? ? Hr Hrest]; subst.
  rewrite (IH _ Hrest). by apply middleware_allowed_block_frame.
Qed.

(** C2.  The limit of a category is not kept across URLs.  Whatever
    number of requests of a client the hook has admitted on one URL,
    starting from an empty cache (the limit of the category, all inside
    the window, included), the client's next request on another URL of the
    same category is admitted: the window is looked up under the key of
    the request's own URL, where nothing is recorded. *)
Theorem category_limit_not_enforced NODE_ENV req1 req2 events now rnd :
  ip req2 = ip req1 ->
  getRateLimitType (method req2) (url req2)
  = getRateLimitType (method req1) (url req1) ->
  generateRateLimitKey (ip req2) (url req2) (userId req2)
  <> generateRateLimitKey (ip req1) (url req1) (userId req1) ->
  Forall (fun r => isAllowed r = true)
    (serve NODE_ENV (attemptsOf req1 events) emptyStore).1 ->
  exists h st' lg,
    advancedRateLimitMiddleware NODE_ENV now rnd req2
      (serve NODE_ENV (attemptsOf req1 events) emptyStore).2
    = (Pass (Some h), st', lg)
    /\ h_limit h
       = maxRequests (RATE_LIMITS NODE_ENV
                        (getRateLimitType (method req1) (url req1)))
    /\ h_remaining h = (Z.of_nat (h_limit h) - 1)%Z.
Proof.
  intros Hip Hcat Hkey Hall.
  set (st := (serve NODE_ENV (attemptsOf req1 events) emptyStore).2).
  set (key2 := generateRateLimitKey (ip req2) (url req2) (userId req2)) in *.
  assert (Hcalls : Forall (fun c : Call =>
                             key2 <> generateBlockKey (ip c.2)
                             /\ key2 <> generateRateLimitKey (ip c.2) (url c.2)
                                         (userId c.2))
                     (attemptsOf req1 events)).
  { apply Forall_forall. intros c Hc. unfold attemptsOf in Hc.
    apply list_elem_of_In, in_map_iff in Hc as (ev & <- & _). cbn [snd].
    split; [|done]. intros Heq. symmetry in Heq.
    by apply blockKey_ne_rateLimitKey in Heq. }
  destruct (serve_frame NODE_ENV key2 (attemptsOf req1 events) emptyStore
              Hcalls eq_refl) as [Hk2 Hup].
  fold st in Hk2, Hup.
  assert (Hblock : Redis.lookupLive now (generateBlockKey (ip req2)) st = None).
  { unfold Redis.lookupLive. unfold st.
    rewrite (serve_allowed_block_frame NODE_ENV (ip req2) _ _ Hall).
    cbn [emptyStore Redis.data]. by rewrite lookup_empty. }
  assert (Hwin : window now key2 st = Some ∅).
  { unfold window, Redis.lookupLive. rewrite Hk2.
    cbn [emptyStore Redis.data]. by rewrite lookup_empty. }
  destruct (RATE_LIMITS_shape NODE_ENV (getRateLimitType (method req2) (url req2)))
    as (d & _ & _ & _ & _ & Hmax).
  destruct (slidingWindow_admits NODE_ENV now rnd req2 st ∅ Hup Hwin)
    as (st' & h & Hsw & Hrem & _).
  { cbv zeta. rewrite inWindow_empty, map_size_empty. exact Hmax. }
  rewrite (middleware_not_blocked NODE_ENV now rnd req2 st Hup Hblock), Hsw.
  exists h, st', []. split; [done|].
  cbv zeta in Hrem. rewrite inWindow_empty, map_size_empty in Hrem.
  unfold slidingWindow in Hsw.
  destruct (Redis.zremrangebyscore now _ _ st) as [st1|]; [|done].
  destruct (Redis.zcard now _ st1) as [count|]; [|done].
  destruct (_ <=? count)%nat.
  { by destruct (blockDuration _) as [d'|];
      [destruct (d' =? 0)%Z; [|destruct (blockIP now (ip req2) d' st1)]|]. }
  destruct (Redis.zadd now _ now _ st1) as [st2|]; [|done].
  destruct (Redis.expire now _ _ st2) as [st3|]; [|done].
  injection Hsw as <- _. cbn [h_limit h_remaining] in *.
  rewrite <- Hcat. split; [done|]. lia.
Qed.

End CategoryLimit.

(** Five login attempts one second apart exhaust the limit of the [auth]
    category; the same client's request on the register URL, also of the
    [auth] category, is admitted a second later, with four requests
    left. *)
Lemma category_limit_not_enforced_witness :
  length (RateLimit.attemptsOf RateLimit.loginRequest
            ((1000%Z, "0.1") :: RateLimit.fourMore))
  = RateLimit.maxRequests (RateLimit.RATE_LIMITS "production" RateLimit.auth)
  /\ RateLimit.getRateLimitType (RateLimit.method RateLimit.registerRequest)
       (RateLimit.url RateLimit.registerRequest) = RateLimit.auth
  /\ exists h st' lg,
       RateLimit.advancedRateLimitMiddleware "production" 6000 "0.6"
         RateLimit.registerRequest RateLimit.fullStore
       = (RateLimit.Pass (Some h), st', lg)
       /\ RateLimit.h_limit h = 5%nat
       /\ RateLimit.h_remaining h = 4%Z.
Proof.
  split; [reflexivity|]. split; [reflexivity|].
  destruct (category_limit_not_enforced "production" RateLimit.loginRequest
              RateLimit.registerRequest ((1000%Z, "0.1") :: RateLimit.fourMore)
              6000 "0.6") as (h & st' & lg & Hmw & Hlimit & Hrem).
  - reflexivity.
  - reflexivity.
  - discriminate.
  - vm_compute. repeat constructor.
  - exists h, st', lg. split; [exact Hmw|].
    rewrite Hrem, Hlimit. split; reflexivity.
Defined.

(** ** What [decryptPII] returns unchanged *)

Section TokenShapeFacts.

Import Js Encryption TokenShape.

Variable keystream : bytes -> nat -> Z.
Variable bufferFromObject : JSON -> option bytes.

Local Abbreviation decryptPII := (Encryption.decryptPII keystream bufferFromObject).
Local Abbreviation tryDecrypt := (Encryption.tryDecrypt keystream bufferFromObject).














End TokenShapeFacts.




(** ** Rotation and revocation of a secret *)

Lemma string_app_cons (x : ascii) (a b : string) :
  String x a +:+ b = String x (a +:+ b).
Proof. reflexivity. Qed.

Lemma string_app_assoc (a b c : string) : (a +:+ b) +:+ c = a +:+ (b +:+ c).
Proof.
  induction a as [|x a IH]; [done|]. by rewrite !string_app_cons, IH.
Qed.

Lemma string_app_nil_r (a : string) : a +:+ "" = a.
Proof. induction a as [|x a IH]; [done|]. by rewrite string_app_cons, IH. Qed.

(** Two concatenations with first parts of one length. *)
Lemma string_app_inj_length (a a' b b' : string) :
  String.length a = String.length a' ->
  a +:+ b = a' +:+ b' -> a = a' /\ b = b'.
Proof.
  revert a'. induction a as [|x a IH]; intros [|x' a'] Hlen Heq; try done.
  rewrite !string_app_cons in Heq. cbn in Hlen. injection Heq as -> Heq.
  destruct (IH a') as [-> ->]; [lia|done|done].
Qed.

Section CredentialsRenewal.

Import Credentials CredentialsDraws.

Lemma latin1_injective : injectiveOnBytes latin1.
Proof.
  intros a b Ha Hb Heq. unfold latin1 in Heq.
  apply (f_equal list_ascii_of_string) in Heq.
  rewrite !list_ascii_of_string_of_list_ascii in Heq.
  revert b Hb Heq. induction Ha as [|x a Hx Ha IH]; intros [|y b] Hb Heq; try done.
  inversion Hb as [|? ? Hy Hb']; subst. cbn in Heq. injection Heq as Hxy Heq.
  f_equal; [|by apply IH].
  apply (f_equal N_of_ascii) in Hxy.
  by rewrite !N_ascii_embedding in Hxy.
Qed.

(** The loop of the database password appends on the right. *)
Lemma password_fold indices : forall acc,
  fold_left (fun password i => password +:+ charAt chars i) indices acc
  = acc +:+ passwordOf indices.
Proof.
  induction indices as [|i indices IH]; intros acc; cbn [fold_left passwordOf foldr].
  - by rewrite string_app_nil_r.
  - by rewrite IH, string_app_assoc.
Qed.

(** An index into [chars] gives one character, and two indices give two
    characters. *)
Lemma chars_table :
  forallb (fun i =>
             (String.length (charAt chars i) =? 1)%nat
             && forallb (fun j => implb (String.eqb (charAt chars i) (charAt chars j))
                                        (i =? j)%nat)
                  (seq 0 (String.length chars)))
    (seq 0 (String.length chars)) = true.
Proof. by vm_compute. Qed.

Lemma charAt_chars i :
  (i < String.length chars)%nat -> exists c, charAt chars i = String c "".
Proof.
  intros Hi. pose proof chars_table as Ht.
  rewrite forallb_forall in Ht. specialize (Ht i).
  destruct (andb_prop _ _ (Ht ltac:(apply in_seq; lia))) as [Hlen _].
  apply Nat.eqb_eq in Hlen.
  destruct (charAt chars i) as [|c [|]]; try done. by exists c.
Qed.

Lemma charAt_chars_inj i j :
  (i < String.length chars)%nat -> (j < String.length chars)%nat ->
  charAt chars i = charAt chars j -> i = j.
Proof.
  intros Hi Hj Heq. pose proof chars_table as Ht.
  rewrite forallb_forall in Ht. specialize (Ht i).
  destruct (andb_prop _ _ (Ht ltac:(apply in_seq; lia))) as [_ Hrow].
  rewrite forallb_forall in Hrow. specialize (Hrow j ltac:(apply in_seq; lia)).
  rewrite Heq, String.eqb_refl in Hrow. by apply Nat.eqb_eq.
Qed.

Lemma passwordOf_inj a : forall b,
  Forall (fun i => (i < String.length chars)%nat) a ->
  Forall (fun i => (i < String.length chars)%nat) b ->
  passwordOf a = passwordOf b -> a = b.
Proof.
  induction a as [|i a IH]; intros [|j b] Ha Hb Heq.
  - done.
  - inversion Hb as [|? ? Hj _]; subst. destruct (charAt_chars j Hj) as [c Hc].
    cbn [passwordOf foldr] in Heq. by rewrite Hc in Heq.
  - inversion Ha as [|? ? Hi _]; subst. destruct (charAt_chars i Hi) as [c Hc].
    cbn [passwordOf foldr] in Heq. by rewrite Hc in Heq.
  - inversion Ha as [|? ? Hi Ha']; subst. inversion Hb as [|? ? Hj Hb']; subst.
    cbn [passwordOf foldr] in Heq.
    assert (Hlen : String.length (charAt chars i) = String.length (charAt chars j)).
    { destruct (charAt_chars i Hi) as [? ->].
      by destruct (charAt_chars j Hj) as [? ->]. }
    destruct (string_app_inj_length _ _ _ _ Hlen Heq) as [Hij Hrest].
    f_equal; [by apply charAt_chars_inj|by apply IH].
Qed.

Variable base64 base64url hex : list N -> string.
Variable gcmEncrypt : string -> option (string * string).
Variable gcmDecrypt : string -> string -> option string.

Local Abbreviation getSecret := (Credentials.getSecret gcmDecrypt).
Local Abbreviation rotateSecret :=
  (Credentials.rotateSecret base64 base64url hex gcmEncrypt).
Local Abbreviation generateStrongSecret :=
  (Credentials.generateStrongSecret base64url hex).
Local Abbreviation run := (Credentials.run base64 base64url hex gcmEncrypt).
Local Abbreviation step := (Credentials.step base64 base64url hex gcmEncrypt).

(** The generated value is a function of the draw, and under encodings
    that tell byte strings apart two draws give two values. *)
Lemma generateStrongSecret_draw e e0 t :
  drawsOf e t = drawsOf e0 t ->
  generateStrongSecret e t = generateStrongSecret e0 t.
Proof.
  unfold Credentials.generateStrongSecret.
  destruct t; cbn [drawsOf]; intros [= ]; congruence.
Qed.

Lemma generateStrongSecret_inj e e0 t :
  injectiveOnBytes base64url -> injectiveOnBytes hex ->
  wellDrawn e -> wellDrawn e0 ->
  generateStrongSecret e t = generateStrongSecret e0 t ->
  drawsOf e t = drawsOf e0 t.
Proof.
  intros H64 Hhex (Hb & Hb16 & Hu & Hp) (Hb0 & Hb160 & Hu0 & Hp0).
  unfold Credentials.generateStrongSecret.
  destruct t; cbn [drawsOf]; intros Heq.
  - f_equal. by apply H64.
  - apply (inj (String.app "fos_")) in Heq.
    apply string_app_inj_length in Heq as [-> Heq]; [|congruence].
    apply (inj (String.app "_")) in Heq. f_equal. by apply Hhex.
  - rewrite !password_fold in Heq. f_equal. by apply passwordOf_inj.
  - f_equal. by apply Hhex.
  - f_equal. by apply H64.
Qed.

(** C6.  For a stored, active secret [name] whose value [getSecret]
    returns as [old]:
    - [rotateSecret] succeeds whenever the cipher encrypts the value it
      generates; [getSecret] then returns that generated value (when the
      cipher decrypts it back), and the version and the rotation count
      have each grown by exactly one.  The code does not compare the new
      value with the old one: when the old value was itself generated,
      under encodings that tell byte strings apart the new value differs
      from it exactly when the two random draws differ.
    - When the cipher fails, [rotateSecret] returns false and the manager
      is unchanged.
    - [revokeSecret] succeeds, after it [getSecret] returns null, and it
      keeps returning null after any later calls on the manager other
      than a [storeSecret] under the same name (reads, rotations on
      demand or by timer, revocations, integrity checks, clean-up, stores
      under other names).  A later [storeSecret] under the name ends the
      revocation: [getSecret] then returns the stored value. *)
Theorem rotation_renews_revocation_lasts_until_store name m es old :
  secrets m !! name = Some es ->
  isActive (metadata es) = true ->
  (getSecret name m).1 = Some old ->
  let t := type (metadata es) in
  (forall now e encrypted tg,
      gcmEncrypt (generateStrongSecret e t) = Some (encrypted, tg) ->
      exists m' lg es',
        rotateSecret now e name m = (true, m', lg)
        /\ secrets m' !! name = Some es'
        /\ version (metadata es') = (version (metadata es) + 1)%N
        /\ rotationCount (metadata es') = (rotationCount (metadata es) + 1)%N
        /\ isActive (metadata es') = true
        /\ (gcmDecrypt encrypted tg = Some (generateStrongSecret e t) ->
            (getSecret name m').1 = Some (generateStrongSecret e t)))
  /\ (forall e e0,
        old = generateStrongSecret e0 t ->
        injectiveOnBytes base64url -> injectiveOnBytes hex ->
        wellDrawn e -> wellDrawn e0 ->
        (generateStrongSecret e t <> old <-> drawsOf e t <> drawsOf e0 t))
  /\ (forall now e,
        gcmEncrypt (generateStrongSecret e t) = None ->
        (rotateSecret now e name m).1 = (false, m))
  /\ (exists m' lg,
        revokeSecret name m = (true, m', lg)
        /\ (getSecret name m').1 = None
        /\ (forall calls,
              Forall (fun c => ~ storesName name c) calls ->
              (getSecret name (run m' calls)).1 = None)
        /\ (forall calls now e value t' encrypted tg,
              gcmEncrypt value = Some (encrypted, tg) ->
              gcmDecrypt encrypted tg = Some value ->
              (getSecret name
                 (step (run m' calls) (now, OpStore e name value t'))).1
              = Some value)).
Proof.
  intros Hes Hact Hold t. repeat apply conj.
  - intros now e encrypted tg Henc.
    unfold Credentials.rotateSecret, encryptSecret. rewrite Hes. fold t.
    rewrite Henc. eexists _, _, _. split; [done|].
    cbn [secrets scheduleRotation]. rewrite lookup_insert_eq.
    split; [done|]. cbn. repeat (split; [done|]).
    intros Hdec. unfold Credentials.getSecret. cbn. rewrite lookup_insert_eq.
    cbn. rewrite Hact. cbn. unfold decryptSecret. by rewrite Hdec.
  - intros e e0 -> H64 Hhex He He0. split.
    + intros Hne Hd. by apply Hne, generateStrongSecret_draw.
    + intros Hne Heq. by apply Hne, generateStrongSecret_inj.
  - intros now e Henc. unfold Credentials.rotateSecret, encryptSecret.
    rewrite Hes. fold t. by rewrite Henc.
  - unfold revokeSecret. rewrite Hes. eexists _, _. split; [done|].
    assert (Hrev : revoked name
              {| secrets := <[name := {| encryptedValue := encryptedValue es;
                                         iv := iv es; tag := tag es;
                                         metadata :=
                                           {| type := type (metadata es);
                                              createdAt := createdAt (metadata es);
                                              lastRotatedAt := lastRotatedAt (metadata es);
                                              rotationCount := rotationCount (metadata es);
                                              isActive := false;
                                              version := version (metadata es) |} |}]>
                              (secrets m);
                 rotationTimers := base.delete name (rotationTimers m) |}).
    { eexists. cbn. by rewrite lookup_insert_eq. }
    split; [|split].
    + by apply getSecret_revoked.
    + intros calls Hcalls. apply getSecret_revoked. by apply run_revoked.
    + intros calls now e value t' encrypted tg Henc Hdec.
      cbn [Credentials.step]. unfold storeSecret, encryptSecret. rewrite Henc.
      unfold Credentials.getSecret. cbn. rewrite lookup_insert_eq. cbn.
      unfold decryptSecret. by rewrite Hdec.
Qed.

End CredentialsRenewal.

(** The theorem at work on the manager holding the initial signing key,
    once rotated: a second rotation with another draw gives version 3 and
    another value, and a store under the name ends a revocation. *)
Lemma rotation_renews_revocation_lasts_until_store_witness :
  let enc := CredentialsDraws.latin1 in
  let m1 :=
    (Credentials.rotateSecret enc enc enc Credentials.plainEncrypt 1000
       Credentials.sampleEntropy "jwt_primary" Credentials.sampleManager).1.2 in
  (exists m2 lg es2,
      Credentials.rotateSecret enc enc enc Credentials.plainEncrypt 2000
        CredentialsDraws.otherEntropy "jwt_primary" m1 = (true, m2, lg)
      /\ Credentials.secrets m2 !! "jwt_primary" = Some es2
      /\ Credentials.version (Credentials.metadata es2) = 3%N
      /\ Credentials.rotationCount (Credentials.metadata es2) = 2%N
      /\ (Credentials.getSecret Credentials.plainDecrypt "jwt_primary" m2).1
         = Some (enc [8; 42; 255]%N))
  /\ enc [8; 42; 255]%N <> enc [7; 42; 255]%N
  /\ exists m' lg,
      Credentials.revokeSecret "jwt_primary" m1 = (true, m', lg)
      /\ (Credentials.getSecret Credentials.plainDecrypt "jwt_primary" m').1 = None
      /\ (Credentials.getSecret Credentials.plainDecrypt "jwt_primary"
            (Credentials.step enc enc enc Credentials.plainEncrypt m'
               (3000%Z, Credentials.OpStore Credentials.sampleEntropy
                          "jwt_primary" "replacement-key" Credentials.jwt))).1
         = Some "replacement-key".
Proof.
  intros enc m1.
  pose proof (rotation_renews_revocation_lasts_until_store
                enc enc enc Credentials.plainEncrypt Credentials.plainDecrypt
                "jwt_primary" m1 _ (enc [7; 42; 255]%N) eq_refl eq_refl eq_refl)
    as (Hrot & Hfresh & _ & Hrev).
  split; [|split].
  - destruct (Hrot 2000%Z CredentialsDraws.otherEntropy _ _ eq_refl)
      as (m2 & lg & es2 & Hr & Hes2 & Hv & Hc & _ & Hget).
    exists m2, lg, es2. repeat (split; [done|]). by apply Hget.
  - apply (Hfresh CredentialsDraws.otherEntropy Credentials.sampleEntropy eq_refl
             latin1_injective latin1_injective).
    + repeat split; repeat constructor.
    + repeat split; repeat constructor.
    + discriminate.
  - destruct Hrev as (m' & lg & Hr & Hnone & _ & Hstore).
    exists m', lg. split; [done|]. split; [done|].
    by apply (Hstore [] 3000%Z Credentials.sampleEntropy "replacement-key"
                Credentials.jwt "replacement-key" "tag").
Defined.

(** C6 as stated fails for the reads after a revocation: a value stored
    again under the name is returned, the secret being active once more. *)
Lemma revocation_undone_by_store :
  ~ (forall base64 base64url hex gcmEncrypt gcmDecrypt name m es old calls,
       Credentials.secrets m !! name = Some es ->
       Credentials.isActive (Credentials.metadata es) = true ->
       (Credentials.getSecret gcmDecrypt name m).1 = Some old ->
       (Credentials.getSecret gcmDecrypt name
          (Credentials.run base64 base64url hex gcmEncrypt
             (Credentials.revokeSecret name m).1.2 calls)).1 = None).
Proof.
  intros H.
  specialize (H CredentialsDraws.latin1 CredentialsDraws.latin1
                CredentialsDraws.latin1 Credentials.plainEncrypt
                Credentials.plainDecrypt "jwt_primary" Credentials.sampleManager
                _ "initial-signing-key"
                [(2000%Z, Credentials.OpStore Credentials.sampleEntropy
                            "jwt_primary" "replacement-key" Credentials.jwt)]
                eq_refl eq_refl eq_refl).
  vm_compute in H. discriminate H.
Qed.

(** Nor is the rotated value always another one: a rotation that draws
    what the previous one drew stores the same value again. *)
Lemma rotation_may_repeat_value :
  ~ (forall base64 base64url hex gcmEncrypt gcmDecrypt name m es old now e m' lg,
       Credentials.secrets m !! name = Some es ->
       Credentials.isActive (Credentials.metadata es) = true ->
       (Credentials.getSecret gcmDecrypt name m).1 = Some old ->
       Credentials.rotateSecret base64 base64url hex gcmEncrypt now e name m
       = (true, m', lg) ->
       (Credentials.getSecret gcmDecrypt name m').1 <> Some old).
Proof.
  intros H.
  set (enc := CredentialsDraws.latin1).
  set (m1 := (Credentials.rotateSecret enc enc enc Credentials.plainEncrypt 1000
                Credentials.sampleEntropy "jwt_primary"
                Credentials.sampleManager).1.2).
  apply (H enc enc enc Credentials.plainEncrypt Credentials.plainDecrypt
           "jwt_primary" m1 _ (enc [7; 42; 255]%N) 2000%Z Credentials.sampleEntropy
           _ _ eq_refl eq_refl eq_refl eq_refl).
  reflexivity.
Qed.
